(** * reactive-html: signals, effects, batching, computed values,
      reactive wrappers and keyed list reconciliation

    A shallow embedding of the reactive core of the library:
    - [Signal]            (signal.js)
    - [Effect], [EffectTracker]   (effect.js)
    - [BatchScheduler]    (batch-effect.js)
    - [ComputedSignal]    (computed-signal.js)
    - [reactive], [reactiveArray] (reactive.js)
    - [LoopBinding]       (loop-binding.js), [ExpressionEvaluator] (event-binding.js)

    JavaScript objects live in arenas (lists indexed by handle); closures
    that the code stores ([fn], the subscriber callbacks, the unsubscribe
    functions) are represented by the data they capture. The state carries
    a chronological [log] of observable events (a body was invoked, a cell
    was read under tracking, a subscriber was called with its arguments,
    a warning was printed); the log is ghost state and no operation reads it. *)

From Stdlib Require Import ZArith Lia.
From stdpp Require Import base option list gmap strings.

Open Scope Z_scope.
Open Scope nat_scope.

(** ** JavaScript values

    Numbers are modelled by integers (every number the modelled code
    computes with is a length, an index or a counter); fractions, the
    infinities and [NaN] are not values of the model. [VObj] and [VFun]
    carry the address of an object, so that [===] is equality of values. *)

Inductive value :=
| VUndef
| VNull
| VBool (b : bool)
| VNum (n : Z)
| VStr (s : string)
| VObj (a : nat)
| VFun (a : nat).

#[global] Instance value_eq_dec : EqDecision value.
Proof. solve_decision. Defined.

(** [a === b]. On the values of the model it is equality: [NaN], which
    is not strictly equal to itself, is not among them. *)
Definition strict_eq (a b : value) : bool := bool_decide (a = b).

(** ** Cells, callbacks and events *)

(** A handle to a [Signal] object: either a plain signal or a
    [ComputedSignal] (which extends [Signal]). *)
Inductive cell :=
| Plain (x : nat)
| Derived (d : nat).

#[global] Instance cell_eq_dec : EqDecision cell.
Proof. solve_decision. Defined.

(** The arrow function that [Effect.track] passes to [signal.subscribe]:
    it captures [this] (the effect [cb_owner]); [cb_id] is the identity
    of the function object. *)
Record callback := mkCallback { cb_id : nat; cb_owner : nat }.

#[global] Instance callback_eq_dec : EqDecision callback.
Proof. solve_decision. Defined.

(** The function returned by [signal.subscribe(callback)]: it captures the
    signal and the callback. *)
Definition unsubscribe : Type := cell * callback.

Inductive event :=
| EvRun (e : nat)                                   (* EffectTracker.track(e, e.fn) entered *)
| EvRead (who : option nat) (c : cell)              (* value getter of c, EffectTracker.current = who *)
| EvNotify (c : cell) (cb : callback) (newValue oldValue : value)  (* callback(newValue, oldValue) *)
| EvStop (e : nat)                                  (* e.stop() *)
| EvGetter (d : nat)                                (* the getter of derivation d was called *)
| EvError (e : nat)                                 (* the error boundary caught an exception of e.fn *)
| EvWarn (msg : string).                            (* console.warn *)

#[global] Instance event_eq_dec : EqDecision event.
Proof. solve_decision. Defined.

(** ** Bodies

    The code run by an effect ([fn]) or by a derivation ([getter]) is
    JavaScript of the library's user. It is represented by the tree of
    the engine operations it performs: reading a signal's [value], writing
    it, stopping an effect, reading or writing a computed signal's
    [value], returning, throwing a value. [D] is the type of the handles
    of computed signals the code may touch. *)

Inductive body (D : Type) :=
| Ret (v : value)
| Throw (v : value)
| Get (x : nat) (k : value -> body D)
| Put (x : nat) (v : value) (k : body D)
| Stop (e : nat) (k : body D)
| GetC (d : D) (k : value -> body D)
| PutC (d : D) (v : value) (k : body D).

Arguments Ret {D} v.
Arguments Throw {D} v.
Arguments Get {D} x k.
Arguments Put {D} x v k.
Arguments Stop {D} e k.
Arguments GetC {D} d k.
Arguments PutC {D} d v k.

(** A getter reads plain signals only; an effect's body may also read
    computed signals. *)
Definition getter_body : Type := body Empty_set.
Definition effect_body : Type := body nat.

(** ** Objects *)

(** signal.js, class Signal *)
Record signal := mkSignal {
  _value : value;
  _subscribers : list callback;   (* a Set, in insertion order *)
  _id : nat
}.

(** computed-signal.js, class ComputedSignal extends Signal *)
Record computed := mkComputed {
  base : signal;
  getter : getter_body;
  effect : option nat;            (* null until _setupEffect has built it *)
  dirty : bool
}.

(** What [Effect.fn] is: code of the user, or the arrow function that
    [ComputedSignal._setupEffect] builds around the derivation [d]. *)
Inductive effect_fn :=
| FnBody (b : effect_body)
| FnComputed (d : nat).

(** effect.js, class Effect. [own_run] is the own property [run] that
    [_setupEffect] installs on the effect object, shadowing the method:
    [Some d] is [() => { d.dirty = true }]. *)
Record effect_obj := mkEffect {
  fn : effect_fn;
  dependencies : list cell;       (* a Set, in insertion order *)
  cleanups : list unsubscribe;
  active : bool;
  scheduled : bool;
  own_run : option nat
}.

(** The heap of the engine together with the static fields
    [Signal._nextId], [EffectTracker.current], [EffectTracker.stack] and
    the fields of the global [batchScheduler]. [frames] counts the
    callbacks [() => this.flush()] handed to requestAnimationFrame and
    not run yet. *)
Record state := mkState {
  signals : list signal;
  computeds : list computed;
  effects : list effect_obj;
  next_cb : nat;
  _nextId : nat;
  current : option nat;
  stack : list (option nat);
  pendingEffects : list nat;      (* a Set, in insertion order *)
  isScheduled : bool;
  isFlushing : bool;
  frames : nat;
  log : list event
}.

Definition init_state : state :=
  mkState [] [] [] 0 0 None [] [] false false 0 [].

(** *** Field updates *)

Definition set_signals (f : list signal -> list signal) (s : state) : state :=
  mkState (f (signals s)) (computeds s) (effects s) (next_cb s) (_nextId s)
    (current s) (stack s) (pendingEffects s) (isScheduled s) (isFlushing s)
    (frames s) (log s).

Definition set_computeds (f : list computed -> list computed) (s : state) : state :=
  mkState (signals s) (f (computeds s)) (effects s) (next_cb s) (_nextId s)
    (current s) (stack s) (pendingEffects s) (isScheduled s) (isFlushing s)
    (frames s) (log s).

Definition set_effects (f : list effect_obj -> list effect_obj) (s : state) : state :=
  mkState (signals s) (computeds s) (f (effects s)) (next_cb s) (_nextId s)
    (current s) (stack s) (pendingEffects s) (isScheduled s) (isFlushing s)
    (frames s) (log s).

Definition set_next_cb (n : nat) (s : state) : state :=
  mkState (signals s) (computeds s) (effects s) n (_nextId s)
    (current s) (stack s) (pendingEffects s) (isScheduled s) (isFlushing s)
    (frames s) (log s).

Definition set_nextId (n : nat) (s : state) : state :=
  mkState (signals s) (computeds s) (effects s) (next_cb s) n
    (current s) (stack s) (pendingEffects s) (isScheduled s) (isFlushing s)
    (frames s) (log s).

Definition set_tracker (c : option nat) (st : list (option nat)) (s : state) : state :=
  mkState (signals s) (computeds s) (effects s) (next_cb s) (_nextId s)
    c st (pendingEffects s) (isScheduled s) (isFlushing s)
    (frames s) (log s).

Definition set_scheduler (p : list nat) (sch fl : bool) (fr : nat) (s : state) : state :=
  mkState (signals s) (computeds s) (effects s) (next_cb s) (_nextId s)
    (current s) (stack s) p sch fl fr (log s).

Definition emit (ev : event) (s : state) : state :=
  mkState (signals s) (computeds s) (effects s) (next_cb s) (_nextId s)
    (current s) (stack s) (pendingEffects s) (isScheduled s) (isFlushing s)
    (frames s) (log s ++ [ev]).

(** [Set.prototype.add] on an insertion-ordered set *)
Definition set_add {A} `{EqDecision A} (x : A) (l : list A) : list A :=
  if bool_decide (x ∈ l) then l else l ++ [x].

(** [Set.prototype.delete] *)
Definition set_delete {A} `{EqDecision A} (x : A) (l : list A) : list A :=
  filter (fun y => y <> x) l.

Definition upd_signal (f : signal -> signal) (x : nat) (s : state) : state :=
  set_signals (alter f x) s.

Definition upd_computed (f : computed -> computed) (d : nat) (s : state) : state :=
  set_computeds (alter f d) s.

Definition upd_effect (f : effect_obj -> effect_obj) (e : nat) (s : state) : state :=
  set_effects (alter f e) s.

Definition sig_with_value (v : value) (g : signal) : signal :=
  mkSignal v (_subscribers g) (_id g).

Definition sig_with_subscribers (f : list callback -> list callback) (g : signal) : signal :=
  mkSignal (_value g) (f (_subscribers g)) (_id g).

Definition comp_with_base (f : signal -> signal) (c : computed) : computed :=
  mkComputed (f (base c)) (getter c) (effect c) (dirty c).

Definition comp_with_dirty (b : bool) (c : computed) : computed :=
  mkComputed (base c) (getter c) (effect c) b.

Definition comp_with_effect (e : option nat) (c : computed) : computed :=
  mkComputed (base c) (getter c) e (dirty c).

(** The [Signal] part of the object behind a cell handle. *)
Definition cell_signal (c : cell) (s : state) : option signal :=
  match c with
  | Plain x => signals s !! x
  | Derived d => base <$> computeds s !! d
  end.

Definition upd_cell (f : signal -> signal) (c : cell) (s : state) : state :=
  match c with
  | Plain x => upd_signal f x s
  | Derived d => upd_computed (comp_with_base f) d s
  end.

Definition cell_subscribers (c : cell) (s : state) : list callback :=
  match cell_signal c s with
  | Some g => _subscribers g
  | None => []
  end.

Definition eff_with_deps (f : list cell -> list cell) (o : effect_obj) : effect_obj :=
  mkEffect (fn o) (f (dependencies o)) (cleanups o) (active o) (scheduled o) (own_run o).

Definition eff_with_cleanups (f : list unsubscribe -> list unsubscribe) (o : effect_obj) : effect_obj :=
  mkEffect (fn o) (dependencies o) (f (cleanups o)) (active o) (scheduled o) (own_run o).

Definition eff_with_active (b : bool) (o : effect_obj) : effect_obj :=
  mkEffect (fn o) (dependencies o) (cleanups o) b (scheduled o) (own_run o).

Definition eff_with_scheduled (b : bool) (o : effect_obj) : effect_obj :=
  mkEffect (fn o) (dependencies o) (cleanups o) (active o) b (own_run o).

Definition eff_with_own_run (r : option nat) (o : effect_obj) : effect_obj :=
  mkEffect (fn o) (dependencies o) (cleanups o) (active o) (scheduled o) r.

(** ** BatchScheduler (batch-effect.js) *)

(** [requestAnimationFrame(() => this.flush())] *)
Definition requestAnimationFrame (s : state) : state :=
  set_scheduler (pendingEffects s) (isScheduled s) (isFlushing s) (S (frames s)) s.

(** [BatchScheduler.schedule(effect)] *)
Definition schedule (e : nat) (s : state) : state :=
  let s1 := set_scheduler (set_add e (pendingEffects s))
              (isScheduled s) (isFlushing s) (frames s) s in
  if negb (isScheduled s1) && negb (isFlushing s1) then
    requestAnimationFrame
      (set_scheduler (pendingEffects s1) true (isFlushing s1) (frames s1) s1)
  else s1.

(** ** Signal (signal.js) *)

(** [new Signal(initialValue)]: returns the handle of the new object. *)
Definition new_signal (v : value) (s : state) : nat * state :=
  (length (signals s),
   set_nextId (S (_nextId s))
     (set_signals (fun l => l ++ [mkSignal v [] (_nextId s)]) s)).

(** [signal.subscribe(callback)]; the result is [(c, cb)]. *)
Definition subscribe (c : cell) (cb : callback) (s : state) : state :=
  upd_cell (sig_with_subscribers (set_add cb)) c s.

(** Calling the function that [subscribe] returned. *)
Definition call_unsubscribe (u : unsubscribe) (s : state) : state :=
  upd_cell (sig_with_subscribers (set_delete u.2)) u.1 s.

(** The callback built in [Effect.track]:
    [() => { if (this.active && !this.scheduled) { this.scheduled = true;
    batchScheduler.schedule(this); } }]. It ignores its arguments and
    cannot throw. *)
Definition call_callback (cb : callback) (s : state) : state :=
  match effects s !! cb_owner cb with
  | Some o =>
      if active o && negb (scheduled o) then
        schedule (cb_owner cb) (upd_effect (eff_with_scheduled true) (cb_owner cb) s)
      else s
  | None => s
  end.

(** [signal._notify(newValue, oldValue)]: iterates over a snapshot of the
    subscriber set. *)
Definition _notify (c : cell) (newValue oldValue : value) (s : state) : state :=
  foldl (fun s cb => call_callback cb (emit (EvNotify c cb newValue oldValue) s))
        s (cell_subscribers c s).

(** ** Effect (effect.js) *)

(** [Effect.track(signal)] *)
Definition track (e : nat) (c : cell) (s : state) : state :=
  match effects s !! e with
  | Some o =>
      if bool_decide (c ∈ dependencies o) then s
      else
        let s1 := upd_effect (eff_with_deps (set_add c)) e s in
        let cb := mkCallback (next_cb s1) e in
        let s2 := subscribe c cb (set_next_cb (S (next_cb s1)) s1) in
        upd_effect (eff_with_cleanups (fun l => l ++ [(c, cb)])) e s2
  | None => s
  end.

(** [Effect.cleanup()] *)
Definition cleanup (e : nat) (s : state) : state :=
  match effects s !! e with
  | Some o =>
      upd_effect (eff_with_cleanups (fun _ => []))
        e (foldl (fun s u => call_unsubscribe u s) s (cleanups o))
  | None => s
  end.

(** [Effect.stop()] *)
Definition stop (e : nat) (s : state) : state :=
  match effects s !! e with
  | Some _ =>
      let s1 := emit (EvStop e) (upd_effect (eff_with_active false) e s) in
      let s2 := cleanup e s1 in
      upd_effect (eff_with_deps (fun _ => [])) e s2
  | None => s
  end.

(** The part of the value getters that registers the read with the
    running effect: [if (EffectTracker.current)
    EffectTracker.current.track(this)]. *)
Definition track_current (c : cell) (s : state) : state :=
  let s1 := emit (EvRead (current s) c) s in
  match current s1 with
  | Some e => track e c s1
  | None => s1
  end.

(** [get value()] of a plain signal *)
Definition signal_get (x : nat) (s : state) : option value * state :=
  match signals s !! x with
  | Some _ =>
      let s1 := track_current (Plain x) s in
      (_value <$> signals s1 !! x, s1)
  | None => (None, s)
  end.

(** [set value(newValue)] of a plain signal *)
Definition signal_set (x : nat) (newValue : value) (s : state) : state :=
  match signals s !! x with
  | Some g =>
      if strict_eq (_value g) newValue then s
      else
        let oldValue := _value g in
        _notify (Plain x) newValue oldValue (upd_signal (sig_with_value newValue) x s)
  | None => s
  end.

(** ** Running user code

    [exec readC writeC b s] runs the body [b]; the result is [None] when
    the body ends by an exception. Using a handle of no object is the
    TypeError of JavaScript. *)

(** [null] and [undefined], the values without properties: reading
    [v.message] throws a TypeError for them and for no other value. *)
Definition nullish (v : value) : bool :=
  match v with
  | VUndef | VNull => true
  | _ => false
  end.

Section Exec.
Context {D : Type}.
Variable readC : D -> state -> option value * state.
Variable writeC : D -> value -> state -> state.
(** Whether reading the computed signal [d] ends by an exception that
    is [null] or [undefined]. *)
Variable nullishC : D -> state -> bool.

Fixpoint exec (b : body D) (s : state) : option value * state :=
  match b with
  | Ret v => (Some v, s)
  | Throw _ => (None, s)
  | Get x k =>
      match signal_get x s with
      | (Some v, s1) => exec (k v) s1
      | (None, s1) => (None, s1)
      end
  | Put x v k =>
      match signals s !! x with
      | Some _ => exec k (signal_set x v s)
      | None => (None, s)
      end
  | Stop e k =>
      match effects s !! e with
      | Some _ => exec k (stop e s)
      | None => (None, s)
      end
  | GetC d k =>
      match readC d s with
      | (Some v, s1) => exec (k v) s1
      | (None, s1) => (None, s1)
      end
  | PutC d v k => exec k (writeC d v s)
  end.

(** Whether the exception by which [b] ends is [null] or [undefined]:
    [false] when [b] returns, when it throws another value, and when it
    ends by the TypeError of a handle of no object. *)
Fixpoint exec_nullish (b : body D) (s : state) : bool :=
  match b with
  | Ret _ => false
  | Throw v => nullish v
  | Get x k =>
      match signal_get x s with
      | (Some v, s1) => exec_nullish (k v) s1
      | (None, _) => false
      end
  | Put x v k =>
      match signals s !! x with
      | Some _ => exec_nullish k (signal_set x v s)
      | None => false
      end
  | Stop e k =>
      match effects s !! e with
      | Some _ => exec_nullish k (stop e s)
      | None => false
      end
  | GetC d k =>
      match readC d s with
      | (Some v, s1) => exec_nullish (k v) s1
      | (None, _) => nullishC d s
      end
  | PutC d v k => exec_nullish k (writeC d v s)
  end.
End Exec.

(** Running a getter: it has no handle of a computed signal. *)
Definition exec_getter (b : getter_body) (s : state) : option value * state :=
  exec (fun d _ => match d : Empty_set with end)
       (fun d _ _ => match d : Empty_set with end) b s.

Definition exec_getter_nullish (b : getter_body) (s : state) : bool :=
  exec_nullish (fun d _ => match d : Empty_set with end)
               (fun d _ _ => match d : Empty_set with end)
               (fun d _ => match d : Empty_set with end) b s.

(** ** ComputedSignal (computed-signal.js) *)

(** The statements shared by the arrow function of [_setupEffect] and by
    [_recompute]: call the getter, store and notify when the value
    changed, clear [dirty]. [false] when the getter threw. Note the
    arguments of [_notify]: [this._value] is read after the assignment. *)
Definition evaluate_getter (d : nat) (s : state) : bool * state :=
  match computeds s !! d with
  | Some c =>
      match exec_getter (getter c) (emit (EvGetter d) s) with
      | (Some newValue, s1) =>
          let cur := default VUndef (_value <$> cell_signal (Derived d) s1) in
          let s2 :=
            if negb (strict_eq cur newValue) then
              let s' := upd_cell (sig_with_value newValue) (Derived d) s1 in
              let this_value := default VUndef (_value <$> cell_signal (Derived d) s') in
              _notify (Derived d) newValue this_value s'
            else s1 in
          (true, upd_computed (comp_with_dirty false) d s2)
      | (None, s1) => (false, s1)
      end
  | None => (false, s)
  end.

(** The getter is called outside of any [try]: what it throws is what
    the statements around it throw. *)
Definition evaluate_getter_nullish (d : nat) (s : state) : bool :=
  match computeds s !! d with
  | Some c => exec_getter_nullish (getter c) (emit (EvGetter d) s)
  | None => false
  end.

(** [ComputedSignal._recompute()]. Its first statement rebinds
    [this.effect.run], which throws when [this.effect] is null and
    changes nothing otherwise. *)
Definition _recompute (d : nat) (s : state) : bool * state :=
  match computeds s !! d with
  | Some c =>
      match effect c with
      | Some _ => evaluate_getter d s
      | None => (false, s)
      end
  | None => (false, s)
  end.

(** The exception of [this.effect.run] when [this.effect] is null is a
    TypeError. *)
Definition recompute_nullish (d : nat) (s : state) : bool :=
  match computeds s !! d with
  | Some c =>
      match effect c with
      | Some _ => evaluate_getter_nullish d s
      | None => false
      end
  | None => false
  end.

(** [get value()] of a computed signal *)
Definition computed_get (d : nat) (s : state) : option value * state :=
  match computeds s !! d with
  | Some c =>
      let '(ok, s1) := if dirty c then _recompute d s else (true, s) in
      if ok then
        let s2 := track_current (Derived d) s1 in
        (_value <$> cell_signal (Derived d) s2, s2)
      else (None, s1)
  | None => (None, s)
  end.

(** [set value(newValue)] of a computed signal: a warning, nothing else. *)
Definition computed_set (d : nat) (newValue : value) (s : state) : state :=
  emit (EvWarn "Cannot set value of computed property. Computed values are read-only.") s.

(** [get value()] has no [try] either. *)
Definition computed_get_nullish (d : nat) (s : state) : bool :=
  match computeds s !! d with
  | Some c => if dirty c then recompute_nullish d s else false
  | None => false
  end.

Definition exec_body (b : effect_body) (s : state) : option value * state :=
  exec computed_get computed_set b s.

Definition exec_body_nullish (b : effect_body) (s : state) : bool :=
  exec_nullish computed_get computed_set computed_get_nullish b s.

(** ** EffectTracker and Effect.run *)

(** Calling [effect.fn]. *)
Definition call_fn (e : nat) (f : effect_fn) (s : state) : bool * state :=
  match f with
  | FnBody b =>
      let '(r, s1) := exec_body b s in (bool_decide (is_Some r), s1)
  | FnComputed d => evaluate_getter d s
  end.

(** Whether the exception of [effect.fn] is [null] or [undefined]. *)
Definition call_fn_nullish (e : nat) (f : effect_fn) (s : state) : bool :=
  match f with
  | FnBody b => exec_body_nullish b s
  | FnComputed d => evaluate_getter_nullish d s
  end.

(** [EffectTracker.track(effect, fn)]: the [finally] block restores
    [current] whether or not [fn] threw. *)
Definition tracker_track (e : nat) (f : effect_fn) (s : state) : bool * state :=
  let previousEffect := current s in
  let s1 := set_tracker (Some e) (stack s ++ [previousEffect]) s in
  let '(ok, s2) := call_fn e f (emit (EvRun e) s1) in
  (ok, set_tracker previousEffect (removelast (stack s2)) s2).

(** [try { return fn() } finally { ... }] throws what [fn] throws. *)
Definition tracker_track_nullish (e : nat) (f : effect_fn) (s : state) : bool :=
  call_fn_nullish e f
    (emit (EvRun e) (set_tracker (Some e) (stack s ++ [current s]) s)).

(** The statements of [Effect.run] before the body is called:
    [this.scheduled = false; this.cleanup(); this.dependencies.clear()]. *)
Definition run_prologue (e : nat) (s : state) : state :=
  let s1 := upd_effect (eff_with_scheduled false) e s in
  let s2 := cleanup e s1 in
  upd_effect (eff_with_deps (fun _ => [])) e s2.

(** The method [Effect.prototype.run]. The error boundary
    ([GlobalErrorHandler.wrap], with the default options) catches what
    [EffectTracker.track] throws and hands it to [_handleError], which
    logs it first: [EvError] is this entry of the boundary.
    [run_method] is the state in which the call ends, by a return or by
    an exception; [run_method_throws] tells which. *)
Definition run_method (e : nat) (s : state) : state :=
  match effects s !! e with
  | Some o =>
      if negb (active o) then s
      else
        let s3 := run_prologue e s in
        (* safeRun = GlobalErrorHandler.wrap(() => EffectTracker.track(this, this.fn)) *)
        let '(ok, s4) := tracker_track e (fn o) s3 in
        if ok then s4 else emit (EvError e) s4
  | None => s
  end.

(** Whether [Effect.prototype.run] ends by an exception. [_logError]
    reads [errorInfo.error.message] outside of any [try]: when the
    exception caught by the boundary is [null] or [undefined] this is a
    TypeError, which leaves the boundary and [run]. Any other exception
    is logged and handled, and [run] returns. *)
Definition run_method_throws (e : nat) (s : state) : bool :=
  match effects s !! e with
  | Some o => active o && tracker_track_nullish e (fn o) (run_prologue e s)
  | None => false
  end.

(** [effect.run()]: the own property when there is one, the method
    otherwise. *)
Definition run (e : nat) (s : state) : state :=
  match effects s !! e with
  | Some o =>
      match own_run o with
      | Some d => upd_computed (comp_with_dirty true) d s
      | None => run_method e s
      end
  | None => s
  end.

(** Whether [effect.run()] ends by an exception: the own property
    [() => { d.dirty = true }] never does. *)
Definition run_throws (e : nat) (s : state) : bool :=
  match effects s !! e with
  | Some o =>
      match own_run o with
      | Some _ => false
      | None => run_method_throws e s
      end
  | None => false
  end.

(** [new Effect(fn)]: the state in which the constructor ends, and the
    handle of the object under construction. *)
Definition new_effect (f : effect_fn) (s : state) : nat * state :=
  let e := length (effects s) in
  (e, run_method e (set_effects (fun l => l ++ [mkEffect f [] [] true false None]) s)).

(** Whether [new Effect(fn)] ends by an exception, that of its last
    statement [this.run()]. *)
Definition new_effect_throws (f : effect_fn) (s : state) : bool :=
  run_method_throws (length (effects s))
    (set_effects (fun l => l ++ [mkEffect f [] [] true false None]) s).

(** [new ComputedSignal(getter)]. When [new Effect] throws in
    [_setupEffect], so does the constructor: [this.effect] stays null
    and the effect keeps the method [run]. *)
Definition new_computed (g : getter_body) (s : state) : nat * state :=
  let d := length (computeds s) in
  let s1 := set_nextId (S (_nextId s))
              (set_computeds
                 (fun l => l ++ [mkComputed (mkSignal VUndef [] (_nextId s)) g None true]) s) in
  let '(e, s2) := new_effect (FnComputed d) s1 in
  if new_effect_throws (FnComputed d) s1 then (d, s2)
  else
    let s3 := upd_computed (comp_with_effect (Some e)) d s2 in
    (d, upd_effect (eff_with_own_run (Some d)) e s3).

Definition new_computed_throws (g : getter_body) (s : state) : bool :=
  new_effect_throws (FnComputed (length (computeds s)))
    (set_nextId (S (_nextId s))
       (set_computeds
          (fun l => l ++ [mkComputed (mkSignal VUndef [] (_nextId s)) g None true]) s)).

(** The callback of [effects.forEach] in [flush]:
    [effect => { if (effect.active) effect.run(); }] *)
Definition flush_step (s : state) (e : nat) : state :=
  match effects s !! e with
  | Some o => if active o then run e s else s
  | None => s
  end.

Definition flush_step_throws (s : state) (e : nat) : bool :=
  match effects s !! e with
  | Some o => active o && run_throws e s
  | None => false
  end.

(** [effects.forEach(...)] in [flush]: the exception of a callback ends
    the loop. [false] when it ended so. *)
Fixpoint flush_loop (l : list nat) (s : state) : bool * state :=
  match l with
  | [] => (true, s)
  | e :: l' =>
      if flush_step_throws s e then (false, flush_step s e)
      else flush_loop l' (flush_step s e)
  end.

(** [BatchScheduler.flush()]. There is no [finally]: when the loop
    throws, the statements after it are not run, and [isFlushing] stays
    set. *)
Definition flush (s : state) : state :=
  if isFlushing s then s
  else
    let s1 := set_scheduler (pendingEffects s) false true (frames s) s in
    let effects_ := pendingEffects s1 in
    let s2 := set_scheduler [] (isScheduled s1) (isFlushing s1) (frames s1) s1 in
    let '(ok, s3) := flush_loop effects_ s2 in
    if ok then
      let s4 := set_scheduler (pendingEffects s3) (isScheduled s3) false (frames s3) s3 in
      if bool_decide (0 < length (pendingEffects s4)) && negb (isScheduled s4) then
        requestAnimationFrame
          (set_scheduler (pendingEffects s4) true (isFlushing s4) (frames s4) s4)
      else s4
    else s3.

(** [BatchScheduler.flushSync()] *)
Definition flushSync (s : state) : state := flush s.

(** The host runs one callback registered with requestAnimationFrame. *)
Definition animation_frame (s : state) : state :=
  match frames s with
  | S n => flush (set_scheduler (pendingEffects s) (isScheduled s) (isFlushing s) n s)
  | O => s
  end.

(** ** Predicates on bodies and states used by the statements *)

(** [stops_only P b]: every [effect.stop()] in [b] is on an effect of [P]. *)
Fixpoint stops_only {D} (P : nat -> Prop) (b : body D) : Prop :=
  match b with
  | Ret _ | Throw _ => True
  | Get _ k | GetC _ k => forall v, stops_only P (k v)
  | Put _ _ k | PutC _ _ k => stops_only P k
  | Stop e k => P e /\ stops_only P k
  end.

(** No [throw] of [b] throws [null] or [undefined]. *)
Fixpoint throws_objects {D} (b : body D) : Prop :=
  match b with
  | Ret _ => True
  | Throw v => nullish v = false
  | Get _ k | GetC _ k => forall v, throws_objects (k v)
  | Put _ _ k | PutC _ _ k | Stop _ k => throws_objects k
  end.

Definition effect_active (e : nat) (s : state) : bool :=
  default false (active <$> effects s !! e).

Definition effect_scheduled (e : nat) (s : state) : bool :=
  default false (scheduled <$> effects s !! e).

(** The effect [e] has been stopped. *)
Definition inactive (e : nat) (s : state) : Prop :=
  exists o, effects s !! e = Some o /\ active o = false.

(** [e] holds an edge to the cell [c]: one of the subscribers of [c] is
    a callback of [e]. *)
Definition subscribed (e : nat) (c : cell) (s : state) : Prop :=
  exists cb, cb ∈ cell_subscribers c s /\ cb_owner cb = e.

(** The events logged since the state [s0]. *)
Definition log_since (s0 s : state) : list event :=
  drop (length (log s0)) (log s).

(** How often the body of [e] was invoked. *)
Definition run_count (e : nat) (l : list event) : nat :=
  length (filter (fun ev => ev = EvRun e) l).

(** No invocation of the body of [e] is logged after a call of
    [e.stop()]. *)
Definition no_run_after_stop (e : nat) (l : list event) : Prop :=
  forall l1 l2, l = l1 ++ EvStop e :: l2 -> EvRun e ∉ l2.

(** ** Programs of the library's user

    What code outside of any effect can do with the engine, one call
    after the other: constructing signals, effects and derivations,
    reading and writing them, [effect.stop()], [effect.run()],
    [flushSync()], and the host running a frame callback. A call that
    ends by an exception leaves the state it reached, and the program
    goes on with the next call, as when the user wraps each call in a
    [try]. Two calls of the library are not among them:
    [signal.subscribe(callback)] with a callback of the user, and
    [dispose()], which are functions on states of their own ([dispose],
    [computed_dispose]). A statement over the programs of [op] is a
    statement about code that makes neither call. *)
Inductive op :=
| NewSignal (v : value)
| NewEffect (b : effect_body)
| NewComputed (g : getter_body)
| Read (x : nat)
| Write (x : nat) (v : value)
| ReadC (d : nat)
| WriteC (d : nat) (v : value)
| StopEffect (e : nat)
| RunEffect (e : nat)
| FlushSync
| AnimationFrame.

Definition apply_op (s : state) (o : op) : state :=
  match o with
  | NewSignal v => (new_signal v s).2
  | NewEffect b => (new_effect (FnBody b) s).2
  | NewComputed g => (new_computed g s).2
  | Read x => (signal_get x s).2
  | Write x v => signal_set x v s
  | ReadC d => (computed_get d s).2
  | WriteC d v => computed_set d v s
  | StopEffect e => stop e s
  | RunEffect e => run e s
  | FlushSync => flushSync s
  | AnimationFrame => animation_frame s
  end.

Definition run_ops (ops : list op) (s : state) : state := foldl apply_op s ops.

(** ** A small program used as concrete input

    Three signals [flag], [a], [b] (handles 0, 1, 2) and the body
    [() => flag.value ? a.value : b.value]. *)
Definition cond_body {D} : body D :=
  Get 0 (fun f =>
    match f with
    | VBool true => Get 1 (fun v => Ret v)
    | _ => Get 2 (fun v => Ret v)
    end).

Definition three_signals : state :=
  run_ops [NewSignal (VBool true); NewSignal (VNum 1); NewSignal (VNum 2)] init_state.

(** The state after [new Effect(cond_body)]; the effect has handle 0. *)
Definition cond_effect_state : state :=
  run_ops [NewEffect cond_body] three_signals.

(** The sizes of the three arenas. *)
Definition shape (s : state) : nat * nat * nat :=
  (length (signals s), length (computeds s), length (effects s)).

(** ** Dependency edges *)

Definition active_of (e : nat) (s : state) : option bool :=
  active <$> effects s !! e.

(** The dependency set and the unsubscribe functions of [e]. *)
Definition edges_of (e : nat) (s : state) : option (list cell * list unsubscribe) :=
  (fun o => (dependencies o, cleanups o)) <$> effects s !! e.

(** Every subscriber of a cell is a callback whose unsubscribe function
    its effect holds, and an effect only holds unsubscribe functions of
    its own callbacks. *)
Definition edges_owned (s : state) : Prop :=
  (forall c cb, cb ∈ cell_subscribers c s ->
     exists o, effects s !! cb_owner cb = Some o /\ (c, cb) ∈ cleanups o)
  /\ (forall e o c cb, effects s !! e = Some o -> (c, cb) ∈ cleanups o -> cb_owner cb = e).

(** The invariant of a run of the body of [e], for the events [l] logged
    since the body was entered: [e] is the running effect, unsubscribe
    functions are held by the owners of their callbacks, the dependency
    set of [e] only has cells [e] is subscribed to, and [e] is subscribed
    to exactly the cells whose read was logged. *)
Definition tracking (e : nat) (l0 : list event) (s : state) : Prop :=
  current s = Some e
  /\ (forall e' d cl c cb, edges_of e' s = Some (d, cl) -> (c, cb) ∈ cl -> cb_owner cb = e')
  /\ (forall d cl c, edges_of e s = Some (d, cl) -> c ∈ d -> subscribed e c s)
  /\ exists l, log s = l0 ++ l /\ forall c, subscribed e c s <-> EvRead (Some e) c ∈ l.

(** [cond_effect_state] after [flag.value = false]: the effect is
    scheduled and waits in the pending set. *)
Definition cond_pending_state : state :=
  run_ops [Write 0 (VBool false)] cond_effect_state.

(** The code held by the store: [fn] and the own property [run] of
    every effect, and [getter] of every derivation. *)
Definition code_of (s : state) : list (effect_fn * option nat) * list getter_body :=
  ((fun o => (fn o, own_run o)) <$> effects s, getter <$> computeds s).

(** No code in the store other than the body of [e] itself stops [e]. *)
Definition no_stopper (e : nat) (code : list (effect_fn * option nat) * list getter_body) : Prop :=
  (forall d g, code.2 !! d = Some g -> stops_only (fun e' => e' <> e) g)
  /\ (forall e' b r, code.1 !! e' = Some (FnBody b, r) -> e' <> e ->
        stops_only (fun e' => e' <> e) b).

(** No code in the store throws [null] or [undefined]: the error
    boundary handles every exception of an effect. *)
Definition errors_handled (code : list (effect_fn * option nat) * list getter_body) : Prop :=
  (forall d g, code.2 !! d = Some g -> throws_objects g)
  /\ (forall e b r, code.1 !! e = Some (FnBody b, r) -> throws_objects b).

(** The getters of the store throw neither [null] nor [undefined]. *)
Definition getters_handled (s : state) : Prop :=
  forall d g, (code_of s).2 !! d = Some g -> throws_objects g.

(** The body of [f] throws neither [null] nor [undefined]. *)
Definition fn_handled (f : effect_fn) : Prop :=
  match f with
  | FnBody b => throws_objects b
  | FnComputed _ => True
  end.

(** The same for the code that a program brings. *)
Definition op_handled (o : op) : Prop :=
  match o with
  | NewEffect b => throws_objects b
  | NewComputed g => throws_objects g
  | _ => True
  end.

(** [signal.value = v] for each [(signal, v)] of a list, in order. *)
Definition write_all (ws : list (nat * value)) (s : state) : state :=
  foldl (fun s w => signal_set w.1 w.2 s) s ws.

(** Three numeric signals [a], [b], [c] (handles 0, 1, 2) and one effect
    (handle 0) that reads all of them:
    [() => a.value + b.value + c.value]. *)
Definition num_add (u v : value) : value :=
  match u, v with
  | VNum m, VNum n => VNum (m + n)
  | _, _ => VUndef
  end.

Definition sum_body : effect_body :=
  Get 0 (fun a => Get 1 (fun b => Get 2 (fun c => Ret (num_add (num_add a b) c)))).

Definition sum_state : state :=
  run_ops [NewSignal (VNum 1); NewSignal (VNum 2); NewSignal (VNum 3);
           NewEffect sum_body] init_state.

(** ** Derivations used as concrete input *)

(** [computed(() => flag.value ? a.value : b.value)] over
    [three_signals]: the derivation has handle 0, its effect handle 0. *)
Definition derived_state : state :=
  run_ops [NewComputed cond_body] three_signals.

(** [flag.value = false], then a flush: the effect of the derivation has
    run and the derivation is dirty. *)
Definition derived_dirty_state : state :=
  run_ops [Write 0 (VBool false); FlushSync] derived_state.

(** The same with an effect (handle 1) that reads the derivation. *)
Definition observed_dirty_state : state :=
  run_ops [NewComputed cond_body; NewEffect (GetC 0 (fun v => Ret v));
           Write 0 (VBool false); FlushSync] three_signals.

(** An event other than the notification of a subscriber of a
    derivation. *)
Definition not_derived_notify (ev : event) : Prop :=
  match ev with
  | EvNotify (Derived _) _ _ _ => False
  | _ => True
  end.

(** [derived_dirty_state] after the derivation was read, outside of any
    effect. *)
Definition derived_read_state : state :=
  run_ops [ReadC 0] derived_dirty_state.

(** * Reactive wrappers (reactive.js)

    Objects live in a heap; a [VObj a] is a reference to the object at
    address [a]. A proxy is an object of its own, with a target and a
    handler; the handler of an array proxy is a closure over the three
    signals of [reactiveArray]. *)

Inductive handler :=
| HObject                                   (* the handler built by [reactive] *)
| HArray (changeSignal lengthSignal versionSignal : nat).  (* by [reactiveArray] *)

Inductive obj :=
| OPlain (props : gmap string value)
| OArray (elems : list value) (props : gmap string value)
| OProxy (target : nat) (h : handler)
(* the change events written to [changeSignal] *)
| OChange (type method : string) (args : list value) (oldLength newLength timestamp : Z)
| OUpdate (index : option Z) (oldValue newValue : value) (timestamp : Z).

(** The state of the module: the engine, the heap, the three WeakMaps of
    [ReactiveModel], and what [Date.now()] answers. *)
Record rstate := mkRState {
  core : state;
  heap : list obj;
  _reactiveMap : gmap nat nat;
  _rawMap : gmap nat nat;
  _signalsMap : gmap nat (gmap string cell);
  now : Z
}.

Definition init_rstate : rstate := mkRState init_state [] ∅ ∅ ∅ 0.

Definition set_core (c : state) (rs : rstate) : rstate :=
  mkRState c (heap rs) (_reactiveMap rs) (_rawMap rs) (_signalsMap rs) (now rs).

Definition set_heap (h : list obj) (rs : rstate) : rstate :=
  mkRState (core rs) h (_reactiveMap rs) (_rawMap rs) (_signalsMap rs) (now rs).

Definition set_maps (r w : gmap nat nat) (rs : rstate) : rstate :=
  mkRState (core rs) (heap rs) r w (_signalsMap rs) (now rs).

Definition set_signalsMap (m : gmap nat (gmap string cell)) (rs : rstate) : rstate :=
  mkRState (core rs) (heap rs) (_reactiveMap rs) (_rawMap rs) m (now rs).

(** Allocation of a new object. *)
Definition alloc (o : obj) (rs : rstate) : nat * rstate :=
  (length (heap rs), set_heap (heap rs ++ [o]) rs).

(** [Array.isArray(v)]: it looks through proxies. The fuel bounds the
    length of the chain of targets. *)
Fixpoint is_array_at (fuel : nat) (h : list obj) (a : nat) : bool :=
  match fuel with
  | O => false
  | S fuel =>
      match h !! a with
      | Some (OArray _ _) => true
      | Some (OProxy t _) => is_array_at fuel h t
      | _ => false
      end
  end.

Definition isArray (v : value) (rs : rstate) : bool :=
  match v with
  | VObj a => is_array_at (S (length (heap rs))) (heap rs) a
  | _ => false
  end.

(** [typeof v === 'object'] *)
Definition typeof_object (v : value) : bool :=
  match v with
  | VObj _ | VNull => true
  | _ => false
  end.

(** [ReactiveModel._reactiveMap.get(v)]; only objects are keys, and no
    function is ever made one. *)
Definition reactiveMap_get (v : value) (rs : rstate) : option nat :=
  match v with
  | VObj a => _reactiveMap rs !! a
  | _ => None
  end.

(** [ReactiveModel._getSignals(target)] *)
Definition _getSignals (target : nat) (rs : rstate) : gmap string cell * rstate :=
  match _signalsMap rs !! target with
  | Some signals => (signals, rs)
  | None => (∅, set_signalsMap (<[target := ∅]> (_signalsMap rs)) rs)
  end.

(** [signals.set(key, signal)] on the Map of [target]. *)
Definition signals_set (target : nat) (key : string) (c : cell) (rs : rstate) : rstate :=
  set_signalsMap
    (<[target := <[key := c]> (default ∅ (_signalsMap rs !! target))]> (_signalsMap rs)) rs.

(** [signals.get(key)], or [new Signal(v)] stored under [key] when there
    is none. Only plain signals are stored under the keys of arrays. *)
Definition signal_or_new (target : nat) (key : string) (v : value) (rs : rstate)
    : nat * rstate :=
  match default ∅ (_signalsMap rs !! target) !! key with
  | Some (Plain x) => (x, rs)
  | _ =>
      let '(x, c) := new_signal v (core rs) in
      (x, signals_set target key (Plain x) (set_core c rs))
  end.

(** [arr.length], read through the get traps of the proxies around the
    array: each trap reads its [lengthSignal.value] (a tracked read) and
    forwards to its target. [None] when [a] is not an array. *)
Fixpoint length_get (fuel : nat) (a : nat) (rs : rstate) : option Z * rstate :=
  match fuel with
  | O => (None, rs)
  | S fuel =>
      match heap rs !! a with
      | Some (OArray elems _) => (Some (Z.of_nat (length elems)), rs)
      | Some (OProxy t (HArray _ ls _)) =>
          length_get fuel t (set_core (signal_get ls (core rs)).2 rs)
      | Some (OProxy t HObject) =>
          (* [reactive] never builds such a proxy around an array *)
          length_get fuel t rs
      | _ => (None, rs)
      end
  end.

(** [reactiveArray(arr)] *)
Definition reactiveArray (arr : nat) (rs : rstate) : value * rstate :=
  let '(_, rs1) := _getSignals arr rs in
  let '(changeSignal, rs2) := signal_or_new arr "__arrayChange" VNull rs1 in
  let '(lengthSignal, rs3) :=
    match default ∅ (_signalsMap rs2 !! arr) !! "length" with
    | Some (Plain x) => (x, rs2)
    | _ =>
        let '(len, rs') := length_get (S (length (heap rs2))) arr rs2 in
        signal_or_new arr "length" (from_option VNum VUndef len) rs'
    end in
  let '(versionSignal, rs4) := signal_or_new arr "__version" (VNum 0) rs3 in
  let '(proxy, rs5) := alloc (OProxy arr (HArray changeSignal lengthSignal versionSignal)) rs4 in
  (VObj proxy,
   set_maps (<[arr := proxy]> (_reactiveMap rs5)) (<[proxy := arr]> (_rawMap rs5)) rs5).

(** [reactive(target)] *)
Definition reactive (target : value) (rs : rstate) : value * rstate :=
  if isArray target rs then
    match target with
    | VObj a => reactiveArray a rs
    | _ => (target, rs)
    end
  else
    match reactiveMap_get target rs with
    | Some proxy => (VObj proxy, rs)
    | None =>
        if negb (typeof_object target) || bool_decide (target = VNull) then (target, rs)
        else
          match target with
          | VObj a =>
              let '(_, rs1) := _getSignals a rs in
              let '(proxy, rs2) := alloc (OProxy a HObject) rs1 in
              (VObj proxy,
               set_maps (<[a := proxy]> (_reactiveMap rs2))
                        (<[proxy := a]> (_rawMap rs2)) rs2)
          | _ => (target, rs)
          end
    end.

(** ** The traps of an array proxy *)

(** The keys of the properties of an array. A key that is neither
    ["length"] nor an array index carries what [isNaN] and [parseInt]
    answer for it: [num = None] when [isNaN(name)] holds, [Some p] when
    it does not, with [p] the integer [parseInt(name)], if any. *)
Inductive key :=
| KLength
| KIndex (i : nat)
| KOther (name : string) (num : option (option Z)).

(** The calls of the seven intercepted methods with their arguments.
    [CSort f le]: [f] is the comparator function, if one is passed, and
    [le] the order the call sorts by (that of the comparator, or the
    default order of the string conversions). *)
Inductive method_call :=
| CPush (items : list value)
| CPop
| CShift
| CUnshift (items : list value)
| CSplice (start : Z) (deleteCount : option Z) (items : list value)
| CSort (f : option nat) (le : value -> value -> bool)
| CReverse.

Definition method_name (c : method_call) : string :=
  match c with
  | CPush _ => "push"
  | CPop => "pop"
  | CShift => "shift"
  | CUnshift _ => "unshift"
  | CSplice _ _ _ => "splice"
  | CSort _ _ => "sort"
  | CReverse => "reverse"
  end.

(** The table [mutationMethods] of the get trap. *)
Definition mutationMethods (c : method_call) : string :=
  match c with
  | CPush _ | CUnshift _ => "add"
  | CPop | CShift => "remove"
  | CSplice _ _ _ => "splice"
  | CSort _ _ | CReverse => "reorder"
  end.

(** The array [args] of the call. *)
Definition call_args (c : method_call) : list value :=
  match c with
  | CPush items | CUnshift items => items
  | CPop | CShift | CReverse => []
  | CSplice start dc items =>
      VNum start :: match dc with
                    | Some n => VNum n :: items
                    | None => []
                    end
  | CSort f _ => match f with Some a => [VFun a] | None => [] end
  end.

Fixpoint insert_sorted (le : value -> value -> bool) (x : value) (l : list value)
    : list value :=
  match l with
  | [] => [x]
  | y :: l' => if le x y then x :: l else y :: insert_sorted le x l'
  end.

(** A stable sort by [le]. *)
Definition sort_by (le : value -> value -> bool) (l : list value) : list value :=
  foldr (insert_sorted le) [] l.

(** Where [splice] starts and how many elements it removes. *)
Definition splice_range (len start : Z) (deleteCount : option Z) : nat * nat :=
  let from := (if start <? 0 then Z.max (len + start) 0 else Z.min start len)%Z in
  let count :=
    match deleteCount with
    | Some n => Z.min (Z.max n 0) (len - from)
    | None => (len - from)%Z
    end in
  (Z.to_nat from, Z.to_nat count).

(** [Array.prototype[method].apply(target, args)] on the elements of a
    raw array: the new elements and what the call returns, [inl v] for a
    value and [inr l] for a new array of the elements [l]; [None] for
    the array itself. *)
Definition apply_method (c : method_call) (elems : list value)
    : list value * option (value + list value) :=
  match c with
  | CPush items =>
      (elems ++ items, Some (inl (VNum (Z.of_nat (length (elems ++ items))))))
  | CPop =>
      match last elems with
      | Some v => (removelast elems, Some (inl v))
      | None => ([], Some (inl VUndef))
      end
  | CShift =>
      match elems with
      | v :: rest => (rest, Some (inl v))
      | [] => ([], Some (inl VUndef))
      end
  | CUnshift items =>
      (items ++ elems, Some (inl (VNum (Z.of_nat (length (items ++ elems))))))
  | CSplice start dc items =>
      let '(from, count) := splice_range (Z.of_nat (length elems)) start dc in
      (take from elems ++ items ++ drop (from + count) elems,
       Some (inr (take count (drop from elems))))
  | CSort _ le => (sort_by le elems, None)
  | CReverse => (reverse elems, None)
  end.

(** The double nearest to the integer [z], the one with the even
    significand when two are equally near: what an addition of two
    doubles that hold integers gives for the exact sum [z]. Every
    integer up to [2^53] in absolute value is a double; between [2^53]
    and [2^54] only the even ones are, and so on. *)
Definition round_double (z : Z) : Z :=
  let a := Z.abs z in
  if (a <? 2 ^ 53)%Z then z
  else
    let ulp := (2 ^ (Z.log2 a - 52))%Z in
    let q := (a / ulp)%Z in
    let r := (a mod ulp)%Z in
    let q' :=
      if (2 * r <? ulp)%Z then q
      else if (ulp <? 2 * r)%Z then (q + 1)%Z
      else if Z.even q then q else (q + 1)%Z in
    (Z.sgn z * (q' * ulp))%Z.

(** [v + 1] for a number [v]: an addition of doubles. *)
Definition plus_one (v : value) : option value :=
  match v with
  | VNum n => Some (VNum (round_double (n + 1)))
  | _ => None
  end.

(** [versionSignal.value = versionSignal.value + 1] *)
Definition bump_version (versionSignal : nat) (c : state) : option state :=
  match signal_get versionSignal c with
  | (Some v, c1) =>
      match plus_one v with
      | Some v' => Some (signal_set versionSignal v' c1)
      | None => None
      end
  | (None, _) => None
  end.

(** The function that the get trap returns for the name of one of the
    seven methods, called with the arguments of [c] on the proxy [p].
    The result is [None] when the call is outside of the model: [p] is
    not a proxy of [reactiveArray] around a raw array, or the version
    signal does not hold a number. *)
Definition array_method (p : nat) (c : method_call) (rs : rstate)
    : option (value * rstate) :=
  match heap rs !! p with
  | Some (OProxy target (HArray changeSignal lengthSignal versionSignal)) =>
      match heap rs !! target with
      | Some (OArray elems props) =>
          let oldLength := Z.of_nat (length elems) in
          (* const result = Array.prototype[property].apply(target, args) *)
          let '(elems', res) := apply_method c elems in
          let rs1 := set_heap (<[target := OArray elems' props]> (heap rs)) rs in
          let '(result, rs2) :=
            match res with
            | Some (inl v) => (v, rs1)
            | Some (inr l) => let '(a, rs') := alloc (OArray l ∅) rs1 in (VObj a, rs')
            | None => (VObj target, rs1)
            end in
          let newLength := Z.of_nat (length elems') in
          (* lengthSignal.value = target.length *)
          let c1 := signal_set lengthSignal (VNum newLength) (core rs2) in
          (* versionSignal.value = versionSignal.value + 1 *)
          match bump_version versionSignal c1 with
          | Some c2 =>
              (* changeSignal.value = { type, method, args, ... } *)
              let '(ev, rs3) :=
                alloc (OChange (mutationMethods c) (method_name c) (call_args c)
                         oldLength newLength (now rs2)) (set_core c2 rs2) in
              Some (result, set_core (signal_set changeSignal (VObj ev) (core rs3)) rs3)
          | None => None
          end
      | _ => None
      end
  | _ => None
  end.

(** [target[property]] on a raw array. *)
Definition array_read (k : key) (elems : list value) (props : gmap string value) : value :=
  match k with
  | KLength => VNum (Z.of_nat (length elems))
  | KIndex i => default VUndef (elems !! i)
  | KOther name _ => default VUndef (props !! name)
  end.

(** [arr[i] = v] on the elements: an index past the end extends the
    array (the holes read as [undefined]). *)
Definition store_index (i : nat) (v : value) (elems : list value) : list value :=
  if bool_decide (i < length elems) then <[i := v]> elems
  else elems ++ replicate (i - length elems) VUndef ++ [v].

(** [arr.length = n] on the elements. *)
Definition store_length (n : nat) (elems : list value) : list value :=
  take n elems ++ replicate (n - length elems) VUndef.

(** [Reflect.set(target, property, value, receiver)] on a raw array;
    [None] when it throws (a length that is no array length) or is
    outside of the model (an index of [2^32 - 1] or more). *)
Definition array_write (k : key) (v : value) (elems : list value)
    (props : gmap string value) : option (list value * gmap string value) :=
  match k with
  | KLength =>
      match v with
      | VNum n =>
          if bool_decide (0 <= n < 2 ^ 32)%Z
          then Some (store_length (Z.to_nat n) elems, props)
          else None
      | _ => None
      end
  | KIndex i =>
      if bool_decide (Z.of_nat i < 2 ^ 32 - 1)%Z
      then Some (store_index i v elems, props)
      else None
  | KOther name _ => Some (elems, <[name := v]> props)
  end.

(** [property === 'length' || !isNaN(property)] *)
Definition length_or_numeric (k : key) : bool :=
  match k with
  | KLength | KIndex _ => true
  | KOther _ num => bool_decide (is_Some num)
  end.

(** [!isNaN(property)] *)
Definition numeric (k : key) : bool :=
  match k with
  | KLength => false
  | KIndex _ => true
  | KOther _ num => bool_decide (is_Some num)
  end.

(** [parseInt(property)] *)
Definition parseInt (k : key) : option Z :=
  match k with
  | KLength => None
  | KIndex i => Some (Z.of_nat i)
  | KOther _ num => mjoin num
  end.

(** The set trap of an array proxy, [p[property] = value]. [None] as for
    [array_method] and [array_write]. *)
Definition array_set (p : nat) (property : key) (v : value) (rs : rstate)
    : option (bool * rstate) :=
  match heap rs !! p with
  | Some (OProxy target (HArray changeSignal lengthSignal versionSignal)) =>
      match heap rs !! target with
      | Some (OArray elems props) =>
          let oldValue := array_read property elems props in
          match array_write property v elems props with
          | Some (elems', props') =>
              let result := true in
              let rs1 := set_heap (<[target := OArray elems' props']> (heap rs)) rs in
              if length_or_numeric property then
                let c1 := signal_set lengthSignal (VNum (Z.of_nat (length elems')))
                            (core rs1) in
                match bump_version versionSignal c1 with
                | Some c2 =>
                    if numeric property && negb (strict_eq oldValue v) then
                      let '(ev, rs2) :=
                        alloc (OUpdate (parseInt property) oldValue v (now rs1))
                          (set_core c2 rs1) in
                      Some (result,
                            set_core (signal_set changeSignal (VObj ev) (core rs2)) rs2)
                    else Some (result, set_core c2 rs1)
                | None => None
                end
              else Some (result, rs1)
          | None => None
          end
      | _ => None
      end
  | _ => None
  end.

(** The value of a plain signal. *)
Definition signal_value (x : nat) (rs : rstate) : option value :=
  _value <$> signals (core rs) !! x.


(** ** Concrete inputs *)

(** A heap with an empty raw object at address 0 and the raw array
    [[10, 20, 30]] at address 1. *)
Definition two_objects : rstate :=
  mkRState init_state
    [OPlain ∅; OArray [VNum 10; VNum 20; VNum 30] ∅] ∅ ∅ ∅ 1000.

(** [reactive] of the array of [two_objects]: the wrapper is at address
    2, with the signals 0 ([__arrayChange]), 1 ([length]) and 2
    ([__version]). *)
Definition wrapped_array : rstate := (reactive (VObj 1) two_objects).2.

(** [p] is a proxy built by [reactiveArray] around the raw array at [t],
    with three different signals. *)
Definition array_wrapper (p t ch ls vs : nat) (rs : rstate) : Prop :=
  heap rs !! p = Some (OProxy t (HArray ch ls vs))
  /\ (exists elems props, heap rs !! t = Some (OArray elems props))
  /\ vs <> ls /\ vs <> ch /\ ls <> ch.

(** [wrapped_array] with an effect (handle 0) that reads the version
    signal, as a consumer of [arr.__version] does. *)
Definition watched_array : rstate :=
  set_core (run_ops [NewEffect (Get 2 (fun v => Ret v))] (core wrapped_array))
    wrapped_array.

(** * Keyed list rendering (loop-binding.js, event-binding.js)

    The items of the list are values; the contexts of the items are
    records; the instances are objects in an arena, so that the same
    instance can sit in the key map, in an operation and in the final
    array, as it does in the code. The host tree is the list of the
    children of the parent of the anchor. *)

(** The object built by [_createItemContext]. *)
Record context := mkContext {
  itemVar : value;     (* [this.loopConfig.itemVar]: data *)
  _index : nat;        (* $index, and [indexVar] when there is one *)
  _parent : value      (* $parent *)
}.

(** An expression and the function [_compile] makes of it: [None] when
    the expression has a syntax error; the function answers [None] when
    it throws. *)
Record expression := mkExpression {
  src : string;
  compiled : option (context -> option value)
}.

(** The objects built by [_createInstance]. The bindings and the parser
    output are not modelled; [cleanup] is observed in the log. *)
Record instance := mkInstance {
  element : nat;
  data : value;
  icontext : context
}.

Inductive loop_event :=
| LWarn (msg : string)
| LConsoleError (msg : string)
| LCreated (i : nat) (e : nat)   (* _createInstance built instance i with element e *)
| LRemoved (e : nat)             (* element.remove() *)
| LCleanup (i : nat).            (* instance.cleanup() *)

Record loop_state := mkLoop {
  arena : list instance;              (* the instance objects *)
  instances : list (option nat);      (* this.instances *)
  dom : list nat;                     (* the children of anchor.parentNode *)
  next_node : nat;
  cache : list string;                (* the keys of ExpressionEvaluator.cache *)
  events : list loop_event
}.

(** The part of [LoopConfig] that reconciliation uses. [keyExpression]
    is [None] for ['$index']. *)
Record loop_config := mkConfig {
  anchor : nat;
  keyExpression : option expression;
  parentContext : value
}.

Definition loop_emit (ev : loop_event) (st : loop_state) : loop_state :=
  mkLoop (arena st) (instances st) (dom st) (next_node st) (cache st)
    (events st ++ [ev]).

Definition set_arena (a : list instance) (st : loop_state) : loop_state :=
  mkLoop a (instances st) (dom st) (next_node st) (cache st) (events st).

Definition set_instances (l : list (option nat)) (st : loop_state) : loop_state :=
  mkLoop (arena st) l (dom st) (next_node st) (cache st) (events st).

Definition set_dom (d : list nat) (st : loop_state) : loop_state :=
  mkLoop (arena st) (instances st) d (next_node st) (cache st) (events st).

(** ** ExpressionEvaluator *)

(** What a call returns or throws. *)
Inductive outcome (A : Type) :=
| Returns (a : A)
| Throws.
Arguments Returns {A} a.
Arguments Throws {A}.

(** [ExpressionEvaluator.evaluate(expression, [context])]: the whole
    body is in a [try]; the [catch] warns and returns [undefined]. *)
Definition evaluate (ex : expression) (ctx : context) (st : loop_state)
    : outcome value * loop_state :=
  (* fn = this.cache.get(expression) || this._compile(expression) *)
  let st1 :=
    if bool_decide (src ex ∈ cache st) then st
    else
      let st' := mkLoop (arena st) (instances st) (dom st) (next_node st)
                   (cache st ++ [src ex]) (events st) in
      match compiled ex with
      | Some _ => st'
      | None => loop_emit (LConsoleError "Failed to compile expression") st'
      end in
  match compiled ex with
  | Some fn =>
      match fn ctx with
      | Some v => (Returns v, st1)
      | None => (Returns VUndef, loop_emit (LWarn "Error evaluating expression") st1)
      end
  | None => (Returns VUndef, st1)   (* _compile returned [() => undefined] *)
  end.

(** ** LoopBinding *)

(** [_createItemContext(data, index)] *)
Definition _createItemContext (cfg : loop_config) (d : value) (i : nat) : context :=
  mkContext d i (parentContext cfg).

(** [_computeKey(data, context)] *)
Definition _computeKey (cfg : loop_config) (d : value) (ctx : context)
    (st : loop_state) : value * loop_state :=
  match keyExpression cfg with
  | None => (VNum (Z.of_nat (_index ctx)), st)
  | Some ex =>
      match evaluate ex ctx st with
      | (Returns v, st1) => (v, st1)
      | (Throws, st1) =>
          (VNum (Z.of_nat (_index ctx)), loop_emit (LWarn "Error computing key") st1)
      end
  end.

(** [Map.prototype.set]: a key that is there keeps its place. *)
Fixpoint map_set {V} (k : value) (v : V) (m : list (value * V)) : list (value * V) :=
  match m with
  | [] => [(k, v)]
  | (k', v') :: m' =>
      if bool_decide (k' = k) then (k, v) :: m' else (k', v') :: map_set k v m'
  end.

(** [Map.prototype.get] *)
Fixpoint map_get {V} (k : value) (m : list (value * V)) : option V :=
  match m with
  | [] => None
  | (k', v') :: m' => if bool_decide (k' = k) then Some v' else map_get k m'
  end.

(** [_buildKeyMap(instances)]: the entries are [{instance, index}]. It
    throws when an entry of [instances] is [null]. *)
Fixpoint _buildKeyMap_from (cfg : loop_config) (l : list (option nat)) (index : nat)
    (m : list (value * (nat * nat))) (st : loop_state)
    : outcome (list (value * (nat * nat))) * loop_state :=
  match l with
  | [] => (Returns m, st)
  | None :: _ => (Throws, st)
  | Some i :: l' =>
      match arena st !! i with
      | Some inst =>
          let '(k, st1) := _computeKey cfg (data inst) (icontext inst) st in
          _buildKeyMap_from cfg l' (S index) (map_set k (i, index) m) st1
      | None => (Throws, st)
      end
  end.

Definition _buildKeyMap (cfg : loop_config) (l : list (option nat)) (st : loop_state) :=
  _buildKeyMap_from cfg l 0 [] st.

(** [_buildDataKeyMap(dataArray)]: the entries are [{data, index, context}]. *)
Fixpoint _buildDataKeyMap_from (cfg : loop_config) (l : list value) (index : nat)
    (m : list (value * (value * nat * context))) (st : loop_state)
    : list (value * (value * nat * context)) * loop_state :=
  match l with
  | [] => (m, st)
  | d :: l' =>
      let ctx := _createItemContext cfg d index in
      let '(k, st1) := _computeKey cfg d ctx st in
      _buildDataKeyMap_from cfg l' (S index) (map_set k (d, index, ctx) m) st1
  end.

Definition _buildDataKeyMap (cfg : loop_config) (l : list value) (st : loop_state) :=
  _buildDataKeyMap_from cfg l 0 [] st.

(** The entries of [toUpdate] and [toAdd]. *)
Record update_op := mkUpdate {
  u_key : value; u_instance : nat; newData : value; newIndex : nat;
  oldIndex : nat; newContext : context
}.

Record add_op := mkAdd {
  a_key : value; a_data : value; a_index : nat; a_context : context
}.

Record operations := mkOperations {
  toRemove : list nat;
  toUpdate : list update_op;
  toAdd : list add_op;
  finalInstances : list (option nat)
}.

(** The callback of [newData.map] in [_planOperations]: it writes the
    new data and context into a reused instance. *)
Fixpoint plan_final (cfg : loop_config) (oldByKey : list (value * (nat * nat)))
    (l : list value) (index : nat) (st : loop_state)
    : list (option nat) * loop_state :=
  match l with
  | [] => ([], st)
  | d :: l' =>
      let ctx := _createItemContext cfg d index in
      let '(k, st1) := _computeKey cfg d ctx st in
      let '(slot, st2) :=
        match map_get k oldByKey with
        | Some (i, _) =>
            (Some i,
             set_arena (alter (fun inst => mkInstance (element inst) d ctx) i (arena st1)) st1)
        | None => (None, st1)
        end in
      let '(rest, st3) := plan_final cfg oldByKey l' (S index) st2 in
      (slot :: rest, st3)
  end.

(** [_planOperations(oldByKey, newByKey, newData)] *)
Definition _planOperations (cfg : loop_config)
    (oldByKey : list (value * (nat * nat)))
    (newByKey : list (value * (value * nat * context)))
    (newData : list value) (st : loop_state) : operations * loop_state :=
  let toRemove :=
    omap (fun '(k, (i, _)) =>
            match map_get k newByKey with Some _ => None | None => Some i end)
         oldByKey in
  let toUpdate :=
    omap (fun '(k, (i, oi)) =>
            match map_get k newByKey with
            | Some (d, ni, ctx) => Some (mkUpdate k i d ni oi ctx)
            | None => None
            end)
         oldByKey in
  let toAdd :=
    omap (fun '(k, (d, ni, ctx)) =>
            match map_get k oldByKey with
            | Some _ => None
            | None => Some (mkAdd k d ni ctx)
            end)
         newByKey in
  let '(final, st1) := plan_final cfg oldByKey newData 0 st in
  (mkOperations toRemove toUpdate toAdd final, st1).

(** *** The host tree *)

(** [node.nextSibling] *)
Fixpoint nextSibling (n : nat) (d : list nat) : option nat :=
  match d with
  | [] => None
  | m :: d' => if bool_decide (m = n) then head d' else nextSibling n d'
  end.

(** [node.remove()] *)
Definition dom_remove (n : nat) (d : list nat) : list nat :=
  filter (fun m => m <> n) d.

Fixpoint insert_at_ref (n r : nat) (d : list nat) : option (list nat) :=
  match d with
  | [] => None
  | m :: d' =>
      if bool_decide (m = r) then Some (n :: m :: d')
      else cons m <$> insert_at_ref n r d'
  end.

(** [parent.insertBefore(node, ref)]: a node that is in the tree moves;
    [ref = null] appends; a [ref] that is no child of the parent
    throws. *)
Definition insertBefore (n : nat) (ref : option nat) (d : list nat) : option (list nat) :=
  match ref with
  | Some r =>
      if bool_decide (r = n) then
        (if bool_decide (n ∈ d) then Some d else None)
      else insert_at_ref n r (dom_remove n d)
  | None => Some (dom_remove n d ++ [n])
  end.

(** [node.parentNode] is the parent of the anchor, or [null]. *)
Definition attached (n : nat) (d : list nat) : bool := bool_decide (n ∈ d).

(** [_createInstance(data, context)] *)
Definition _createInstance (d : value) (ctx : context) (st : loop_state)
    : nat * loop_state :=
  let i := length (arena st) in
  let e := next_node st in
  (i, loop_emit (LCreated i e)
        (mkLoop (arena st ++ [mkInstance e d ctx]) (instances st) (dom st)
           (S (next_node st)) (cache st) (events st))).

(** The three loops of [_applyOperations]. *)
Fixpoint apply_removes (l : list nat) (st : loop_state) : outcome loop_state :=
  match l with
  | [] => Returns st
  | i :: l' =>
      match arena st !! i with
      | Some inst =>
          apply_removes l'
            (loop_emit (LCleanup i)
               (loop_emit (LRemoved (element inst))
                  (set_dom (dom_remove (element inst) (dom st)) st)))
      | None => Throws
      end
  end.

Fixpoint apply_updates (l : list update_op) (st : loop_state) : outcome loop_state :=
  match l with
  | [] => Returns st
  | op :: l' =>
      match arena st !! u_instance op with
      | Some inst =>
          (* Object.assign(op.instance.context, op.newContext) *)
          apply_updates l'
            (set_arena (<[u_instance op :=
                          mkInstance (element inst) (data inst) (newContext op)]>
                          (arena st)) st)
      | None => Throws
      end
  end.

Fixpoint apply_adds (cfg : loop_config) (l : list add_op) (final : list (option nat))
    (st : loop_state) : outcome (list (option nat) * loop_state) :=
  match l with
  | [] => Returns (final, st)
  | op :: l' =>
      let '(i, st1) := _createInstance (a_data op) (a_context op) st in
      let e := next_node st in
      let placed :=
        match a_index op with
        | O =>
            (* anchor.parentNode.insertBefore(instance.element, anchor.nextSibling) *)
            if attached (anchor cfg) (dom st1)
            then insertBefore e (nextSibling (anchor cfg) (dom st1)) (dom st1)
            else None
        | S j =>
            match mjoin (final !! j) with
            | Some prev =>
                match arena st1 !! prev with
                | Some pinst =>
                    if attached (element pinst) (dom st1)
                    then insertBefore e (nextSibling (element pinst) (dom st1)) (dom st1)
                    else None
                | None => None
                end
            | None => Some (dom st1)   (* previousInstance is null *)
            end
        end in
      match placed with
      | Some d' => apply_adds cfg l' (<[a_index op := Some i]> final) (set_dom d' st1)
      | None => Throws
      end
  end.

(** [_reorderDOM(instances)] *)
Fixpoint reorder_from (cfg : loop_config) (l : list (option nat))
    (currentNode : option nat) (st : loop_state) : outcome loop_state :=
  match l with
  | [] => Returns st
  | None :: l' => reorder_from cfg l' currentNode st
  | Some i :: l' =>
      match arena st !! i with
      | Some inst =>
          let e := element inst in
          let moved :=
            if bool_decide (Some e = currentNode) then Some (dom st)
            else if attached (anchor cfg) (dom st)
                 then insertBefore e currentNode (dom st)
                 else None in
          match moved with
          | Some d' => reorder_from cfg l' (nextSibling e d') (set_dom d' st)
          | None => Throws
          end
      | None => Throws
      end
  end.

Definition _reorderDOM (cfg : loop_config) (l : list (option nat)) (st : loop_state) :=
  reorder_from cfg l (nextSibling (anchor cfg) (dom st)) st.

(** [_applyOperations(operations)]: the final array with the new
    instances in it, and the state. *)
Definition _applyOperations (cfg : loop_config) (ops : operations) (st : loop_state)
    : outcome (list (option nat) * loop_state) :=
  match apply_removes (toRemove ops) st with
  | Returns st1 =>
      match apply_updates (toUpdate ops) st1 with
      | Returns st2 =>
          match apply_adds cfg (toAdd ops) (finalInstances ops) st2 with
          | Returns (final, st3) =>
              match _reorderDOM cfg final st3 with
              | Returns st4 => Returns (final, st4)
              | Throws => Throws
              end
          | Throws => Throws
          end
      | Throws => Throws
      end
  | Throws => Throws
  end.

(** [_reconcile(newData)]; when it throws, the state is the one reached
    so far. *)
Definition _reconcile (cfg : loop_config) (newData : list value) (st : loop_state)
    : outcome loop_state :=
  match _buildKeyMap cfg (instances st) st with
  | (Returns oldByKey, st1) =>
      let '(newByKey, st2) := _buildDataKeyMap cfg newData st1 in
      let '(ops, st3) := _planOperations cfg oldByKey newByKey newData st2 in
      match _applyOperations cfg ops st3 with
      | Returns (final, st4) => Returns (set_instances final st4)
      | Throws => Throws
      end
  | (Throws, _) => Throws
  end.

(** ** Concrete input

    The items are the objects [{id: 1}], [{id: 2}], [{id: 3}] at the
    addresses 0 to 2 and [{id: 2}], [{id: 3}], [{id: 4}] at the addresses
    3 to 5; the key expression is [item.id]; the anchor is the node 100
    between two other children of its parent. *)
Definition item_ids : list Z := [1; 2; 3; 2; 3; 4]%Z.

Definition item_id : expression :=
  mkExpression "item.id"
    (Some (fun ctx =>
             match itemVar ctx with
             | VObj a => Some (from_option VNum VUndef (item_ids !! a))
             | VNull | VUndef => None      (* a TypeError *)
             | _ => Some VUndef
             end)).

Definition by_id : loop_config := mkConfig 100 (Some item_id) VUndef.

Definition empty_loop : loop_state := mkLoop [] [] [99; 100; 101] 0 [] [].

Definition from_outcome (o : outcome loop_state) : loop_state :=
  match o with
  | Returns st => st
  | Throws => empty_loop
  end.

Definition sequence_123 : list value := [VObj 0; VObj 1; VObj 2].
Definition sequence_234 : list value := [VObj 3; VObj 4; VObj 5].

(** The rendering of [[{id:1}, {id:2}, {id:3}]]. *)
Definition rendered_123 : loop_state :=
  from_outcome (_reconcile by_id sequence_123 empty_loop).

(** Then the reconciliation with [[{id:2}, {id:3}, {id:4}]]. *)
Definition rendered_234 : loop_state :=
  from_outcome (_reconcile by_id sequence_234 rendered_123).

(** The keys of a key map, in the order of the map. *)
Definition keys_of {V} (m : list (value * V)) : list value := fst <$> m.

(** The events since an earlier state. *)
Definition events_since (st st' : loop_state) : list loop_event :=
  drop (length (events st)) (events st').

(** A null item at the position 1, and its context. *)
Definition null_context : context := mkContext VNull 1 VUndef.

(** The key of an item, as a function of its context alone. *)
Definition key_of (cfg : loop_config) (ctx : context) : value :=
  match keyExpression cfg with
  | None => VNum (Z.of_nat (_index ctx))
  | Some ex =>
      match compiled ex with
      | Some fn => default VUndef (fn ctx)
      | None => VUndef
      end
  end.

(** The states of a list that differ in the cache of the evaluator and
    in the log only. *)
Definition same_list (st st' : loop_state) : Prop :=
  arena st' = arena st /\ instances st' = instances st
  /\ dom st' = dom st /\ next_node st' = next_node st.

(** A key expression that gives every item the same key. *)
Definition constant_key : loop_config :=
  mkConfig 100 (Some (mkExpression "1" (Some (fun _ => Some (VNum 1))))) VUndef.

(** The keys that [_buildDataKeyMap] computes for the items [l], the
    first of them at the position [index]. *)
Fixpoint item_keys_from (cfg : loop_config) (l : list value) (index : nat) : list value :=
  match l with
  | [] => []
  | d :: l' => key_of cfg (_createItemContext cfg d index) :: item_keys_from cfg l' (S index)
  end.

Definition item_keys (cfg : loop_config) (l : list value) : list value :=
  item_keys_from cfg l 0.

(** The entries of [toAdd] when every item of [l] is new and no two
    items have the same key. *)
Fixpoint adds_from (cfg : loop_config) (l : list value) (index : nat) : list add_op :=
  match l with
  | [] => []
  | d :: l' =>
      let ctx := _createItemContext cfg d index in
      mkAdd (key_of cfg ctx) d index ctx :: adds_from cfg l' (S index)
  end.

(** The entry of [newByKey] that an entry of [toAdd] is made of. *)
Definition entry_of (op : add_op) : value * (value * nat * context) :=
  (a_key op, (a_data op, a_index op, a_context op)).

(** The instances that [_createInstance] builds for the items [l], when
    the clone of the template for the first of them is the node [e]. *)
Fixpoint new_instances_from (cfg : loop_config) (l : list value) (index e : nat)
    : list instance :=
  match l with
  | [] => []
  | d :: l' =>
      mkInstance e d (_createItemContext cfg d index)
      :: new_instances_from cfg l' (S index) (S e)
  end.

(** The elements of the instances of a list, in the order of the list;
    the empty places have none. *)
Definition elements_of (st : loop_state) (l : list (option nat)) : list nat :=
  omap (fun o => o ≫= fun i => element <$> arena st !! i) l.

(** Three instances whose elements are out of order in the tree, one of
    them before the anchor. *)
Definition shuffled_loop : loop_state :=
  mkLoop [mkInstance 1 (VObj 0) (mkContext (VObj 0) 0 VUndef);
          mkInstance 2 (VObj 1) (mkContext (VObj 1) 1 VUndef);
          mkInstance 3 (VObj 2) (mkContext (VObj 2) 2 VUndef)]
    [Some 0; Some 1; Some 2] [2; 99; 100; 3; 101; 1] 4 [] [].

(** ** The instances of a rendered list

    A list of the instances of a list binding, each with its handle:
    [renders st rend] says that [this.instances] holds the handles of
    [rend], in this order, and that the arena holds the instances. *)
Definition renders (st : loop_state) (rend : list (nat * instance)) : Prop :=
  instances st = (fun p => Some p.1) <$> rend
  /\ Forall (fun p => arena st !! p.1 = Some p.2) rend.

(** The keys [_buildKeyMap] computes for them, and their elements. *)
Definition instance_keys (cfg : loop_config) (rend : list (nat * instance)) : list value :=
  (fun p => key_of cfg (icontext p.2)) <$> rend.

Definition rendered_elements (rend : list (nat * instance)) : list nat :=
  (fun p => element p.2) <$> rend.

(** The entries of [oldByKey] when no two instances have the same
    key. *)
Fixpoint old_entries_from (cfg : loop_config) (rend : list (nat * instance)) (index : nat)
    : list (value * (nat * nat)) :=
  match rend with
  | [] => []
  | p :: rend' =>
      (key_of cfg (icontext p.2), (p.1, index)) :: old_entries_from cfg rend' (S index)
  end.

(** What the callback of [newData.map] in [_planOperations] returns for
    the items [l], and what it does to the instances. *)
Fixpoint final_from (cfg : loop_config) (old : list (value * (nat * nat)))
    (l : list value) (index : nat) : list (option nat) :=
  match l with
  | [] => []
  | d :: l' =>
      (fst <$> map_get (key_of cfg (_createItemContext cfg d index)) old)
      :: final_from cfg old l' (S index)
  end.

Fixpoint plan_arena (cfg : loop_config) (old : list (value * (nat * nat)))
    (l : list value) (index : nat) (a : list instance) : list instance :=
  match l with
  | [] => a
  | d :: l' =>
      let ctx := _createItemContext cfg d index in
      plan_arena cfg old l' (S index)
        match map_get (key_of cfg ctx) old with
        | Some (i, _) => alter (fun inst => mkInstance (element inst) d ctx) i a
        | None => a
        end
  end.

(** The contexts of the items [l]. *)
Fixpoint item_contexts_from (cfg : loop_config) (l : list value) (index : nat)
    : list context :=
  match l with
  | [] => []
  | d :: l' => _createItemContext cfg d index :: item_contexts_from cfg l' (S index)
  end.

(** The instances that the loop over [toAdd] builds, when the clone of
    the template for the first of them is the node [e]. *)
Fixpoint added_instances (adds : list add_op) (e : nat) : list instance :=
  match adds with
  | [] => []
  | op :: adds' => mkInstance e (a_data op) (a_context op) :: added_instances adds' (S e)
  end.

(** The places of the entries of [toAdd] come in increasing order,
    from [lo] on. *)
Fixpoint increasing_from (lo : nat) (l : list nat) : Prop :=
  match l with
  | [] => True
  | x :: l' => lo <= x /\ increasing_from (S x) l'
  end.

(** The instances of [rendered_123], with their handles. *)
Definition instances_123 : list (nat * instance) :=
  zip (seq 0 3) (arena rendered_123).

(** ** A list that is rendered well

    The instances of the list have different keys and different
    elements, which are children of the parent of the anchor, and the
    nodes that [cloneNode] will make are not in the tree. *)
Definition well_rendered (cfg : loop_config) (st : loop_state) : Prop :=
  exists rend pre post,
    renders st rend
    /\ NoDup (instance_keys cfg rend)
    /\ NoDup (rendered_elements rend)
    /\ (forall e, e ∈ rendered_elements rend -> e ∈ dom st)
    /\ (anchor cfg ∉ rendered_elements rend)
    /\ dom st = pre ++ anchor cfg :: post
    /\ NoDup (dom st)
    /\ (forall n, next_node st <= n -> n ∉ dom st).

(** The list shows the items [l]: its instances hold them, in this
    order, and their elements follow the anchor, in this order. *)
Definition shows (cfg : loop_config) (st : loop_state) (l : list value) : Prop :=
  exists rend pre post,
    renders st rend
    /\ (fun p => data p.2) <$> rend = l
    /\ dom st = pre ++ anchor cfg :: rendered_elements rend ++ post.

(** Successive calls of [_reconcile], one for each array of [ls], each
    on the state the call before it left; a call that throws ends
    them. *)
Fixpoint reconcile_each (cfg : loop_config) (ls : list (list value)) (st : loop_state)
    : outcome loop_state :=
  match ls with
  | [] => Returns st
  | l :: ls' =>
      match _reconcile cfg l st with
      | Returns st' => reconcile_each cfg ls' st'
      | Throws => Throws
      end
  end.

(** A list with the key [item.id] whose anchor is the node 1, between
    the nodes 0 and 2, before its first rendering. *)
Definition keyed_list : loop_config := mkConfig 1 (Some item_id) VUndef.

Definition clean_loop : loop_state := mkLoop [] [] [0; 1; 2] 3 [] [].

(** * The rest of the engine's interface *)

(** [get subscriberCount()] *)
Definition subscriberCount (c : cell) (s : state) : nat :=
  length (cell_subscribers c s).

(** [Signal.dispose()]: [this._subscribers.clear()] *)
Definition dispose (c : cell) (s : state) : state :=
  upd_cell (sig_with_subscribers (fun _ => [])) c s.

(** [ComputedSignal.dispose()]:
    [if (this.effect) { this.effect.stop(); this.effect = null; }
     super.dispose();] *)
Definition computed_dispose (d : nat) (s : state) : state :=
  match computeds s !! d with
  | Some c =>
      let s1 :=
        match effect c with
        | Some e => upd_computed (comp_with_effect None) d (stop e s)
        | None => s
        end in
      dispose (Derived d) s1
  | None => s
  end.

(** The fields of [EffectTracker]. *)
Definition tracker_of (s : state) : option nat * list (option nat) :=
  (current s, stack s).

(** The fields of the scheduler. *)
Definition scheduler_of (s : state) : list nat * bool * bool * nat :=
  (pendingEffects s, isScheduled s, isFlushing s, frames s).

(** Outside of a flush, and a callback of [requestAnimationFrame] is
    registered whenever [isScheduled] is set, which it is whenever
    effects are pending. *)
Definition frame_requested (s : state) : Prop :=
  isFlushing s = false
  /\ (isScheduled s = true -> 0 < frames s)
  /\ (pendingEffects s <> [] -> isScheduled s = true).

(** Inside of a flush. *)
Definition in_flush (s : state) : Prop :=
  isFlushing s = true /\ isScheduled s = false.

(** How often the getter of [d] was called. *)
Definition getter_count (d : nat) (l : list event) : nat :=
  length (filter (fun ev => ev = EvGetter d) l).

(** The dependency set of every effect is the list of the cells of its
    unsubscribe functions, and each of them is still subscribed. *)
Definition deps_exact (s : state) : Prop :=
  forall e o, effects s !! e = Some o ->
    dependencies o = (cleanups o).*1
    /\ forall c cb, (c, cb) ∈ cleanups o -> cb ∈ cell_subscribers c s.

(** [derived_state] with an effect (handle 1) that reads the
    derivation. *)
Definition observed_state : state :=
  run_ops [NewEffect (GetC 0 (fun v => Ret v))] derived_state.

(** The cached value, the effect and the flag of a derivation. *)
Definition derivation_of (d : nat) (s : state) : option (value * option nat * bool) :=
  (fun c => (_value (base c), effect c, dirty c)) <$> computeds s !! d.

(** [observed_dirty_state] with its derivation disposed. *)
Definition disposed_dirty_state : state := computed_dispose 0 observed_dirty_state.

(** The events of the reads, the notifications and the stops. *)
Definition plain_event (ev : event) : Prop :=
  match ev with
  | EvRead _ _ | EvNotify _ _ _ _ | EvStop _ => True
  | _ => False
  end.

(** An effect that throws [null] on its second run. *)
Definition null_thrower : effect_body :=
  Get 0 (fun v => match v with VBool true => Ret VUndef | _ => Throw VNull end).

(** A signal, [null_thrower] and a second effect on the signal, a write
    that leaves both effects pending, and a flush. *)
Definition stuck_state : state :=
  run_ops [NewSignal (VBool true); NewEffect null_thrower;
           NewEffect (Get 0 (fun v => Ret v)); Write 0 (VBool false); FlushSync]
    init_state.

(** * The rest of the reactive wrappers (reactive.js) *)

(** [ReactiveModel.toRaw(obj)]: [this._rawMap.get(obj) || obj] *)
Definition toRaw (obj : value) (rs : rstate) : value :=
  match obj with
  | VObj a =>
      match _rawMap rs !! a with
      | Some t => VObj t
      | None => obj
      end
  | _ => obj
  end.

(** What [if (v)] and [v && ...] test. *)
Definition truthy (v : value) : bool :=
  match v with
  | VUndef | VNull => false
  | VBool b => b
  | VNum n => negb (n =? 0)%Z
  | VStr s => negb (bool_decide (s = ""))
  | VObj _ | VFun _ => true
  end.

(** The names that every object inherits from [Object.prototype]. The
    object literal [mutationMethods] of the array traps answers them
    too, and a raw object answers them without holding them: reads and
    writes of these names are outside of the model. *)
Definition object_prototype_names : list string :=
  ["constructor"; "__defineGetter__"; "__defineSetter__"; "hasOwnProperty";
   "__lookupGetter__"; "__lookupSetter__"; "isPrototypeOf";
   "propertyIsEnumerable"; "toString"; "valueOf"; "__proto__"; "toLocaleString"].

Definition inherited (name : string) : bool :=
  bool_decide (name ∈ object_prototype_names).

(** [mutationMethods[property]] is truthy. *)
Definition intercepted (name : string) : bool :=
  bool_decide (name ∈ ["push"; "pop"; "shift"; "unshift"; "splice"; "sort"; "reverse"])
  || inherited name.

(** The end of the two get traps:
    [if (typeof value === 'object' && value !== null) return reactive(value);
     return value;] *)
Definition wrap_result (v : value) (rs : rstate) : value * rstate :=
  if typeof_object v && negb (bool_decide (v = VNull)) then reactive v rs
  else (v, rs).

(** The get trap of an array proxy for a property that is none of the
    intercepted names. [None] outside of the model: [p] is no proxy of
    [reactiveArray] around a raw array, or the name is intercepted (the
    trap then answers the function of [array_method]). *)
Definition array_get (p : nat) (property : key) (rs : rstate)
    : option (value * rstate) :=
  match heap rs !! p with
  | Some (OProxy target (HArray changeSignal lengthSignal versionSignal)) =>
      match heap rs !! target with
      | Some (OArray elems props) =>
          match property with
          | KLength =>
              (* lengthSignal.value; *)
              let c := (signal_get lengthSignal (core rs)).2 in
              Some (wrap_result (array_read KLength elems props) (set_core c rs))
          | KIndex _ => Some (wrap_result (array_read property elems props) rs)
          | KOther name _ =>
              if intercepted name then None
              else if bool_decide (name = "__version") then
                (* return versionSignal.value; *)
                match signal_get versionSignal (core rs) with
                | (Some v, c) => Some (v, set_core c rs)
                | (None, _) => None
                end
              else Some (wrap_result (array_read property elems props) rs)
          end
      | _ => None
      end
  | _ => None
  end.

(** [signals.get(property)] for the Map of [target]. *)
Definition signals_get (target : nat) (property : string) (rs : rstate) : option cell :=
  default ∅ (_signalsMap rs !! target) !! property.

(** The get trap of an object proxy, for a target whose properties are
    data properties. [None] outside of the model: [p] is no proxy of
    [reactive] around a raw object, the name is inherited, it is
    [__signals] (the answer is the Map itself), or the Map holds a
    computed signal under it. *)
Definition object_get (p : nat) (property : string) (rs : rstate)
    : option (value * rstate) :=
  match heap rs !! p with
  | Some (OProxy target HObject) =>
      match heap rs !! target with
      | Some (OPlain props) =>
          if bool_decide (property = "__isReactive") then Some (VBool true, rs)
          else if bool_decide (property = "__raw") then Some (VObj target, rs)
          else if bool_decide (property = "__signals") then None
          else if inherited property then None
          else
            (* const value = Reflect.get(target, property, receiver) *)
            let value := default VUndef (props !! property) in
            match signals_get target property rs with
            | Some (Derived _) => None
            | Some (Plain x) =>
                (* signal.value; *)
                Some (wrap_result value (set_core (signal_get x (core rs)).2 rs))
            | None =>
                let '(x, c) := new_signal value (core rs) in
                let rs1 := signals_set target property (Plain x) (set_core c rs) in
                Some (wrap_result value (set_core (signal_get x (core rs1)).2 rs1))
            end
      | _ => None
      end
  | _ => None
  end.

(** The set trap of an object proxy; [None] as for [object_get]. *)
Definition object_set (p : nat) (property : string) (v : value) (rs : rstate)
    : option (bool * rstate) :=
  match heap rs !! p with
  | Some (OProxy target HObject) =>
      match heap rs !! target with
      | Some (OPlain props) =>
          if inherited property then None
          else
            let oldValue := default VUndef (props !! property) in
            let '(reactiveValue, rs1) := wrap_result v rs in
            (* const result = Reflect.set(target, property, reactiveValue, receiver) *)
            let rs2 :=
              set_heap (<[target := OPlain (<[property := reactiveValue]> props)]> (heap rs1))
                rs1 in
            if negb (strict_eq oldValue reactiveValue) then
              match signals_get target property rs2 with
              | Some (Derived _) => None
              | Some (Plain x) =>
                  Some (true, set_core (signal_set x reactiveValue (core rs2)) rs2)
              | None =>
                  let '(x, c) := new_signal reactiveValue (core rs2) in
                  Some (true, signals_set target property (Plain x) (set_core c rs2))
              end
            else Some (true, rs2)
      | _ => None
      end
  | _ => None
  end.

(** The deleteProperty trap of an object proxy; [None] as for
    [object_get]. *)
Definition object_delete (p : nat) (property : string) (rs : rstate)
    : option (bool * rstate) :=
  match heap rs !! p with
  | Some (OProxy target HObject) =>
      match heap rs !! target with
      | Some (OPlain props) =>
          if inherited property then None
          else
            let hadProperty := bool_decide (is_Some (props !! property)) in
            (* const result = Reflect.deleteProperty(target, property) *)
            let rs1 :=
              set_heap (<[target := OPlain (delete property props)]> (heap rs)) rs in
            if hadProperty then
              match signals_get target property rs1 with
              | Some (Derived _) => None
              | Some (Plain x) =>
                  Some (true, set_core (signal_set x VUndef (core rs1)) rs1)
              | None => Some (true, rs1)
              end
            else Some (true, rs1)
      | _ => None
      end
  | _ => None
  end.

(** [ReactiveModel.isReactive(obj)]: [obj && obj.__isReactive === true].
    [None] when the read of the property is outside of the model. *)
Definition isReactive (obj : value) (rs : rstate) : option (value * rstate) :=
  if negb (truthy obj) then Some (obj, rs)
  else
    match obj with
    | VObj a =>
        match heap rs !! a with
        | Some (OPlain props) | Some (OArray _ props) =>
            Some (VBool (strict_eq (default VUndef (props !! "__isReactive")) (VBool true)), rs)
        | Some (OProxy _ HObject) =>
            match object_get a "__isReactive" rs with
            | Some (r, rs1) => Some (VBool (strict_eq r (VBool true)), rs1)
            | None => None
            end
        | Some (OProxy _ (HArray _ _ _)) =>
            match array_get a (KOther "__isReactive" None) rs with
            | Some (r, rs1) => Some (VBool (strict_eq r (VBool true)), rs1)
            | None => None
            end
        | Some (OChange _ _ _ _ _ _) | Some (OUpdate _ _ _ _) => Some (VBool false, rs)
        | None => None
        end
    | _ => Some (VBool false, rs)
    end.

(** ** Well-formed states of the wrappers *)

(** Every wrapper recorded in [_reactiveMap] is an object of the heap
    that [_rawMap] maps back to its target. *)
Definition maps_linked (rs : rstate) : Prop :=
  forall a p, _reactiveMap rs !! a = Some p ->
    p < length (heap rs) /\ _rawMap rs !! p = Some a.

(** The signals of the properties of the raw object [t] are signals of
    the store, different for different properties, and each holds the
    value of its property ([undefined] for a property that the object
    does not have). *)
Definition mirrored (t : nat) (rs : rstate) : Prop :=
  exists props sg,
    heap rs !! t = Some (OPlain props)
    /\ _signalsMap rs !! t = Some sg
    /\ (forall k c, sg !! k = Some c ->
          exists x, c = Plain x
            /\ signal_value x rs = Some (default VUndef (props !! k)))
    /\ (forall k k' c, sg !! k = Some c -> sg !! k' = Some c -> k = k').

(** ** Concrete inputs *)

(** The wrapper (address 2) of the raw object of [two_objects]. *)
Definition wrapped_object : rstate := (reactive (VObj 0) two_objects).2.

(** The wrapper (address 1) of an empty raw array (address 0), with the
    signals 0 ([__arrayChange]), 1 ([length]) and 2 ([__version]). *)
Definition wrapped_empty_array : rstate :=
  (reactive (VObj 0) (mkRState init_state [OArray [] ∅] ∅ ∅ ∅ 1000)).2.

(** [wrapped_array] with the wrapper (address 3) of the raw object. *)
Definition two_wrappers : rstate := (reactive (VObj 0) wrapped_array).2.

(** Every signal of [rs] is a signal of [rs'] with the same value. *)
Definition values_kept (rs rs' : rstate) : Prop :=
  forall x v, signal_value x rs = Some v -> signal_value x rs' = Some v.

(** The names that the get trap of an object proxy answers itself. *)
Definition reserved (name : string) : bool :=
  bool_decide (name ∈ ["__isReactive"; "__raw"; "__signals"]).

(** [wrapped_object] after [proxy.count = 1]. *)
Definition counted_object : rstate :=
  from_option snd wrapped_object (object_set 2 "count" (VNum 1) wrapped_object).

(** A value that the traps do not wrap. *)
Definition unwrapped (v : value) : Prop := typeof_object v = false \/ v = VNull.

(** [wrapped_object] with an effect (handle 0) that is running: the
    state in which the body of the effect reads a property. *)
Definition running_effect : state :=
  set_tracker (Some 0) [None] (run_ops [NewEffect (Ret VUndef)] init_state).

Definition object_in_effect : rstate := set_core running_effect wrapped_object.

(** * The merged context of the expression evaluator (event-binding.js)

    The contexts of a stack are objects of the heap: raw objects (the
    context of an item, of an event) and wrappers of raw objects (the
    model). *)

(** [property in context]. A wrapper of [reactive] has no [has] trap:
    the question goes to its target. [None] outside of the model: the
    name is inherited, or the context is no such object. *)
Definition has_property (context : nat) (property : string) (rs : rstate) : option bool :=
  if inherited property then None
  else
    match heap rs !! context with
    | Some (OPlain props) => Some (bool_decide (is_Some (props !! property)))
    | Some (OProxy t HObject) =>
        match heap rs !! t with
        | Some (OPlain props) => Some (bool_decide (is_Some (props !! property)))
        | _ => None
        end
    | _ => None
    end.

(** [context[property]]: through the get trap for a wrapper. *)
Definition read_property (context : nat) (property : string) (rs : rstate)
    : option (value * rstate) :=
  match heap rs !! context with
  | Some (OPlain props) =>
      if inherited property then None
      else Some (default VUndef (props !! property), rs)
  | Some (OProxy _ HObject) => object_get context property rs
  | _ => None
  end.

(** What the get trap of the merged context answers: a value, or a
    function bound to the context that has it ([value.bind(context)]
    is a new function). *)
Inductive merged :=
| MValue (v : value)
| MBound (f : nat) (context : nat).

(** The loop of the get trap of [_mergeContexts], from the last context
    of the stack to the first; [rstack] is the stack reversed. *)
Fixpoint merge_get_from (rstack : list nat) (property : string) (rs : rstate)
    : option (merged * rstate) :=
  match rstack with
  | [] => Some (MValue VUndef, rs)
  | context :: rest =>
      match has_property context property rs with
      | Some true =>
          match read_property context property rs with
          | Some (VFun f, rs1) => Some (MBound f context, rs1)
          | Some (v, rs1) => Some (MValue v, rs1)
          | None => None
          end
      | Some false => merge_get_from rest property rs
      | None => None
      end
  end.

Definition merge_get (contextStack : list nat) (property : string) (rs : rstate)
    : option (merged * rstate) :=
  merge_get_from (reverse contextStack) property rs.

(** The has trap: [contextStack.some(context => property in context)]. *)
Fixpoint merge_has (contextStack : list nat) (property : string) (rs : rstate)
    : option bool :=
  match contextStack with
  | [] => Some false
  | context :: rest =>
      match has_property context property rs with
      | Some true => Some true
      | Some false => merge_has rest property rs
      | None => None
      end
  end.

(** The result of [merge_get] for the value of a property found in the
    context [context]. *)
Definition merged_of (v : value) (context : nat) : merged :=
  match v with
  | VFun f => MBound f context
  | _ => MValue v
  end.

(** ** Concrete input: the wrapper of a model [{count: 1}] (address 1,
    the raw object at 0) and the raw context [{count: 5, item: 7}] of an
    item (address 2). *)
Definition model_and_item : rstate :=
  set_heap
    (heap (reactive (VObj 0)
             (mkRState init_state [OPlain {[ "count" := VNum 1 ]}] ∅ ∅ ∅ 1000)).2
     ++ [OPlain {[ "count" := VNum 5; "item" := VNum 7 ]}])
    (reactive (VObj 0) (mkRState init_state [OPlain {[ "count" := VNum 1 ]}] ∅ ∅ ∅ 1000)).2.

(** * Properties of the reactive core *)

#[local] Set Warnings "-clear-no-such-hyp".

(** ** Basic facts *)

Lemma elem_of_set_add {A} `{EqDecision A} (x y : A) (l : list A) :
  y ∈ set_add x l <-> y = x \/ y ∈ l.
Proof.
  unfold set_add. case_bool_decide as Hx.
  - split; [auto|]. intros [->|]; auto.
  - rewrite elem_of_app, list_elem_of_singleton. tauto.
Qed.

Lemma elem_of_set_delete {A} `{EqDecision A} (x y : A) (l : list A) :
  y ∈ set_delete x l <-> y <> x /\ y ∈ l.
Proof. unfold set_delete. by rewrite list_elem_of_filter. Qed.

Lemma NoDup_set_add {A} `{EqDecision A} (x : A) (l : list A) :
  NoDup l -> NoDup (set_add x l).
Proof.
  intros Hl. unfold set_add. case_bool_decide as Hx; [done|].
  apply NoDup_app. split_and!; [done| |apply NoDup_singleton].
  intros y Hy Hy'%list_elem_of_singleton. by subst.
Qed.

Lemma stops_only_True {D} (b : body D) : stops_only (fun _ => True) b.
Proof. induction b; simpl; auto. Qed.

Lemma stops_only_mono {D} (P Q : nat -> Prop) (b : body D) :
  (forall e, P e -> Q e) -> stops_only P b -> stops_only Q b.
Proof. intros HPQ. induction b; simpl; intuition auto. Qed.

(** ** Lifting an invariant through user code

    An invariant that the elementary steps of the engine keep is kept by
    every body, by the getters of the derivations and by the notification
    of subscribers. [P] bounds the effects the bodies may stop. *)

Section Preservation.
Variable P : nat -> Prop.
Variable I : state -> Prop.

Hypothesis I_emit : forall ev s,
  match ev with
  | EvNotify (Plain _) _ _ _ | EvGetter _ | EvWarn _ => True
  | _ => False
  end ->
  I s -> I (emit ev s).
(** A derivation notifies with its value in both arguments. *)
Hypothesis I_notify_derived : forall d cb v s,
  I s -> I (emit (EvNotify (Derived d) cb v v) s).
Hypothesis I_track : forall c s,
  is_Some (cell_signal c s) -> I s -> I (track_current c s).
Hypothesis I_value : forall c v s, I s -> I (upd_cell (sig_with_value v) c s).
Hypothesis I_callback : forall cb s, I s -> I (call_callback cb s).
Hypothesis I_stop : forall e s, P e -> I s -> I (stop e s).
Hypothesis I_dirty : forall d b s, I s -> I (upd_computed (comp_with_dirty b) d s).
Hypothesis I_getter : forall s d c,
  I s -> computeds s !! d = Some c -> stops_only P (getter c).
(** Two facts of the engine, proved as [shape_exec_getter] and
    [recompute_keeps_cell] below. *)
Hypothesis getter_keeps : forall b s, shape (exec_getter b s).2 = shape s.
Hypothesis recompute_keeps : forall d s,
  is_Some (computeds s !! d) -> is_Some (computeds (_recompute d s).2 !! d).

Lemma notify_plain_pres x nv ov (l : list callback) s :
  I s ->
  I (foldl (fun s cb => call_callback cb (emit (EvNotify (Plain x) cb nv ov) s)) s l).
Proof.
  revert s. induction l as [|cb l IH]; intros s Hs; simpl; [done|].
  apply IH, I_callback, I_emit; done.
Qed.

Lemma notify_derived_pres d v (l : list callback) s :
  I s ->
  I (foldl (fun s cb => call_callback cb (emit (EvNotify (Derived d) cb v v) s)) s l).
Proof.
  revert s. induction l as [|cb l IH]; intros s Hs; simpl; [done|].
  apply IH, I_callback, I_notify_derived; done.
Qed.

Lemma signal_set_pres x v s : I s -> I (signal_set x v s).
Proof.
  intros Hs. unfold signal_set. repeat case_match; try done.
  apply notify_plain_pres, (I_value (Plain x)), Hs.
Qed.

Lemma signal_get_pres x s : I s -> I (signal_get x s).2.
Proof.
  intros Hs. unfold signal_get.
  destruct (signals s !! x) as [g|] eqn:Hx; simpl; [|done].
  apply I_track; [|done]. simpl. by rewrite Hx.
Qed.

Section Body.
Context {D : Type}.
Variable readC : D -> state -> option value * state.
Variable writeC : D -> value -> state -> state.
Hypothesis readC_pres : forall d s, I s -> I (readC d s).2.
Hypothesis writeC_pres : forall d v s, I s -> I (writeC d v s).

Lemma exec_pres (b : body D) s :
  stops_only P b -> I s -> I (exec readC writeC b s).2.
Proof.
  revert s. induction b as [v|v|x k IH|x v k IH|e k IH|d k IH|d v k IH];
    intros s Hb Hs; simpl in *; try done.
  - pose proof (signal_get_pres x s Hs) as Hg.
    destruct (signal_get x s) as [[v|] s1]; simpl in *; [|done].
    by apply IH.
  - case_match; [|done]. by apply IH, signal_set_pres.
  - destruct Hb as [He Hk]. case_match; [|done]. by apply IH, I_stop.
  - pose proof (readC_pres d s Hs) as Hg.
    destruct (readC d s) as [[v|] s1]; simpl in *; [|done].
    by apply IH.
  - by apply IH, writeC_pres.
Qed.
End Body.

Lemma exec_getter_pres b s :
  stops_only P b -> I s -> I (exec_getter b s).2.
Proof. apply exec_pres; intros []. Qed.

Lemma evaluate_getter_pres d s : I s -> I (evaluate_getter d s).2.
Proof.
  intros Hs. unfold evaluate_getter.
  destruct (computeds s !! d) as [c|] eqn:Hc; [|done].
  assert (I (exec_getter (getter c) (emit (EvGetter d) s)).2) as Hg.
  { apply exec_getter_pres; [by eapply I_getter|by apply I_emit]. }
  assert (is_Some (computeds (exec_getter (getter c) (emit (EvGetter d) s)).2 !! d))
    as [c1 Hc1].
  { apply lookup_lt_is_Some. pose proof (getter_keeps (getter c) (emit (EvGetter d) s)) as Hsh.
    unfold shape in Hsh. injection Hsh as _ -> _. simpl.
    by apply lookup_lt_is_Some. }
  destruct (exec_getter _ _) as [[nv|] s1]; simpl in *; [|done].
  apply I_dirty. case_match; [|done].
  rewrite list_lookup_alter_eq, Hc1. simpl.
  by apply notify_derived_pres, (I_value (Derived d)).
Qed.

Lemma recompute_pres d s : I s -> I (_recompute d s).2.
Proof.
  intros Hs. unfold _recompute. repeat case_match; try done.
  by apply evaluate_getter_pres.
Qed.

Lemma computed_get_pres d s : I s -> I (computed_get d s).2.
Proof.
  intros Hs. unfold computed_get.
  destruct (computeds s !! d) as [c|] eqn:Hd; [|done].
  destruct (dirty c).
  - pose proof (recompute_pres d s Hs) as Hr.
    pose proof (recompute_keeps d s (mk_is_Some _ _ Hd)) as [c1 Hc1].
    destruct (_recompute d s) as [[] s1]; simpl in *; [|done].
    apply I_track; [|done]. simpl. by rewrite Hc1.
  - simpl. apply I_track; [|done]. simpl. by rewrite Hd.
Qed.

Lemma computed_set_pres d v s : I s -> I (computed_set d v s).
Proof. intros Hs. by apply I_emit. Qed.

Lemma exec_body_pres b s :
  stops_only P b -> I s -> I (exec_body b s).2.
Proof.
  apply exec_pres; [apply computed_get_pres|apply computed_set_pres].
Qed.

(** What [fn] may stop, for the effects of the store. *)
Definition fn_stops_only (f : effect_fn) : Prop :=
  match f with
  | FnBody b => stops_only P b
  | FnComputed _ => True
  end.

Lemma call_fn_pres e f s : fn_stops_only f -> I s -> I (call_fn e f s).2.
Proof.
  intros Hf Hs. destruct f as [b|d]; simpl.
  - pose proof (exec_body_pres b s Hf Hs).
    by destruct (exec_body b s).
  - by apply evaluate_getter_pres.
Qed.
End Preservation.

(** ** No operation on cells or effects changes the size of an arena *)

Lemma shape_upd_cell f c s : shape (upd_cell f c s) = shape s.
Proof. destruct c; unfold shape; simpl; by rewrite length_alter. Qed.

Lemma shape_upd_effect f e s : shape (upd_effect f e s) = shape s.
Proof. unfold shape; simpl; by rewrite length_alter. Qed.

Lemma shape_upd_computed f d s : shape (upd_computed f d s) = shape s.
Proof. unfold shape; simpl; by rewrite length_alter. Qed.

Lemma shape_unsubscribe_loop (l : list unsubscribe) s :
  shape (foldl (fun s u => call_unsubscribe u s) s l) = shape s.
Proof.
  revert s. induction l as [|u l IH]; intros s; simpl; [done|].
  rewrite IH. apply shape_upd_cell.
Qed.

Lemma shape_cleanup e s : shape (cleanup e s) = shape s.
Proof.
  unfold cleanup. destruct (effects s !! e); [|done].
  by rewrite shape_upd_effect, shape_unsubscribe_loop.
Qed.

Lemma shape_schedule e s : shape (schedule e s) = shape s.
Proof. unfold schedule. by case_match. Qed.

Lemma shape_call_callback cb s : shape (call_callback cb s) = shape s.
Proof.
  unfold call_callback. repeat case_match; try done.
  by rewrite shape_schedule, shape_upd_effect.
Qed.

Lemma shape_track e c s : shape (track e c s) = shape s.
Proof.
  unfold track. repeat case_match; try done.
  rewrite shape_upd_effect. unfold subscribe. rewrite shape_upd_cell.
  apply (shape_upd_effect _ e s).
Qed.

Lemma shape_track_current c s : shape (track_current c s) = shape s.
Proof.
  unfold track_current. simpl. case_match; [|done]. by rewrite shape_track.
Qed.

Lemma shape_stop e s : shape (stop e s) = shape s.
Proof.
  unfold stop. destruct (effects s !! e); [|done].
  rewrite shape_upd_effect, shape_cleanup.
  apply (shape_upd_effect _ e s).
Qed.

Lemma shape_exec_getter b s : shape (exec_getter b s).2 = shape s.
Proof.
  apply (exec_getter_pres (fun _ => True) (fun s' => shape s' = shape s)).
  - by intros ev s' _ <-.
  - intros c s' _ <-. apply shape_track_current.
  - intros c v s' <-. apply shape_upd_cell.
  - intros cb s' <-. apply shape_call_callback.
  - intros e s' _ <-. apply shape_stop.
  - apply stops_only_True.
  - done.
Qed.

Lemma shape_recompute d s : shape (_recompute d s).2 = shape s.
Proof.
  apply (recompute_pres (fun _ => True) (fun s' => shape s' = shape s)).
  - by intros ev s' _ <-.
  - by intros d' cb v s' <-.
  - intros c s' _ <-. apply shape_track_current.
  - intros c v s' <-. apply shape_upd_cell.
  - intros cb s' <-. apply shape_call_callback.
  - intros e s' _ <-. apply shape_stop.
  - intros d' b s' <-. apply shape_upd_computed.
  - intros. apply stops_only_True.
  - apply shape_exec_getter.
  - done.
Qed.

Lemma recompute_keeps_cell d s :
  is_Some (computeds s !! d) -> is_Some (computeds (_recompute d s).2 !! d).
Proof.
  rewrite !lookup_lt_is_Some. pose proof (shape_recompute d s) as Hsh.
  unfold shape in Hsh. by injection Hsh as _ -> _.
Qed.

(** ** Stopped effects stay stopped *)

Lemma inactive_upd_effect f e e' s :
  (forall o, active (f o) = active o) ->
  inactive e' (upd_effect f e s) <-> inactive e' s.
Proof.
  intros Hf. unfold inactive, upd_effect. simpl.
  destruct (decide (e = e')) as [->|Hne].
  - rewrite list_lookup_alter_eq. destruct (effects s !! e') as [o|]; simpl.
    + split; intros (o' & [= <-] & Ha); eexists; split; eauto; congruence.
    + split; intros (o' & [=] & _).
  - by rewrite list_lookup_alter_ne.
Qed.

Lemma effects_upd_cell f c s : effects (upd_cell f c s) = effects s.
Proof. by destruct c. Qed.

Lemma log_upd_cell f c s : log (upd_cell f c s) = log s.
Proof. by destruct c. Qed.

Lemma effects_unsubscribe_loop (l : list unsubscribe) s :
  effects (foldl (fun s u => call_unsubscribe u s) s l) = effects s.
Proof.
  revert s. induction l as [|u l IH]; intros s; simpl; [done|].
  rewrite IH. apply effects_upd_cell.
Qed.

Lemma log_unsubscribe_loop (l : list unsubscribe) s :
  log (foldl (fun s u => call_unsubscribe u s) s l) = log s.
Proof.
  revert s. induction l as [|u l IH]; intros s; simpl; [done|].
  rewrite IH. apply log_upd_cell.
Qed.

Lemma effects_cleanup e s :
  effects (cleanup e s) = alter (eff_with_cleanups (fun _ => [])) e (effects s).
Proof.
  unfold cleanup. destruct (effects s !! e) as [o|] eqn:He; simpl.
  - by rewrite effects_unsubscribe_loop.
  - symmetry. apply list_eq. intros i. destruct (decide (e = i)) as [->|].
    + by rewrite list_lookup_alter_eq, He.
    + by rewrite list_lookup_alter_ne.
Qed.

Lemma log_cleanup e s : log (cleanup e s) = log s.
Proof.
  unfold cleanup. destruct (effects s !! e); simpl; [|done].
  apply log_unsubscribe_loop.
Qed.

Lemma inactive_cleanup e e' s : inactive e' (cleanup e s) <-> inactive e' s.
Proof.
  unfold inactive. rewrite effects_cleanup.
  apply (inactive_upd_effect (eff_with_cleanups (fun _ => [])) e e' s). done.
Qed.

Lemma effects_schedule e s : effects (schedule e s) = effects s.
Proof. unfold schedule. by case_match. Qed.

Lemma log_schedule e s : log (schedule e s) = log s.
Proof. unfold schedule. by case_match. Qed.

Lemma log_call_callback cb s : log (call_callback cb s) = log s.
Proof.
  unfold call_callback. repeat case_match; try done. by rewrite log_schedule.
Qed.

Lemma inactive_call_callback cb e s :
  inactive e (call_callback cb s) <-> inactive e s.
Proof.
  unfold call_callback. repeat case_match; try done.
  unfold inactive. rewrite effects_schedule.
  by apply (inactive_upd_effect (eff_with_scheduled true)).
Qed.

Lemma log_upd_effect f e s : log (upd_effect f e s) = log s.
Proof. done. Qed.

Lemma log_track e c s : log (track e c s) = log s.
Proof.
  unfold track. repeat case_match; try done.
  rewrite log_upd_effect. unfold subscribe. by rewrite log_upd_cell.
Qed.

Lemma inactive_track e c e' s : inactive e' (track e c s) <-> inactive e' s.
Proof.
  unfold track. repeat case_match; try done.
  rewrite (inactive_upd_effect (eff_with_cleanups _)) by done.
  unfold inactive, subscribe. rewrite effects_upd_cell. simpl.
  by apply (inactive_upd_effect (eff_with_deps (set_add c))).
Qed.

Lemma log_track_current c s :
  log (track_current c s) = log s ++ [EvRead (current s) c].
Proof.
  unfold track_current. simpl. case_match; [|done]. by rewrite log_track.
Qed.

Lemma inactive_track_current c e s :
  inactive e (track_current c s) <-> inactive e s.
Proof.
  unfold track_current. simpl. case_match; [|done]. by rewrite inactive_track.
Qed.

Lemma inactive_stop_mono e e' s : inactive e' s -> inactive e' (stop e s).
Proof.
  intros He'. unfold stop. destruct (effects s !! e) as [o|] eqn:He; [|done].
  rewrite (inactive_upd_effect (eff_with_deps _)) by done.
  rewrite inactive_cleanup. unfold inactive in *. simpl.
  destruct He' as (o' & Ho' & Ha).
  destruct (decide (e = e')) as [->|].
  - rewrite list_lookup_alter_eq, Ho'. simpl. eauto.
  - rewrite list_lookup_alter_ne by done. eauto.
Qed.

Lemma inactive_stop e s : is_Some (effects s !! e) -> inactive e (stop e s).
Proof.
  intros [o He]. unfold stop. rewrite He.
  rewrite (inactive_upd_effect (eff_with_deps _)) by done.
  rewrite inactive_cleanup. unfold inactive. simpl.
  rewrite list_lookup_alter_eq, He. simpl. eauto.
Qed.

Lemma log_stop e s :
  log (stop e s) = log s ++ (if effects s !! e is Some _ then [EvStop e] else []).
Proof.
  unfold stop. destruct (effects s !! e); simpl; [|by rewrite app_nil_r].
  by rewrite log_cleanup.
Qed.

Lemma no_run_after_stop_snoc e l ev :
  no_run_after_stop e l ->
  (ev = EvRun e -> EvStop e ∉ l) ->
  no_run_after_stop e (l ++ [ev]).
Proof.
  intros Hl Hev l1 l2 Heq.
  destruct l2 as [|ev0 l2'0] using rev_ind.
  { apply not_elem_of_nil. }
  clear IHl2'0. rename l2'0 into l2', ev0 into ev'.
  rewrite app_comm_cons, app_assoc in Heq.
  apply app_inj_tail in Heq as [-> ->].
  rewrite not_elem_of_app, list_elem_of_singleton. split.
  - by eapply Hl.
  - intros <-. eapply Hev; [done|]. rewrite elem_of_app, elem_of_cons. auto.
Qed.


Lemma pendingEffects_upd_effect f e s :
  pendingEffects (upd_effect f e s) = pendingEffects s.
Proof. done. Qed.

Lemma pendingEffects_upd_cell f c s :
  pendingEffects (upd_cell f c s) = pendingEffects s.
Proof. by destruct c. Qed.

Lemma pendingEffects_cleanup e s : pendingEffects (cleanup e s) = pendingEffects s.
Proof.
  unfold cleanup. destruct (effects s !! e) as [o|]; [|done].
  rewrite pendingEffects_upd_effect. generalize (cleanups o) as l.
  intros l. revert s. induction l as [|u l IH]; intros s; simpl; [done|].
  rewrite IH. apply pendingEffects_upd_cell.
Qed.

Lemma pendingEffects_stop e s : pendingEffects (stop e s) = pendingEffects s.
Proof.
  unfold stop. destruct (effects s !! e); [|done].
  by rewrite pendingEffects_upd_effect, pendingEffects_cleanup.
Qed.

Lemma run_count_snoc e l ev :
  run_count e (l ++ [ev]) = run_count e l + (if decide (ev = EvRun e) then 1 else 0).
Proof.
  unfold run_count. rewrite filter_app, length_app. f_equal.
  rewrite filter_cons, filter_nil. by repeat case_decide.
Qed.

(** ** How the elementary steps act on flags, subscribers and edges *)

Lemma effect_active_alt e s : effect_active e s = default false (active_of e s).
Proof. done. Qed.

Lemma inactive_alt e s : inactive e s <-> active_of e s = Some false.
Proof.
  unfold inactive, active_of. destruct (effects s !! e) as [o|]; simpl.
  - split; [intros (o' & [= <-] & ->); done|intros [= Ha]; eauto].
  - split; [intros (o' & [=] & _)|done].
Qed.

Lemma lookup_alter_view {A B} (view : A -> B) (f : A -> A) (l : list A) i j :
  (forall a, view (f a) = view a) ->
  view <$> alter f i l !! j = view <$> l !! j.
Proof.
  intros Hf. destruct (decide (i = j)) as [->|].
  - rewrite list_lookup_alter_eq. destruct (l !! j); simpl; [|done]. by rewrite Hf.
  - by rewrite list_lookup_alter_ne.
Qed.

Lemma active_of_upd_effect f e e' s :
  (forall o, active (f o) = active o) ->
  active_of e' (upd_effect f e s) = active_of e' s.
Proof. intros Hf. by apply lookup_alter_view. Qed.

Lemma active_of_cleanup e e' s : active_of e' (cleanup e s) = active_of e' s.
Proof.
  unfold active_of. rewrite effects_cleanup. by apply lookup_alter_view.
Qed.

Lemma active_of_call_callback cb e s :
  active_of e (call_callback cb s) = active_of e s.
Proof.
  unfold call_callback. repeat case_match; try done.
  unfold active_of. rewrite effects_schedule. by apply lookup_alter_view.
Qed.

Lemma active_of_track e c e' s : active_of e' (track e c s) = active_of e' s.
Proof.
  unfold track. repeat case_match; try done.
  rewrite active_of_upd_effect by done.
  unfold active_of, subscribe. rewrite effects_upd_cell.
  by apply lookup_alter_view.
Qed.

Lemma active_of_track_current c e s :
  active_of e (track_current c s) = active_of e s.
Proof.
  unfold track_current. simpl. case_match; [|done]. by rewrite active_of_track.
Qed.

Lemma active_of_stop e e' s :
  active_of e' (stop e s)
  = if decide (e = e') then (fun _ => false) <$> active_of e' s else active_of e' s.
Proof.
  unfold stop. destruct (effects s !! e) as [o|] eqn:He.
  - rewrite active_of_upd_effect, active_of_cleanup by done.
    unfold active_of. simpl. case_decide as Hee; [subst e'|].
    + rewrite list_lookup_alter_eq, He. done.
    + by rewrite list_lookup_alter_ne.
  - case_decide; [subst e'|done]. unfold active_of. by rewrite He.
Qed.

Lemma cell_signal_upd_cell f c c' s :
  cell_signal c' (upd_cell f c s)
  = if decide (c = c') then f <$> cell_signal c s else cell_signal c' s.
Proof.
  destruct (decide (c = c')) as [<-|Hne].
  - destruct c as [x|d]; simpl.
    + by rewrite list_lookup_alter_eq.
    + rewrite list_lookup_alter_eq. by destruct (computeds s !! d).
  - destruct c as [x|d], c' as [x'|d']; simpl; try done.
    + by rewrite list_lookup_alter_ne by congruence.
    + by rewrite list_lookup_alter_ne by congruence.
Qed.

Lemma subscribers_upd_value c c' v s :
  cell_subscribers c' (upd_cell (sig_with_value v) c s) = cell_subscribers c' s.
Proof.
  unfold cell_subscribers. rewrite cell_signal_upd_cell.
  case_decide; [subst c'|done]. by destruct (cell_signal c s).
Qed.

Lemma subscribers_upd_dirty b d c s :
  cell_subscribers c (upd_computed (comp_with_dirty b) d s) = cell_subscribers c s.
Proof.
  unfold cell_subscribers. destruct c as [x|d']; simpl; [done|].
  by rewrite (lookup_alter_view base).
Qed.

Lemma subscribers_upd_effect f e c s :
  cell_subscribers c (upd_effect f e s) = cell_subscribers c s.
Proof. by destruct c. Qed.

Lemma subscribers_schedule e c s :
  cell_subscribers c (schedule e s) = cell_subscribers c s.
Proof. unfold schedule. case_match; by destruct c. Qed.

Lemma subscribers_call_callback cb c s :
  cell_subscribers c (call_callback cb s) = cell_subscribers c s.
Proof.
  unfold call_callback. repeat case_match; try done.
  by rewrite subscribers_schedule, subscribers_upd_effect.
Qed.

Lemma elem_of_subscribers_subscribe c cb c' cb' s :
  is_Some (cell_signal c s) ->
  cb' ∈ cell_subscribers c' (subscribe c cb s)
  <-> cb' ∈ cell_subscribers c' s \/ (c' = c /\ cb' = cb).
Proof.
  intros [g Hg]. unfold subscribe, cell_subscribers.
  rewrite cell_signal_upd_cell. case_decide as Hc.
  - subst c'. rewrite Hg. simpl. rewrite elem_of_set_add. naive_solver.
  - naive_solver.
Qed.

Lemma elem_of_subscribers_unsubscribe u c' cb' s :
  cb' ∈ cell_subscribers c' (call_unsubscribe u s)
  <-> cb' ∈ cell_subscribers c' s /\ (c', cb') <> u.
Proof.
  destruct u as [c cb]. unfold call_unsubscribe, cell_subscribers. simpl.
  rewrite cell_signal_upd_cell. case_decide as Hc.
  - subst c'. destruct (cell_signal c s) as [g|]; simpl.
    + rewrite elem_of_set_delete. naive_solver.
    + split; [intros []%not_elem_of_nil|intros [[]%not_elem_of_nil _]].
  - naive_solver.
Qed.

Lemma elem_of_subscribers_unsubscribe_loop (l : list unsubscribe) c' cb' s :
  cb' ∈ cell_subscribers c' (foldl (fun s u => call_unsubscribe u s) s l)
  <-> cb' ∈ cell_subscribers c' s /\ (c', cb') ∉ l.
Proof.
  revert s. induction l as [|u l IH]; intros s; simpl.
  - split; [intros ?; split; [done|apply not_elem_of_nil]|by intros [? _]].
  - rewrite IH, elem_of_subscribers_unsubscribe, not_elem_of_cons. tauto.
Qed.

Lemma elem_of_subscribers_cleanup e o c cb s :
  effects s !! e = Some o ->
  cb ∈ cell_subscribers c (cleanup e s)
  <-> cb ∈ cell_subscribers c s /\ (c, cb) ∉ cleanups o.
Proof.
  intros He. unfold cleanup. rewrite He, subscribers_upd_effect.
  apply elem_of_subscribers_unsubscribe_loop.
Qed.

Lemma edges_of_Some e s o :
  effects s !! e = Some o -> edges_of e s = Some (dependencies o, cleanups o).
Proof. intros He. unfold edges_of. by rewrite He. Qed.

Lemma edges_of_inv e s d cl :
  edges_of e s = Some (d, cl) ->
  exists o, effects s !! e = Some o /\ dependencies o = d /\ cleanups o = cl.
Proof.
  unfold edges_of. destruct (effects s !! e) as [o|]; [|done].
  intros [= <- <-]. eauto.
Qed.

Lemma edges_of_upd_effect f e e' s :
  (forall o, dependencies (f o) = dependencies o) ->
  (forall o, cleanups (f o) = cleanups o) ->
  edges_of e' (upd_effect f e s) = edges_of e' s.
Proof.
  intros Hd Hc. apply (lookup_alter_view (fun o => (dependencies o, cleanups o))).
  intros o. by rewrite Hd, Hc.
Qed.

Lemma edges_of_upd_cell f c e s : edges_of e (upd_cell f c s) = edges_of e s.
Proof. unfold edges_of. by rewrite effects_upd_cell. Qed.

Lemma edges_of_call_callback cb e s :
  edges_of e (call_callback cb s) = edges_of e s.
Proof.
  unfold call_callback. repeat case_match; try done.
  unfold edges_of. rewrite effects_schedule.
  by apply (edges_of_upd_effect (eff_with_scheduled true)).
Qed.

Lemma edges_of_cleanup e e' s :
  edges_of e' (cleanup e s)
  = if decide (e = e') then (fun p => (p.1, [])) <$> edges_of e' s else edges_of e' s.
Proof.
  unfold edges_of. rewrite effects_cleanup. case_decide as Hee; [subst e'|].
  - rewrite list_lookup_alter_eq. by destruct (effects s !! e).
  - by rewrite list_lookup_alter_ne.
Qed.

Lemma edges_of_stop_ne e e' s : e <> e' -> edges_of e' (stop e s) = edges_of e' s.
Proof.
  intros Hne. unfold stop. destruct (effects s !! e); [|done].
  unfold edges_of. simpl. rewrite list_lookup_alter_ne, effects_cleanup by done.
  simpl. by rewrite !list_lookup_alter_ne.
Qed.

Lemma edges_of_stop_eq e s :
  edges_of e (stop e s) = (fun _ => ([], [])) <$> edges_of e s.
Proof.
  unfold stop. destruct (effects s !! e) as [o|] eqn:He.
  - unfold edges_of. simpl. rewrite list_lookup_alter_eq, effects_cleanup.
    simpl. rewrite !list_lookup_alter_eq, He. done.
  - unfold edges_of. by rewrite He.
Qed.

Lemma edges_of_track_ne e c e' s : e <> e' -> edges_of e' (track e c s) = edges_of e' s.
Proof.
  intros Hne. unfold track. repeat case_match; try done.
  unfold edges_of. simpl. rewrite list_lookup_alter_ne by done.
  unfold subscribe. rewrite effects_upd_cell. simpl.
  by rewrite list_lookup_alter_ne.
Qed.

Lemma edges_of_track_eq e c s d cl :
  edges_of e s = Some (d, cl) ->
  edges_of e (track e c s)
  = Some (if bool_decide (c ∈ d) then (d, cl)
          else (d ++ [c], cl ++ [(c, mkCallback (next_cb s) e)])).
Proof.
  intros (o & He & <- & <-)%edges_of_inv. unfold track. rewrite He.
  case_bool_decide as Hc; [by apply edges_of_Some|].
  unfold edges_of. simpl. rewrite list_lookup_alter_eq.
  unfold subscribe. rewrite effects_upd_cell. simpl.
  rewrite list_lookup_alter_eq, He. simpl. unfold set_add.
  by rewrite bool_decide_eq_false_2.
Qed.

Lemma elem_of_subscribers_track e c c' cb' s d cl :
  edges_of e s = Some (d, cl) -> is_Some (cell_signal c s) ->
  cb' ∈ cell_subscribers c' (track e c s)
  <-> cb' ∈ cell_subscribers c' s
      \/ ((c ∉ d) /\ c' = c /\ cb' = mkCallback (next_cb s) e).
Proof.
  intros (o & He & <- & <-)%edges_of_inv Hc. unfold track. rewrite He.
  case_bool_decide as Hd; [naive_solver|].
  rewrite subscribers_upd_effect, elem_of_subscribers_subscribe.
  - change (cell_subscribers c' (set_next_cb _ _)) with (cell_subscribers c' s).
    simpl. naive_solver.
  - destruct c; simpl in *; done.
Qed.

Lemma elem_of_subscribers_stop e o c cb s :
  effects s !! e = Some o ->
  cb ∈ cell_subscribers c (stop e s)
  <-> cb ∈ cell_subscribers c s /\ (c, cb) ∉ cleanups o.
Proof.
  intros He. unfold stop. rewrite He, subscribers_upd_effect.
  rewrite (elem_of_subscribers_cleanup e (eff_with_active false o)).
  - done.
  - simpl. by rewrite list_lookup_alter_eq, He.
Qed.

Lemma subscribers_stop_missing e c s :
  effects s !! e = None -> cell_subscribers c (stop e s) = cell_subscribers c s.
Proof. intros He. unfold stop. by rewrite He. Qed.

Lemma current_upd_cell f c s : current (upd_cell f c s) = current s.
Proof. by destruct c. Qed.

Lemma current_schedule e s : current (schedule e s) = current s.
Proof. unfold schedule. by case_match. Qed.

Lemma current_call_callback cb s : current (call_callback cb s) = current s.
Proof.
  unfold call_callback. repeat case_match; try done. by rewrite current_schedule.
Qed.

Lemma current_cleanup e s : current (cleanup e s) = current s.
Proof.
  unfold cleanup. destruct (effects s !! e) as [o|]; [|done]. simpl.
  generalize (cleanups o) as l. intros l. revert s.
  induction l as [|u l IH]; intros s; simpl; [done|].
  rewrite IH. apply current_upd_cell.
Qed.

Lemma current_stop e s : current (stop e s) = current s.
Proof.
  unfold stop. destruct (effects s !! e); [|done]. simpl.
  by rewrite current_cleanup.
Qed.

Lemma current_track e c s : current (track e c s) = current s.
Proof.
  unfold track. repeat case_match; try done. simpl.
  unfold subscribe. by rewrite current_upd_cell.
Qed.


Lemma log_run_prologue e s : log (run_prologue e s) = log s.
Proof. unfold run_prologue. by rewrite log_upd_effect, log_cleanup. Qed.

Lemma active_of_run_prologue e e' s :
  active_of e' (run_prologue e s) = active_of e' s.
Proof.
  unfold run_prologue.
  rewrite active_of_upd_effect, active_of_cleanup by done.
  by apply active_of_upd_effect.
Qed.


(** ** Invariants of the engine

    An invariant that the elementary steps keep is kept by every
    operation of the engine and by every program of a user. *)

Section EngineInvariant.
Variable I : state -> Prop.

Hypothesis I_emit : forall ev s,
  match ev with EvRun _ | EvStop _ => False | _ => True end ->
  I s -> I (emit ev s).
Hypothesis I_run : forall e s, ~ inactive e s -> I s -> I (emit (EvRun e) s).
Hypothesis I_track : forall c s,
  is_Some (cell_signal c s) -> I s -> I (track_current c s).
Hypothesis I_value : forall c v s, I s -> I (upd_cell (sig_with_value v) c s).
Hypothesis I_callback : forall cb s, I s -> I (call_callback cb s).
Hypothesis I_stop : forall e s, I s -> I (stop e s).
Hypothesis I_dirty : forall d b s, I s -> I (upd_computed (comp_with_dirty b) d s).
Hypothesis I_prologue : forall e s, I s -> I (run_prologue e s).
Hypothesis I_tracker : forall c st s, I s -> I (set_tracker c st s).
Hypothesis I_scheduler : forall p a b n s, I s -> I (set_scheduler p a b n s).
Hypothesis I_new_signal : forall v s, I s -> I (new_signal v s).2.
Hypothesis I_new_effect : forall f s,
  I s -> I (set_effects (fun l => l ++ [mkEffect f [] [] true false None]) s).
Hypothesis I_new_computed : forall g s,
  I s ->
  I (set_nextId (S (_nextId s))
       (set_computeds
          (fun l => l ++ [mkComputed (mkSignal VUndef [] (_nextId s)) g None true]) s)).
Hypothesis I_link : forall d e s,
  I s ->
  I (upd_effect (eff_with_own_run (Some d)) e
       (upd_computed (comp_with_effect (Some e)) d s)).

(** The hypotheses of section [Preservation]. *)
Ltac keeps_steps :=
  first
    [ intros [] ? ? ?; simpl in *; try done; by apply I_emit
    | intros; by apply I_track
    | intros; by apply I_value
    | intros; by apply I_callback
    | intros; by apply I_stop
    | intros; by apply I_dirty
    | intros; apply stops_only_True
    | intros; by apply I_emit
    | apply shape_exec_getter
    | apply recompute_keeps_cell ].

Lemma signal_get_keeps x s : I s -> I (signal_get x s).2.
Proof. apply signal_get_pres; keeps_steps. Qed.

Lemma signal_set_keeps x v s : I s -> I (signal_set x v s).
Proof. apply signal_set_pres; keeps_steps. Qed.

Lemma computed_get_keeps d s : I s -> I (computed_get d s).2.
Proof. apply (computed_get_pres (fun _ => True)); keeps_steps. Qed.

Lemma call_fn_keeps e f s : I s -> I (call_fn e f s).2.
Proof.
  apply (call_fn_pres (fun _ => True)); try keeps_steps.
  destruct f; simpl; [apply stops_only_True|done].
Qed.

Lemma tracker_track_keeps e f s :
  ~ inactive e s -> I s -> I (tracker_track e f s).2.
Proof.
  intros He Hs. unfold tracker_track.
  set (s1 := emit _ _).
  assert (I s1) as Hs1 by (by apply I_run, I_tracker).
  pose proof (call_fn_keeps e f s1 Hs1) as Hc.
  destruct (call_fn e f s1) as [ok s2]. simpl in *.
  by apply I_tracker.
Qed.

Lemma run_method_keeps e s : I s -> I (run_method e s).
Proof.
  intros Hs. unfold run_method.
  destruct (effects s !! e) as [o|] eqn:He; [|done].
  destruct (active o) eqn:Ha; simpl; [|done].
  assert (~ inactive e (run_prologue e s)) as Hact.
  { rewrite inactive_alt, active_of_run_prologue.
    unfold active_of. rewrite He. simpl. congruence. }
  pose proof (tracker_track_keeps e (fn o) _ Hact (I_prologue e s Hs)) as Ht.
  destruct (tracker_track e (fn o) _) as [[] s4]; simpl in *; [done|].
  by apply I_emit.
Qed.

Lemma run_keeps e s : I s -> I (run e s).
Proof.
  intros Hs. unfold run. destruct (effects s !! e) as [o|]; [|done].
  destruct (own_run o); [by apply I_dirty|by apply run_method_keeps].
Qed.

Lemma flush_step_keeps s e : I s -> I (flush_step s e).
Proof.
  intros Hs. unfold flush_step. repeat case_match; try done. by apply run_keeps.
Qed.

Lemma flush_loop_keeps (l : list nat) s : I s -> I (flush_loop l s).2.
Proof.
  revert s. induction l as [|e l IH]; intros s Hs; simpl; [done|].
  case_match; simpl; [by apply flush_step_keeps|]. by apply IH, flush_step_keeps.
Qed.

Lemma flush_keeps s : I s -> I (flush s).
Proof.
  intros Hs. unfold flush. destruct (isFlushing s); [done|].
  cbv zeta.
  pose proof (flush_loop_keeps (pendingEffects s)
                (set_scheduler [] false true (frames s) s)) as Hloop.
  simpl in *. destruct (flush_loop _ _) as [[] s3]; simpl in *.
  - assert (I s3) as Hs3 by (by apply Hloop, I_scheduler).
    case_match; [unfold requestAnimationFrame|]; by repeat apply I_scheduler.
  - by apply Hloop, I_scheduler.
Qed.

Lemma new_effect_keeps f s : I s -> I (new_effect f s).2.
Proof. intros Hs. unfold new_effect. simpl. by apply run_method_keeps, I_new_effect. Qed.

Lemma new_computed_keeps g s : I s -> I (new_computed g s).2.
Proof.
  intros Hs. unfold new_computed.
  pose proof (new_effect_keeps (FnComputed (length (computeds s))) _
                (I_new_computed g s Hs)) as Hn.
  destruct (new_effect _ _) as [e s2]. simpl in *.
  case_match; simpl; [done|]. by apply I_link.
Qed.

Lemma apply_op_keeps s o : I s -> I (apply_op s o).
Proof.
  intros Hs. destruct o; simpl.
  - by apply I_new_signal.
  - by apply new_effect_keeps.
  - by apply new_computed_keeps.
  - by apply signal_get_keeps.
  - by apply signal_set_keeps.
  - by apply computed_get_keeps.
  - by apply I_emit.
  - by apply I_stop.
  - by apply run_keeps.
  - by apply flush_keeps.
  - unfold animation_frame. destruct (frames s); [done|].
    by apply flush_keeps, I_scheduler.
Qed.

Lemma run_ops_keeps ops s : I s -> I (run_ops ops s).
Proof.
  revert s. induction ops as [|o ops IH]; intros s Hs; simpl; [done|].
  by apply IH, apply_op_keeps.
Qed.
End EngineInvariant.

(** ** Invariants over the log and the stopped effects

    An invariant that only depends on the log and on which effects are
    stopped, and that is kept when an event is logged, unless the event
    is the run of a stopped effect or the stop of an effect that is not
    stopped, is an invariant of the engine. *)

Section LogInvariant.
Variable I : state -> Prop.

Hypothesis I_same : forall s s',
  log s' = log s -> (forall e, inactive e s -> inactive e s') -> I s -> I s'.
Hypothesis I_emit : forall ev s,
  (forall e, ev = EvRun e -> ~ inactive e s) ->
  (forall e, ev = EvStop e -> inactive e s) ->
  I s -> I (emit ev s).

Lemma log_inv_stop e s : I s -> I (stop e s).
Proof.
  intros Hs. destruct (effects s !! e) as [o|] eqn:He.
  2: { unfold stop. by rewrite He. }
  unfold stop. rewrite He.
  set (s1 := emit (EvStop e) (upd_effect (eff_with_active false) e s)).
  assert (I s1) as Hs1.
  { apply I_emit.
    - done.
    - intros e' [= <-]. unfold inactive. simpl.
      rewrite list_lookup_alter_eq, He. simpl. eauto.
    - eapply I_same; [| |exact Hs]; [done|].
      intros e' (o' & Ho' & Ha). unfold inactive. simpl.
      destruct (decide (e = e')) as [->|].
      + rewrite list_lookup_alter_eq, Ho'. simpl. eauto.
      + rewrite list_lookup_alter_ne by done. eauto. }
  eapply I_same; [| |exact Hs1].
  - simpl. by rewrite log_cleanup.
  - intros e' He'.
    rewrite (inactive_upd_effect (eff_with_deps _)) by done.
    by rewrite inactive_cleanup.
Qed.

Lemma log_inv_track_current c s : I s -> I (track_current c s).
Proof.
  intros Hs. unfold track_current.
  assert (I (emit (EvRead (current s) c) s)) as Hs1 by (by apply I_emit).
  simpl. destruct (current s) as [e|]; [|done].
  eapply I_same; [apply log_track| |exact Hs1].
  intros e'. by rewrite inactive_track.
Qed.

Lemma log_inv_run_ops ops s : I s -> I (run_ops ops s).
Proof.
  apply run_ops_keeps.
  - intros ev s' Hev. apply I_emit; by intros e ->.
  - intros e s' He. apply I_emit; [by intros e' [= <-]|done].
  - intros c s' _. apply log_inv_track_current.
  - intros c v s'. apply I_same; [apply log_upd_cell|].
    intros e. unfold inactive. by rewrite effects_upd_cell.
  - intros cb s'. apply I_same; [apply log_call_callback|].
    intros e. by rewrite inactive_call_callback.
  - apply log_inv_stop.
  - intros d b s'. by apply I_same.
  - intros e s'. apply I_same; [apply log_run_prologue|].
    intros e'. by rewrite !inactive_alt, active_of_run_prologue.
  - intros c st s'. by apply I_same.
  - intros p a b n s'. by apply I_same.
  - intros v s'. by apply I_same.
  - intros f s'. apply I_same; [done|].
    intros e (o & Ho & Ha). exists o. split; [|done]. simpl.
    by apply lookup_app_l_Some.
  - intros g s'. by apply I_same.
  - intros d e s'. apply I_same; [done|].
    intros e'. by rewrite (inactive_upd_effect (eff_with_own_run _)).
Qed.
End LogInvariant.

(** The invariant: an effect whose [stop] was logged is inactive, and no
    run of its body was logged since. *)
Definition stop_inv (s : state) : Prop :=
  forall e, (EvStop e ∈ log s -> inactive e s) /\ no_run_after_stop e (log s).

Lemma stop_inv_same s s' :
  log s' = log s -> (forall e, inactive e s -> inactive e s') ->
  stop_inv s -> stop_inv s'.
Proof.
  intros Hlog Hmono Hs e. rewrite Hlog. destruct (Hs e). split; auto.
Qed.

Lemma stop_inv_emit ev s :
  (forall e, ev = EvRun e -> ~ inactive e s) ->
  (forall e, ev = EvStop e -> inactive e s) ->
  stop_inv s -> stop_inv (emit ev s).
Proof.
  intros Hrun Hstop Hs e. destruct (Hs e) as [H1 H2]. simpl. split.
  - rewrite elem_of_app, list_elem_of_singleton. intros [?|Hev]; [by apply H1|].
    by apply Hstop.
  - apply no_run_after_stop_snoc; [done|]. intros -> Hin.
    by apply (Hrun e), H1.
Qed.


Lemma stop_inv_run_ops ops s : stop_inv s -> stop_inv (run_ops ops s).
Proof. apply log_inv_run_ops; [apply stop_inv_same|apply stop_inv_emit]. Qed.

Lemma stop_inv_init : stop_inv init_state.
Proof.
  intros e. split.
  - intros []%not_elem_of_nil.
  - intros l1 l2 Heq. by destruct l1.
Qed.

(** A stopped effect with a run count that does not move. *)
Definition stays_quiet (e n : nat) (s : state) : Prop :=
  inactive e s /\ run_count e (log s) = n.

Lemma stays_quiet_run_ops e n ops s :
  stays_quiet e n s -> stays_quiet e n (run_ops ops s).
Proof.
  apply log_inv_run_ops.
  - intros s1 s2 Hlog Hmono [Hin Hn]. split; [by apply Hmono|by rewrite Hlog].
  - intros ev s1 Hrun _ [Hin Hn]. split; [done|]. simpl.
    rewrite run_count_snoc, Hn. case_decide as Hev; [|lia].
    by destruct (Hrun e Hev).
Qed.

(** C6. Stop semantics. After [e.stop()] the body of [e] is never
    invoked again, whatever is written, flushed or run afterwards; [stop]
    leaves the pending set of the scheduler as it is (an entry of [e]
    stays there and is skipped by [flush]); and in every log the engine
    can produce, also when the stop is issued by a body in the middle of
    a flush, no run of [e] follows a stop of [e]. *)
Theorem stop_semantics (e : nat) (s : state) (ops : list op) :
  is_Some (effects s !! e) ->
  run_count e (log (run_ops ops (stop e s))) = run_count e (log (stop e s))
  /\ effect_active e (run_ops ops (stop e s)) = false
  /\ pendingEffects (stop e s) = pendingEffects s
  /\ forall ops', no_run_after_stop e (log (run_ops ops' init_state)).
Proof.
  intros He.
  assert (stays_quiet e (run_count e (log (stop e s))) (stop e s)) as Hq.
  { split; [by apply inactive_stop|done]. }
  apply (stays_quiet_run_ops _ _ ops) in Hq as [(o & Ho & Ha) Hn].
  split_and!.
  - done.
  - unfold effect_active. by rewrite Ho.
  - apply pendingEffects_stop.
  - intros ops'. apply (stop_inv_run_ops ops' init_state stop_inv_init).
Qed.


(** The effect of [cond_pending_state] is stopped while it is pending;
    the flush skips it and later writes do not bring it back. *)
Lemma stop_semantics_witness :
  is_Some (effects cond_pending_state !! 0)
  /\ pendingEffects (stop 0 cond_pending_state) = [0]
  /\ run_count 0 (log (run_ops [FlushSync; Write 2 (VNum 7); AnimationFrame]
                         (stop 0 cond_pending_state)))
     = run_count 0 (log (stop 0 cond_pending_state)).
Proof.
  assert (is_Some (effects cond_pending_state !! 0)) as He.
  { eexists. vm_compute. reflexivity. }
  split_and!; [exact He|vm_compute; reflexivity|].
  exact (proj1 (stop_semantics 0 cond_pending_state
                  [FlushSync; Write 2 (VNum 7); AnimationFrame] He)).
Defined.


(** ** The invariant of a tracked run *)

Lemma tracking_frame e l0 s s' :
  current s' = current s ->
  (forall e', edges_of e' s' = edges_of e' s) ->
  (forall c, cell_subscribers c s' = cell_subscribers c s) ->
  log s' = log s ->
  tracking e l0 s -> tracking e l0 s'.
Proof.
  intros Hcur Hedges Hsubs Hlog (H1 & H2 & H3 & l & H4 & H5).
  assert (forall c, subscribed e c s' <-> subscribed e c s) as Hsub.
  { intros c. unfold subscribed. by rewrite Hsubs. }
  split_and!.
  - congruence.
  - intros e' d cl c cb. rewrite Hedges. apply H2.
  - intros d cl c. rewrite Hedges, Hsub. apply H3.
  - exists l. split; [congruence|]. intros c. by rewrite Hsub.
Qed.

Lemma tracking_emit e l0 ev s :
  (forall c, ev <> EvRead (Some e) c) ->
  tracking e l0 s -> tracking e l0 (emit ev s).
Proof.
  intros Hev (H1 & H2 & H3 & l & H4 & H5). split_and!; try done.
  exists (l ++ [ev]). simpl. rewrite H4, app_assoc. split; [done|].
  intros c. rewrite elem_of_app, list_elem_of_singleton.
  change (subscribed e c (emit ev s)) with (subscribed e c s).
  rewrite H5. split; [auto|]. intros [?|Heq]; [done|]. by destruct (Hev c).
Qed.

Lemma tracking_track_current e l0 c s :
  is_Some (cell_signal c s) -> is_Some (effects s !! e) ->
  tracking e l0 s -> tracking e l0 (track_current c s).
Proof.
  intros Hc [o Ho] (H1 & H2 & H3 & l & H4 & H5).
  unfold track_current. simpl. rewrite H1.
  set (s1 := emit (EvRead (Some e) c) s).
  pose proof (edges_of_Some e s o Ho) as He.
  assert (edges_of e s1 = Some (dependencies o, cleanups o)) as He1 by done.
  assert (is_Some (cell_signal c s1)) as Hc1 by done.
  assert (forall c0, subscribed e c0 (track e c s1)
                     <-> subscribed e c0 s \/ c0 = c) as Hsub.
  { intros c0. unfold subscribed. split.
    - intros (cb & Hcb & Hown).
      apply (elem_of_subscribers_track e c c0 cb s1 _ _ He1 Hc1) in Hcb.
      destruct Hcb as [Hcb|(_ & -> & _)]; [left; by exists cb|by right].
    - intros [(cb & Hcb & Hown)| ->].
      + exists cb. split; [|done].
        apply (elem_of_subscribers_track e c c0 cb s1 _ _ He1 Hc1). by left.
      + destruct (decide (c ∈ dependencies o)) as [Hin|Hnin].
        * destruct (H3 _ _ c He Hin) as (cb & Hcb & Hown).
          exists cb. split; [|done].
          apply (elem_of_subscribers_track e c c cb s1 _ _ He1 Hc1). by left.
        * exists (mkCallback (next_cb s1) e). split; [|done].
          apply (elem_of_subscribers_track e c c _ s1 _ _ He1 Hc1). by right. }
  split_and!.
  - by rewrite current_track.
  - intros e' d cl c0 cb Hed Hin. destruct (decide (e = e')) as [<-|Hne].
    + rewrite (edges_of_track_eq e c s1 _ _ He1) in Hed.
      case_bool_decide; simplify_eq; [by eapply H2|].
      apply elem_of_app in Hin as [Hin|Hin%list_elem_of_singleton].
      * by eapply H2.
      * by simplify_eq.
    + rewrite edges_of_track_ne in Hed by done. by eapply H2.
  - intros d cl c0 Hed Hin. apply Hsub.
    rewrite (edges_of_track_eq e c s1 _ _ He1) in Hed.
    case_bool_decide; simplify_eq; [left; by eapply H3|].
    apply elem_of_app in Hin as [Hin|Hin%list_elem_of_singleton].
    * left. by eapply H3.
    * by right.
  - exists (l ++ [EvRead (Some e) c]). split.
    + rewrite log_track. simpl. by rewrite H4, app_assoc.
    + intros c0. rewrite Hsub, elem_of_app, list_elem_of_singleton, H5.
      split; (intros [?|?]; [by left|right; congruence]).
Qed.

Lemma tracking_stop e l0 e' s :
  e' <> e -> tracking e l0 s -> tracking e l0 (stop e' s).
Proof.
  intros Hne (H1 & H2 & H3 & l & H4 & H5).
  assert (forall c, subscribed e c (stop e' s) <-> subscribed e c s) as Hsub.
  { intros c. unfold subscribed.
    destruct (effects s !! e') as [o'|] eqn:He'.
    - split; intros (cb & Hcb & Hown); exists cb; (split; [|done]).
      + by apply (elem_of_subscribers_stop e' o') in Hcb as [? _].
      + apply (elem_of_subscribers_stop e' o'); [done|]. split; [done|].
        intros Hin. apply Hne. rewrite <- Hown.
        symmetry. eapply H2; [by apply edges_of_Some|done].
    - by rewrite subscribers_stop_missing. }
  split_and!.
  - by rewrite current_stop.
  - intros e'' d cl c cb Hed Hin. destruct (decide (e' = e'')) as [<-|Hne'].
    + rewrite edges_of_stop_eq in Hed.
      destruct (edges_of e' s); simplify_eq/=. by apply not_elem_of_nil in Hin.
    + rewrite edges_of_stop_ne in Hed by done. by eapply H2.
  - intros d cl c. rewrite edges_of_stop_ne, Hsub by done. apply H3.
  - rewrite log_stop, H4. destruct (effects s !! e').
    + exists (l ++ [EvStop e']). rewrite app_assoc. split; [done|].
      intros c. rewrite Hsub, H5, elem_of_app, list_elem_of_singleton.
      split; [auto|]. intros [?|?]; done.
    + exists l. rewrite app_nil_r. split; [done|]. intros c. by rewrite Hsub.
Qed.

Lemma effect_active_is_Some e s :
  effect_active e s = true -> is_Some (effects s !! e).
Proof. unfold effect_active. by destruct (effects s !! e). Qed.

(** While [e] stays active, a body run for [e] keeps the invariant. *)
Lemma tracking_exec_body e l0 b s :
  (effect_active e s = true -> tracking e l0 s) ->
  effect_active e (exec_body b s).2 = true -> tracking e l0 (exec_body b s).2.
Proof.
  apply (exec_body_pres (fun _ => True)
           (fun s => effect_active e s = true -> tracking e l0 s)).
  - intros ev s' Hev Hs' Ha. apply tracking_emit; [|by apply Hs'].
    intros c ->. done.
  - intros d cb v s' Hs' Ha. apply tracking_emit; [done|by apply Hs'].
  - intros c s' Hc Hs'. rewrite effect_active_alt, active_of_track_current.
    intros Ha. apply tracking_track_current; [done| |by apply Hs'].
    by apply effect_active_is_Some.
  - intros c v s' Hs' Ha.
    assert (effect_active e s' = true) as Ha'.
    { revert Ha. unfold effect_active. by rewrite effects_upd_cell. }
    apply (tracking_frame e l0 s'); [..|by apply Hs'].
    + apply current_upd_cell.
    + intros e'. apply edges_of_upd_cell.
    + intros c'. apply subscribers_upd_value.
    + apply log_upd_cell.
  - intros cb s' Hs'. rewrite effect_active_alt, active_of_call_callback.
    intros Ha. apply (tracking_frame e l0 s'); [..|by apply Hs'].
    + apply current_call_callback.
    + intros e'. apply edges_of_call_callback.
    + intros c'. apply subscribers_call_callback.
    + apply log_call_callback.
  - intros e' s' _ Hs'. rewrite effect_active_alt, active_of_stop.
    case_decide as Hee.
    + by destruct (active_of e s').
    + intros Ha. apply tracking_stop; [done|by apply Hs'].
  - intros d v s' Hs' Ha. apply (tracking_frame e l0 s'); [..|by apply Hs']; try done.
    intros c. apply subscribers_upd_dirty.
  - intros. apply stops_only_True.
  - apply shape_exec_getter.
  - apply recompute_keeps_cell.
  - apply stops_only_True.
Qed.

(** ** The prologue of a run drops every edge *)

Lemma edges_of_run_prologue e e' s :
  edges_of e' (run_prologue e s)
  = if decide (e = e') then (fun _ => ([], [])) <$> edges_of e' s else edges_of e' s.
Proof.
  unfold run_prologue, edges_of. simpl. rewrite effects_cleanup. simpl.
  case_decide as Hee; [subst e'|].
  - rewrite !list_lookup_alter_eq. by destruct (effects s !! e).
  - by rewrite !list_lookup_alter_ne.
Qed.

Lemma elem_of_subscribers_run_prologue e o c cb s :
  effects s !! e = Some o ->
  cb ∈ cell_subscribers c (run_prologue e s)
  <-> cb ∈ cell_subscribers c s /\ (c, cb) ∉ cleanups o.
Proof.
  intros He. unfold run_prologue. rewrite subscribers_upd_effect.
  rewrite (elem_of_subscribers_cleanup e (eff_with_scheduled false o)).
  - by rewrite subscribers_upd_effect.
  - simpl. by rewrite list_lookup_alter_eq, He.
Qed.

Lemma run_prologue_no_edges e o s :
  edges_owned s -> effects s !! e = Some o ->
  forall c, ~ subscribed e c (run_prologue e s).
Proof.
  intros [Hown _] He c (cb & Hcb & Hcbe).
  apply (elem_of_subscribers_run_prologue e o) in Hcb as [Hcb Hnin]; [|done].
  destruct (Hown c cb Hcb) as (o' & Ho' & Hin). rewrite Hcbe in Ho'. congruence.
Qed.

Lemma run_method_unfold e o b s :
  effects s !! e = Some o -> fn o = FnBody b -> active o = true ->
  run_method e s
  = let s3 := run_prologue e s in
    let sb := emit (EvRun e) (set_tracker (Some e) (stack s3 ++ [current s3]) s3) in
    let s4 := set_tracker (current s3) (removelast (stack (exec_body b sb).2))
                (exec_body b sb).2 in
    if bool_decide (is_Some (exec_body b sb).1) then s4 else emit (EvError e) s4.
Proof.
  intros He Hfn Hact. unfold run_method, tracker_track, call_fn.
  rewrite He, Hact, Hfn. cbn [negb]. cbv zeta.
  by destruct (exec_body b _) as [r sc].
Qed.

(** After a run that leaves [e] active, [e] is subscribed to exactly the
    cells it read during the run. *)
Lemma run_method_edges e o b s :
  edges_owned s ->
  effects s !! e = Some o -> fn o = FnBody b -> active o = true ->
  effect_active e (run_method e s) = true ->
  forall c, subscribed e c (run_method e s)
            <-> EvRead (Some e) c ∈ log_since s (run_method e s).
Proof.
  intros Hwf He Hfn Hact. rewrite (run_method_unfold e o b s) by done.
  cbv zeta.
  set (s3 := run_prologue e s).
  set (sb := emit (EvRun e) (set_tracker (Some e) (stack s3 ++ [current s3]) s3)).
  assert (tracking e (log sb) sb) as Htr.
  { split_and!.
    - done.
    - intros e' d cl c cb Hed Hin.
      change (edges_of e' sb) with (edges_of e' s3) in Hed.
      unfold s3 in Hed. rewrite edges_of_run_prologue in Hed.
      case_decide.
      + destruct (edges_of e' s); simplify_eq/=. by apply not_elem_of_nil in Hin.
      + apply edges_of_inv in Hed as (o' & Ho' & _ & <-).
        by eapply (proj2 Hwf).
    - intros d cl c Hed Hin.
      change (edges_of e sb) with (edges_of e s3) in Hed.
      unfold s3 in Hed. rewrite edges_of_run_prologue, decide_True in Hed by done.
      destruct (edges_of e s); simplify_eq/=. by apply not_elem_of_nil in Hin.
    - exists []. rewrite app_nil_r. split; [done|]. intros c.
      split; [|intros []%not_elem_of_nil]. intros Hsub.
      by destruct (run_prologue_no_edges e o s Hwf He c). }
  pose proof (tracking_exec_body e (log sb) b sb (fun _ => Htr)) as Hex.
  destruct (exec_body b sb) as [r sc] eqn:Hexec. cbn [fst snd] in *.
  assert (log sb = log s ++ [EvRun e]) as Hlogb.
  { change (log sb) with (log s3 ++ [EvRun e]). unfold s3.
    by rewrite log_run_prologue. }
  assert (forall s4 extra,
    effects s4 = effects sc -> signals s4 = signals sc ->
    computeds s4 = computeds sc -> log s4 = log sc ++ extra ->
    (forall c, EvRead (Some e) c ∉ extra) ->
    effect_active e s4 = true ->
    forall c, subscribed e c s4 <-> EvRead (Some e) c ∈ log_since s s4) as Hfin.
  { intros s4 extra Heff Hsig Hcomp Hlog Hextra Ha c.
    assert (effect_active e sc = true) as Ha'.
    { revert Ha. unfold effect_active. by rewrite Heff. }
    destruct (Hex Ha') as (_ & _ & _ & l & Hl & Hiff).
    assert (subscribed e c s4 <-> subscribed e c sc) as ->.
    { unfold subscribed, cell_subscribers, cell_signal.
      destruct c; by rewrite ?Hsig, ?Hcomp. }
    rewrite Hiff. unfold log_since. rewrite Hlog, Hl, Hlogb.
    rewrite <- !app_assoc, drop_app_length. simpl.
    rewrite elem_of_cons, elem_of_app. split; [auto|].
    intros [?|[?|?]]; [done|done|]. by destruct (Hextra c). }
  destruct (bool_decide (is_Some r)).
  - apply (Hfin _ []); try done; [by rewrite app_nil_r|].
    intros c. apply not_elem_of_nil.
  - apply (Hfin _ [EvError e]); try done.
    intros c Hin%list_elem_of_singleton. done.
Qed.

(** ** What a notification schedules *)

Lemma elem_of_pending_schedule e e' s :
  e ∈ pendingEffects (schedule e' s) <-> e = e' \/ e ∈ pendingEffects s.
Proof.
  unfold schedule. case_match; simpl; apply elem_of_set_add.
Qed.

Lemma effect_scheduled_upd_ne f e e' s :
  e' <> e -> effect_scheduled e (upd_effect f e' s) = effect_scheduled e s.
Proof.
  intros Hne. unfold effect_scheduled. simpl. by rewrite list_lookup_alter_ne.
Qed.

Lemma effect_scheduled_schedule e e' s :
  effect_scheduled e (schedule e' s) = effect_scheduled e s.
Proof. unfold effect_scheduled. by rewrite effects_schedule. Qed.

Lemma call_callback_flags e cb s :
  active_of e s = Some true ->
  (effect_scheduled e (call_callback cb s) = true
   <-> effect_scheduled e s = true \/ cb_owner cb = e)
  /\ (e ∈ pendingEffects (call_callback cb s)
      <-> e ∈ pendingEffects s \/ (cb_owner cb = e /\ effect_scheduled e s = false)).
Proof.
  intros Hact. unfold call_callback.
  destruct (decide (cb_owner cb = e)) as [->|Hne].
  - unfold active_of in Hact.
    destruct (effects s !! e) as [o|] eqn:Ho; simpl in Hact; [|done].
    injection Hact as Hact.
    assert (effect_scheduled e s = scheduled o) as Hsch.
    { unfold effect_scheduled. by rewrite Ho. }
    rewrite Hsch, Hact. destruct (scheduled o) eqn:Hs; simpl.
    + rewrite Hsch. naive_solver.
    + rewrite effect_scheduled_schedule, elem_of_pending_schedule.
      unfold effect_scheduled. simpl. rewrite list_lookup_alter_eq, Ho. simpl.
      naive_solver.
  - destruct (effects s !! cb_owner cb) as [o'|]; [|naive_solver].
    destruct (active o' && negb (scheduled o')); [|naive_solver].
    rewrite effect_scheduled_schedule, effect_scheduled_upd_ne by done.
    rewrite elem_of_pending_schedule. simpl. naive_solver.
Qed.

Lemma notify_loop_flags e c nv ov (l : list callback) s :
  active_of e s = Some true ->
  let s' := foldl (fun s cb => call_callback cb (emit (EvNotify c cb nv ov) s)) s l in
  active_of e s' = Some true
  /\ (effect_scheduled e s' = true
      <-> effect_scheduled e s = true \/ exists cb, cb ∈ l /\ cb_owner cb = e)
  /\ (e ∈ pendingEffects s'
      <-> e ∈ pendingEffects s
          \/ (effect_scheduled e s = false /\ exists cb, cb ∈ l /\ cb_owner cb = e)).
Proof.
  revert s. induction l as [|cb l IH]; intros s Hact; simpl.
  - split_and!; [done| |]; split; auto.
    + intros [?|(cb & []%not_elem_of_nil & _)]; done.
    + intros [?|(_ & cb & []%not_elem_of_nil & _)]; done.
  - set (s1 := call_callback cb (emit (EvNotify c cb nv ov) s)).
    assert (active_of e s1 = Some true) as Hact1.
    { unfold s1. by rewrite active_of_call_callback. }
    destruct (IH s1 Hact1) as (H1 & H2 & H3).
    destruct (call_callback_flags e cb (emit (EvNotify c cb nv ov) s) Hact)
      as [F1 F2].
    fold s1 in F1, F2.
    change (effect_scheduled e (emit (EvNotify c cb nv ov) s))
      with (effect_scheduled e s) in *.
    change (pendingEffects (emit (EvNotify c cb nv ov) s))
      with (pendingEffects s) in *.
    assert ((exists cb0, cb0 ∈ cb :: l /\ cb_owner cb0 = e)
            <-> cb_owner cb = e \/ exists cb0, cb0 ∈ l /\ cb_owner cb0 = e) as Hex.
    { setoid_rewrite elem_of_cons. naive_solver. }
    split_and!; [done| |].
    + rewrite H2, F1, Hex. tauto.
    + rewrite H3, F2, Hex, <- !not_true_iff_false, F1.
      destruct (decide (cb_owner cb = e)); tauto.
Qed.

(** Writing a changed value into a plain signal schedules an active,
    unscheduled effect exactly when the effect is subscribed to it. *)
Lemma signal_set_schedules e x g v s :
  signals s !! x = Some g -> _value g <> v ->
  effect_active e s = true -> effect_scheduled e s = false ->
  (effect_scheduled e (signal_set x v s) = true /\ e ∈ pendingEffects (signal_set x v s))
  <-> subscribed e (Plain x) s.
Proof.
  intros Hx Hv Hact Hsch. unfold signal_set, strict_eq. rewrite Hx.
  rewrite bool_decide_eq_false_2 by done. unfold _notify.
  change (upd_signal (sig_with_value v) x s)
    with (upd_cell (sig_with_value v) (Plain x) s).
  rewrite subscribers_upd_value. simpl.
  set (s1 := upd_signal (sig_with_value v) x s).
  assert (active_of e s1 = Some true) as Hact1.
  { revert Hact. unfold effect_active, active_of. simpl.
    by destruct (effects s !! e) as [o|]; simpl; [intros ->|]. }
  destruct (notify_loop_flags e (Plain x) v (_value g)
              (cell_subscribers (Plain x) s) s1 Hact1) as (_ & H2 & H3).
  rewrite H2, H3.
  change (effect_scheduled e s1) with (effect_scheduled e s).
  change (pendingEffects s1) with (pendingEffects s). rewrite Hsch.
  unfold subscribed. naive_solver.
Qed.

(** ** Edge ownership is an invariant of the engine *)

Lemma edges_owned_alt s :
  edges_owned s
  <-> (forall c cb, cb ∈ cell_subscribers c s ->
         exists d cl, edges_of (cb_owner cb) s = Some (d, cl) /\ (c, cb) ∈ cl)
      /\ (forall e d cl c cb, edges_of e s = Some (d, cl) -> (c, cb) ∈ cl -> cb_owner cb = e).
Proof.
  unfold edges_owned. split; intros [H1 H2]; split.
  - intros c cb Hcb. destruct (H1 c cb Hcb) as (o & Ho & Hin).
    exists (dependencies o), (cleanups o). split; [by apply edges_of_Some|done].
  - intros e d cl c cb (o & Ho & <- & <-)%edges_of_inv. by apply H2.
  - intros c cb Hcb. destruct (H1 c cb Hcb) as (d & cl & Hed & Hin).
    apply edges_of_inv in Hed as (o & Ho & <- & <-). eauto.
  - intros e o c cb Ho. eapply H2. by apply edges_of_Some.
Qed.

(** Subscribers may go, and an effect may lose all its unsubscribe
    functions or be new, as long as the remaining subscribers keep
    theirs. *)
Lemma edges_owned_weaken s s' :
  (forall c cb, cb ∈ cell_subscribers c s' -> cb ∈ cell_subscribers c s) ->
  (forall e d cl, edges_of e s' = Some (d, cl) ->
     cl = [] \/ exists d', edges_of e s = Some (d', cl)) ->
  (forall c cb d cl, cb ∈ cell_subscribers c s' ->
     edges_of (cb_owner cb) s = Some (d, cl) -> (c, cb) ∈ cl ->
     exists d', edges_of (cb_owner cb) s' = Some (d', cl)) ->
  edges_owned s -> edges_owned s'.
Proof.
  rewrite !edges_owned_alt. intros Hsubs Hedges Hkeep [H1 H2]. split.
  - intros c cb Hcb. destruct (H1 c cb (Hsubs c cb Hcb)) as (d & cl & Hed & Hin).
    destruct (Hkeep c cb d cl Hcb Hed Hin) as (d' & Hd'). eauto.
  - intros e d cl c cb Hed Hin. destruct (Hedges e d cl Hed) as [->|(d' & Hd')].
    + by apply not_elem_of_nil in Hin.
    + by eapply H2.
Qed.

Lemma edges_owned_frame s s' :
  (forall c, cell_subscribers c s' = cell_subscribers c s) ->
  (forall e, edges_of e s' = edges_of e s) ->
  edges_owned s -> edges_owned s'.
Proof.
  intros Hsubs Hedges. apply edges_owned_weaken.
  - intros c cb. by rewrite Hsubs.
  - intros e d cl. rewrite Hedges. eauto.
  - intros c cb d cl _ Hed _. rewrite Hedges. eauto.
Qed.

Lemma edges_owned_track e c s :
  is_Some (cell_signal c s) -> edges_owned s -> edges_owned (track e c s).
Proof.
  intros Hc. destruct (edges_of e s) as [[d cl]|] eqn:He.
  2: { unfold track, edges_of in *. by destruct (effects s !! e). }
  rewrite !edges_owned_alt. intros [H1 H2]. split.
  - intros c' cb' Hcb'.
    apply (elem_of_subscribers_track e c c' cb' s d cl He Hc) in Hcb'.
    destruct Hcb' as [Hold|(Hnin & -> & ->)].
    + destruct (H1 c' cb' Hold) as (d' & cl' & Hed & Hin).
      destruct (decide (e = cb_owner cb')) as [Heq|Hne].
      * rewrite <- Heq in *. rewrite (edges_of_track_eq e c s d cl He).
        simplify_eq. case_bool_decide; eexists _, _; split; try done.
        rewrite elem_of_app. by left.
      * rewrite edges_of_track_ne by done. eauto.
    + simpl. rewrite (edges_of_track_eq e c s d cl He).
      rewrite bool_decide_eq_false_2 by done. eexists _, _. split; [done|].
      rewrite elem_of_app, list_elem_of_singleton. by right.
  - intros e' d' cl' c' cb' Hed Hin. destruct (decide (e = e')) as [<-|Hne].
    + rewrite (edges_of_track_eq e c s d cl He) in Hed.
      case_bool_decide; simplify_eq; [by eapply H2|].
      apply elem_of_app in Hin as [Hin|Hin%list_elem_of_singleton].
      * by eapply H2.
      * by simplify_eq.
    + rewrite edges_of_track_ne in Hed by done. by eapply H2.
Qed.

Lemma edges_owned_stop e s : edges_owned s -> edges_owned (stop e s).
Proof.
  destruct (effects s !! e) as [o|] eqn:He.
  2: { unfold stop. by rewrite He. }
  intros Hs. pose proof Hs as [_ H2]. revert Hs. apply edges_owned_weaken.
  - intros c cb Hcb. by apply (elem_of_subscribers_stop e o) in Hcb as [? _].
  - intros e' d cl Hed. destruct (decide (e = e')) as [<-|Hne].
    + rewrite edges_of_stop_eq in Hed. left.
      destruct (edges_of e s); by simplify_eq/=.
    + rewrite edges_of_stop_ne in Hed by done. eauto.
  - intros c cb d cl Hcb Hed Hin.
    apply (elem_of_subscribers_stop e o) in Hcb as [_ Hnin]; [|done].
    rewrite edges_of_stop_ne; [eauto|]. intros Heq. rewrite <- Heq in Hed.
    rewrite (edges_of_Some e s o He) in Hed. by simplify_eq.
Qed.

Lemma subscribers_run_prologue_missing e c s :
  effects s !! e = None ->
  cell_subscribers c (run_prologue e s) = cell_subscribers c s.
Proof.
  intros He. unfold run_prologue, cleanup. simpl.
  rewrite list_lookup_alter_eq, He. simpl. by destruct c.
Qed.

Lemma edges_owned_run_prologue e s : edges_owned s -> edges_owned (run_prologue e s).
Proof.
  destruct (effects s !! e) as [o|] eqn:He.
  - apply edges_owned_weaken.
    + intros c cb Hcb.
      by apply (elem_of_subscribers_run_prologue e o) in Hcb as [? _].
    + intros e' d cl Hed. rewrite edges_of_run_prologue in Hed.
      case_decide; [left|eauto]. destruct (edges_of e' s); by simplify_eq/=.
    + intros c cb d cl Hcb Hed Hin.
      apply (elem_of_subscribers_run_prologue e o) in Hcb as [_ Hnin]; [|done].
      rewrite edges_of_run_prologue. case_decide as Heq; [|eauto].
      rewrite <- Heq in Hed. rewrite (edges_of_Some e s o He) in Hed.
      by simplify_eq.
  - apply edges_owned_frame.
    + intros c. by apply subscribers_run_prologue_missing.
    + intros e'. rewrite edges_of_run_prologue. case_decide; [subst e'|done].
      unfold edges_of. by rewrite He.
Qed.

Lemma elem_of_subscribers_snoc_signal g c cb s :
  _subscribers g = [] ->
  cb ∈ cell_subscribers c (set_signals (fun l => l ++ [g]) s) ->
  cb ∈ cell_subscribers c s.
Proof.
  intros Hg. destruct c as [x|d]; [|done]. unfold cell_subscribers. simpl.
  destruct (decide (x < length (signals s))) as [Hlt|Hge].
  - by rewrite lookup_app_l.
  - rewrite lookup_app_r by lia. destruct (x - length (signals s)); simpl.
    + rewrite Hg. by intros []%not_elem_of_nil.
    + by intros []%not_elem_of_nil.
Qed.

Lemma elem_of_subscribers_snoc_computed k c cb s :
  _subscribers (base k) = [] ->
  cb ∈ cell_subscribers c (set_computeds (fun l => l ++ [k]) s) ->
  cb ∈ cell_subscribers c s.
Proof.
  intros Hg. destruct c as [x|d]; [done|]. unfold cell_subscribers. simpl.
  destruct (decide (d < length (computeds s))) as [Hlt|Hge].
  - by rewrite lookup_app_l.
  - rewrite lookup_app_r by lia. destruct (d - length (computeds s)); simpl.
    + rewrite Hg. by intros []%not_elem_of_nil.
    + by intros []%not_elem_of_nil.
Qed.

Lemma edges_of_snoc_effect o e s d cl :
  cleanups o = [] ->
  edges_of e (set_effects (fun l => l ++ [o]) s) = Some (d, cl) ->
  cl = [] \/ edges_of e s = Some (d, cl).
Proof.
  intros Ho. unfold edges_of. simpl.
  destruct (decide (e < length (effects s))) as [Hlt|Hge].
  - rewrite lookup_app_l by done. auto.
  - rewrite lookup_app_r by lia. destruct (e - length (effects s)); simpl.
    + intros [= <- <-]. auto.
    + done.
Qed.

Lemma edges_owned_run_ops ops s : edges_owned s -> edges_owned (run_ops ops s).
Proof.
  apply run_ops_keeps.
  - intros ev s' _. by apply edges_owned_frame.
  - intros e s' _. by apply edges_owned_frame.
  - intros c s' Hc Hs'. unfold track_current. simpl.
    destruct (current s') as [e|]; [|by eapply edges_owned_frame; [..|exact Hs']].
    apply edges_owned_track; [done|]. by eapply edges_owned_frame; [..|exact Hs'].
  - intros c v s'. apply edges_owned_frame.
    + intros c'. apply subscribers_upd_value.
    + intros e. apply edges_of_upd_cell.
  - intros cb s'. apply edges_owned_frame.
    + intros c. apply subscribers_call_callback.
    + intros e. apply edges_of_call_callback.
  - apply edges_owned_stop.
  - intros d b s'. apply edges_owned_frame; [|done].
    intros c. apply subscribers_upd_dirty.
  - apply edges_owned_run_prologue.
  - intros c st s'. by apply edges_owned_frame.
  - intros p a b n s'. by apply edges_owned_frame.
  - intros v s'. apply edges_owned_weaken.
    + intros c cb. by apply elem_of_subscribers_snoc_signal.
    + intros e d cl Hed. eauto.
    + intros c cb d cl _ Hed _. eauto.
  - intros f s'. apply edges_owned_weaken.
    + done.
    + intros e d cl Hed. apply edges_of_snoc_effect in Hed as [?|?]; eauto.
    + intros c cb d cl _ Hed _. exists d. unfold edges_of in *. simpl.
      destruct (effects s' !! cb_owner cb) as [o|] eqn:Ho; [|done].
      by rewrite (lookup_app_l_Some _ _ _ _ Ho).
  - intros g s'. apply edges_owned_weaken.
    + intros c cb. by apply elem_of_subscribers_snoc_computed.
    + intros e d cl Hed. eauto.
    + intros c cb d cl _ Hed _. eauto.
  - intros d e s'. apply edges_owned_frame.
    + intros c. rewrite subscribers_upd_effect. unfold cell_subscribers.
      destruct c as [x|d']; simpl; [done|]. by rewrite (lookup_alter_view base).
    + intros e'. by rewrite (edges_of_upd_effect (eff_with_own_run (Some d))).
Qed.

Lemma edges_owned_init : edges_owned init_state.
Proof.
  split.
  - intros c cb Hcb. destruct c; by apply not_elem_of_nil in Hcb.
  - intros e o c cb Ho. by destruct e.
Qed.

(** * Batch coalescing *)

(** ** The code of the store never changes *)

Lemma fmap_alter_same {A B} (view : A -> B) (f : A -> A) (l : list A) i :
  (forall a, view (f a) = view a) -> view <$> alter f i l = view <$> l.
Proof.
  intros Hf. apply list_eq. intros j.
  rewrite !list_lookup_fmap. by apply lookup_alter_view.
Qed.

Lemma code_of_upd_effect f e s :
  (forall o, fn (f o) = fn o) -> (forall o, own_run (f o) = own_run o) ->
  code_of (upd_effect f e s) = code_of s.
Proof.
  intros Hf Hr. unfold code_of. simpl. rewrite fmap_alter_same; [done|].
  intros o. by rewrite Hf, Hr.
Qed.

Lemma log_emit ev s : log (emit ev s) = log s ++ [ev].
Proof. done. Qed.

Lemma log_set_tracker c st s : log (set_tracker c st s) = log s.
Proof. done. Qed.

Lemma code_of_upd_computed f d s :
  (forall c, getter (f c) = getter c) -> code_of (upd_computed f d s) = code_of s.
Proof. intros Hf. unfold code_of. simpl. by rewrite fmap_alter_same. Qed.

Lemma code_of_upd_cell f c s : code_of (upd_cell f c s) = code_of s.
Proof. destruct c; [done|]. by apply code_of_upd_computed. Qed.

Lemma code_of_cleanup e s : code_of (cleanup e s) = code_of s.
Proof.
  unfold cleanup. destruct (effects s !! e) as [o|]; [|done].
  rewrite code_of_upd_effect by done. generalize (cleanups o) as l.
  intros l. revert s. induction l as [|u l IH]; intros s; simpl; [done|].
  rewrite IH. apply code_of_upd_cell.
Qed.

Lemma code_of_schedule e s : code_of (schedule e s) = code_of s.
Proof. unfold schedule. by case_match. Qed.

Lemma code_of_call_callback cb s : code_of (call_callback cb s) = code_of s.
Proof.
  unfold call_callback. repeat case_match; try done.
  by rewrite code_of_schedule, code_of_upd_effect.
Qed.

Lemma code_of_track e c s : code_of (track e c s) = code_of s.
Proof.
  unfold track. repeat case_match; try done.
  rewrite code_of_upd_effect by done. unfold subscribe.
  rewrite code_of_upd_cell. by apply (code_of_upd_effect _ e s).
Qed.

Lemma code_of_track_current c s : code_of (track_current c s) = code_of s.
Proof.
  unfold track_current. simpl. case_match; [|done]. by rewrite code_of_track.
Qed.

Lemma code_of_stop e s : code_of (stop e s) = code_of s.
Proof.
  unfold stop. destruct (effects s !! e); [|done].
  rewrite code_of_upd_effect, code_of_cleanup by done.
  by apply (code_of_upd_effect _ e s).
Qed.

Lemma code_of_run_prologue e s : code_of (run_prologue e s) = code_of s.
Proof.
  unfold run_prologue. rewrite code_of_upd_effect, code_of_cleanup by done.
  by apply code_of_upd_effect.
Qed.

Ltac code_steps :=
  first
    [ reflexivity
    | apply shape_exec_getter
    | apply recompute_keeps_cell
    | intros; apply stops_only_True
    | intros ? ? _ <-; first [apply code_of_track_current|apply code_of_stop|done]
    | intros ? ? ? <-;
      first [apply code_of_upd_cell|by apply code_of_upd_computed|done]
    | intros ? ? <-; first [apply code_of_call_callback|done]
    | intros ? ? ? ? <-; done ].

Lemma code_of_signal_set x v s : code_of (signal_set x v s) = code_of s.
Proof. apply (signal_set_pres (fun s' => code_of s' = code_of s)); code_steps. Qed.

Lemma code_of_signal_get x s : code_of (signal_get x s).2 = code_of s.
Proof. apply (signal_get_pres (fun s' => code_of s' = code_of s)); code_steps. Qed.

Lemma code_of_computed_get d s : code_of (computed_get d s).2 = code_of s.
Proof.
  apply (computed_get_pres (fun _ => True) (fun s' => code_of s' = code_of s));
    code_steps.
Qed.

Lemma code_of_call_fn e f s : code_of (call_fn e f s).2 = code_of s.
Proof.
  apply (call_fn_pres (fun _ => True) (fun s' => code_of s' = code_of s));
    try code_steps.
  destruct f; simpl; [apply stops_only_True|done].
Qed.

Lemma code_of_run_method e s : code_of (run_method e s) = code_of s.
Proof.
  unfold run_method, tracker_track. destruct (effects s !! e) as [o|]; [|done].
  destruct (active o); simpl; [|done].
  pose proof (code_of_call_fn e (fn o)
                (emit (EvRun e)
                   (set_tracker (Some e)
                      (stack (run_prologue e s) ++ [current (run_prologue e s)])
                      (run_prologue e s)))) as Hc.
  destruct (call_fn e (fn o) _) as [[] s2]; simpl in *;
    etrans; first [exact Hc|apply code_of_run_prologue].
Qed.

Lemma code_of_run e s : code_of (run e s) = code_of s.
Proof.
  unfold run. destruct (effects s !! e) as [o|]; [|done].
  destruct (own_run o); [by apply code_of_upd_computed|apply code_of_run_method].
Qed.

Lemma code_of_flush_step s e : code_of (flush_step s e) = code_of s.
Proof. unfold flush_step. repeat case_match; try done. apply code_of_run. Qed.

Lemma code_of_flush_loop (l : list nat) s : code_of (flush_loop l s).2 = code_of s.
Proof.
  revert s. induction l as [|e l IH]; intros s; simpl; [done|].
  case_match; simpl; [apply code_of_flush_step|].
  by rewrite IH, code_of_flush_step.
Qed.

Lemma code_of_flush s : code_of (flush s) = code_of s.
Proof.
  unfold flush. destruct (isFlushing s); [done|]. cbv zeta.
  pose proof (code_of_flush_loop (pendingEffects s)
                (set_scheduler [] false true (frames s) s)) as Hl.
  simpl in *. destruct (flush_loop _ _) as [[] s3]; simpl in *; [|done].
  by case_match.
Qed.

(** ** Exceptions that the error boundary handles

    The boundary of [Effect.run] fails on [null] and [undefined] only.
    When no code of the store throws one of them, no run of an effect
    ends by an exception, and a flush runs its whole snapshot. *)

Lemma exec_nullish_handled {D} (readC : D -> state -> option value * state)
    (writeC : D -> value -> state -> state) (nullishC : D -> state -> bool)
    (I : state -> Prop) :
  (forall s s', code_of s' = code_of s -> I s -> I s') ->
  (forall d s, I s -> I (readC d s).2) ->
  (forall d v s, I s -> I (writeC d v s)) ->
  (forall d s, I s -> nullishC d s = false) ->
  forall b s, throws_objects b -> I s -> exec_nullish readC writeC nullishC b s = false.
Proof.
  intros Hcode Hr Hw Hn.
  induction b as [v|v|x k IH|x v k IH|e k IH|d k IH|d v k IH];
    intros s Hb Hs; simpl in *; try done.
  - pose proof (code_of_signal_get x s) as Hg.
    destruct (signal_get x s) as [[v|] s1]; simpl in *; [|done].
    apply IH; [done|]. by apply (Hcode s).
  - case_match; [|done]. apply IH; [done|].
    apply (Hcode s); [apply code_of_signal_set|done].
  - case_match; [|done]. apply IH; [done|].
    apply (Hcode s); [apply code_of_stop|done].
  - pose proof (Hr d s Hs) as Hg.
    destruct (readC d s) as [[v|] s1]; simpl in *; [by apply IH|by apply Hn].
  - by apply IH, Hw.
Qed.

Lemma exec_getter_nullish_handled b s :
  throws_objects b -> exec_getter_nullish b s = false.
Proof.
  intros Hb. by apply (exec_nullish_handled _ _ _ (fun _ => True)); try by intros [].
Qed.

Lemma evaluate_getter_nullish_handled d s :
  getters_handled s -> evaluate_getter_nullish d s = false.
Proof.
  intros Hs. unfold evaluate_getter_nullish.
  destruct (computeds s !! d) as [c|] eqn:Hd; [|done].
  apply exec_getter_nullish_handled, (Hs d).
  unfold code_of. simpl. by rewrite list_lookup_fmap, Hd.
Qed.

Lemma computed_get_nullish_handled d s :
  getters_handled s -> computed_get_nullish d s = false.
Proof.
  intros Hs. unfold computed_get_nullish, recompute_nullish.
  repeat case_match; try done. by apply evaluate_getter_nullish_handled.
Qed.

Lemma exec_body_nullish_handled b s :
  throws_objects b -> getters_handled s -> exec_body_nullish b s = false.
Proof.
  apply (exec_nullish_handled _ _ _ getters_handled).
  - intros s1 s2 Hc. unfold getters_handled. by rewrite Hc.
  - intros d s1. unfold getters_handled. by rewrite code_of_computed_get.
  - by intros d v s1.
  - intros d s1. apply computed_get_nullish_handled.
Qed.

Lemma call_fn_nullish_handled e f s :
  fn_handled f -> getters_handled s -> call_fn_nullish e f s = false.
Proof.
  intros Hf Hs. destruct f as [b|d]; simpl.
  - by apply exec_body_nullish_handled.
  - by apply evaluate_getter_nullish_handled.
Qed.

Lemma run_method_throws_handled e s :
  (forall o, effects s !! e = Some o -> fn_handled (fn o)) ->
  getters_handled s -> run_method_throws e s = false.
Proof.
  intros Hf Hs. unfold run_method_throws.
  destruct (effects s !! e) as [o|] eqn:He; [|done].
  destruct (active o); simpl; [|done].
  unfold tracker_track_nullish. apply call_fn_nullish_handled; [by apply Hf|].
  unfold getters_handled.
  change (code_of (emit ?ev (set_tracker ?c ?st ?s'))) with (code_of s').
  by rewrite code_of_run_prologue.
Qed.

Lemma errors_handled_getters s : errors_handled (code_of s) -> getters_handled s.
Proof. by intros [Hg _]. Qed.

Lemma errors_handled_fn s e o :
  errors_handled (code_of s) -> effects s !! e = Some o -> fn_handled (fn o).
Proof.
  intros [_ Hb] He. destruct (fn o) as [b|d] eqn:Hf; simpl; [|done].
  apply (Hb e b (own_run o)). unfold code_of. simpl.
  by rewrite list_lookup_fmap, He, <- Hf.
Qed.

Lemma run_throws_handled e s : errors_handled (code_of s) -> run_throws e s = false.
Proof.
  intros Hs. unfold run_throws. destruct (effects s !! e) as [o|] eqn:He; [|done].
  destruct (own_run o); [done|].
  apply run_method_throws_handled; [|by apply errors_handled_getters].
  intros o'. by apply errors_handled_fn.
Qed.

Lemma flush_step_throws_handled s e :
  errors_handled (code_of s) -> flush_step_throws s e = false.
Proof.
  intros Hs. unfold flush_step_throws. destruct (effects s !! e); [|done].
  rewrite run_throws_handled by done. apply andb_false_r.
Qed.

(** Then the loop of [flush] is a loop over the whole snapshot. *)
Lemma flush_loop_handled (l : list nat) s :
  errors_handled (code_of s) -> flush_loop l s = (true, foldl flush_step s l).
Proof.
  revert s. induction l as [|e l IH]; intros s Hs; simpl; [done|].
  rewrite flush_step_throws_handled by done. apply IH.
  by rewrite code_of_flush_step.
Qed.

Lemma new_effect_throws_handled f s :
  fn_handled f -> getters_handled s -> new_effect_throws f s = false.
Proof.
  intros Hf Hs. unfold new_effect_throws. apply run_method_throws_handled; [|done].
  intros o. simpl. rewrite lookup_app_r, Nat.sub_diag by done. by intros [= <-].
Qed.

Lemma new_computed_throws_handled g s :
  throws_objects g -> getters_handled s -> new_computed_throws g s = false.
Proof.
  intros Hg Hs. unfold new_computed_throws. apply new_effect_throws_handled; [done|].
  intros d g'. unfold code_of. simpl. rewrite fmap_app. simpl.
  intros [Hd|[_ Hd]]%lookup_app_Some.
  - by apply (Hs d).
  - destruct (d - _); [by simplify_eq/=|done].
Qed.

(** An exception that is [null] or [undefined] is an exception: the
    two readings of a body agree. *)
Lemma exec_nullish_throws {D} (readC : D -> state -> option value * state)
    (writeC : D -> value -> state -> state) (nullishC : D -> state -> bool) :
  (forall d s, nullishC d s = true -> (readC d s).1 = None) ->
  forall b s, exec_nullish readC writeC nullishC b s = true ->
              (exec readC writeC b s).1 = None.
Proof.
  intros Hn. induction b as [v|v|x k IH|x v k IH|e k IH|d k IH|d v k IH];
    intros s Hb; simpl in *; try done.
  - destruct (signal_get x s) as [[v|] s1]; [by apply IH|done].
  - case_match; [by apply IH|done].
  - case_match; [by apply IH|done].
  - pose proof (Hn d s) as Hd.
    destruct (readC d s) as [[v|] s1]; simpl in *; [by apply IH|done].
  - by apply IH.
Qed.

Lemma evaluate_getter_nullish_throws d s :
  evaluate_getter_nullish d s = true -> (evaluate_getter d s).1 = false.
Proof.
  unfold evaluate_getter_nullish, evaluate_getter.
  destruct (computeds s !! d) as [c|]; [|done]. intros Hg.
  apply (exec_nullish_throws _ _ _ (fun d => match d : Empty_set with end)) in Hg.
  unfold exec_getter. by destruct (exec _ _ _ _) as [[v|] s1].
Qed.

Lemma computed_get_nullish_throws d s :
  computed_get_nullish d s = true -> (computed_get d s).1 = None.
Proof.
  unfold computed_get_nullish, recompute_nullish, computed_get, _recompute.
  destruct (computeds s !! d) as [c|]; [|done].
  destruct (dirty c); [|done]. destruct (effect c); [|done].
  intros Hg%evaluate_getter_nullish_throws.
  by destruct (evaluate_getter d s) as [[] s1].
Qed.

Lemma call_fn_nullish_throws e f s :
  call_fn_nullish e f s = true -> (call_fn e f s).1 = false.
Proof.
  destruct f as [b|d]; simpl.
  - intros Hb. apply (exec_nullish_throws _ _ _ computed_get_nullish_throws) in Hb.
    unfold exec_body. by destruct (exec _ _ _ _) as [[v|] s1].
  - apply evaluate_getter_nullish_throws.
Qed.

(** When [Effect.run] throws, its boundary was entered. *)
Lemma run_method_throws_logged e s :
  run_method_throws e s = true -> exists l, log (run_method e s) = l ++ [EvError e].
Proof.
  unfold run_method_throws, run_method, tracker_track, tracker_track_nullish.
  destruct (effects s !! e) as [o|]; [|done].
  destruct (active o); simpl; [|done].
  intros Hc%call_fn_nullish_throws.
  destruct (call_fn e (fn o) _) as [[] s2]; simpl in *; [done|]. eauto.
Qed.

(** ** Counting runs *)

Lemma run_count_app e l1 l2 : run_count e (l1 ++ l2) = run_count e l1 + run_count e l2.
Proof. unfold run_count. by rewrite filter_app, length_app. Qed.

(** [e] is active, the code of the store is [code], and the body of
    [e] has been entered [n] times. *)
Definition standing (e n : nat) (code : list (effect_fn * option nat) * list getter_body)
    (s : state) : Prop :=
  active_of e s = Some true /\ code_of s = code /\ run_count e (log s) = n.

Lemma run_count_emit e ev s :
  (ev <> EvRun e) -> run_count e (log (emit ev s)) = run_count e (log s).
Proof. intros Hev. simpl. rewrite run_count_snoc, decide_False by done. lia. Qed.

Lemma run_count_stop e e' s : run_count e (log (stop e' s)) = run_count e (log s).
Proof.
  rewrite log_stop. destruct (effects s !! e'); [|by rewrite app_nil_r].
  rewrite run_count_snoc, decide_False by done. lia.
Qed.

Section Standing.
Variables (e n : nat) (code : list (effect_fn * option nat) * list getter_body).
Hypothesis Hgetters : forall d g,
  code.2 !! d = Some g -> stops_only (fun e' => e' <> e) g.

Lemma standing_frame s s' :
  active_of e s' = active_of e s -> code_of s' = code_of s ->
  run_count e (log s') = run_count e (log s) ->
  standing e n code s -> standing e n code s'.
Proof. intros Ha Hc Hn (? & ? & ?). split_and!; congruence. Qed.

Lemma standing_emit ev s :
  ev <> EvRun e -> standing e n code s -> standing e n code (emit ev s).
Proof. intros Hev. apply standing_frame; [done|done|by apply run_count_emit]. Qed.

Lemma standing_track_current c s :
  standing e n code s -> standing e n code (track_current c s).
Proof.
  apply standing_frame.
  - apply active_of_track_current.
  - apply code_of_track_current.
  - rewrite log_track_current, run_count_snoc, decide_False by done. lia.
Qed.

Lemma standing_value c v s :
  standing e n code s -> standing e n code (upd_cell (sig_with_value v) c s).
Proof.
  apply standing_frame.
  - unfold active_of. by rewrite effects_upd_cell.
  - apply code_of_upd_cell.
  - by rewrite log_upd_cell.
Qed.

Lemma standing_callback cb s :
  standing e n code s -> standing e n code (call_callback cb s).
Proof.
  apply standing_frame.
  - apply active_of_call_callback.
  - apply code_of_call_callback.
  - by rewrite log_call_callback.
Qed.

Lemma standing_stop e' s :
  e' <> e -> standing e n code s -> standing e n code (stop e' s).
Proof.
  intros Hne. apply standing_frame.
  - by rewrite active_of_stop, decide_False.
  - apply code_of_stop.
  - apply run_count_stop.
Qed.

Lemma standing_getter s d c :
  standing e n code s -> computeds s !! d = Some c ->
  stops_only (fun e' => e' <> e) (getter c).
Proof.
  intros (_ & Hc & _) Hd. apply (Hgetters d). rewrite <- Hc.
  unfold code_of. simpl. by rewrite list_lookup_fmap, Hd.
Qed.

Ltac standing_steps :=
  first
    [ intros [] ? ? ?; simpl in *; try done; by apply standing_emit
    | intros; by apply standing_track_current
    | intros; by apply standing_value
    | intros; by apply standing_callback
    | intros; by apply standing_stop
    | intros ? ? ?; apply standing_frame; [done| |done];
      by apply code_of_upd_computed
    | apply standing_getter
    | intros; by apply standing_emit
    | apply shape_exec_getter
    | apply recompute_keeps_cell ].

Lemma standing_signal_set x v s :
  standing e n code s -> standing e n code (signal_set x v s).
Proof. apply signal_set_pres; standing_steps. Qed.

Lemma standing_call_fn e' f s :
  fn_stops_only (fun e' => e' <> e) f ->
  standing e n code s -> standing e n code (call_fn e' f s).2.
Proof. apply (call_fn_pres (fun e' => e' <> e)); standing_steps. Qed.
End Standing.

(** User code never enters the body of an effect. *)
Lemma run_count_call_fn e e' f s :
  run_count e (log (call_fn e' f s).2) = run_count e (log s).
Proof.
  apply (call_fn_pres (fun _ => True) (fun s' => run_count e (log s') = run_count e (log s))).
  - intros [] s' Hev <-; simpl in *; try done; by apply run_count_emit.
  - intros d cb v s' <-. by apply run_count_emit.
  - intros c s' _ <-.
    rewrite log_track_current, run_count_snoc, decide_False by done. lia.
  - intros c v s' <-. by rewrite log_upd_cell.
  - intros cb s' <-. by rewrite log_call_callback.
  - intros e0 s' _ <-. apply run_count_stop.
  - by intros d b s' <-.
  - intros. apply stops_only_True.
  - apply shape_exec_getter.
  - apply recompute_keeps_cell.
  - destruct f; simpl; [apply stops_only_True|done].
  - done.
Qed.

Lemma run_count_signal_set e x v s :
  run_count e (log (signal_set x v s)) = run_count e (log s).
Proof.
  apply (signal_set_pres (fun s' => run_count e (log s') = run_count e (log s))).
  - intros [] s' Hev <-; simpl in *; try done; by apply run_count_emit.
  - intros c v' s' <-. by rewrite log_upd_cell.
  - intros cb s' <-. by rewrite log_call_callback.
  - done.
Qed.

Lemma log_run_method e s :
  log (run_method e s)
  = match effects s !! e with
    | Some o =>
        if active o then
          let sb := emit (EvRun e)
                      (set_tracker (Some e)
                         (stack (run_prologue e s) ++ [current (run_prologue e s)])
                         (run_prologue e s)) in
          log (call_fn e (fn o) sb).2
          ++ (if (call_fn e (fn o) sb).1 then [] else [EvError e])
        else log s
    | None => log s
    end.
Proof.
  unfold run_method, tracker_track. destruct (effects s !! e) as [o|]; [|done].
  destruct (active o); simpl; [|done].
  destruct (call_fn e (fn o) _) as [[] s2]; simpl; [by rewrite app_nil_r|done].
Qed.

Lemma run_count_run_method e e' s :
  run_count e (log (run_method e' s))
  = run_count e (log s)
    + (if bool_decide (e' = e) && effect_active e s then 1 else 0).
Proof.
  rewrite log_run_method. unfold effect_active.
  destruct (effects s !! e') as [o|] eqn:He'.
  2: { case_bool_decide; [subst e'; rewrite He'|]; simpl; lia. }
  destruct (active o) eqn:Ha.
  2: { case_bool_decide; [subst e'; rewrite He'; simpl; rewrite Ha|]; simpl; lia. }
  cbv zeta. rewrite run_count_app, run_count_call_fn.
  rewrite log_emit, log_set_tracker, log_run_prologue, run_count_snoc.
  assert (run_count e (if (call_fn e' (fn o)
            (emit (EvRun e')
               (set_tracker (Some e')
                  (stack (run_prologue e' s) ++ [current (run_prologue e' s)])
                  (run_prologue e' s)))).1 then [] else [EvError e']) = 0) as ->.
  { by destruct (call_fn _ _ _).1. }
  case_bool_decide as Hee.
  - subst e'. rewrite He'. simpl. rewrite Ha, decide_True by done. simpl. lia.
  - rewrite decide_False by congruence. simpl. lia.
Qed.

Lemma run_count_run e e' s :
  run_count e (log (run e' s))
  = run_count e (log s)
    + (if bool_decide (e' = e) && effect_active e s
          && bool_decide (own_run <$> effects s !! e = Some None)
       then 1 else 0).
Proof.
  unfold run. destruct (effects s !! e') as [o|] eqn:He'.
  2: { case_bool_decide; [subst e'; rewrite He'|]; simpl;
       rewrite ?andb_false_r; lia. }
  destruct (own_run o) as [d|] eqn:Hown.
  - simpl. case_bool_decide; [subst e'; rewrite He'; simpl; rewrite Hown|];
      simpl; rewrite ?andb_false_r; simpl; lia.
  - rewrite run_count_run_method. case_bool_decide; [subst e'|done].
    rewrite He'. simpl. rewrite Hown. by rewrite andb_true_r.
Qed.

(** ** One flush *)

Lemma run_count_flush_step_ne e e' s :
  e' <> e -> run_count e (log (flush_step s e')) = run_count e (log s).
Proof.
  intros Hne. unfold flush_step. repeat case_match; try done.
  rewrite run_count_run, bool_decide_eq_false_2 by done. simpl. lia.
Qed.

Lemma run_count_flush_loop_absent e (l : list nat) s :
  e ∉ l -> run_count e (log (foldl flush_step s l)) = run_count e (log s).
Proof.
  revert s. induction l as [|e' l IH]; intros s Hl; simpl; [done|].
  apply not_elem_of_cons in Hl as [Hne Hl].
  rewrite IH by done. by apply run_count_flush_step_ne.
Qed.

Lemma standing_run_method e n code e' s :
  no_stopper e code -> e' <> e ->
  standing e n code s -> standing e n code (run_method e' s).
Proof.
  intros [Hg Hb] Hne Hs. unfold run_method.
  destruct (effects s !! e') as [o|] eqn:He'; [|done].
  destruct (active o); simpl; [|done].
  assert (fn_stops_only (fun e' => e' <> e) (fn o)) as Hfn.
  { destruct (fn o) as [b|d] eqn:Hf; simpl; [|done].
    apply (Hb e' b (own_run o)); [|done].
    destruct Hs as (_ & <- & _). unfold code_of. simpl.
    by rewrite list_lookup_fmap, He', <- Hf. }
  unfold tracker_track.
  set (sb := emit (EvRun e') _).
  assert (standing e n code sb) as Hsb.
  { apply standing_emit; [congruence|].
    eapply standing_frame; [| | |exact Hs].
    - apply (active_of_run_prologue e').
    - apply (code_of_run_prologue e').
    - by rewrite <- (log_run_prologue e' s). }
  pose proof (standing_call_fn e n code Hg e' (fn o) sb Hfn Hsb) as Hc.
  destruct (call_fn e' (fn o) sb) as [[] s2]; simpl in *.
  - by eapply standing_frame; [| | |exact Hc].
  - apply standing_emit; [done|]. by eapply standing_frame; [| | |exact Hc].
Qed.

Lemma standing_flush_step e n code e' s :
  no_stopper e code -> e' <> e ->
  standing e n code s -> standing e n code (flush_step s e').
Proof.
  intros Hcode Hne Hs. unfold flush_step, run.
  destruct (effects s !! e') as [o|]; [|done].
  destruct (active o); [|done]. destruct (own_run o).
  - eapply standing_frame; [| | |exact Hs]; [done| |done].
    by apply code_of_upd_computed.
  - by apply standing_run_method.
Qed.

Lemma standing_lookup e n code s f r :
  standing e n code s -> code.1 !! e = Some (f, r) ->
  exists o, effects s !! e = Some o /\ fn o = f /\ own_run o = r /\ active o = true.
Proof.
  intros (Ha & <- & _). unfold code_of, active_of in *. simpl.
  rewrite list_lookup_fmap. destruct (effects s !! e) as [o|]; [|done].
  simpl in *. intros [= <- <-]. exists o. split_and!; congruence.
Qed.

(** In one pass over a duplicate-free snapshot, the body of an active
    effect that nobody stops is entered once if the effect is in the
    snapshot, and not at all otherwise. *)
Lemma run_count_flush_loop e f n code (l : list nat) s :
  no_stopper e code -> code.1 !! e = Some (f, None) ->
  NoDup l ->
  standing e n code s ->
  run_count e (log (foldl flush_step s l)) = n + (if bool_decide (e ∈ l) then 1 else 0).
Proof.
  intros Hcode He. revert s. induction l as [|e' l IH]; intros s Hl Hs; simpl.
  { destruct Hs as (_ & _ & <-). lia. }
  apply NoDup_cons in Hl as [Hnin Hl].
  destruct (decide (e' = e)) as [->|Hne].
  - rewrite run_count_flush_loop_absent by done.
    rewrite bool_decide_eq_true_2 by (rewrite elem_of_cons; auto).
    destruct (standing_lookup e n code s f None Hs He) as (o & Ho & _ & Hown & Ha).
    destruct Hs as (_ & _ & <-). unfold flush_step. rewrite Ho, Ha.
    rewrite run_count_run, bool_decide_eq_true_2 by done.
    unfold effect_active. rewrite Ho. simpl. rewrite Hown, Ha.
    by rewrite bool_decide_eq_true_2.
  - rewrite IH; [|done|by apply standing_flush_step].
    f_equal. rewrite (bool_decide_ext (e ∈ l) (e ∈ e' :: l)); [done|].
    rewrite elem_of_cons. naive_solver.
Qed.

(** ** The writes before the flush *)

Lemma isFlushing_schedule e s : isFlushing (schedule e s) = isFlushing s.
Proof. unfold schedule. by case_match. Qed.

(** Writes keep the pending set duplicate-free, keep what is pending and
    do not touch [isFlushing]. *)
Lemma pending_signal_set e x v s :
  NoDup (pendingEffects s) ->
  NoDup (pendingEffects (signal_set x v s))
  /\ (e ∈ pendingEffects s -> e ∈ pendingEffects (signal_set x v s))
  /\ isFlushing (signal_set x v s) = isFlushing s.
Proof.
  intros Hnd.
  apply (signal_set_pres
           (fun s' => NoDup (pendingEffects s')
                      /\ (e ∈ pendingEffects s -> e ∈ pendingEffects s')
                      /\ isFlushing s' = isFlushing s)).
  - by intros ev s' _ ?.
  - intros c v' s' (H1 & H2 & H3). by rewrite pendingEffects_upd_cell; destruct c.
  - intros cb s' (H1 & H2 & H3). unfold call_callback.
    repeat case_match; try done. split_and!.
    + unfold schedule. case_match; simpl; by apply NoDup_set_add.
    + intros He. apply elem_of_pending_schedule. right. by apply H2.
    + by rewrite isFlushing_schedule.
  - done.
Qed.

Lemma write_all_facts e n code (ws : list (nat * value)) s :
  standing e n code s -> NoDup (pendingEffects s) -> e ∈ pendingEffects s ->
  standing e n code (write_all ws s)
  /\ NoDup (pendingEffects (write_all ws s))
  /\ e ∈ pendingEffects (write_all ws s)
  /\ isFlushing (write_all ws s) = isFlushing s.
Proof.
  revert s. induction ws as [|[x v] ws IH]; intros s Hs Hnd He; simpl; [done|].
  destruct (pending_signal_set e x v s Hnd) as (H1 & H2 & H3).
  destruct (IH (signal_set x v s)) as (? & ? & ? & ?); auto.
  - by apply standing_signal_set.
  - split_and!; try done. congruence.
Qed.

Lemma log_flush s :
  errors_handled (code_of s) ->
  log (flush s)
  = if isFlushing s then log s
    else log (foldl flush_step
                (set_scheduler [] false true (frames s) s) (pendingEffects s)).
Proof.
  intros Hs. unfold flush. destruct (isFlushing s); [done|]. cbv zeta. simpl.
  rewrite flush_loop_handled by done. by case_match.
Qed.


(** * The properties of effects and of the scheduler *)

(** C1. Dependency correctness. A run of the effect [e] (one that does
    not stop [e] itself) first drops every edge of [e] and empties its
    dependency set, then enters the body once, with [e] as the tracked
    effect; when it returns, [e] is subscribed to exactly the cells that
    were read under [e] during this run. So a later write of a changed
    value to the signal [x] schedules [e] if and only if the run read
    [x]: a signal that an earlier run read and this one did not read no
    longer triggers [e]. *)
Theorem dependency_correctness (s : state) (e : nat) (o : effect_obj)
    (b : effect_body) :
  edges_owned s ->
  effects s !! e = Some o -> fn o = FnBody b -> own_run o = None ->
  active o = true ->
  effect_active e (run e s) = true ->
  (edges_of e (run_prologue e s) = Some ([], [])
   /\ forall c, ~ subscribed e c (run_prologue e s))
  /\ run_count e (log (run e s)) = run_count e (log s) + 1
  /\ (forall c, subscribed e c (run e s) <-> EvRead (Some e) c ∈ log_since s (run e s))
  /\ (forall x g v,
        signals (run e s) !! x = Some g -> _value g <> v ->
        effect_scheduled e (run e s) = false ->
        (effect_scheduled e (signal_set x v (run e s)) = true
         /\ e ∈ pendingEffects (signal_set x v (run e s)))
        <-> EvRead (Some e) (Plain x) ∈ log_since s (run e s)).
Proof.
  intros Hwf He Hfn Hown Hact Hact'.
  assert (run e s = run_method e s) as Hrun.
  { unfold run. by rewrite He, Hown. }
  split_and!.
  - rewrite edges_of_run_prologue, decide_True by done.
    by rewrite (edges_of_Some e s o He).
  - by apply (run_prologue_no_edges e o).
  - rewrite run_count_run, bool_decide_eq_true_2 by done.
    unfold effect_active. rewrite He. simpl. rewrite Hact, Hown.
    by rewrite bool_decide_eq_true_2.
  - rewrite Hrun in *. by apply (run_method_edges e o b).
  - intros x g v Hx Hv Hsch.
    rewrite (signal_set_schedules e x g v (run e s) Hx Hv Hact' Hsch).
    rewrite Hrun in *. by apply (run_method_edges e o b).
Qed.

(** In [cond_pending_state] the effect has read [flag] and [a]; [flag]
    is now false, so the run reads [flag] and [b]: afterwards a write to
    [b] schedules the effect and a write to [a] does not. *)
Lemma dependency_correctness_witness :
  EvRead (Some 0) (Plain 2) ∈ log_since cond_pending_state (run 0 cond_pending_state)
  /\ (EvRead (Some 0) (Plain 1) ∉ log_since cond_pending_state (run 0 cond_pending_state))
  /\ (0 ∈ pendingEffects (signal_set 2 (VNum 7) (run 0 cond_pending_state))
      <-> EvRead (Some 0) (Plain 2)
            ∈ log_since cond_pending_state (run 0 cond_pending_state))
  /\ ((effect_scheduled 0 (signal_set 1 (VNum 7) (run 0 cond_pending_state)) = true
       /\ 0 ∈ pendingEffects (signal_set 1 (VNum 7) (run 0 cond_pending_state)))
      <-> EvRead (Some 0) (Plain 1)
            ∈ log_since cond_pending_state (run 0 cond_pending_state)).
Proof.
  assert (edges_owned cond_pending_state) as Hwf.
  { apply edges_owned_run_ops, edges_owned_run_ops, edges_owned_run_ops.
    apply edges_owned_init. }
  assert (exists o, effects cond_pending_state !! 0 = Some o
                    /\ fn o = FnBody cond_body /\ own_run o = None
                    /\ active o = true) as (o & Ho & Hfn & Hown & Hact).
  { eexists. split; [vm_compute; reflexivity|]. by vm_compute. }
  assert (effect_active 0 (run 0 cond_pending_state) = true) as Hact'
    by (vm_compute; reflexivity).
  destruct (dependency_correctness cond_pending_state 0 o cond_body
              Hwf Ho Hfn Hown Hact Hact') as (_ & _ & _ & Hwrite).
  split_and!.
  - vm_compute. do 2 apply list_elem_of_further. apply list_elem_of_here.
  - vm_compute. intros Hin. repeat (apply elem_of_cons in Hin as [Hin|Hin]; [done|]).
    by apply not_elem_of_nil in Hin.
  - split.
    + intros _. vm_compute. do 2 apply list_elem_of_further. apply list_elem_of_here.
    + intros Hin. by apply (Hwrite 2 (mkSignal (VNum 2) [mkCallback 3 0] 2) (VNum 7)).
  - by apply (Hwrite 1 (mkSignal (VNum 1) [] 1) (VNum 7)).
Defined.

(** C2. Batch coalescing. An idle, active effect [e] is subscribed to
    the signal [x]; code outside of any flush writes a changed value to
    [x] and then performs any further writes [ws]. None of the writes
    enters the body of [e], and the next flush enters it exactly once,
    however many of the written signals [e] reads. (No other code of the
    store stops [e] before its turn, and no code of the store throws
    [null] or [undefined]: the error boundary of [Effect.run] cannot log
    such an exception and lets a TypeError end the flush, before the
    turn of [e] when another effect threw it.) *)
Theorem batch_coalescing (s : state) (e : nat) (o : effect_obj) (b : effect_body)
    (x : nat) (g : signal) (v : value) (ws : list (nat * value)) :
  effects s !! e = Some o -> fn o = FnBody b -> own_run o = None ->
  active o = true -> scheduled o = false ->
  NoDup (pendingEffects s) -> isFlushing s = false ->
  no_stopper e (code_of s) -> errors_handled (code_of s) ->
  signals s !! x = Some g -> _value g <> v -> subscribed e (Plain x) s ->
  run_count e (log (write_all ((x, v) :: ws) s)) = run_count e (log s)
  /\ e ∈ pendingEffects (write_all ((x, v) :: ws) s)
  /\ run_count e (log (flush (write_all ((x, v) :: ws) s))) = run_count e (log s) + 1.
Proof.
  intros He Hfn Hown Hact Hsch Hnd Hfl Hcode Hhandled Hx Hv Hsub. simpl.
  set (n := run_count e (log s)).
  assert (standing e n (code_of s) s) as Hs.
  { split_and!; try done. unfold active_of. by rewrite He, <- Hact. }
  assert (effect_active e s = true) as Ha by (unfold effect_active; by rewrite He).
  assert (effect_scheduled e s = false) as Hs' by (unfold effect_scheduled; by rewrite He).
  destruct (proj2 (signal_set_schedules e x g v s Hx Hv Ha Hs') Hsub) as [_ Hpend].
  destruct (pending_signal_set e x v s Hnd) as (Hnd1 & _ & Hfl1).
  destruct (write_all_facts e n (code_of s) ws (signal_set x v s)) as (Hst & Hnd2 & Hin & Hfl2);
    [by apply standing_signal_set|done|done|].
  fold (write_all ws (signal_set x v s)).
  set (s1 := write_all ws (signal_set x v s)) in *.
  split_and!; [by destruct Hst as (_ & _ & ?)|done|].
  rewrite log_flush by (by destruct Hst as (_ & -> & _)).
  rewrite Hfl2, Hfl1, Hfl.
  rewrite (run_count_flush_loop e (FnBody b) n (code_of s)); try done.
  - by rewrite bool_decide_eq_true_2.
  - unfold code_of. cbn [fst]. rewrite list_lookup_fmap, He. cbn.
    by rewrite Hfn, Hown.
Qed.

(** The effect of [sum_state] reads [a], [b] and [c]; the three of them
    are written before the flush. *)
Lemma batch_coalescing_witness :
  run_count 0 (log (write_all [(0, VNum 10); (1, VNum 20); (2, VNum 30)] sum_state))
  = run_count 0 (log sum_state)
  /\ 0 ∈ pendingEffects (write_all [(0, VNum 10); (1, VNum 20); (2, VNum 30)] sum_state)
  /\ run_count 0 (log (flush (write_all [(0, VNum 10); (1, VNum 20); (2, VNum 30)] sum_state)))
     = run_count 0 (log sum_state) + 1.
Proof.
  eapply (batch_coalescing sum_state 0 _ sum_body 0 _ (VNum 10)
            [(1, VNum 20); (2, VNum 30)]).
  - vm_compute. reflexivity.
  - reflexivity.
  - reflexivity.
  - reflexivity.
  - reflexivity.
  - vm_compute. apply NoDup_nil_2.
  - reflexivity.
  - split.
    + intros d g Hd. vm_compute in Hd. by destruct d.
    + intros e' b r He' Hne. destruct e' as [|e']; [done|].
      vm_compute in He'. by destruct e'.
  - split.
    + intros d g Hd. vm_compute in Hd. by destruct d.
    + intros e' b r He'. destruct e' as [|e']; [|vm_compute in He'; by destruct e'].
      injection He' as <- _. by intros [] [] [].
  - vm_compute. reflexivity.
  - vm_compute. congruence.
  - exists (mkCallback 0 0). split; [|done]. vm_compute. apply list_elem_of_here.
Defined.

(** * Computed signals *)

Lemma log_notify_loop c nv ov (l : list callback) s :
  log (foldl (fun s cb => call_callback cb (emit (EvNotify c cb nv ov) s)) s l)
  = log s ++ ((fun cb => EvNotify c cb nv ov) <$> l).
Proof.
  revert s. induction l as [|cb l IH]; intros s; simpl; [by rewrite app_nil_r|].
  rewrite IH, log_call_callback. simpl. by rewrite <- app_assoc.
Qed.

Lemma computeds_schedule e s : computeds (schedule e s) = computeds s.
Proof. unfold schedule. by case_match. Qed.

Lemma computeds_call_callback cb s : computeds (call_callback cb s) = computeds s.
Proof.
  unfold call_callback. repeat case_match; try done. by rewrite computeds_schedule.
Qed.

Lemma computeds_notify_loop c nv ov (l : list callback) s :
  computeds (foldl (fun s cb => call_callback cb (emit (EvNotify c cb nv ov) s)) s l)
  = computeds s.
Proof.
  revert s. induction l as [|cb l IH]; intros s; simpl; [done|].
  by rewrite IH, computeds_call_callback.
Qed.

(** A getter cannot make a derivation notify. *)
Lemma exec_getter_log b s :
  exists l, log (exec_getter b s).2 = log s ++ l /\ Forall not_derived_notify l.
Proof.
  apply (exec_getter_pres (fun _ => True)
           (fun s' => exists l, log s' = log s ++ l /\ Forall not_derived_notify l)).
  - intros ev s' Hev (l & Hl & Hall). exists (l ++ [ev]). simpl.
    rewrite Hl, app_assoc. split; [done|]. apply Forall_app. split; [done|].
    apply Forall_singleton. by destruct ev as [| |[]| | | |].
  - intros c s' _ (l & Hl & Hall). exists (l ++ [EvRead (current s') c]).
    rewrite log_track_current, Hl, app_assoc. split; [done|].
    apply Forall_app. split; [done|]. by apply Forall_singleton.
  - intros c v s' (l & Hl & Hall). exists l. by rewrite log_upd_cell.
  - intros cb s' (l & Hl & Hall). exists l. by rewrite log_call_callback.
  - intros e s' _ (l & Hl & Hall). rewrite log_stop, Hl.
    destruct (effects s' !! e).
    + exists (l ++ [EvStop e]). rewrite app_assoc. split; [done|].
      apply Forall_app. split; [done|]. by apply Forall_singleton.
    + exists l. by rewrite app_nil_r.
  - apply stops_only_True.
  - exists []. by rewrite app_nil_r.
Qed.

Lemma log_since_app s s' l : log s' = log s ++ l -> log_since s s' = l.
Proof. intros Hl. unfold log_since. by rewrite Hl, drop_app_length. Qed.

(** What [evaluate_getter] passes to the subscribers of the derivation. *)
Lemma evaluate_getter_notify d s cb nv ov :
  EvNotify (Derived d) cb nv ov ∈ log_since s (evaluate_getter d s).2 ->
  nv = ov /\ _value <$> cell_signal (Derived d) (evaluate_getter d s).2 = Some nv.
Proof.
  unfold evaluate_getter. destruct (computeds s !! d) as [c|] eqn:Hc.
  2: { cbn [snd]. rewrite (log_since_app s s []) by (by rewrite app_nil_r).
       by intros []%not_elem_of_nil. }
  destruct (exec_getter_log (getter c) (emit (EvGetter d) s)) as (l & Hl & Hall).
  assert (is_Some (computeds (exec_getter (getter c) (emit (EvGetter d) s)).2 !! d))
    as [c1 Hc1].
  { apply lookup_lt_is_Some.
    pose proof (shape_exec_getter (getter c) (emit (EvGetter d) s)) as Hsh.
    unfold shape in Hsh. injection Hsh as _ -> _. simpl.
    by apply lookup_lt_is_Some. }
  destruct (exec_getter _ _) as [[newValue|] s1]; cbn [fst snd] in *.
  - assert (forall ev, ev ∈ EvGetter d :: l -> not_derived_notify ev) as Hquiet.
    { intros ev [->|Hin]%elem_of_cons; [done|].
      by eapply (proj1 (Forall_forall _ _)). }
    rewrite log_emit, <- app_assoc in Hl. simpl in Hl.
    case_match; cbn [snd].
    + unfold _notify. set (s' := upd_cell (sig_with_value newValue) (Derived d) s1).
      rewrite (log_since_app s _ ((EvGetter d :: l)
        ++ ((fun cb => EvNotify (Derived d) cb newValue
               (default VUndef (_value <$> cell_signal (Derived d) s')))
            <$> cell_subscribers (Derived d) s'))).
      2: { change (log (upd_computed _ d ?x)) with (log x).
           rewrite log_notify_loop. unfold s'. rewrite log_upd_cell, Hl.
           by rewrite <- app_assoc. }
      assert (_value <$> cell_signal (Derived d) s' = Some newValue) as Hval.
      { unfold s'. simpl. by rewrite list_lookup_alter_eq, Hc1. }
      rewrite Hval. simpl. intros Hin. rewrite app_comm_cons in Hin.
      apply elem_of_app in Hin as [Hin|Hin].
      * by destruct (Hquiet _ Hin).
      * apply list_elem_of_fmap in Hin as (cb' & [= -> -> ->] & _).
        split; [done|]. rewrite list_lookup_alter_eq, computeds_notify_loop.
        unfold s'. simpl. by rewrite list_lookup_alter_eq, Hc1.
    + rewrite (log_since_app s _ (EvGetter d :: l)) by done.
      intros Hin. by destruct (Hquiet _ Hin).
  - rewrite log_emit, <- app_assoc in Hl.
    rewrite (log_since_app s _ _ Hl).
    intros [Hin|Hin]%elem_of_app.
    + by apply list_elem_of_singleton in Hin.
    + by destruct (proj1 (Forall_forall _ _) Hall _ Hin).
Qed.

Lemma recompute_log_extends d s : exists l, log (_recompute d s).2 = log s ++ l.
Proof.
  apply (recompute_pres (fun _ => True) (fun s' => exists l, log s' = log s ++ l)).
  - intros ev s' _ [l Hl]. exists (l ++ [ev]). simpl. by rewrite Hl, app_assoc.
  - intros d' cb v s' [l Hl]. eexists (l ++ [_]). simpl. by rewrite Hl, app_assoc.
  - intros c s' _ [l Hl]. eexists (l ++ [_]).
    by rewrite log_track_current, Hl, app_assoc.
  - intros c v s' [l Hl]. exists l. by rewrite log_upd_cell.
  - intros cb s' [l Hl]. exists l. by rewrite log_call_callback.
  - intros e s' _ [l Hl]. eexists (l ++ _). by rewrite log_stop, Hl, app_assoc.
  - intros d' b s' [l Hl]. by exists l.
  - intros. apply stops_only_True.
  - apply shape_exec_getter.
  - exists []. by rewrite app_nil_r.
Qed.

Lemma value_track_current c c' s :
  _value <$> cell_signal c' (track_current c s) = _value <$> cell_signal c' s.
Proof.
  unfold track_current. cbv zeta. change (current (emit _ s)) with (current s).
  destruct (current s) as [e|]; [|by destruct c'].
  unfold track. change (effects (emit _ s)) with (effects s).
  destruct (effects s !! e) as [o|]; [|by destruct c'].
  case_bool_decide; [by destruct c'|].
  change (cell_signal c' (upd_effect ?f e ?x)) with (cell_signal c' x).
  unfold subscribe. rewrite cell_signal_upd_cell.
  case_decide as Hc; [subst c'|by destruct c'].
  change (cell_signal c (set_next_cb _ _)) with (cell_signal c s).
  by destruct (cell_signal c s).
Qed.

(** C9. Whenever a derivation notifies its subscribers, from the arrow
    function of [_setupEffect], from [_recompute] or from the getter of
    [value] that calls it, both arguments of every callback are the new
    value, which is the value the derivation then holds: the previous
    value is never passed. *)
Theorem computed_notify_arguments (d : nat) (s s' : state) (cb : callback)
    (nv ov : value) :
  s' = (evaluate_getter d s).2 \/ s' = (_recompute d s).2
    \/ s' = (computed_get d s).2 ->
  EvNotify (Derived d) cb nv ov ∈ log_since s s' ->
  nv = ov /\ _value <$> cell_signal (Derived d) s' = Some nv.
Proof.
  assert (forall s0, EvNotify (Derived d) cb nv ov ∈ log_since s0 s0 -> False) as Hnil.
  { intros s0. rewrite (log_since_app s0 s0 []) by (by rewrite app_nil_r).
    by intros []%not_elem_of_nil. }
  assert (EvNotify (Derived d) cb nv ov ∈ log_since s (_recompute d s).2 ->
          nv = ov /\ _value <$> cell_signal (Derived d) (_recompute d s).2 = Some nv)
    as Hrec.
  { unfold _recompute. destruct (computeds s !! d) as [c|]; [|by intros []%Hnil].
    destruct (effect c); [apply evaluate_getter_notify|by intros []%Hnil]. }
  assert (forall s1 l, log s1 = log s ++ l ->
    (EvNotify (Derived d) cb nv ov ∈ l ->
     nv = ov /\ _value <$> cell_signal (Derived d) s1 = Some nv) ->
    EvNotify (Derived d) cb nv ov ∈ log_since s (track_current (Derived d) s1) ->
    nv = ov /\ _value <$> cell_signal (Derived d) (track_current (Derived d) s1) = Some nv)
    as Htrack.
  { intros s1 l Hl Hs1.
    rewrite (log_since_app s _ (l ++ [EvRead (current s1) (Derived d)])).
    2: { by rewrite log_track_current, Hl, app_assoc. }
    intros [Hin|Hin%list_elem_of_singleton]%elem_of_app; [|done].
    rewrite value_track_current. by apply Hs1. }
  intros Hs'. destruct Hs' as [Hs'|[Hs'|Hs']]; subst s'.
  - apply evaluate_getter_notify.
  - apply Hrec.
  - unfold computed_get. destruct (computeds s !! d) as [c|]; [|by intros []%Hnil].
    destruct (dirty c).
    + destruct (recompute_log_extends d s) as [l Hl].
      rewrite (log_since_app s _ l Hl) in Hrec.
      destruct (_recompute d s) as [[] s1]; cbn [fst snd] in *.
      * by apply (Htrack s1 l).
      * by rewrite (log_since_app s _ l Hl).
    + cbn [fst snd]. apply (Htrack s []); [by rewrite app_nil_r|].
      by intros []%not_elem_of_nil.
Qed.

(** In [observed_dirty_state] the derivation holds 1 and is dirty; the
    read recomputes 2 and calls the callback of the observing effect
    with (2, 2). *)
Lemma computed_notify_arguments_witness :
  EvNotify (Derived 0) (mkCallback 2 1) (VNum 2) (VNum 2)
    ∈ log_since observed_dirty_state (computed_get 0 observed_dirty_state).2
  /\ _value <$> cell_signal (Derived 0) observed_dirty_state = Some (VNum 1)
  /\ (VNum 2 = VNum 2
      /\ _value <$> cell_signal (Derived 0) (computed_get 0 observed_dirty_state).2
         = Some (VNum 2)).
Proof.
  assert (EvNotify (Derived 0) (mkCallback 2 1) (VNum 2) (VNum 2)
            ∈ log_since observed_dirty_state (computed_get 0 observed_dirty_state).2)
    as Hin.
  { vm_compute. do 3 apply list_elem_of_further. apply list_elem_of_here. }
  split; [exact Hin|]. split; [vm_compute; reflexivity|].
  exact (computed_notify_arguments 0 observed_dirty_state _ _ _ _
           (or_intror (or_intror eq_refl)) Hin).
Defined.

(** ** Recomputation and the dependency set *)

(** Outside of any effect, a recomputation whose getter stops no effect
    leaves every dependency set and every subscriber set as it is: the
    getter is not called under the tracker. *)
Lemma recompute_keeps_edges d s :
  current s = None ->
  (forall d' g, (code_of s).2 !! d' = Some g -> stops_only (fun _ => False) g) ->
  (forall e, edges_of e (_recompute d s).2 = edges_of e s)
  /\ (forall c, cell_subscribers c (_recompute d s).2 = cell_subscribers c s).
Proof.
  intros Hcur Hcode.
  assert (current (_recompute d s).2 = None
          /\ (code_of (_recompute d s).2).2 = (code_of s).2
          /\ (forall e, edges_of e (_recompute d s).2 = edges_of e s)
          /\ (forall c, cell_subscribers c (_recompute d s).2 = cell_subscribers c s))
    as (_ & _ & ? & ?); [|done].
  apply (recompute_pres (fun _ => False)
    (fun s' => current s' = None
               /\ (code_of s').2 = (code_of s).2
               /\ (forall e, edges_of e s' = edges_of e s)
               /\ (forall c, cell_subscribers c s' = cell_subscribers c s))).
  - by intros ev s' _ ?.
  - by intros d' cb v s' ?.
  - intros c s' _ (H1 & H2 & H3 & H4). unfold track_current. cbv zeta.
    change (current (emit _ s')) with (current s'). by rewrite H1.
  - intros c v s' (H1 & H2 & H3 & H4). split_and!.
    + by rewrite current_upd_cell.
    + by rewrite code_of_upd_cell.
    + intros e. by rewrite edges_of_upd_cell.
    + intros c'. by rewrite subscribers_upd_value.
  - intros cb s' (H1 & H2 & H3 & H4). split_and!.
    + by rewrite current_call_callback.
    + by rewrite code_of_call_callback.
    + intros e. by rewrite edges_of_call_callback.
    + intros c'. by rewrite subscribers_call_callback.
  - by intros e s' [].
  - intros d' b s' (H1 & H2 & H3 & H4). split_and!; [done| |done|].
    + by rewrite code_of_upd_computed.
    + intros c'. by rewrite subscribers_upd_dirty.
  - intros s' d' c (H1 & H2 & H3 & H4) Hd'. apply (Hcode d').
    rewrite <- H2. unfold code_of. simpl. by rewrite list_lookup_fmap, Hd'.
  - apply shape_exec_getter.
  - done.
Qed.

(** C4, evaluated. The derivation of [derived_dirty_state] was built
    when [flag] was true, so its effect depends on [flag] and [a];
    [flag] is false now and the derivation is dirty. Reading it calls
    the getter at once and gives the fresh value 2, but the getter runs
    with no effect being tracked: the reads of [flag] and [b] are logged
    with no reader, the effect of the derivation keeps the dependency
    set of the construction ([b] is not tracked, [a] is not dropped) and
    stays scheduled. Then neither [b.value = 5] nor [flag.value = true]
    makes the derivation dirty again: it keeps answering 2. *)
Theorem recompute_does_not_track :
  (computed_get 0 derived_dirty_state).1 = Some (VNum 2)
  /\ log_since derived_dirty_state derived_read_state
     = [EvGetter 0; EvRead None (Plain 0); EvRead None (Plain 2);
        EvRead None (Derived 0)]
  /\ dependencies <$> effects derived_read_state !! 0 = Some [Plain 0; Plain 1]
  /\ cell_subscribers (Plain 2) derived_read_state = []
  /\ effect_scheduled 0 derived_read_state = true
  /\ (let s := run_ops [Write 2 (VNum 5); FlushSync] derived_read_state in
      dirty <$> computeds s !! 0 = Some false
      /\ (computed_get 0 s).1 = Some (VNum 2))
  /\ (let s := run_ops [Write 0 (VBool true); FlushSync] derived_read_state in
      dirty <$> computeds s !! 0 = Some false
      /\ _value <$> signals s !! 1 = Some (VNum 1)
      /\ (computed_get 0 s).1 = Some (VNum 2)).
Proof. repeat split; vm_compute; reflexivity. Qed.

(** * Reactive wrappers *)

(** ** The values of the signals *)

Lemma signals_schedule e s : signals (schedule e s) = signals s.
Proof. unfold schedule. by case_match. Qed.

Lemma signals_call_callback cb s : signals (call_callback cb s) = signals s.
Proof.
  unfold call_callback. repeat case_match; try done. by rewrite signals_schedule.
Qed.

Lemma signals_notify_loop c nv ov (l : list callback) s :
  signals (foldl (fun s cb => call_callback cb (emit (EvNotify c cb nv ov) s)) s l)
  = signals s.
Proof.
  revert s. induction l as [|cb l IH]; intros s; simpl; [done|].
  by rewrite IH, signals_call_callback.
Qed.

(** Writing [v] to the signal [x] leaves [v] there and changes no other
    signal. *)
Lemma value_signal_set x v y s :
  _value <$> signals (signal_set x v s) !! y
  = if decide (x = y) then (fun _ => v) <$> signals s !! y
    else _value <$> signals s !! y.
Proof.
  unfold signal_set. destruct (signals s !! x) as [g|] eqn:Hx.
  - unfold strict_eq. case_bool_decide as Hv.
    + case_decide; [subst y; rewrite Hx; simpl; congruence|done].
    + unfold _notify. rewrite signals_notify_loop. simpl.
      case_decide; [subst y|].
      * by rewrite list_lookup_alter_eq, Hx.
      * by rewrite list_lookup_alter_ne.
  - case_decide; [subst y; by rewrite Hx|done].
Qed.

(** Reading a signal changes no value. *)
Lemma value_signal_get x y s :
  _value <$> signals (signal_get x s).2 !! y = _value <$> signals s !! y.
Proof.
  unfold signal_get. destruct (signals s !! x); [|done]. cbn [snd].
  apply (value_track_current (Plain x) (Plain y)).
Qed.

Lemma signal_get_value x g s :
  signals s !! x = Some g -> (signal_get x s).1 = Some (_value g).
Proof.
  intros Hx. unfold signal_get. rewrite Hx. cbn [fst].
  pose proof (value_track_current (Plain x) (Plain x) s) as Hv. simpl in Hv.
  by rewrite Hv, Hx.
Qed.

(** Up to [2^53] the sum is exact. *)
Lemma round_double_exact z : (- 2 ^ 53 <= z <= 2 ^ 53)%Z -> round_double z = z.
Proof.
  intros Hz. unfold round_double.
  destruct (Z.ltb_spec (Z.abs z) (2 ^ 53)) as [Hlt|Hge]; [done|].
  assert (z = 2 ^ 53 \/ z = - 2 ^ 53)%Z as [-> | ->] by lia; vm_compute; reflexivity.
Qed.

(** At [2^53] adding one changes nothing: [2^53 + 1] is no double, and
    of its two neighbours [2^53] has the even significand. *)
Lemma plus_one_saturates : plus_one (VNum (2 ^ 53)) = Some (VNum (2 ^ 53)).
Proof. vm_compute. reflexivity. Qed.

Lemma plus_one_exact n :
  (- 2 ^ 53 <= n < 2 ^ 53)%Z -> plus_one (VNum n) = Some (VNum (n + 1)).
Proof. intros Hn. unfold plus_one. rewrite round_double_exact by lia. done. Qed.

(** [versionSignal.value = versionSignal.value + 1] adds one to a number
    and touches no other signal. *)
Lemma bump_version_sum vs n s :
  _value <$> signals s !! vs = Some (VNum n) ->
  exists s', bump_version vs s = Some s'
    /\ _value <$> signals s' !! vs = Some (VNum (round_double (n + 1)))
    /\ forall y, y <> vs -> _value <$> signals s' !! y = _value <$> signals s !! y.
Proof.
  intros Hv. unfold bump_version.
  destruct (signals s !! vs) as [g|] eqn:Hg; [|done].
  simpl in Hv. injection Hv as Hv.
  pose proof (signal_get_value vs g s Hg) as Hget.
  pose proof (value_signal_get vs vs s) as Hvs.
  destruct (signal_get vs s) as [r s1] eqn:Hs1. simpl in Hget, Hvs. subst r.
  rewrite Hv. simpl. eexists. split; [done|]. split.
  - rewrite value_signal_set, decide_True by done.
    rewrite Hg in Hvs. simpl in Hvs. by destruct (signals s1 !! vs).
  - intros y Hy. rewrite value_signal_set, decide_False by done.
    pose proof (value_signal_get vs y s) as Hy'. by rewrite Hs1 in Hy'.
Qed.


(** ** The version signal of an array *)




(** ** What a write schedules, in general *)

Lemma signal_set_flags e x g v s :
  signals s !! x = Some g -> _value g <> v ->
  active_of e s = Some true ->
  active_of e (signal_set x v s) = Some true
  /\ (effect_scheduled e (signal_set x v s) = true
      <-> effect_scheduled e s = true \/ subscribed e (Plain x) s)
  /\ (e ∈ pendingEffects (signal_set x v s)
      <-> e ∈ pendingEffects s
          \/ (effect_scheduled e s = false /\ subscribed e (Plain x) s)).
Proof.
  intros Hx Hv Hact. unfold signal_set, strict_eq. rewrite Hx.
  rewrite bool_decide_eq_false_2 by done. unfold _notify.
  change (upd_signal (sig_with_value v) x s)
    with (upd_cell (sig_with_value v) (Plain x) s).
  rewrite subscribers_upd_value.
  exact (notify_loop_flags e (Plain x) v (_value g)
           (cell_subscribers (Plain x) s)
           (upd_cell (sig_with_value v) (Plain x) s) Hact).
Qed.

Lemma signal_set_unchanged x g s :
  signals s !! x = Some g -> signal_set x (_value g) s = s.
Proof.
  intros Hx. unfold signal_set, strict_eq. rewrite Hx.
  by rewrite bool_decide_eq_true_2.
Qed.

Lemma signal_set_missing x v s : signals s !! x = None -> signal_set x v s = s.
Proof. intros Hx. unfold signal_set. by rewrite Hx. Qed.

(** An effect that is scheduled and pending stays so through a write,
    and an active effect that is not scheduled is either left alone or
    scheduled and made pending. *)
Definition waiting (e : nat) (s : state) : Prop :=
  effect_scheduled e s = true /\ e ∈ pendingEffects s.

Lemma signal_set_waiting e x v s :
  active_of e s = Some true ->
  (effect_scheduled e s = false \/ waiting e s) ->
  active_of e (signal_set x v s) = Some true
  /\ (effect_scheduled e (signal_set x v s) = false \/ waiting e (signal_set x v s))
  /\ (waiting e s -> waiting e (signal_set x v s))
  /\ (forall c, cell_subscribers c (signal_set x v s) = cell_subscribers c s).
Proof.
  intros Hact Hs.
  assert (forall c, cell_subscribers c (signal_set x v s) = cell_subscribers c s)
    as Hsubs.
  { apply (signal_set_pres
             (fun s' => forall c, cell_subscribers c s' = cell_subscribers c s)).
    - by intros ev s' _ ?.
    - intros c v' s' Hs' c'. by rewrite subscribers_upd_value.
    - intros cb s' Hs' c. by rewrite subscribers_call_callback.
    - done. }
  destruct (signals s !! x) as [g|] eqn:Hx.
  2: { rewrite signal_set_missing by done. tauto. }
  destruct (decide (_value g = v)) as [<-|Hv].
  { rewrite signal_set_unchanged by done. tauto. }
  destruct (signal_set_flags e x g v s Hx Hv Hact) as (Ha & Hsch & Hpend).
  unfold waiting in *. split_and!; [done| |rewrite Hsch, Hpend; tauto|done].
  destruct (decide (effect_scheduled e (signal_set x v s) = true)) as [Hafter|Hafter].
  - right. split; [done|]. apply Hpend. apply Hsch in Hafter.
    destruct Hs as [Hs|[Hs1 Hs2]]; [|tauto].
    destruct Hafter as [?|?]; [congruence|tauto].
  - left. by apply not_true_is_false.
Qed.

Lemma scheduled_track_current c e s :
  effect_scheduled e (track_current c s) = effect_scheduled e s.
Proof.
  unfold track_current. cbv zeta. change (current (emit _ s)) with (current s).
  destruct (current s) as [e'|]; [|done].
  unfold track. change (effects (emit _ s)) with (effects s).
  destruct (effects s !! e') as [o|]; [|done].
  case_bool_decide; [done|]. unfold effect_scheduled.
  change (effects (upd_effect ?f e' ?x)) with (alter f e' (effects x)).
  rewrite (lookup_alter_view scheduled) by done.
  unfold subscribe. rewrite effects_upd_cell.
  change (effects (set_next_cb _ ?x)) with (effects x).
  change (effects (upd_effect ?f e' ?x)) with (alter f e' (effects x)).
  by rewrite (lookup_alter_view scheduled).
Qed.

Lemma pending_upd_cell f c s : pendingEffects (upd_cell f c s) = pendingEffects s.
Proof. by destruct c. Qed.

Lemma pending_track_current c s :
  pendingEffects (track_current c s) = pendingEffects s.
Proof.
  unfold track_current. cbv zeta. change (current (emit _ s)) with (current s).
  destruct (current s) as [e'|]; [|done].
  unfold track. change (effects (emit _ s)) with (effects s).
  destruct (effects s !! e') as [o|]; [|done].
  case_bool_decide; [done|].
  change (pendingEffects (upd_effect ?f e' ?x)) with (pendingEffects x).
  unfold subscribe. by rewrite pending_upd_cell.
Qed.

Lemma subscribed_track_current c e c' s :
  subscribed e c' s -> subscribed e c' (track_current c s).
Proof.
  intros (cb & Hcb & Hown). exists cb. split; [|done].
  unfold track_current. cbv zeta. change (current (emit _ s)) with (current s).
  destruct (current s) as [e'|]; [|done].
  unfold track. change (effects (emit _ s)) with (effects s).
  destruct (effects s !! e') as [o|]; [|done].
  case_bool_decide; [done|].
  rewrite subscribers_upd_effect. unfold subscribe, cell_subscribers.
  rewrite cell_signal_upd_cell. case_decide as Hc; [subst c'|done].
  unfold cell_subscribers in Hcb.
  change (cell_signal c (set_next_cb _ _)) with (cell_signal c s).
  destruct (cell_signal c s) as [g|]; [|done]. simpl.
  apply elem_of_set_add. by right.
Qed.

Lemma bump_version_eq vs n s :
  (- 2 ^ 53 <= n < 2 ^ 53)%Z ->
  _value <$> signals s !! vs = Some (VNum n) ->
  bump_version vs s = Some (signal_set vs (VNum (n + 1)) (signal_get vs s).2).
Proof.
  intros Hn Hv. unfold bump_version.
  destruct (signals s !! vs) as [g|] eqn:Hg; [|done].
  simpl in Hv. injection Hv as Hv.
  pose proof (signal_get_value vs g s Hg) as Hget.
  destruct (signal_get vs s) as [r s1]. simpl in *. subst r.
  by rewrite Hv, plus_one_exact.
Qed.

(** The version bump schedules every active consumer of the version
    signal. *)
Lemma bump_version_waiting e vs n s :
  _value <$> signals s !! vs = Some (VNum n) ->
  active_of e s = Some true ->
  (effect_scheduled e s = false \/ waiting e s) ->
  subscribed e (Plain vs) s ->
  waiting e (signal_set vs (VNum (n + 1)) (signal_get vs s).2).
Proof.
  intros Hv Hact Hs Hsub.
  destruct (signals s !! vs) as [g|] eqn:Hg; [|done].
  pose proof (value_signal_get vs vs s) as Hv1. rewrite Hg in Hv1.
  unfold signal_get in *. rewrite Hg in *. cbn [snd] in *.
  set (s1 := track_current (Plain vs) s) in *.
  destruct (signals s1 !! vs) as [g1|] eqn:Hg1; [|done].
  simpl in Hv, Hv1. injection Hv as Hv. injection Hv1 as Hv1.
  assert (active_of e s1 = Some true) as Hact1.
  { unfold s1. by rewrite active_of_track_current. }
  assert (_value g1 <> VNum (n + 1)) as Hne.
  { rewrite Hv1, Hv. intros [= ?]. lia. }
  destruct (signal_set_flags e vs g1 (VNum (n + 1)) s1 Hg1 Hne Hact1)
    as (_ & Hsch & Hpend).
  assert (subscribed e (Plain vs) s1) as Hsub1 by (by apply subscribed_track_current).
  assert (effect_scheduled e s1 = effect_scheduled e s) as Hs1
    by apply scheduled_track_current.
  assert (pendingEffects s1 = pendingEffects s) as Hp1
    by apply pending_track_current.
  split; [apply Hsch; by right|]. apply Hpend. rewrite Hs1, Hp1.
  destruct Hs as [?|[_ ?]]; [by right|by left].
Qed.

(** C10. A plain index assignment through the wrapper with the very
    value the element already holds: the call succeeds, leaves the array
    as it was, rewrites the length signal, adds one to the version
    signal, and every active consumer of the version signal is
    scheduled; only the change event is skipped, no event object is
    built and the change signal keeps its value. Another value at the
    same index does write the change event. The version [n] is a
    number to which a double adds one exactly: [-2^53 <= n < 2^53]. *)
Theorem index_write_same_value (p t ch ls vs i : nat) (v : value) (n : Z)
    (elems : list value) (props : gmap string value) (rs : rstate) :
  array_wrapper p t ch ls vs rs ->
  heap rs !! t = Some (OArray elems props) ->
  elems !! i = Some v ->
  (Z.of_nat i < 2 ^ 32 - 1)%Z ->
  signal_value vs rs = Some (VNum n) ->
  (- 2 ^ 53 <= n < 2 ^ 53)%Z ->
  (exists rs',
     array_set p (KIndex i) v rs = Some (true, rs')
     /\ signal_value vs rs' = Some (VNum (n + 1))
     /\ signal_value ls rs'
        = (fun _ => VNum (Z.of_nat (length elems))) <$> signal_value ls rs
     /\ signal_value ch rs' = signal_value ch rs
     /\ heap rs' = heap rs
     /\ forall e,
          effect_active e (core rs) = true ->
          effect_scheduled e (core rs) = false ->
          subscribed e (Plain vs) (core rs) ->
          waiting e (core rs'))
  /\ forall v', v' <> v -> is_Some (signal_value ch rs) ->
       exists rs'',
         array_set p (KIndex i) v' rs = Some (true, rs'')
         /\ signal_value vs rs'' = Some (VNum (n + 1))
         /\ signal_value ch rs'' = Some (VObj (length (heap rs)))
         /\ heap rs'' !! length (heap rs)
            = Some (OUpdate (Some (Z.of_nat i)) v v' (now rs)).
Proof.
  intros (Hp & _ & Hls & Hch & Hlc) Ht Hi Hbound Hn Hsafe.
  assert (i < length elems) as Hlt by (by eapply lookup_lt_Some).
  assert (forall w, _value <$> signals
            (signal_set ls (VNum (Z.of_nat (length (<[i:=w]> elems)))) (core rs)) !! vs
          = Some (VNum n)) as Hn1.
  { intros w. by rewrite value_signal_set, decide_False. }
  split.
  - unfold array_set. rewrite Hp, Ht. simpl. rewrite Hi. simpl.
    rewrite bool_decide_eq_true_2 by done. unfold store_index.
    rewrite bool_decide_eq_true_2 by done. simpl.
    rewrite (bump_version_eq vs n _ Hsafe (Hn1 v)).
    unfold strict_eq. rewrite bool_decide_eq_true_2 by done. simpl.
    eexists. split; [done|].
    rewrite (list_insert_id elems i v Hi), (list_insert_id (heap rs) t _ Ht).
    unfold signal_value. simpl. split_and!.
    + rewrite value_signal_set, decide_True by done.
      pose proof (value_signal_get vs vs
        (signal_set ls (VNum (Z.of_nat (length elems))) (core rs))) as Hg.
      specialize (Hn1 v). rewrite (list_insert_id elems i v Hi) in Hn1.
      rewrite Hn1 in Hg.
      by destruct (signals (signal_get vs _).2 !! vs).
    + rewrite value_signal_set, decide_False by done.
      rewrite value_signal_get, value_signal_set, decide_True by done.
      by destruct (signals (core rs) !! ls).
    + rewrite value_signal_set, decide_False by done.
      rewrite value_signal_get, value_signal_set, decide_False by done. done.
    + done.
    + intros e Hact Hsch Hsub.
      assert (active_of e (core rs) = Some true) as Hact'.
      { revert Hact. unfold effect_active, active_of.
        by destruct (effects (core rs) !! e) as [o|]; simpl; [intros ->|]. }
      destruct (signal_set_waiting e ls (VNum (Z.of_nat (length elems))) (core rs)
                  Hact' (or_introl Hsch)) as (Ha1 & Hs1 & _ & Hsubs).
      specialize (Hn1 v). rewrite (list_insert_id elems i v Hi) in Hn1.
      apply (bump_version_waiting e vs n _ Hn1 Ha1 Hs1).
      unfold subscribed. by rewrite Hsubs.
  - intros v' Hv' [c0 Hc0]. unfold array_set. rewrite Hp, Ht. simpl. rewrite Hi. simpl.
    rewrite bool_decide_eq_true_2 by done. unfold store_index.
    rewrite bool_decide_eq_true_2 by done. simpl.
    rewrite (bump_version_eq vs n _ Hsafe (Hn1 v')).
    unfold strict_eq. rewrite bool_decide_eq_false_2 by done. simpl.
    eexists. split; [done|]. rewrite length_insert.
    unfold signal_value in *. simpl. split_and!.
    + rewrite value_signal_set, decide_False by done.
      rewrite value_signal_set, decide_True by done.
      pose proof (value_signal_get vs vs
        (signal_set ls (VNum (Z.of_nat (length (<[i:=v']> elems)))) (core rs))) as Hg.
      rewrite (Hn1 v') in Hg.
      by destruct (signals (signal_get vs _).2 !! vs).
    + rewrite value_signal_set, decide_True by done.
      match goal with
      | |- _ <$> signals ?X !! ch = _ =>
          assert (_value <$> signals X !! ch = Some c0) as Hc
      end.
      { rewrite value_signal_set, decide_False by done.
        by rewrite value_signal_get, value_signal_set, decide_False. }
      match goal with
      | |- _ <$> ?o = _ => by destruct o
      end.
    + rewrite lookup_app_r by (by rewrite length_insert).
      by rewrite length_insert, Nat.sub_diag.
Qed.

(** The element at index 1 of [watched_array] is 20; writing 20 there
    schedules the effect that reads the version. *)
Lemma index_write_same_value_witness :
  exists rs',
    array_set 2 (KIndex 1) (VNum 20) watched_array = Some (true, rs')
    /\ signal_value 2 rs' = Some (VNum (0 + 1))
    /\ signal_value 0 rs' = signal_value 0 watched_array
    /\ waiting 0 (core rs').
Proof.
  assert (array_wrapper 2 1 0 1 2 watched_array) as Hw.
  { unfold array_wrapper. split_and!; [vm_compute; reflexivity| |done..].
    eexists _, _. vm_compute. reflexivity. }
  destruct (index_write_same_value 2 1 0 1 2 1 (VNum 20) 0
              [VNum 10; VNum 20; VNum 30] ∅ watched_array Hw)
    as [(rs' & Hset & Hv & _ & Hc & _ & Hwait) _];
    [vm_compute; reflexivity|reflexivity|reflexivity|vm_compute; reflexivity|done|].
  exists rs'. split_and!; [exact Hset|exact Hv|exact Hc|].
  apply Hwait; [vm_compute; reflexivity|vm_compute; reflexivity|].
  exists (mkCallback 0 0). split; [|done]. vm_compute. apply list_elem_of_here.
Defined.

(** ** Wrapping *)

Lemma heap_length_get fuel a rs : heap (length_get fuel a rs).2 = heap rs.
Proof.
  revert a rs. induction fuel as [|fuel IH]; intros a rs; simpl; [done|].
  destruct (heap rs !! a) as [[| |t []| |]|]; try done; by rewrite IH.
Qed.

Lemma heap_signal_or_new t k v rs : heap (signal_or_new t k v rs).2 = heap rs.
Proof.
  unfold signal_or_new. by destruct (default ∅ (_signalsMap rs !! t) !! k) as [[]|].
Qed.

Lemma heap_getSignals t rs : heap (_getSignals t rs).2 = heap rs.
Proof. unfold _getSignals. by destruct (_signalsMap rs !! t). Qed.

(** [reactiveArray] always builds a new proxy. *)
Lemma reactiveArray_fresh a rs :
  (reactiveArray a rs).1 = VObj (length (heap rs))
  /\ exists h, heap (reactiveArray a rs).2 = heap rs ++ [OProxy a h].
Proof.
  unfold reactiveArray.
  pose proof (heap_getSignals a rs) as H1.
  destruct (_getSignals a rs) as [sg rs1]. simpl in H1.
  pose proof (heap_signal_or_new a "__arrayChange" VNull rs1) as H2.
  destruct (signal_or_new a "__arrayChange" VNull rs1) as [ch rs2]. simpl in H2.
  assert (exists ls rs3,
    match default ∅ (_signalsMap rs2 !! a) !! "length" with
    | Some (Plain x) => (x, rs2)
    | _ =>
        let '(len, rs') := length_get (S (length (heap rs2))) a rs2 in
        signal_or_new a "length" (from_option VNum VUndef len) rs'
    end = (ls, rs3) /\ heap rs3 = heap rs2) as (ls & rs3 & -> & H3).
  { pose proof (heap_length_get (S (length (heap rs2))) a rs2) as Hl.
    destruct (length_get _ a rs2) as [len rs']. simpl in Hl.
    pose proof (heap_signal_or_new a "length" (from_option VNum VUndef len) rs') as Hs.
    destruct (signal_or_new a "length" _ rs') as [x rs'']. simpl in Hs.
    destruct (default ∅ (_signalsMap rs2 !! a) !! "length") as [[x'|d]|];
      eexists _, _; split; try done; congruence. }
  pose proof (heap_signal_or_new a "__version" (VNum 0) rs3) as H4.
  destruct (signal_or_new a "__version" (VNum 0) rs3) as [vs rs4]. simpl in H4.
  simpl. rewrite H4, H3, H2, H1. split; [done|]. eauto.
Qed.

Lemma is_array_at_raw fuel h a elems props :
  h !! a = Some (OArray elems props) -> is_array_at (S fuel) h a = true.
Proof. intros Ha. simpl. by rewrite Ha. Qed.

Lemma is_array_at_proxy fuel h p t hd :
  h !! p = Some (OProxy t hd) -> is_array_at (S fuel) h p = is_array_at fuel h t.
Proof. intros Hp. simpl. by rewrite Hp. Qed.

Lemma reactive_of_array a rs :
  isArray (VObj a) rs = true -> reactive (VObj a) rs = reactiveArray a rs.
Proof. intros Ha. unfold reactive. by rewrite Ha. Qed.

(** Wrapping a raw array twice gives two different wrappers, and so does
    wrapping the wrapper of an array. *)
Lemma reactive_array_fresh rs a elems props :
  heap rs !! a = Some (OArray elems props) ->
  (reactive (VObj a) rs).1 = VObj (length (heap rs))
  /\ (reactive (VObj a) (reactive (VObj a) rs).2).1 = VObj (S (length (heap rs)))
  /\ (reactive (reactive (VObj a) rs).1 (reactive (VObj a) rs).2).1
     = VObj (S (length (heap rs))).
Proof.
  intros Ha.
  assert (isArray (VObj a) rs = true) as Harr.
  { unfold isArray. by rewrite (is_array_at_raw _ _ _ _ _ Ha). }
  rewrite (reactive_of_array a rs Harr).
  destruct (reactiveArray_fresh a rs) as [H1 [h H2]].
  set (rs1 := (reactiveArray a rs).2) in *. rewrite H1.
  assert (heap rs1 !! a = Some (OArray elems props)) as Ha'.
  { rewrite H2. by apply lookup_app_l_Some. }
  assert (heap rs1 !! length (heap rs) = Some (OProxy a h)) as Hp'.
  { rewrite H2, lookup_app_r by done. by rewrite Nat.sub_diag. }
  assert (length (heap rs1) = S (length (heap rs))) as Hlen.
  { rewrite H2, length_app. simpl. lia. }
  split_and!; [done| |].
  - rewrite reactive_of_array.
    + destruct (reactiveArray_fresh a rs1) as [H3 _]. by rewrite H3, Hlen.
    + unfold isArray. by rewrite (is_array_at_raw _ _ _ _ _ Ha').
  - rewrite reactive_of_array.
    + destruct (reactiveArray_fresh (length (heap rs)) rs1) as [H3 _].
      by rewrite H3, Hlen.
    + unfold isArray. rewrite (is_array_at_proxy _ _ _ _ _ Hp'), Hlen.
      by rewrite (is_array_at_raw _ _ _ _ _ Ha').
Qed.

(** What does hold: a primitive or [null] comes back unchanged. *)
Lemma reactive_primitive v rs :
  typeof_object v = false \/ v = VNull -> reactive v rs = (v, rs).
Proof. intros [Hv| ->]; [by destruct v|done]. Qed.

(** What does hold: two wraps of one raw object, other than an array,
    give the same wrapper. *)
Lemma reactive_object_stable rs a props :
  heap rs !! a = Some (OPlain props) ->
  (reactive (VObj a) (reactive (VObj a) rs).2).1 = (reactive (VObj a) rs).1.
Proof.
  intros Ha.
  assert (forall rs', heap rs' !! a = Some (OPlain props) ->
            isArray (VObj a) rs' = false) as Hnot.
  { intros rs' Ha'. unfold isArray. simpl. by rewrite Ha'. }
  unfold reactive at 2 3. rewrite (Hnot rs Ha). simpl.
  destruct (_reactiveMap rs !! a) as [p|] eqn:Hmap.
  - simpl. unfold reactive. rewrite (Hnot rs Ha). simpl. by rewrite Hmap.
  - pose proof (heap_getSignals a rs) as Hh.
    destruct (_getSignals a rs) as [sg rs1]. simpl in Hh |- *.
    unfold reactive. rewrite Hnot.
    + simpl. by rewrite lookup_insert_eq.
    + simpl. rewrite Hh. by apply lookup_app_l_Some.
Qed.

(** C3, evaluated. [reactive] dispatches arrays to [reactiveArray]
    before it looks into [_reactiveMap], and [_reactiveMap] is keyed by
    raw objects: the raw array of [two_objects] gets the wrapper 2 and
    then, wrapped again, the wrapper 3; wrapping the wrapper 2 gives the
    wrapper 3 around it; and the wrapper of the raw object 0 is 2, and
    wrapping that wrapper gives 3. Primitives and [null] do come back
    unchanged. *)
Theorem reactive_wraps_again :
  (reactive (VObj 1) two_objects).1 = VObj 2
  /\ (reactive (VObj 1) (reactive (VObj 1) two_objects).2).1 = VObj 3
  /\ (reactive (VObj 2) (reactive (VObj 1) two_objects).2).1 = VObj 3
  /\ heap (reactive (VObj 2) (reactive (VObj 1) two_objects).2).2 !! 3
     = Some (OProxy 2 (HArray 3 4 5))
  /\ (reactive (VObj 0) two_objects).1 = VObj 2
  /\ (reactive (VObj 2) (reactive (VObj 0) two_objects).2).1 = VObj 3
  /\ heap (reactive (VObj 2) (reactive (VObj 0) two_objects).2).2 !! 3
     = Some (OProxy 2 HObject)
  /\ (reactive (VNum 7) two_objects).1 = VNum 7
  /\ (reactive VNull two_objects).1 = VNull.
Proof. repeat split; vm_compute; reflexivity. Qed.

(** * Keyed list rendering *)

(** [ExpressionEvaluator.evaluate] returns on every input: its [catch]
    takes every error. *)
Lemma evaluate_returns ex ctx st :
  exists v, (evaluate ex ctx st).1 = Returns v.
Proof.
  unfold evaluate. destruct (compiled ex) as [fn|]; [destruct (fn ctx)|]; eauto.
Qed.

Lemma events_loop_emit ev st : events (loop_emit ev st) = events st ++ [ev].
Proof. reflexivity. Qed.

Lemma events_since_app st st' l :
  events st' = events st ++ l -> events_since st st' = l.
Proof.
  unfold events_since. intros ->. by rewrite drop_app_length.
Qed.

(** What [evaluate] logs when the compiled function throws. *)
Lemma evaluate_throwing ex fn ctx st :
  compiled ex = Some fn -> fn ctx = None ->
  (evaluate ex ctx st).1 = Returns VUndef
  /\ events (evaluate ex ctx st).2 = events st ++ [LWarn "Error evaluating expression"].
Proof.
  intros Hc Hf. unfold evaluate. rewrite Hc, Hf. split; [done|].
  cbn [snd]. rewrite events_loop_emit. by destruct (bool_decide _).
Qed.

(** The [catch] of [_computeKey] is never entered: with a key expression
    the key is what [evaluate] returned. *)
Lemma computeKey_is_evaluate cfg ex d ctx st :
  keyExpression cfg = Some ex ->
  exists v, evaluate ex ctx st = (Returns v, (_computeKey cfg d ctx st).2)
            /\ (_computeKey cfg d ctx st).1 = v.
Proof.
  intros Hk. unfold _computeKey. rewrite Hk.
  destruct (evaluate_returns ex ctx st) as [v Hv].
  destruct (evaluate ex ctx st) as [o st1]. cbn in Hv. subst o. eauto.
Qed.

(** C8, evaluation of the code: when the key expression of an item
    throws, the key that [_computeKey] returns is [undefined], not the
    positional index of the item, and the only warning is the one of the
    expression evaluator; the warning of the fallback is not emitted. *)
Theorem computeKey_of_throwing_expression cfg ex fn d ctx st :
  keyExpression cfg = Some ex ->
  compiled ex = Some fn ->
  fn ctx = None ->
  (_computeKey cfg d ctx st).1 = VUndef
  /\ (_computeKey cfg d ctx st).1 <> VNum (Z.of_nat (_index ctx))
  /\ events_since st (_computeKey cfg d ctx st).2
     = [LWarn "Error evaluating expression"].
Proof.
  intros Hk Hc Hf.
  destruct (evaluate_throwing ex fn ctx st Hc Hf) as [Hv He].
  unfold _computeKey. rewrite Hk.
  destruct (evaluate ex ctx st) as [o st1]. cbn in Hv, He. subst o. cbn.
  split_and!; [done|done|]. by apply events_since_app.
Qed.

Lemma computeKey_of_throwing_expression_witness :
  (_computeKey by_id VNull null_context rendered_123).1 = VUndef
  /\ (_computeKey by_id VNull null_context rendered_123).1 <> VNum 1
  /\ events_since rendered_123 (_computeKey by_id VNull null_context rendered_123).2
     = [LWarn "Error evaluating expression"].
Proof.
  refine (computeKey_of_throwing_expression by_id item_id _ VNull null_context
            rendered_123 _ _ _); vm_compute; reflexivity.
Defined.

(** Two items whose key expression throws get the same key: one
    instance is built for the two of them, and the first position of the
    list of instances stays empty. *)
Lemma throwing_keys_collide :
  exists st, _reconcile by_id [VNull; VNull] empty_loop = Returns st
    /\ instances st = [None; Some 0]
    /\ length (arena st) = 1
    /\ dom st = [99; 100; 0; 101].
Proof. eexists. vm_compute. done. Qed.

(** With the key ['$index'] the key is the position. *)
Lemma computeKey_index cfg d ctx st :
  keyExpression cfg = None ->
  _computeKey cfg d ctx st = (VNum (Z.of_nat (_index ctx)), st).
Proof. unfold _computeKey. by intros ->. Qed.

(** C5: the list rendered for [[{id:1}, {id:2}, {id:3}]] has the keys 1,
    2, 3; reconciling it with [[{id:2}, {id:3}, {id:4}]] under the key
    [item.id] removes the instance of the key 1 and no other (its
    element leaves the tree and its cleanup runs), keeps the instances
    of the keys 2 and 3 with the elements they had, and builds one
    instance, for the key 4. *)
Theorem reconcile_minimal :
  _reconcile by_id sequence_123 empty_loop = Returns rendered_123
  /\ _reconcile by_id sequence_234 rendered_123 = Returns rendered_234
  (* the keys before and the keys of the new sequence *)
  /\ (_buildKeyMap by_id (instances rendered_123) rendered_123).1
     = Returns [(VNum 1, (0, 0)); (VNum 2, (1, 1)); (VNum 3, (2, 2))]
  /\ keys_of (_buildDataKeyMap by_id sequence_234 rendered_123).1
     = [VNum 2; VNum 3; VNum 4]
  (* one removal, with its cleanup, and one construction *)
  /\ events_since rendered_123 rendered_234
     = [LRemoved 0; LCleanup 0; LCreated 3 3]
  /\ element <$> arena rendered_123 !! 0 = Some 0
  (* the instances of the keys 2 and 3 are the same objects, with the
     same elements *)
  /\ instances rendered_123 = [Some 0; Some 1; Some 2]
  /\ instances rendered_234 = [Some 1; Some 2; Some 3]
  /\ element <$> arena rendered_234 !! 1 = element <$> arena rendered_123 !! 1
  /\ element <$> arena rendered_234 !! 2 = element <$> arena rendered_123 !! 2
  /\ (_buildKeyMap by_id (instances rendered_234) rendered_234).1
     = Returns [(VNum 2, (1, 0)); (VNum 3, (2, 1)); (VNum 4, (3, 2))]
  (* the tree *)
  /\ dom rendered_123 = [99; 100; 0; 1; 2; 101]
  /\ dom rendered_234 = [99; 100; 1; 2; 3; 101].
Proof. split_and!; vm_compute; reflexivity. Qed.

(** * Further properties of the engine *)

Lemma subscribers_dispose c c' s :
  cell_subscribers c' (dispose c s)
  = if decide (c = c') then [] else cell_subscribers c' s.
Proof.
  unfold dispose, cell_subscribers. rewrite cell_signal_upd_cell.
  case_decide; [subst c'|done]. by destruct (cell_signal c s).
Qed.

Lemma edges_owned_dispose c s : edges_owned s -> edges_owned (dispose c s).
Proof.
  apply edges_owned_weaken.
  - intros c' cb. rewrite subscribers_dispose. case_decide; [|done].
    by intros ?%elem_of_nil.
  - intros e d cl. unfold dispose. rewrite edges_of_upd_cell. eauto.
  - intros c' cb d cl _ Hed _. unfold dispose. rewrite edges_of_upd_cell. eauto.
Qed.

Lemma edges_owned_computed_dispose d s :
  edges_owned s -> edges_owned (computed_dispose d s).
Proof.
  intros Hs. unfold computed_dispose.
  destruct (computeds s !! d) as [c|]; [|done].
  apply edges_owned_dispose. destruct (effect c) as [e|]; [|done].
  apply (edges_owned_frame (stop e s)); [| |by apply edges_owned_stop].
  - intros c'. unfold cell_subscribers. destruct c' as [x|d']; simpl; [done|].
    by rewrite (lookup_alter_view base).
  - done.
Qed.

(** X1. The subscriptions that the engine makes are owned by effects.
    The programs are the sequences of [op]: they make signals, effects
    and derivations, read and write them, stop and run effects and
    flush; they do not call [subscribe] with a callback of their own,
    whose subscription no effect would own. In every state that such a
    program reaches from the initial one, every subscriber of a cell is
    a callback of an effect of the store that holds the unsubscribe
    function of this callback, and an effect holds unsubscribe functions
    of its own callbacks only; [dispose] of a signal or of a derivation,
    called on such a state, keeps it so. *)
Theorem subscriptions_owned (ops : list op) :
  edges_owned (run_ops ops init_state)
  /\ (forall x, edges_owned (dispose (Plain x) (run_ops ops init_state)))
  /\ (forall d, edges_owned (computed_dispose d (run_ops ops init_state))).
Proof.
  assert (edges_owned (run_ops ops init_state)) as H
    by apply edges_owned_run_ops, edges_owned_init.
  split; [done|]. split.
  - intros x. by apply edges_owned_dispose.
  - intros d. by apply edges_owned_computed_dispose.
Qed.

(** X2. [effect.stop()] removes the effect from the subscribers of every
    cell and empties its dependency set and its list of unsubscribe
    functions. *)
Theorem stop_unsubscribes (e : nat) (s : state) :
  edges_owned s ->
  (forall c, ~ subscribed e c (stop e s))
  /\ edges_of e (stop e s) = (fun _ => ([], [])) <$> edges_of e s
  /\ effect_active e (stop e s) = false.
Proof.
  intros [Hsub Hown]. split_and!.
  - intros c (cb & Hcb & Howner).
    destruct (effects s !! e) as [o|] eqn:He.
    + apply (elem_of_subscribers_stop e o) in Hcb as [Hcb Hnot]; [|done].
      destruct (Hsub c cb Hcb) as (o' & Ho' & Hin).
      rewrite Howner, He in Ho'. by simplify_eq.
    + rewrite subscribers_stop_missing in Hcb by done.
      destruct (Hsub c cb Hcb) as (o' & Ho' & _). rewrite Howner in Ho'. congruence.
  - apply edges_of_stop_eq.
  - rewrite effect_active_alt, active_of_stop.
    rewrite decide_True by done. by destruct (active_of e s).
Qed.

Lemma stop_unsubscribes_witness :
  (forall c, ~ subscribed 0 c (stop 0 cond_effect_state))
  /\ edges_of 0 (stop 0 cond_effect_state)
     = (fun _ => ([], [])) <$> edges_of 0 cond_effect_state
  /\ effect_active 0 (stop 0 cond_effect_state) = false.
Proof.
  apply (stop_unsubscribes 0 cond_effect_state).
  apply edges_owned_run_ops, edges_owned_run_ops, edges_owned_init.
Defined.

(** ** The tracker *)

Lemma tracker_of_upd_cell f c s : tracker_of (upd_cell f c s) = tracker_of s.
Proof. by destruct c. Qed.

Lemma tracker_of_schedule e s : tracker_of (schedule e s) = tracker_of s.
Proof. unfold schedule. by case_match. Qed.

Lemma tracker_of_call_callback cb s : tracker_of (call_callback cb s) = tracker_of s.
Proof.
  unfold call_callback. repeat case_match; try done. by rewrite tracker_of_schedule.
Qed.

Lemma tracker_of_cleanup e s : tracker_of (cleanup e s) = tracker_of s.
Proof.
  unfold cleanup. destruct (effects s !! e) as [o|]; [|done].
  change (tracker_of (upd_effect ?f e ?s')) with (tracker_of s').
  generalize (cleanups o) as l. intros l. revert s.
  induction l as [|u l IH]; intros s; simpl; [done|].
  rewrite IH. apply tracker_of_upd_cell.
Qed.

Lemma tracker_of_stop e s : tracker_of (stop e s) = tracker_of s.
Proof.
  unfold stop. destruct (effects s !! e); [|done].
  change (tracker_of (upd_effect ?f e ?s')) with (tracker_of s').
  by rewrite tracker_of_cleanup.
Qed.

Lemma tracker_of_track e c s : tracker_of (track e c s) = tracker_of s.
Proof.
  unfold track. repeat case_match; try done.
  change (tracker_of (upd_effect ?f e ?s')) with (tracker_of s').
  unfold subscribe. by rewrite tracker_of_upd_cell.
Qed.

Lemma tracker_of_track_current c s : tracker_of (track_current c s) = tracker_of s.
Proof.
  unfold track_current. case_match; [|done]. by rewrite tracker_of_track.
Qed.

Lemma tracker_of_run_prologue e s : tracker_of (run_prologue e s) = tracker_of s.
Proof.
  unfold run_prologue.
  change (tracker_of (upd_effect ?f e ?s')) with (tracker_of s').
  by rewrite tracker_of_cleanup.
Qed.

Lemma tracker_of_call_fn e f s : tracker_of (call_fn e f s).2 = tracker_of s.
Proof.
  apply (call_fn_pres (fun _ => True) (fun s' => tracker_of s' = tracker_of s));
    try done.
  - intros c s' _ <-. apply tracker_of_track_current.
  - intros c v s' <-. apply tracker_of_upd_cell.
  - intros cb s' <-. apply tracker_of_call_callback.
  - intros e' s' _ <-. apply tracker_of_stop.
  - intros. apply stops_only_True.
  - apply shape_exec_getter.
  - apply recompute_keeps_cell.
  - destruct f; simpl; [apply stops_only_True|done].
Qed.

Lemma tracker_of_tracker_track e f s :
  tracker_of (tracker_track e f s).2 = tracker_of s.
Proof.
  unfold tracker_track.
  pose proof (tracker_of_call_fn e f
                (emit (EvRun e) (set_tracker (Some e) (stack s ++ [current s]) s))) as Hc.
  destruct (call_fn e f _) as [ok s2]. cbn [snd] in *.
  unfold tracker_of in *. cbn in Hc. injection Hc as Hcur Hst.
  cbn. by rewrite Hst, removelast_last.
Qed.

Lemma tracker_of_run_method e s : tracker_of (run_method e s) = tracker_of s.
Proof.
  unfold run_method. destruct (effects s !! e) as [o|]; [|done].
  destruct (active o); cbn [negb]; [|done].
  pose proof (tracker_of_tracker_track e (fn o) (run_prologue e s)) as Ht.
  destruct (tracker_track e (fn o) _) as [[] s4]; cbn [snd] in *.
  - by rewrite Ht, tracker_of_run_prologue.
  - change (tracker_of (emit ?ev ?s')) with (tracker_of s').
    by rewrite Ht, tracker_of_run_prologue.
Qed.

Lemma tracker_of_run e s : tracker_of (run e s) = tracker_of s.
Proof.
  unfold run. destruct (effects s !! e) as [o|]; [|done].
  destruct (own_run o); [done|apply tracker_of_run_method].
Qed.

Lemma tracker_of_flush_step s e : tracker_of (flush_step s e) = tracker_of s.
Proof. unfold flush_step. repeat case_match; try done. apply tracker_of_run. Qed.

Lemma tracker_of_flush_loop (l : list nat) s :
  tracker_of (flush_loop l s).2 = tracker_of s.
Proof.
  revert s. induction l as [|e l IH]; intros s; simpl; [done|].
  case_match; simpl; [apply tracker_of_flush_step|].
  by rewrite IH, tracker_of_flush_step.
Qed.

Lemma tracker_of_flush s : tracker_of (flush s) = tracker_of s.
Proof.
  unfold flush. destruct (isFlushing s); [done|]. cbv zeta.
  pose proof (tracker_of_flush_loop (pendingEffects s)
                (set_scheduler [] false true (frames s) s)) as Hl.
  simpl in *. destruct (flush_loop _ _) as [[] s3]; simpl in *; [|done].
  by case_match.
Qed.

Lemma tracker_of_computed_get d s : tracker_of (computed_get d s).2 = tracker_of s.
Proof.
  apply (computed_get_pres (fun _ => True) (fun s' => tracker_of s' = tracker_of s));
    try done.
  - intros c s' _ <-. apply tracker_of_track_current.
  - intros c v s' <-. apply tracker_of_upd_cell.
  - intros cb s' <-. apply tracker_of_call_callback.
  - intros e' s' _ <-. apply tracker_of_stop.
  - intros. apply stops_only_True.
  - apply shape_exec_getter.
  - apply recompute_keeps_cell.
Qed.

Lemma tracker_of_signal_set x v s : tracker_of (signal_set x v s) = tracker_of s.
Proof.
  apply (signal_set_pres (fun s' => tracker_of s' = tracker_of s)); try done.
  - intros c v' s' <-. apply tracker_of_upd_cell.
  - intros cb s' <-. apply tracker_of_call_callback.
Qed.

Lemma tracker_of_new_effect f s : tracker_of (new_effect f s).2 = tracker_of s.
Proof. unfold new_effect. cbn [snd]. by rewrite tracker_of_run_method. Qed.

Lemma tracker_of_new_computed g s : tracker_of (new_computed g s).2 = tracker_of s.
Proof.
  unfold new_computed.
  pose proof (tracker_of_new_effect (FnComputed (length (computeds s)))
    (set_nextId (S (_nextId s))
       (set_computeds
          (fun l => l ++ [mkComputed (mkSignal VUndef [] (_nextId s)) g None true]) s)))
    as Hn.
  destruct (new_effect _ _) as [e s2]. cbn [snd] in *.
  by case_match.
Qed.

Lemma tracker_of_apply_op s o : tracker_of (apply_op s o) = tracker_of s.
Proof.
  destruct o; simpl.
  - done.
  - apply tracker_of_new_effect.
  - apply tracker_of_new_computed.
  - unfold signal_get. case_match; [|done]. apply tracker_of_track_current.
  - apply tracker_of_signal_set.
  - apply tracker_of_computed_get.
  - done.
  - apply tracker_of_stop.
  - apply tracker_of_run.
  - apply tracker_of_flush.
  - unfold animation_frame. destruct (frames s); [done|].
    by rewrite tracker_of_flush.
Qed.

(** X3. [EffectTracker.track(effect, fn)] leaves [current] and [stack]
    as it found them, whether [fn] returned or threw, and so does every
    program of the user: outside of a run no effect is the current
    one. *)
Theorem tracker_restored :
  (forall e f s, tracker_of (tracker_track e f s).2 = tracker_of s)
  /\ (forall ops s, tracker_of (run_ops ops s) = tracker_of s)
  /\ (forall ops, current (run_ops ops init_state) = None
                  /\ stack (run_ops ops init_state) = []).
Proof.
  assert (forall ops s, tracker_of (run_ops ops s) = tracker_of s) as Hops.
  { induction ops as [|o ops IH]; intros s; [done|].
    change (run_ops (o :: ops) s) with (run_ops ops (apply_op s o)).
    by rewrite IH, tracker_of_apply_op. }
  split_and!; [apply tracker_of_tracker_track|done|].
  intros ops. specialize (Hops ops init_state). by injection Hops.
Qed.

(** ** The scheduler *)

Lemma scheduler_of_upd_cell f c s : scheduler_of (upd_cell f c s) = scheduler_of s.
Proof. by destruct c. Qed.

Lemma scheduler_of_cleanup e s : scheduler_of (cleanup e s) = scheduler_of s.
Proof.
  unfold cleanup. destruct (effects s !! e) as [o|]; [|done].
  change (scheduler_of (upd_effect ?f e ?s')) with (scheduler_of s').
  generalize (cleanups o) as l. intros l. revert s.
  induction l as [|u l IH]; intros s; simpl; [done|].
  rewrite IH. apply scheduler_of_upd_cell.
Qed.

Lemma scheduler_of_stop e s : scheduler_of (stop e s) = scheduler_of s.
Proof.
  unfold stop. destruct (effects s !! e); [|done].
  change (scheduler_of (upd_effect ?f e ?s')) with (scheduler_of s').
  by rewrite scheduler_of_cleanup.
Qed.

Lemma scheduler_of_track e c s : scheduler_of (track e c s) = scheduler_of s.
Proof.
  unfold track. repeat case_match; try done.
  change (scheduler_of (upd_effect ?f e ?s')) with (scheduler_of s').
  unfold subscribe. by rewrite scheduler_of_upd_cell.
Qed.

Lemma scheduler_of_track_current c s :
  scheduler_of (track_current c s) = scheduler_of s.
Proof.
  unfold track_current. case_match; [|done]. by rewrite scheduler_of_track.
Qed.

Lemma scheduler_of_run_prologue e s :
  scheduler_of (run_prologue e s) = scheduler_of s.
Proof.
  unfold run_prologue.
  change (scheduler_of (upd_effect ?f e ?s')) with (scheduler_of s').
  by rewrite scheduler_of_cleanup.
Qed.

(** A property of the fields of the scheduler that [schedule] keeps is
    kept by every operation that does not flush. *)
Section SchedulerInvariant.
Variable I : state -> Prop.
Hypothesis I_fields : forall s s', scheduler_of s = scheduler_of s' -> I s -> I s'.
Hypothesis I_schedule : forall e s, I s -> I (schedule e s).

Lemma sched_callback cb s : I s -> I (call_callback cb s).
Proof.
  intros Hs. unfold call_callback. repeat case_match; try done.
  apply I_schedule. by eapply I_fields; [|exact Hs].
Qed.

Ltac sched_steps :=
  first
    [ apply sched_callback
    | intros; (eapply I_fields; [|eassumption]); symmetry;
      first [ apply scheduler_of_track_current
            | apply scheduler_of_upd_cell
            | apply scheduler_of_stop
            | apply scheduler_of_run_prologue
            | reflexivity ] ].

Lemma sched_signal_set x v s : I s -> I (signal_set x v s).
Proof. apply signal_set_keeps; sched_steps. Qed.

Lemma sched_signal_get x s : I s -> I (signal_get x s).2.
Proof. apply signal_get_keeps; sched_steps. Qed.

Lemma sched_computed_get d s : I s -> I (computed_get d s).2.
Proof. apply computed_get_keeps; sched_steps. Qed.

Lemma sched_run e s : I s -> I (run e s).
Proof. apply run_keeps; sched_steps. Qed.

Lemma sched_new_effect f s : I s -> I (new_effect f s).2.
Proof. apply new_effect_keeps; sched_steps. Qed.

Lemma sched_new_computed g s : I s -> I (new_computed g s).2.
Proof. apply new_computed_keeps; sched_steps. Qed.

Lemma sched_flush_loop (l : list nat) s : I s -> I (flush_loop l s).2.
Proof. apply flush_loop_keeps; sched_steps. Qed.
End SchedulerInvariant.

Lemma frame_requested_fields s s' :
  scheduler_of s = scheduler_of s' -> frame_requested s -> frame_requested s'.
Proof.
  unfold scheduler_of, frame_requested. intros [= H1 H2 H3 H4].
  by rewrite H1, H2, H3, H4.
Qed.

Lemma frame_requested_schedule e s : frame_requested s -> frame_requested (schedule e s).
Proof.
  unfold frame_requested, schedule. intros (Hfl & Hfr & Hp). cbn.
  rewrite Hfl. destruct (isScheduled s) eqn:Hsch; cbn.
  - split_and!; [done|by apply Hfr|done].
  - split_and!; [done|lia|done].
Qed.

Lemma in_flush_fields s s' :
  scheduler_of s = scheduler_of s' -> in_flush s -> in_flush s'.
Proof.
  unfold scheduler_of, in_flush. intros [= H1 H2 H3 H4]. by rewrite H2, H3.
Qed.

Lemma in_flush_schedule e s : in_flush s -> in_flush (schedule e s).
Proof.
  unfold in_flush, schedule. intros [Hfl Hsch]. cbn. rewrite Hfl, Hsch. by cbn.
Qed.

(** A flush that starts outside of a flush and that no exception ends
    leaves a frame requested for whatever is pending. *)
Lemma frame_requested_flush s :
  errors_handled (code_of s) -> isFlushing s = false -> frame_requested (flush s).
Proof.
  intros Hcode Hfl. unfold flush. rewrite Hfl. cbv zeta.
  set (s2 := set_scheduler [] _ _ _ _).
  assert (in_flush s2) as H2 by done.
  pose proof (sched_flush_loop in_flush in_flush_fields in_flush_schedule
                (pendingEffects (set_scheduler (pendingEffects s) false true (frames s) s))
                s2 H2) as [H3 H3'].
  rewrite flush_loop_handled in * by done.
  set (s3 := foldl flush_step s2 _) in *. cbn [snd] in H3, H3'.
  cbn [isScheduled pendingEffects set_scheduler frames isFlushing].
  rewrite H3'. cbn [negb]. rewrite andb_true_r.
  case_bool_decide as Hlen.
  - unfold frame_requested, requestAnimationFrame. cbn. split_and!; [done|lia|done].
  - unfold frame_requested. cbn. split_and!; [done|done|].
    intros Hne. change (pendingEffects s3 <> []) in Hne.
    destruct (pendingEffects s3); [done|]. simpl in Hlen. lia.
Qed.

Lemma frame_requested_apply_op s o :
  errors_handled (code_of s) ->
  frame_requested s -> frame_requested (apply_op s o).
Proof.
  intros Hcode Hs. destruct o; simpl.
  - done.
  - apply (sched_new_effect frame_requested);
      first [exact frame_requested_fields|exact frame_requested_schedule|exact Hs].
  - apply (sched_new_computed frame_requested);
      first [exact frame_requested_fields|exact frame_requested_schedule|exact Hs].
  - apply (sched_signal_get frame_requested);
      first [exact frame_requested_fields|exact frame_requested_schedule|exact Hs].
  - apply (sched_signal_set frame_requested);
      first [exact frame_requested_fields|exact frame_requested_schedule|exact Hs].
  - apply (sched_computed_get frame_requested);
      first [exact frame_requested_fields|exact frame_requested_schedule|exact Hs].
  - done.
  - eapply frame_requested_fields; [|exact Hs]. symmetry. apply scheduler_of_stop.
  - apply (sched_run frame_requested);
      first [exact frame_requested_fields|exact frame_requested_schedule|exact Hs].
  - apply frame_requested_flush; [done|by destruct Hs].
  - unfold animation_frame. destruct (frames s); [done|].
    apply frame_requested_flush; [done|by destruct Hs].
Qed.

(** The code that a program brings, and what it does to the code of the
    store. *)
Lemma errors_handled_own_run r e s :
  errors_handled (code_of s) ->
  errors_handled (code_of (upd_effect (eff_with_own_run r) e s)).
Proof.
  intros [Hg Hb]. split; [done|]. intros e' b r'. unfold code_of. simpl.
  rewrite list_lookup_fmap. destruct (decide (e = e')) as [<-|Hne].
  - rewrite list_lookup_alter_eq. destruct (effects s !! e) as [o|] eqn:Ho; [|done].
    simpl. intros [= Hf _]. apply (Hb e b (own_run o)).
    unfold code_of. simpl. by rewrite list_lookup_fmap, Ho, <- Hf.
  - rewrite list_lookup_alter_ne by done. intros H. apply (Hb e' b r').
    unfold code_of. simpl. by rewrite list_lookup_fmap.
Qed.

Lemma errors_handled_new_effect f s :
  fn_handled f -> errors_handled (code_of s) ->
  errors_handled (code_of (new_effect f s).2).
Proof.
  intros Hf [Hg Hb]. unfold new_effect. cbn [snd]. rewrite code_of_run_method.
  split; [done|]. intros e b r. unfold code_of. simpl. rewrite fmap_app. simpl.
  intros [He|[_ He]]%lookup_app_Some.
  - by apply (Hb e b r).
  - destruct (e - _); [|done]. simpl in He. by injection He as -> _.
Qed.

Lemma errors_handled_new_computed g s :
  throws_objects g -> errors_handled (code_of s) ->
  errors_handled (code_of (new_computed g s).2).
Proof.
  intros Hg Hs. unfold new_computed.
  set (s1 := set_nextId _ _).
  assert (errors_handled (code_of s1)) as Hs1.
  { destruct Hs as [H1 H2]. split; [|done].
    intros d g'. unfold code_of. simpl. rewrite fmap_app. simpl.
    intros [Hd|[_ Hd]]%lookup_app_Some.
    - by apply (H1 d).
    - destruct (d - _); [by simplify_eq/=|done]. }
  pose proof (errors_handled_new_effect (FnComputed (length (computeds s))) s1 I Hs1)
    as Hn.
  destruct (new_effect _ s1) as [e s2]. cbn [snd] in *.
  case_match; cbn [snd]; [done|].
  apply errors_handled_own_run. by rewrite code_of_upd_computed.
Qed.

Lemma errors_handled_apply_op s o :
  op_handled o -> errors_handled (code_of s) -> errors_handled (code_of (apply_op s o)).
Proof.
  intros Ho Hs. destruct o; simpl in *.
  - done.
  - by apply errors_handled_new_effect.
  - by apply errors_handled_new_computed.
  - by rewrite code_of_signal_get.
  - by rewrite code_of_signal_set.
  - by rewrite code_of_computed_get.
  - done.
  - by rewrite code_of_stop.
  - by rewrite code_of_run.
  - unfold flushSync. by rewrite code_of_flush.
  - unfold animation_frame. destruct (frames s); [done|]. by rewrite code_of_flush.
Qed.

(** In [stuck_state] the flush after the write has run the first
    effect, whose boundary cannot log [null]: the TypeError ended the
    flush, the second effect was not run, and [isFlushing] stays set, so
    that no later flush does anything. *)
Lemma flush_of_null :
  isFlushing stuck_state = true
  /\ run_count 0 (log stuck_state) = 2
  /\ run_count 1 (log stuck_state) = 1
  /\ run_count 1 (log (run_ops [Write 0 (VBool true); FlushSync; AnimationFrame] stuck_state))
     = 1.
Proof. by vm_compute. Qed.

(** X4. No pending effect is forgotten, as long as the error boundary
    handles every exception, that is, as long as no body and no getter
    of the program throws [null] or [undefined]: in every state that
    such a program reaches, no flush is under way, and when the pending
    set is not empty, [isScheduled] is set and a callback of
    [requestAnimationFrame] that will flush is registered. (The
    boundary cannot log [null] or [undefined]; its TypeError ends a
    flush with [isFlushing] set, see [flush_of_null].) *)
Theorem pending_effects_have_a_frame (ops : list op) :
  Forall op_handled ops ->
  isFlushing (run_ops ops init_state) = false
  /\ (pendingEffects (run_ops ops init_state) <> [] ->
      isScheduled (run_ops ops init_state) = true
      /\ 0 < frames (run_ops ops init_state)).
Proof.
  intros Hops.
  assert (forall s, errors_handled (code_of s) -> frame_requested s ->
                    frame_requested (run_ops ops s)) as Hrun.
  { induction Hops as [|o ops Ho Hops IH]; intros s Hc Hs; [done|].
    change (run_ops (o :: ops) s) with (run_ops ops (apply_op s o)).
    apply IH; [by apply errors_handled_apply_op|by apply frame_requested_apply_op]. }
  destruct (Hrun init_state) as (Hfl & Hfr & Hp).
  { split; [by intros []|by intros []]. }
  { split_and!; done. }
  split; [done|]. intros Hne. split; [by apply Hp|by apply Hfr, Hp].
Qed.

(** Three signals, an effect that reads two of them, and a write that
    leaves the effect pending. *)
Lemma pending_effects_have_a_frame_witness :
  Forall op_handled
    [NewSignal (VBool true); NewSignal (VNum 1); NewSignal (VNum 2);
     NewEffect cond_body; Write 0 (VBool false)]
  /\ isFlushing
       (run_ops [NewSignal (VBool true); NewSignal (VNum 1); NewSignal (VNum 2);
                 NewEffect cond_body; Write 0 (VBool false)] init_state) = false
  /\ (pendingEffects
        (run_ops [NewSignal (VBool true); NewSignal (VNum 1); NewSignal (VNum 2);
                  NewEffect cond_body; Write 0 (VBool false)] init_state) <> [] ->
      isScheduled
        (run_ops [NewSignal (VBool true); NewSignal (VNum 1); NewSignal (VNum 2);
                  NewEffect cond_body; Write 0 (VBool false)] init_state) = true
      /\ 0 < frames
               (run_ops [NewSignal (VBool true); NewSignal (VNum 1); NewSignal (VNum 2);
                         NewEffect cond_body; Write 0 (VBool false)] init_state)).
Proof.
  assert (Forall op_handled
            [NewSignal (VBool true); NewSignal (VNum 1); NewSignal (VNum 2);
             NewEffect cond_body; Write 0 (VBool false)]) as H.
  { repeat constructor. intros [| |[]| | | |]; by intros []. }
  split; [exact H|].
  exact (pending_effects_have_a_frame
           [NewSignal (VBool true); NewSignal (VNum 1); NewSignal (VNum 2);
            NewEffect cond_body; Write 0 (VBool false)] H).
Defined.

(** ** Signals and derivations *)

(** X5. A write of a value that differs from the stored one calls every
    subscriber once, in the order of subscription, with the new and the
    old value, and stores the new value; a write of the stored value
    calls nobody. *)
Theorem signal_set_notifies (x : nat) (g : signal) (v : value) (s : state) :
  signals s !! x = Some g ->
  log_since s (signal_set x v s)
  = (if strict_eq (_value g) v then []
     else (fun cb => EvNotify (Plain x) cb v (_value g)) <$> _subscribers g)
  /\ _value <$> signals (signal_set x v s) !! x = Some v.
Proof.
  intros Hx. split.
  - unfold signal_set. rewrite Hx. destruct (strict_eq (_value g) v).
    + unfold log_since. by rewrite drop_all.
    + apply log_since_app. unfold _notify. rewrite log_notify_loop.
      unfold cell_subscribers, cell_signal, upd_signal. cbn.
      by rewrite list_lookup_alter_eq, Hx.
  - rewrite value_signal_set, decide_True by done. by rewrite Hx.
Qed.

Lemma signal_set_notifies_witness :
  log_since cond_effect_state (signal_set 0 (VBool false) cond_effect_state)
  = [EvNotify (Plain 0) (mkCallback 0 0) (VBool false) (VBool true)]
  /\ _value <$> signals (signal_set 0 (VBool false) cond_effect_state) !! 0
     = Some (VBool false).
Proof.
  apply (signal_set_notifies 0 (mkSignal (VBool true) [mkCallback 0 0] 0)
           (VBool false) cond_effect_state).
  vm_compute. reflexivity.
Defined.

Lemma shape_evaluate_getter d s : shape (evaluate_getter d s).2 = shape s.
Proof.
  apply (evaluate_getter_pres (fun _ => True) (fun s' => shape s' = shape s)).
  - by intros ev s' _ <-.
  - by intros d' cb v s' <-.
  - intros c s' _ <-. apply shape_track_current.
  - intros c v s' <-. apply shape_upd_cell.
  - intros cb s' <-. apply shape_call_callback.
  - intros e s' _ <-. apply shape_stop.
  - intros d' b s' <-. apply shape_upd_computed.
  - intros. apply stops_only_True.
  - apply shape_exec_getter.
  - done.
Qed.

(** A call of the getter that returns leaves the derivation clean. *)
Lemma evaluate_getter_clean d s s' :
  is_Some (computeds s !! d) ->
  evaluate_getter d s = (true, s') -> dirty <$> computeds s' !! d = Some false.
Proof.
  intros Hd He.
  assert (is_Some (computeds s' !! d)) as [c' Hc'].
  { pose proof (shape_evaluate_getter d s) as Hsh. rewrite He in Hsh.
    unfold shape in Hsh. injection Hsh as _ Hlen _.
    apply lookup_lt_is_Some. rewrite Hlen. by apply lookup_lt_is_Some. }
  unfold evaluate_getter in He. destruct (computeds s !! d) as [c|]; [|done].
  destruct (exec_getter _ _) as [[nv|] s1]; [|done].
  injection He as <-. cbn in *. rewrite list_lookup_alter_eq in *.
  destruct (computeds _ !! d); [done|]. done.
Qed.

Lemma dirty_track_current c d s :
  dirty <$> computeds (track_current c s) !! d = dirty <$> computeds s !! d.
Proof.
  unfold track_current. cbv zeta. change (current (emit _ s)) with (current s).
  destruct (current s) as [e|]; [|done].
  unfold track. change (effects (emit _ s)) with (effects s).
  destruct (effects s !! e) as [o|]; [|done].
  case_bool_decide; [done|].
  change (computeds (upd_effect ?f e ?x)) with (computeds x).
  unfold subscribe. destruct c as [x|d']; [done|]. cbn.
  destruct (decide (d' = d)) as [->|Hne].
  - rewrite list_lookup_alter_eq. by destruct (computeds s !! d).
  - by rewrite list_lookup_alter_ne.
Qed.

(** A read of a clean derivation. *)
Lemma computed_get_clean d c s :
  computeds s !! d = Some c -> dirty c = false ->
  computed_get d s
  = (_value <$> cell_signal (Derived d) s, track_current (Derived d) s).
Proof.
  intros Hd Hc. unfold computed_get. rewrite Hd, Hc.
  by rewrite (value_track_current (Derived d) (Derived d)).
Qed.

(** After a read that returned, the derivation is clean. *)
Lemma computed_get_leaves_clean d s v :
  (computed_get d s).1 = Some v ->
  dirty <$> computeds (computed_get d s).2 !! d = Some false
  /\ _value <$> cell_signal (Derived d) (computed_get d s).2 = Some v.
Proof.
  unfold computed_get. destruct (computeds s !! d) as [c|] eqn:Hd; [|done].
  destruct (dirty c) eqn:Hc.
  - destruct (_recompute d s) as [[] s1] eqn:Hr; [|done]. cbn [fst snd].
    intros Hv. split; [|done]. rewrite dirty_track_current.
    unfold _recompute in Hr. rewrite Hd in Hr.
    destruct (effect c); [|done].
    apply (evaluate_getter_clean d s); [by rewrite Hd|done].
  - cbn [fst snd]. intros Hv. split; [|done].
    by rewrite dirty_track_current, Hd, <- Hc.
Qed.

(** X6. The value of a derivation is cached: after a read that returned
    [v], the next read returns [v] again without a call of the getter;
    all it does is to register the read with the current effect. *)
Theorem computed_value_cached (d : nat) (s : state) (v : value) :
  (computed_get d s).1 = Some v ->
  (computed_get d (computed_get d s).2).1 = Some v
  /\ log_since (computed_get d s).2 (computed_get d (computed_get d s).2).2
     = [EvRead (current (computed_get d s).2) (Derived d)]
  /\ getter_count d
       (log_since (computed_get d s).2 (computed_get d (computed_get d s).2).2) = 0.
Proof.
  intros Hv. destruct (computed_get_leaves_clean d s v Hv) as [Hclean Hval].
  set (s1 := (computed_get d s).2) in *.
  destruct (computeds s1 !! d) as [c1|] eqn:Hd1; [|done].
  injection Hclean as Hc1.
  rewrite (computed_get_clean d c1 s1 Hd1 Hc1). cbn [fst snd].
  assert (log_since s1 (track_current (Derived d) s1)
          = [EvRead (current s1) (Derived d)]) as Hlog.
  { apply log_since_app, log_track_current. }
  split_and!; [done|done|]. by rewrite Hlog.
Qed.

Lemma computed_value_cached_witness :
  (computed_get 0 (computed_get 0 derived_dirty_state).2).1 = Some (VNum 2)
  /\ log_since (computed_get 0 derived_dirty_state).2
       (computed_get 0 (computed_get 0 derived_dirty_state).2).2
     = [EvRead (current (computed_get 0 derived_dirty_state).2) (Derived 0)]
  /\ getter_count 0
       (log_since (computed_get 0 derived_dirty_state).2
          (computed_get 0 (computed_get 0 derived_dirty_state).2).2) = 0.
Proof.
  apply (computed_value_cached 0 derived_dirty_state (VNum 2)).
  vm_compute. reflexivity.
Defined.

(** ** Disposal *)

(** X7. After [signal.dispose()] the signal has no subscriber, and a
    write stores the value and calls nobody: nothing is logged, no
    effect is scheduled, the scheduler is not touched. *)
Theorem dispose_disconnects (x : nat) (g : signal) (v : value) (s : state) :
  signals s !! x = Some g ->
  subscriberCount (Plain x) (dispose (Plain x) s) = 0
  /\ log (signal_set x v (dispose (Plain x) s)) = log s
  /\ effects (signal_set x v (dispose (Plain x) s)) = effects s
  /\ scheduler_of (signal_set x v (dispose (Plain x) s)) = scheduler_of s
  /\ _value <$> signals (signal_set x v (dispose (Plain x) s)) !! x = Some v.
Proof.
  intros Hx.
  assert (signals (dispose (Plain x) s) !! x
          = Some (sig_with_subscribers (fun _ => []) g)) as Hx'.
  { unfold dispose. cbn. by rewrite list_lookup_alter_eq, Hx. }
  split_and!.
  - unfold subscriberCount, cell_subscribers. cbn [cell_signal]. by rewrite Hx'.
  - unfold signal_set. rewrite Hx'. case_match; [done|].
    unfold _notify, cell_subscribers. cbn. by rewrite !list_lookup_alter_eq, Hx.
  - unfold signal_set. rewrite Hx'. case_match; [done|].
    unfold _notify, cell_subscribers. cbn. by rewrite !list_lookup_alter_eq, Hx.
  - unfold signal_set. rewrite Hx'. case_match; [done|].
    unfold _notify, cell_subscribers. cbn. by rewrite !list_lookup_alter_eq, Hx.
  - rewrite value_signal_set, decide_True by done. by rewrite Hx'.
Qed.

Lemma dispose_disconnects_witness :
  subscriberCount (Plain 0) (dispose (Plain 0) cond_effect_state) = 0
  /\ log (signal_set 0 (VBool false) (dispose (Plain 0) cond_effect_state))
     = log cond_effect_state
  /\ effects (signal_set 0 (VBool false) (dispose (Plain 0) cond_effect_state))
     = effects cond_effect_state
  /\ scheduler_of (signal_set 0 (VBool false) (dispose (Plain 0) cond_effect_state))
     = scheduler_of cond_effect_state
  /\ _value <$> signals (signal_set 0 (VBool false) (dispose (Plain 0) cond_effect_state)) !! 0
     = Some (VBool false).
Proof.
  apply (dispose_disconnects 0 (mkSignal (VBool true) [mkCallback 0 0] 0)
           (VBool false) cond_effect_state).
  vm_compute. reflexivity.
Defined.

Lemma derivation_of_subscribers f c d s :
  derivation_of d (upd_cell (sig_with_subscribers f) c s) = derivation_of d s.
Proof.
  unfold derivation_of. destruct c as [x|d']; [done|]. cbn.
  destruct (decide (d' = d)) as [->|Hne].
  - rewrite list_lookup_alter_eq. by destruct (computeds s !! d).
  - by rewrite list_lookup_alter_ne.
Qed.

Lemma derivation_of_cleanup e d s : derivation_of d (cleanup e s) = derivation_of d s.
Proof.
  unfold cleanup. destruct (effects s !! e) as [o|]; [|done].
  change (derivation_of d (upd_effect ?f e ?s')) with (derivation_of d s').
  generalize (cleanups o) as l. intros l. revert s.
  induction l as [|u l IH]; intros s; simpl; [done|].
  rewrite IH. apply derivation_of_subscribers.
Qed.

Lemma derivation_of_stop e d s : derivation_of d (stop e s) = derivation_of d s.
Proof.
  unfold stop. destruct (effects s !! e); [|done].
  change (derivation_of d (upd_effect ?f e ?s')) with (derivation_of d s').
  by rewrite derivation_of_cleanup.
Qed.

Lemma derivation_of_dispose c d s : derivation_of d (dispose c s) = derivation_of d s.
Proof. apply derivation_of_subscribers. Qed.

Lemma derivation_of_computed_dispose d c s :
  computeds s !! d = Some c ->
  derivation_of d (computed_dispose d s) = Some (_value (base c), None, dirty c).
Proof.
  intros Hd. unfold computed_dispose. rewrite Hd.
  rewrite derivation_of_dispose. destruct (effect c) as [e|] eqn:He.
  - pose proof (derivation_of_stop e d s) as Hs. unfold derivation_of in *.
    cbn. rewrite list_lookup_alter_eq. rewrite Hd in Hs.
    destruct (computeds (stop e s) !! d) as [c'|]; [|done].
    cbn in *. injection Hs as -> _ ->. done.
  - unfold derivation_of. rewrite Hd. cbn. by rewrite He.
Qed.

(** X8. After [computed.dispose()] the derivation has no effect and no
    subscriber, and its effect is stopped. A read of a disposed
    derivation that is dirty throws, with no change of the state
    ([this.effect] is null in [_recompute]); a read of a clean one
    answers the cached value. *)
Theorem disposed_derivation_read (d : nat) (c : computed) (s : state) :
  computeds s !! d = Some c ->
  derivation_of d (computed_dispose d s) = Some (_value (base c), None, dirty c)
  /\ subscriberCount (Derived d) (computed_dispose d s) = 0
  /\ (forall e, effect c = Some e -> effect_active e (computed_dispose d s) = false)
  /\ (dirty c = true ->
      computed_get d (computed_dispose d s) = (None, computed_dispose d s))
  /\ (dirty c = false ->
      (computed_get d (computed_dispose d s)).1 = Some (_value (base c))).
Proof.
  intros Hd. pose proof (derivation_of_computed_dispose d c s Hd) as Hview.
  assert (exists c', computeds (computed_dispose d s) !! d = Some c'
                     /\ _value (base c') = _value (base c)
                     /\ effect c' = None /\ dirty c' = dirty c)
    as (c' & Hd' & Hval & Heff & Hdirty).
  { unfold derivation_of in Hview.
    destruct (computeds (computed_dispose d s) !! d) as [c'|]; [|done].
    cbn in Hview. exists c'. by simplify_eq. }
  split_and!.
  - done.
  - unfold subscriberCount, cell_subscribers, computed_dispose, dispose.
    rewrite Hd. cbn. rewrite list_lookup_alter_eq.
    generalize (match effect c with
                | Some e => upd_computed (comp_with_effect None) d (stop e s)
                | None => s
                end).
    intros s1. by destruct (computeds s1 !! d).
  - intros e He. unfold computed_dispose. rewrite Hd, He.
    change (effect_active e (stop e s) = false).
    rewrite effect_active_alt, active_of_stop, decide_True by done.
    by destruct (active_of e s).
  - intros Hc. unfold computed_get. rewrite Hd', Hdirty, Hc.
    unfold _recompute. by rewrite Hd', Heff.
  - intros Hc. rewrite (computed_get_clean d c'); [|done|congruence].
    cbn. by rewrite Hd', <- Hval.
Qed.

Lemma disposed_derivation_read_witness :
  derivation_of 0 disposed_dirty_state = Some (VNum 1, None, true)
  /\ subscriberCount (Derived 0) disposed_dirty_state = 0
  /\ (forall e, Some 0 = Some e -> effect_active e disposed_dirty_state = false)
  /\ (true = true -> computed_get 0 disposed_dirty_state = (None, disposed_dirty_state))
  /\ (true = false -> (computed_get 0 disposed_dirty_state).1 = Some (VNum 1)).
Proof.
  apply (disposed_derivation_read 0
           (mkComputed (mkSignal (VNum 1) [mkCallback 2 1] 3) cond_body (Some 0) true)
           observed_dirty_state).
  vm_compute. reflexivity.
Defined.

(** ** The dependency set and the subscriptions *)

Lemma deps_exact_alt s :
  deps_exact s
  <-> forall e d cl, edges_of e s = Some (d, cl) ->
        d = cl.*1 /\ forall c cb, (c, cb) ∈ cl -> cb ∈ cell_subscribers c s.
Proof.
  unfold deps_exact. split.
  - intros H e d cl (o & Ho & <- & <-)%edges_of_inv. by apply (H e).
  - intros H e o Ho. apply (H e _ _ (edges_of_Some e s o Ho)).
Qed.

Lemma deps_exact_frame s s' :
  (forall c, cell_subscribers c s' = cell_subscribers c s) ->
  (forall e, edges_of e s' = edges_of e s) ->
  deps_exact s -> deps_exact s'.
Proof.
  rewrite !deps_exact_alt. intros Hsubs Hedges H e d cl Hed.
  rewrite Hedges in Hed. destruct (H e d cl Hed) as [Hd Hcl].
  split; [done|]. intros c cb Hin. rewrite Hsubs. by apply Hcl.
Qed.

(** New objects, and edges that are dropped all at once. *)
Lemma deps_exact_weaken s s' :
  (forall e d cl, edges_of e s' = Some (d, cl) ->
     (d = [] /\ cl = []) \/ edges_of e s = Some (d, cl)) ->
  (forall e d cl c cb, edges_of e s' = Some (d, cl) -> edges_of e s = Some (d, cl) ->
     (c, cb) ∈ cl -> cb ∈ cell_subscribers c s -> cb ∈ cell_subscribers c s') ->
  deps_exact s -> deps_exact s'.
Proof.
  rewrite !deps_exact_alt. intros Hedges Hsubs H e d cl Hed.
  destruct (Hedges e d cl Hed) as [[-> ->]|Hold].
  - split; [done|]. by intros c cb Hin%not_elem_of_nil.
  - destruct (H e d cl Hold) as [Hd Hcl]. split; [done|].
    intros c cb Hin. eapply Hsubs; eauto.
Qed.

Lemma deps_exact_track e c s :
  is_Some (cell_signal c s) -> deps_exact s -> deps_exact (track e c s).
Proof.
  intros Hc. destruct (edges_of e s) as [[d cl]|] eqn:He.
  2: { unfold track, edges_of in *. by destruct (effects s !! e). }
  rewrite !deps_exact_alt. intros H e' d' cl' Hed.
  destruct (decide (e = e')) as [<-|Hne].
  - rewrite (edges_of_track_eq e c s d cl He) in Hed.
    destruct (H e d cl He) as [Hd Hcl].
    case_bool_decide as Hin; simplify_eq.
    + split; [done|]. intros c' cb' Hin'.
      apply (elem_of_subscribers_track e c c' cb' s _ _ He Hc). left. by apply Hcl.
    + split; [by rewrite fmap_app|]. intros c' cb' Hin'.
      apply (elem_of_subscribers_track e c c' cb' s _ _ He Hc).
      apply elem_of_app in Hin' as [Hin'|Hin'%list_elem_of_singleton].
      * left. by apply Hcl.
      * right. by simplify_eq.
  - rewrite edges_of_track_ne in Hed by done.
    destruct (H e' d' cl' Hed) as [Hd Hcl]. split; [done|].
    intros c' cb' Hin'.
    apply (elem_of_subscribers_track e c c' cb' s _ _ He Hc). left. by apply Hcl.
Qed.

Lemma deps_exact_stop e s : edges_owned s -> deps_exact s -> deps_exact (stop e s).
Proof.
  intros [_ Hown]. destruct (effects s !! e) as [o|] eqn:He.
  2: { unfold stop. by rewrite He. }
  apply deps_exact_weaken.
  - intros e' d cl Hed. destruct (decide (e = e')) as [<-|Hne].
    + rewrite edges_of_stop_eq in Hed. left.
      destruct (edges_of e s); by simplify_eq/=.
    + rewrite edges_of_stop_ne in Hed by done. eauto.
  - intros e' d cl c cb Hed' Hed Hin Hcb.
    destruct (decide (e = e')) as [<-|Hne].
    + rewrite edges_of_stop_eq, Hed in Hed'. simplify_eq/=.
      by apply not_elem_of_nil in Hin.
    + apply (elem_of_subscribers_stop e o); [done|]. split; [done|].
      intros Hin'. apply edges_of_inv in Hed as (o' & Ho' & _ & <-).
      pose proof (Hown e o c cb He Hin') as H1.
      pose proof (Hown e' o' c cb Ho' Hin) as H2.
      congruence.
Qed.

Lemma deps_exact_run_prologue e s :
  edges_owned s -> deps_exact s -> deps_exact (run_prologue e s).
Proof.
  intros [_ Hown]. destruct (effects s !! e) as [o|] eqn:He.
  - apply deps_exact_weaken.
    + intros e' d cl Hed. rewrite edges_of_run_prologue in Hed.
      case_decide; [left|eauto]. destruct (edges_of e' s); by simplify_eq/=.
    + intros e' d cl c cb Hed' Hed Hin Hcb.
      rewrite edges_of_run_prologue in Hed'. case_decide as Hee.
      * subst e'. rewrite Hed in Hed'. simplify_eq/=.
        by apply not_elem_of_nil in Hin.
      * apply (elem_of_subscribers_run_prologue e o); [done|]. split; [done|].
        intros Hin'. apply edges_of_inv in Hed as (o' & Ho' & _ & <-).
        pose proof (Hown e o c cb He Hin') as H1.
        pose proof (Hown e' o' c cb Ho' Hin) as H2.
        congruence.
  - apply deps_exact_frame.
    + intros c. by apply subscribers_run_prologue_missing.
    + intros e'. rewrite edges_of_run_prologue. case_decide; [subst e'|done].
      unfold edges_of. by rewrite He.
Qed.

Lemma subscribers_snoc_signal g c cb s :
  cb ∈ cell_subscribers c s ->
  cb ∈ cell_subscribers c (set_signals (fun l => l ++ [g]) s).
Proof.
  destruct c as [x|d]; [|done]. unfold cell_subscribers. simpl.
  destruct (signals s !! x) as [g'|] eqn:Hx.
  - by rewrite (lookup_app_l_Some _ _ _ _ Hx).
  - by intros []%not_elem_of_nil.
Qed.

Lemma subscribers_snoc_computed k c cb s :
  cb ∈ cell_subscribers c s ->
  cb ∈ cell_subscribers c (set_computeds (fun l => l ++ [k]) s).
Proof.
  destruct c as [x|d]; [done|]. unfold cell_subscribers. simpl.
  destruct (computeds s !! d) as [k'|] eqn:Hd.
  - by rewrite (lookup_app_l_Some _ _ _ _ Hd).
  - by intros []%not_elem_of_nil.
Qed.

(** The two invariants of the edges, together. *)
Lemma edges_exact_run_ops ops s :
  edges_owned s /\ deps_exact s ->
  edges_owned (run_ops ops s) /\ deps_exact (run_ops ops s).
Proof.
  intros [Hown Hdeps]. split; [by apply edges_owned_run_ops|].
  revert Hown Hdeps.
  enough (edges_owned s /\ deps_exact s ->
          edges_owned (run_ops ops s) /\ deps_exact (run_ops ops s)) as H
    by (intros; by apply H).
  apply (run_ops_keeps (fun s => edges_owned s /\ deps_exact s)).
  - intros ev s' _ [H1 H2]. split; [by eapply edges_owned_frame|by eapply deps_exact_frame].
  - intros e s' _ [H1 H2]. split; [by eapply edges_owned_frame|by eapply deps_exact_frame].
  - intros c s' Hc [H1 H2]. unfold track_current. simpl.
    destruct (current s') as [e|].
    + split.
      * apply edges_owned_track; [done|]. by eapply edges_owned_frame; [..|exact H1].
      * apply deps_exact_track; [done|]. by eapply deps_exact_frame; [..|exact H2].
    + split; [by eapply edges_owned_frame; [..|exact H1]
             |by eapply deps_exact_frame; [..|exact H2]].
  - intros c v s' [H1 H2]. split.
    + revert H1. apply edges_owned_frame.
      * intros c'. apply subscribers_upd_value.
      * intros e. apply edges_of_upd_cell.
    + revert H2. apply deps_exact_frame.
      * intros c'. apply subscribers_upd_value.
      * intros e. apply edges_of_upd_cell.
  - intros cb s' [H1 H2]. split.
    + revert H1. apply edges_owned_frame.
      * intros c. apply subscribers_call_callback.
      * intros e. apply edges_of_call_callback.
    + revert H2. apply deps_exact_frame.
      * intros c. apply subscribers_call_callback.
      * intros e. apply edges_of_call_callback.
  - intros e s' [H1 H2]. split; [by apply edges_owned_stop|by apply deps_exact_stop].
  - intros d b s' [H1 H2]. split.
    + revert H1. apply edges_owned_frame; [|done].
      intros c. apply subscribers_upd_dirty.
    + revert H2. apply deps_exact_frame; [|done].
      intros c. apply subscribers_upd_dirty.
  - intros e s' [H1 H2].
    split; [by apply edges_owned_run_prologue|by apply deps_exact_run_prologue].
  - intros c st s' [H1 H2].
    split; [by eapply edges_owned_frame|by eapply deps_exact_frame].
  - intros p a b n s' [H1 H2].
    split; [by eapply edges_owned_frame|by eapply deps_exact_frame].
  - intros v s' [H1 H2]. split.
    + pose proof (edges_owned_run_ops [NewSignal v] s' H1) as H. exact H.
    + revert H2. apply deps_exact_weaken; [eauto|].
      intros e d cl c cb _ _ _. apply subscribers_snoc_signal.
  - intros f s' [H1 H2]. split.
    + revert H1. apply edges_owned_weaken.
      * done.
      * intros e d cl Hed. apply edges_of_snoc_effect in Hed as [?|?]; eauto.
      * intros c cb d cl _ Hed _. exists d. unfold edges_of in *. simpl.
        destruct (effects s' !! cb_owner cb) as [o|] eqn:Ho; [|done].
        by rewrite (lookup_app_l_Some _ _ _ _ Ho).
    + revert H2. apply deps_exact_weaken; [|done].
      intros e d cl. unfold edges_of. simpl.
      destruct (decide (e < length (effects s'))) as [Hlt|Hge].
      * rewrite lookup_app_l by done. auto.
      * rewrite lookup_app_r by lia. destruct (e - length (effects s')); simpl.
        -- intros [= <- <-]. auto.
        -- done.
  - intros g s' [H1 H2]. split.
    + revert H1. apply edges_owned_weaken.
      * intros c cb. by apply elem_of_subscribers_snoc_computed.
      * intros e d cl Hed. eauto.
      * intros c cb d cl _ Hed _. eauto.
    + revert H2. apply deps_exact_weaken; [eauto|].
      intros e d cl c cb _ _ _ Hcb.
      change (cb ∈ cell_subscribers c
                (set_computeds
                   (fun l => l ++ [mkComputed (mkSignal VUndef [] (_nextId s')) g None true])
                   s')).
      by apply subscribers_snoc_computed.
  - intros d e s' [H1 H2]. split.
    + revert H1. apply edges_owned_frame.
      * intros c. rewrite subscribers_upd_effect. unfold cell_subscribers.
        destruct c as [x|d']; simpl; [done|]. by rewrite (lookup_alter_view base).
      * intros e'. by rewrite (edges_of_upd_effect (eff_with_own_run (Some d))).
    + revert H2. apply deps_exact_frame.
      * intros c. rewrite subscribers_upd_effect. unfold cell_subscribers.
        destruct c as [x|d']; simpl; [done|]. by rewrite (lookup_alter_view base).
      * intros e'. by rewrite (edges_of_upd_effect (eff_with_own_run (Some d))).
Qed.

(** X9. As long as no signal is disposed, dependencies and
    subscriptions agree. The programs are the sequences of [op], which
    have no call of [dispose] and no [subscribe] with a callback of the
    user. In every state that such a program reaches, an effect is
    subscribed to a cell if and only if the cell is in its dependency
    set. [dispose] ends the agreement: called on such a state for a
    signal an effect is subscribed to, it leaves the effect unsubscribed
    with the signal still in its dependency set. *)
Theorem dependencies_are_subscriptions (ops : list op) (e : nat) (c : cell) :
  (subscribed e c (run_ops ops init_state)
   <-> exists o, effects (run_ops ops init_state) !! e = Some o /\ c ∈ dependencies o)
  /\ (forall x, c = Plain x ->
      subscribed e c (run_ops ops init_state) ->
      ~ subscribed e c (dispose c (run_ops ops init_state))
      /\ exists o, effects (dispose c (run_ops ops init_state)) !! e = Some o
                   /\ c ∈ dependencies o).
Proof.
  destruct (edges_exact_run_ops ops init_state) as [[Hsub Hown] Hdeps].
  { split; [apply edges_owned_init|]. intros e' o. by destruct e'. }
  set (s := run_ops ops init_state) in *.
  assert (subscribed e c s -> exists o, effects s !! e = Some o /\ c ∈ dependencies o)
    as Hto.
  { intros (cb & Hcb & <-). destruct (Hsub c cb Hcb) as (o & Ho & Hin).
    exists o. split; [done|]. destruct (Hdeps _ o Ho) as [-> _].
    apply list_elem_of_fmap. by exists (c, cb). }
  split; [split; [done|]|].
  - intros (o & Ho & Hc). destruct (Hdeps e o Ho) as [Hd Hcl].
    rewrite Hd in Hc. apply list_elem_of_fmap in Hc as ([c' cb] & -> & Hin).
    exists cb. split; [by apply Hcl|]. by eapply Hown.
  - intros x _ Hs. split.
    + intros (cb & Hcb & _). rewrite subscribers_dispose in Hcb.
      rewrite decide_True in Hcb by done. by apply elem_of_nil in Hcb.
    + unfold dispose. rewrite effects_upd_cell. by apply Hto.
Qed.

(** The effect of [cond_effect_state] and its signal [flag]. *)
Lemma dependencies_are_subscriptions_witness :
  subscribed 0 (Plain 0)
    (run_ops [NewSignal (VBool true); NewSignal (VNum 1); NewSignal (VNum 2);
              NewEffect cond_body] init_state)
  /\ ~ subscribed 0 (Plain 0)
        (dispose (Plain 0)
           (run_ops [NewSignal (VBool true); NewSignal (VNum 1); NewSignal (VNum 2);
                     NewEffect cond_body] init_state))
  /\ exists o,
       effects
         (dispose (Plain 0)
            (run_ops [NewSignal (VBool true); NewSignal (VNum 1); NewSignal (VNum 2);
                      NewEffect cond_body] init_state)) !! 0 = Some o
       /\ Plain 0 ∈ dependencies o.
Proof.
  assert (subscribed 0 (Plain 0)
            (run_ops [NewSignal (VBool true); NewSignal (VNum 1); NewSignal (VNum 2);
                      NewEffect cond_body] init_state)) as H.
  { exists (mkCallback 0 0). split; [|done]. vm_compute. apply list_elem_of_here. }
  split; [exact H|].
  exact (proj2 (dependencies_are_subscriptions
                  [NewSignal (VBool true); NewSignal (VNum 1); NewSignal (VNum 2);
                   NewEffect cond_body] 0 (Plain 0)) 0 eq_refl H).
Defined.

(** ** The construction of a derivation *)

Lemma signal_set_events x v s :
  exists l, log (signal_set x v s) = log s ++ l /\ Forall plain_event l.
Proof.
  unfold signal_set. destruct (signals s !! x) as [g|]; [|exists []; by rewrite app_nil_r].
  destruct (strict_eq (_value g) v); [exists []; by rewrite app_nil_r|].
  unfold _notify. rewrite log_notify_loop. eexists. split; [done|].
  apply Forall_fmap, Forall_forall. by intros cb _.
Qed.

(** A getter logs reads, notifications and stops only. *)
Lemma exec_getter_events b s :
  exists l, log (exec_getter b s).2 = log s ++ l /\ Forall plain_event l.
Proof.
  unfold exec_getter. revert s.
  induction b as [v|v|x k IH|x v k IH|e k IH|d k IH|d v k IH]; intros s; cbn [exec].
  - exists []. by rewrite app_nil_r.
  - exists []. by rewrite app_nil_r.
  - unfold signal_get. destruct (signals s !! x) as [g|] eqn:Hx.
    2: { exists []. by rewrite app_nil_r. }
    pose proof (log_track_current (Plain x) s) as Hl.
    destruct (_value <$> signals (track_current (Plain x) s) !! x) as [w|].
    + destruct (IH w (track_current (Plain x) s)) as (l & Hlog & Hall).
      exists (EvRead (current s) (Plain x) :: l). rewrite Hlog, Hl, <- app_assoc.
      split; [done|]. by constructor.
    + exists [EvRead (current s) (Plain x)]. split; [done|]. by repeat constructor.
  - destruct (signals s !! x) as [g|] eqn:Hx.
    2: { exists []. by rewrite app_nil_r. }
    destruct (signal_set_events x v s) as (l1 & Hl1 & Hall1).
    destruct (IH (signal_set x v s)) as (l & Hlog & Hall).
    exists (l1 ++ l). rewrite Hlog, Hl1, <- app_assoc. split; [done|].
    by apply Forall_app.
  - destruct (effects s !! e) as [o|] eqn:He.
    2: { exists []. by rewrite app_nil_r. }
    destruct (IH (stop e s)) as (l & Hlog & Hall).
    exists (EvStop e :: l). rewrite Hlog, log_stop, He, <- app_assoc.
    split; [done|]. by constructor.
  - destruct d.
  - destruct d.
Qed.

Lemma dirty_exec_getter b d s :
  dirty <$> computeds (exec_getter b s).2 !! d = dirty <$> computeds s !! d.
Proof.
  apply (exec_getter_pres (fun _ => True)
           (fun s' => dirty <$> computeds s' !! d = dirty <$> computeds s !! d)).
  - by intros ev s' _ <-.
  - intros c s' _ <-. apply dirty_track_current.
  - intros c v s' <-. destruct c as [x|d']; [done|]. cbn.
    destruct (decide (d' = d)) as [->|Hne].
    + rewrite list_lookup_alter_eq. by destruct (computeds s' !! d).
    + by rewrite list_lookup_alter_ne.
  - intros cb s' <-. by rewrite computeds_call_callback.
  - intros e s' _ <-.
    pose proof (derivation_of_stop e d s') as Hs. unfold derivation_of in Hs.
    destruct (computeds (stop e s') !! d), (computeds s' !! d); cbn in *; congruence.
  - apply stops_only_True.
  - done.
Qed.

(** What a call of the getter of [d] logs, and what it does to the
    flag. *)
Lemma evaluate_getter_events d c s :
  computeds s !! d = Some c ->
  (exists l, log (evaluate_getter d s).2 = log s ++ EvGetter d :: l
             /\ Forall plain_event l)
  /\ dirty <$> computeds (evaluate_getter d s).2 !! d
     = Some (if (evaluate_getter d s).1 then false else dirty c).
Proof.
  intros Hd. split.
  - unfold evaluate_getter. rewrite Hd.
    destruct (exec_getter_events (getter c) (emit (EvGetter d) s)) as (l & Hl & Hall).
    destruct (exec_getter (getter c) (emit (EvGetter d) s)) as [[nv|] s1];
      cbn [fst snd] in *.
    + change (log (upd_computed ?f d ?s')) with (log s').
      case_match.
      * unfold _notify. rewrite log_notify_loop, log_upd_cell, Hl. cbn.
        rewrite <- !app_assoc. cbn. eexists. split; [done|].
        apply Forall_app. split; [done|].
        apply Forall_fmap, Forall_forall. by intros cb _.
      * rewrite Hl. cbn. rewrite <- app_assoc. eauto.
    + rewrite Hl. cbn. rewrite <- app_assoc. eauto.
  - destruct (evaluate_getter d s) as [[] s'] eqn:He; cbn [fst snd].
    + apply (evaluate_getter_clean d s); [by rewrite Hd|done].
    + unfold evaluate_getter in He. rewrite Hd in He.
      pose proof (dirty_exec_getter (getter c) d (emit (EvGetter d) s)) as Hdirty.
      destruct (exec_getter (getter c) (emit (EvGetter d) s)) as [[nv|] s1]; [done|].
      injection He as <-. cbn in Hdirty. rewrite Hdirty.
      change (computeds (emit _ s)) with (computeds s). by rewrite Hd.
Qed.

Lemma shape_run_method e s : shape (run_method e s) = shape s.
Proof.
  apply (run_method_keeps (fun s' => shape s' = shape s)); try done.
  - intros c s' _ <-. apply shape_track_current.
  - intros c v s' <-. apply shape_upd_cell.
  - intros cb s' <-. apply shape_call_callback.
  - intros e' s' <-. apply shape_stop.
  - intros d b s' <-. apply shape_upd_computed.
  - intros e' s' <-. unfold run_prologue.
    by rewrite !shape_upd_effect, shape_cleanup, shape_upd_effect.
Qed.

(** The constructor returns when the getter leaves the error boundary
    of its effect an exception that it can log. *)
Lemma new_computed_returns g s : throws_objects g -> new_computed_throws g s = false.
Proof.
  intros Hg. unfold new_computed_throws, new_effect_throws, run_method_throws.
  cbn [effects set_effects set_nextId set_computeds].
  rewrite lookup_app_r, Nat.sub_diag by done. cbn [lookup list_lookup active fn andb].
  unfold tracker_track_nullish. cbn [call_fn_nullish]. unfold evaluate_getter_nullish.
  destruct (computeds _ !! length (computeds s)) as [c|] eqn:Hc; [|done].
  apply exec_getter_nullish_handled.
  assert (getter c = g) as ->; [|done].
  assert ((code_of (set_effects
             (fun l => l ++ [mkEffect (FnComputed (length (computeds s))) [] [] true false None])
             (set_nextId (S (_nextId s))
                (set_computeds
                   (fun l => l ++ [mkComputed (mkSignal VUndef [] (_nextId s)) g None true])
                   s)))).2 !! length (computeds s) = Some (getter c)) as Hcode.
  { rewrite <- (code_of_run_prologue (length (effects s))).
    unfold code_of. cbn [snd]. rewrite list_lookup_fmap.
    change (computeds (emit ?ev (set_tracker ?a ?b ?s'))) with (computeds s') in Hc.
    cbn [effects set_effects set_nextId set_computeds] in Hc.
    by rewrite Hc. }
  unfold code_of in Hcode. cbn in Hcode.
  rewrite fmap_app, lookup_app_r in Hcode by (by rewrite length_fmap).
  rewrite length_fmap, Nat.sub_diag in Hcode. by injection Hcode.
Qed.

(** [new ComputedSignal(() => { throw null })] throws: the derivation
    is left without its effect, and the effect with the method [run]. *)
Lemma new_computed_of_null :
  new_computed_throws (Throw VNull) init_state = true
  /\ derivation_of 0 (new_computed (Throw VNull) init_state).2 = Some (VUndef, None, true)
  /\ own_run <$> effects (new_computed (Throw VNull) init_state).2 !! 0 = Some None.
Proof. by vm_compute. Qed.

Lemma count_plain_events (ev : event) (l : list event) :
  ~ plain_event ev -> Forall plain_event l ->
  length (filter (fun ev' => ev' = ev) l) = 0.
Proof.
  intros Hev Hall. induction Hall as [|ev' l Hev' _ IH]; [done|].
  rewrite filter_cons. case_decide as Heq; [by subst ev'|done].
Qed.

(** X22. [new ComputedSignal(getter)], for a getter that throws neither
    [null] nor [undefined], returns, and it calls the getter at once,
    and once: the effect that it builds runs in the constructor, under
    tracking, before its [run] is replaced. Afterwards the derivation
    is linked with this effect and is clean, unless the getter threw:
    then the error is logged by the error boundary of the effect and
    the derivation stays dirty. (The boundary cannot log [null] or
    [undefined]: for such an exception the constructor throws a
    TypeError, see [new_computed_of_null].) *)
Theorem computed_constructor_evaluates (g : getter_body) (s : state) :
  throws_objects g ->
  new_computed_throws g s = false
  /\ (new_computed g s).1 = length (computeds s)
  /\ getter_count (length (computeds s)) (log_since s (new_computed g s).2) = 1
  /\ run_count (length (effects s)) (log_since s (new_computed g s).2) = 1
  /\ (exists v b,
        derivation_of (length (computeds s)) (new_computed g s).2
        = Some (v, Some (length (effects s)), b)
        /\ (b = true <-> EvError (length (effects s)) ∈ log_since s (new_computed g s).2))
  /\ own_run <$> effects (new_computed g s).2 !! length (effects s)
     = Some (Some (length (computeds s))).
Proof.
  intros Hg.
  set (d := length (computeds s)). set (e := length (effects s)).
  set (c0 := mkComputed (mkSignal VUndef [] (_nextId s)) g None true).
  set (o0 := mkEffect (FnComputed d) [] [] true false None).
  set (s1 := set_effects (fun l => l ++ [o0])
               (set_nextId (S (_nextId s)) (set_computeds (fun l => l ++ [c0]) s))).
  assert (new_computed_throws g s = false) as Hret.
  { apply new_computed_returns, Hg. }
  split; [done|].
  assert (new_computed g s
          = (d, upd_effect (eff_with_own_run (Some d)) e
                  (upd_computed (comp_with_effect (Some e)) d (run_method e s1)))) as Hnew.
  { unfold new_computed. cbv zeta. cbn [new_effect].
    change (new_effect_throws _ _) with (new_computed_throws g s). by rewrite Hret. }
  rewrite Hnew. cbn [fst snd].
  assert (effects s1 !! e = Some o0) as He.
  { unfold s1, e. cbn. rewrite lookup_app_r by done. by rewrite Nat.sub_diag. }
  assert (computeds s1 !! d = Some c0) as Hd.
  { unfold s1, d. cbn. rewrite lookup_app_r by done. by rewrite Nat.sub_diag. }
  set (sb := emit (EvRun e)
               (set_tracker (Some e)
                  (stack (run_prologue e s1) ++ [current (run_prologue e s1)])
                  (run_prologue e s1))).
  assert (run_prologue e s1 = upd_effect (eff_with_deps (fun _ => [])) e
                                (upd_effect (eff_with_cleanups (fun _ => [])) e
                                   (upd_effect (eff_with_scheduled false) e s1))) as Hpro.
  { unfold run_prologue, cleanup. cbn [effects upd_effect set_effects].
    rewrite list_lookup_alter_eq, He. done. }
  assert (computeds sb !! d = Some c0) as Hdb.
  { unfold sb. rewrite Hpro. exact Hd. }
  assert (log sb = log s ++ [EvRun e]) as Hlb.
  { unfold sb. rewrite Hpro. done. }
  destruct (evaluate_getter_events d c0 sb Hdb) as [(l & Hl & Hall) Hdirty].
  assert (log (run_method e s1)
          = log s ++ EvRun e :: EvGetter d :: l
            ++ (if (evaluate_getter d sb).1 then [] else [EvError e])) as Hlog.
  { rewrite log_run_method, He. cbn [active o0 fn]. fold sb.
    change (call_fn e (FnComputed d) sb) with (evaluate_getter d sb).
    rewrite Hl, Hlb, <- !app_assoc. done. }
  assert (computeds (run_method e s1) = computeds (evaluate_getter d sb).2) as Hcomp.
  { unfold run_method, tracker_track. rewrite He. cbn [active o0 negb fn]. fold sb.
    change (call_fn e (FnComputed d) sb) with (evaluate_getter d sb).
    by destruct (evaluate_getter d sb) as [[] s4]. }
  assert (log_since s (upd_effect (eff_with_own_run (Some d)) e
                         (upd_computed (comp_with_effect (Some e)) d (run_method e s1)))
          = EvRun e :: EvGetter d :: l
            ++ (if (evaluate_getter d sb).1 then [] else [EvError e])) as Hsince.
  { by apply log_since_app. }
  rewrite Hsince.
  assert (forall ev, ~ plain_event ev ->
            length (filter (fun ev' => ev' = ev)
                      (l ++ (if (evaluate_getter d sb).1 then [] else [EvError e])))
            = length (filter (fun ev' => ev' = ev)
                        (if (evaluate_getter d sb).1 then [] else [EvError e]))) as Hcount.
  { intros ev Hev. rewrite filter_app, length_app.
    by rewrite (count_plain_events ev l Hev Hall). }
  split_and!.
  - done.
  - unfold getter_count. rewrite !filter_cons. rewrite decide_False by done.
    rewrite decide_True by done. cbn [length]. rewrite Hcount by (by intros []).
    by destruct (evaluate_getter d sb).1.
  - unfold run_count. rewrite !filter_cons. rewrite decide_True by done.
    rewrite decide_False by done. cbn [length]. rewrite Hcount by (by intros []).
    by destruct (evaluate_getter d sb).1.
  - unfold derivation_of.
    change (computeds (upd_effect ?f e ?s')) with (computeds s').
    cbn [computeds upd_computed set_computeds]. rewrite list_lookup_alter_eq, Hcomp.
    destruct (computeds (evaluate_getter d sb).2 !! d) as [c|] eqn:Hc; [|done].
    cbn in Hdirty |- *. injection Hdirty as Hdirty.
    eexists _, _. split; [done|]. rewrite Hdirty.
    destruct (evaluate_getter d sb).1.
    + split; [done|]. rewrite app_nil_r. intros Hin.
      apply elem_of_cons in Hin as [?|Hin]; [done|].
      apply elem_of_cons in Hin as [?|Hin]; [done|].
      rewrite Forall_forall in Hall. by apply Hall in Hin.
    + split; [|done]. intros _. set_solver.
  - pose proof (shape_run_method e s1) as Hsh. unfold shape in Hsh.
    injection Hsh as _ _ Hlen.
    cbn [effects upd_effect set_effects]. rewrite list_lookup_alter_eq.
    change (effects (upd_computed ?f d ?s')) with (effects s').
    destruct (effects (run_method e s1) !! e) as [o|] eqn:Ho; [done|].
    apply lookup_ge_None in Ho. rewrite Hlen, length_app in Ho.
    cbn [length] in Ho. subst e. lia.
Qed.

(** The derivation of [derived_state], constructed over the three
    signals. *)
Lemma computed_constructor_evaluates_witness :
  new_computed_throws cond_body three_signals = false
  /\ (new_computed cond_body three_signals).1 = length (computeds three_signals)
  /\ getter_count (length (computeds three_signals))
       (log_since three_signals (new_computed cond_body three_signals).2) = 1
  /\ run_count (length (effects three_signals))
       (log_since three_signals (new_computed cond_body three_signals).2) = 1
  /\ (exists v b,
        derivation_of (length (computeds three_signals))
          (new_computed cond_body three_signals).2
        = Some (v, Some (length (effects three_signals)), b)
        /\ (b = true
            <-> EvError (length (effects three_signals))
                  ∈ log_since three_signals (new_computed cond_body three_signals).2))
  /\ own_run <$> effects (new_computed cond_body three_signals).2
                   !! length (effects three_signals)
     = Some (Some (length (computeds three_signals))).
Proof.
  apply (computed_constructor_evaluates cond_body three_signals).
  intros [| |[]| | | |]; by intros [].
Defined.

(** * Further properties of the reactive wrappers *)

(** ** The maps of [ReactiveModel] *)

Lemma maps_getSignals t rs :
  _reactiveMap (_getSignals t rs).2 = _reactiveMap rs
  /\ _rawMap (_getSignals t rs).2 = _rawMap rs.
Proof. unfold _getSignals. by destruct (_signalsMap rs !! t). Qed.

Lemma maps_signal_or_new t k v rs :
  _reactiveMap (signal_or_new t k v rs).2 = _reactiveMap rs
  /\ _rawMap (signal_or_new t k v rs).2 = _rawMap rs.
Proof.
  unfold signal_or_new. by destruct (default ∅ (_signalsMap rs !! t) !! k) as [[]|].
Qed.

Lemma maps_length_get fuel a rs :
  _reactiveMap (length_get fuel a rs).2 = _reactiveMap rs
  /\ _rawMap (length_get fuel a rs).2 = _rawMap rs.
Proof.
  revert a rs. induction fuel as [|fuel IH]; intros a rs; simpl; [done|].
  destruct (heap rs !! a) as [[| |t [|ch ls vs]| |]|]; try done.
  by destruct (IH t (set_core (signal_get ls (core rs)).2 rs)) as [-> ->].
Qed.

Lemma maps_reactiveArray a rs :
  _reactiveMap (reactiveArray a rs).2 = <[a := length (heap rs)]> (_reactiveMap rs)
  /\ _rawMap (reactiveArray a rs).2 = <[length (heap rs) := a]> (_rawMap rs).
Proof.
  unfold reactiveArray.
  pose proof (heap_getSignals a rs) as H1. pose proof (maps_getSignals a rs) as M1.
  destruct (_getSignals a rs) as [sg rs1]. cbn [snd] in H1, M1.
  pose proof (heap_signal_or_new a "__arrayChange" VNull rs1) as H2.
  pose proof (maps_signal_or_new a "__arrayChange" VNull rs1) as M2.
  destruct (signal_or_new a "__arrayChange" VNull rs1) as [ch rs2]. cbn [snd] in H2, M2.
  assert (exists ls rs3,
    match default ∅ (_signalsMap rs2 !! a) !! "length" with
    | Some (Plain x) => (x, rs2)
    | _ =>
        let '(len, rs') := length_get (S (length (heap rs2))) a rs2 in
        signal_or_new a "length" (from_option VNum VUndef len) rs'
    end = (ls, rs3) /\ heap rs3 = heap rs2
    /\ _reactiveMap rs3 = _reactiveMap rs2 /\ _rawMap rs3 = _rawMap rs2)
    as (ls & rs3 & -> & H3 & M3 & M3').
  { pose proof (heap_length_get (S (length (heap rs2))) a rs2) as Hl.
    pose proof (maps_length_get (S (length (heap rs2))) a rs2) as Ml.
    destruct (length_get _ a rs2) as [len rs']. cbn [snd] in Hl, Ml.
    pose proof (heap_signal_or_new a "length" (from_option VNum VUndef len) rs') as Hs.
    pose proof (maps_signal_or_new a "length" (from_option VNum VUndef len) rs') as Ms.
    destruct (signal_or_new a "length" _ rs') as [x rs'']. cbn [snd] in Hs, Ms.
    destruct Ml as [Ml Ml']. destruct Ms as [Ms Ms'].
    destruct (default ∅ (_signalsMap rs2 !! a) !! "length") as [[x'|d]|];
      eexists _, _; split_and!; try done; congruence. }
  pose proof (heap_signal_or_new a "__version" (VNum 0) rs3) as H4.
  pose proof (maps_signal_or_new a "__version" (VNum 0) rs3) as M4.
  destruct (signal_or_new a "__version" (VNum 0) rs3) as [vs rs4]. cbn [snd] in H4, M4.
  destruct M1 as [M1 M1']. destruct M2 as [M2 M2']. destruct M4 as [M4 M4'].
  cbn. rewrite H4, H3, H2, H1, M4, M3, M2, M1, M4', M3', M2', M1'. done.
Qed.

(** X10. [toRaw] undoes [reactive]: for every value [v],
    [toRaw(reactive(v))] is [v], an object, an array, a wrapper or a
    primitive, in every state in which the wrappers of [_reactiveMap]
    are keys of [_rawMap]; and [reactive] keeps the two maps so. *)
Theorem toRaw_reactive (v : value) (rs : rstate) :
  maps_linked rs ->
  toRaw (reactive v rs).1 (reactive v rs).2 = v
  /\ maps_linked (reactive v rs).2.
Proof.
  intros Hl. unfold reactive. destruct (isArray v rs) eqn:Harr.
  - destruct v as [| | | | |a|]; try done.
    destruct (reactiveArray_fresh a rs) as [H1 [h H2]].
    destruct (maps_reactiveArray a rs) as [M1 M2].
    split.
    + rewrite H1. cbn. by rewrite M2, lookup_insert_eq.
    + intros a' p. rewrite M1, M2, H2, length_app. cbn.
      destruct (decide (a' = a)) as [->|Hne].
      * rewrite lookup_insert_eq. intros [= <-]. split; [lia|].
        by rewrite lookup_insert_eq.
      * rewrite lookup_insert_ne by done. intros Hp.
        destruct (Hl a' p Hp) as [Hlt Hraw]. split; [lia|].
        rewrite lookup_insert_ne by lia. done.
  - destruct (reactiveMap_get v rs) as [p|] eqn:Hmap.
    + destruct v as [| | | | |a|]; try done. cbn in Hmap.
      destruct (Hl a p Hmap) as [_ Hraw]. split; [|done]. cbn. by rewrite Hraw.
    + destruct v as [| | | | |a|]; try done. cbn.
      pose proof (heap_getSignals a rs) as H1. pose proof (maps_getSignals a rs) as [M1 M1'].
      destruct (_getSignals a rs) as [sg rs1]. cbn [snd] in *.
      rewrite bool_decide_eq_false_2 by done. cbn.
      split.
      * by rewrite lookup_insert_eq.
      * intros a' p. cbn. rewrite H1, M1, M1', length_app. cbn.
        destruct (decide (a' = a)) as [->|Hne].
        -- rewrite lookup_insert_eq. intros [= <-]. split; [lia|].
           by rewrite lookup_insert_eq.
        -- rewrite lookup_insert_ne by done. intros Hp.
           destruct (Hl a' p Hp) as [Hlt Hraw]. split; [lia|].
           rewrite lookup_insert_ne by lia. done.
Qed.

Lemma toRaw_reactive_witness :
  toRaw (reactive (VObj 1) wrapped_array).1 (reactive (VObj 1) wrapped_array).2 = VObj 1
  /\ maps_linked (reactive (VObj 1) wrapped_array).2.
Proof.
  apply (toRaw_reactive (VObj 1) wrapped_array).
  intros a p Hp. vm_compute in Hp.
  destruct (decide (a = 1)) as [->|Hne].
  - vm_compute in Hp. injection Hp as <-. split; [vm_compute; lia|done].
  - exfalso. revert Hp. change (({[1 := 2]} : gmap nat nat) !! a = Some p -> False).
    by rewrite lookup_singleton_ne.
Defined.

(** ** The signals of an array *)

Lemma signals_get_getSignals t t' k rs :
  signals_get t' k (_getSignals t rs).2 = signals_get t' k rs.
Proof.
  unfold _getSignals, signals_get. destruct (_signalsMap rs !! t) eqn:Ht; [done|].
  cbn. destruct (decide (t' = t)) as [->|Hne].
  - by rewrite lookup_insert_eq, Ht.
  - by rewrite lookup_insert_ne.
Qed.

Lemma core_getSignals t rs : core (_getSignals t rs).2 = core rs.
Proof. unfold _getSignals. by destruct (_signalsMap rs !! t). Qed.

Lemma signals_get_signals_set t k c t' k' rs :
  signals_get t' k' (signals_set t k c rs)
  = if decide (t' = t /\ k' = k) then Some c else signals_get t' k' rs.
Proof.
  unfold signals_get, signals_set. cbn.
  destruct (decide (t' = t)) as [->|Hne].
  - rewrite lookup_insert_eq. cbn. destruct (decide (k' = k)) as [->|Hk].
    + rewrite lookup_insert_eq. by rewrite decide_True.
    + rewrite lookup_insert_ne by done. rewrite decide_False by tauto. done.
  - rewrite lookup_insert_ne by done. rewrite decide_False by tauto. done.
Qed.

(** [signals.get(key)] answers the signal that [signal_or_new] returns,
    which is the one that was there, or a new signal with the value
    [v]. *)
Lemma signal_or_new_spec t k v rs :
  signals_get t k (signal_or_new t k v rs).2 = Some (Plain (signal_or_new t k v rs).1)
  /\ (forall t' k', (t', k') <> (t, k) ->
        signals_get t' k' (signal_or_new t k v rs).2 = signals_get t' k' rs)
  /\ ((exists x, signals_get t k rs = Some (Plain x)
               /\ signal_or_new t k v rs = (x, rs))
      \/ ((forall x, signals_get t k rs <> Some (Plain x))
          /\ (signal_or_new t k v rs).1 = length (signals (core rs))
          /\ signals (core (signal_or_new t k v rs).2)
             = signals (core rs) ++ [mkSignal v [] (_nextId (core rs))])).
Proof.
  unfold signal_or_new. fold (signals_get t k rs).
  destruct (signals_get t k rs) as [[x|d]|] eqn:Hk.
  - split_and!; [done|done|]. left. eauto.
  - cbn. split_and!.
    + rewrite signals_get_signals_set. by rewrite decide_True.
    + intros t' k' Hne. rewrite signals_get_signals_set.
      rewrite decide_False; [done|]. intros [-> ->]. done.
    + right. done.
  - cbn. split_and!.
    + rewrite signals_get_signals_set. by rewrite decide_True.
    + intros t' k' Hne. rewrite signals_get_signals_set.
      rewrite decide_False; [done|]. intros [-> ->]. done.
    + right. done.
Qed.

(** [reactiveArray] on a raw array, step by step. *)
Lemma reactiveArray_raw a elems props rs :
  heap rs !! a = Some (OArray elems props) ->
  reactiveArray a rs
  = let rs1 := (_getSignals a rs).2 in
    let r2 := signal_or_new a "__arrayChange" VNull rs1 in
    let r3 := signal_or_new a "length" (VNum (Z.of_nat (length elems))) r2.2 in
    let r4 := signal_or_new a "__version" (VNum 0) r3.2 in
    (VObj (length (heap rs)),
     set_maps (<[a := length (heap rs)]> (_reactiveMap r4.2))
       (<[length (heap rs) := a]> (_rawMap r4.2))
       (set_heap (heap r4.2 ++ [OProxy a (HArray r2.1 r3.1 r4.1)]) r4.2)).
Proof.
  intros Ha. unfold reactiveArray.
  pose proof (heap_getSignals a rs) as H1.
  destruct (_getSignals a rs) as [sg rs1]. cbn [snd] in *. cbv zeta.
  pose proof (heap_signal_or_new a "__arrayChange" VNull rs1) as H2.
  destruct (signal_or_new a "__arrayChange" VNull rs1) as [ch rs2]. cbn [fst snd] in *.
  assert (match default ∅ (_signalsMap rs2 !! a) !! "length" with
          | Some (Plain x) => (x, rs2)
          | _ =>
              let '(len, rs') := length_get (S (length (heap rs2))) a rs2 in
              signal_or_new a "length" (from_option VNum VUndef len) rs'
          end = signal_or_new a "length" (VNum (Z.of_nat (length elems))) rs2) as ->.
  { assert (heap rs2 !! a = Some (OArray elems props)) as Ha2 by (by rewrite H2, H1).
    cbn [length_get]. rewrite Ha2. cbn.
    unfold signal_or_new.
    by destruct (default ∅ (_signalsMap rs2 !! a) !! "length") as [[]|]. }
  pose proof (heap_signal_or_new a "length" (VNum (Z.of_nat (length elems))) rs2) as H3.
  destruct (signal_or_new a "length" _ rs2) as [ls rs3]. cbn [fst snd] in *.
  pose proof (heap_signal_or_new a "__version" (VNum 0) rs3) as H4.
  destruct (signal_or_new a "__version" (VNum 0) rs3) as [vs rs4]. cbn [fst snd] in *.
  unfold alloc. cbn. by rewrite H4, H3, H2, H1.
Qed.

(** What [reactiveArray] builds around a raw array: a new proxy whose
    handler holds the signals that the Map of the array has under the
    three names afterwards, which are the ones it had before, if any. *)
Lemma reactiveArray_spec a elems props rs :
  heap rs !! a = Some (OArray elems props) ->
  exists ch ls vs,
    (reactiveArray a rs).1 = VObj (length (heap rs))
    /\ heap (reactiveArray a rs).2 = heap rs ++ [OProxy a (HArray ch ls vs)]
    /\ signals_get a "__arrayChange" (reactiveArray a rs).2 = Some (Plain ch)
    /\ signals_get a "length" (reactiveArray a rs).2 = Some (Plain ls)
    /\ signals_get a "__version" (reactiveArray a rs).2 = Some (Plain vs)
    /\ (forall x, signals_get a "__arrayChange" rs = Some (Plain x) -> ch = x)
    /\ (forall x, signals_get a "length" rs = Some (Plain x) -> ls = x)
    /\ (forall x, signals_get a "__version" rs = Some (Plain x) -> vs = x).
Proof.
  intros Ha. rewrite (reactiveArray_raw a elems props rs Ha). cbv zeta.
  pose proof (heap_getSignals a rs) as H1.
  pose proof (signals_get_getSignals a a) as G1.
  set (rs1 := (_getSignals a rs).2) in *.
  pose proof (heap_signal_or_new a "__arrayChange" VNull rs1) as H2.
  destruct (signal_or_new_spec a "__arrayChange" VNull rs1) as (S2 & F2 & C2).
  set (r2 := signal_or_new a "__arrayChange" VNull rs1) in *.
  pose proof (heap_signal_or_new a "length" (VNum (Z.of_nat (length elems))) r2.2) as H3.
  destruct (signal_or_new_spec a "length" (VNum (Z.of_nat (length elems))) r2.2)
    as (S3 & F3 & C3).
  set (r3 := signal_or_new a "length" _ r2.2) in *.
  pose proof (heap_signal_or_new a "__version" (VNum 0) r3.2) as H4.
  destruct (signal_or_new_spec a "__version" (VNum 0) r3.2) as (S4 & F4 & C4).
  set (r4 := signal_or_new a "__version" _ r3.2) in *.
  exists r2.1, r3.1, r4.1. cbn [fst snd].
  change (signals_get a ?k (set_maps _ _ (set_heap _ ?r))) with (signals_get a k r).
  split_and!.
  - done.
  - cbn. by rewrite H4, H3, H2, H1.
  - rewrite F4, F3 by done. exact S2.
  - rewrite F4 by done. exact S3.
  - exact S4.
  - intros x Hx. rewrite <- G1 in Hx. fold rs1 in Hx.
    destruct C2 as [(x' & Hx' & Heq)|(Hno & _)]; [|by destruct (Hno x)].
    rewrite Heq. cbn. congruence.
  - intros x Hx. rewrite <- G1 in Hx. fold rs1 in Hx.
    rewrite <- (F2 a "length") in Hx by done.
    destruct C3 as [(x' & Hx' & Heq)|(Hno & _)]; [|by destruct (Hno x)].
    rewrite Heq. cbn. congruence.
  - intros x Hx. rewrite <- G1 in Hx. fold rs1 in Hx.
    rewrite <- (F2 a "__version"), <- (F3 a "__version") in Hx by done.
    destruct C4 as [(x' & Hx' & Heq)|(Hno & _)]; [|by destruct (Hno x)].
    rewrite Heq. cbn. congruence.
Qed.

(** X11. Every call of [reactive] on a raw array builds a new wrapper,
    but all the wrappers of one array hold the same three signals: what
    is done through one of them is seen by the consumers of the
    others. *)
Theorem array_wrappers_share_signals (a : nat) (elems : list value)
    (props : gmap string value) (rs : rstate) :
  heap rs !! a = Some (OArray elems props) ->
  exists ch ls vs,
    (reactive (VObj a) rs).1 = VObj (length (heap rs))
    /\ (reactive (VObj a) (reactive (VObj a) rs).2).1 = VObj (S (length (heap rs)))
    /\ heap (reactive (VObj a) (reactive (VObj a) rs).2).2
       = heap rs ++ [OProxy a (HArray ch ls vs); OProxy a (HArray ch ls vs)].
Proof.
  intros Ha.
  assert (isArray (VObj a) rs = true) as Harr.
  { unfold isArray. by rewrite (is_array_at_raw _ _ _ _ _ Ha). }
  rewrite (reactive_of_array a rs Harr).
  destruct (reactiveArray_spec a elems props rs Ha)
    as (ch & ls & vs & Hv & Hh & Sch & Sls & Svs & _).
  set (rs1 := (reactiveArray a rs).2) in *.
  assert (heap rs1 !! a = Some (OArray elems props)) as Ha1.
  { rewrite Hh. by apply lookup_app_l_Some. }
  assert (isArray (VObj a) rs1 = true) as Harr1.
  { unfold isArray. by rewrite (is_array_at_raw _ _ _ _ _ Ha1). }
  rewrite (reactive_of_array a rs1 Harr1).
  destruct (reactiveArray_spec a elems props rs1 Ha1)
    as (ch' & ls' & vs' & Hv' & Hh' & _ & _ & _ & Ech & Els & Evs).
  rewrite (Ech ch Sch), (Els ls Sls), (Evs vs Svs) in Hh'.
  exists ch, ls, vs. split_and!.
  - done.
  - rewrite Hv', Hh, length_app. cbn. f_equal. lia.
  - rewrite Hh', Hh, <- app_assoc. done.
Qed.

Lemma array_wrappers_share_signals_witness :
  exists ch ls vs,
    (reactive (VObj 1) two_objects).1 = VObj (length (heap two_objects))
    /\ (reactive (VObj 1) (reactive (VObj 1) two_objects).2).1
       = VObj (S (length (heap two_objects)))
    /\ heap (reactive (VObj 1) (reactive (VObj 1) two_objects).2).2
       = heap two_objects ++ [OProxy 1 (HArray ch ls vs); OProxy 1 (HArray ch ls vs)].
Proof.
  apply (array_wrappers_share_signals 1 [VNum 10; VNum 20; VNum 30] ∅ two_objects).
  reflexivity.
Defined.

(** X12. [reactive] of a raw array that has no signals yet builds a
    wrapper with three new, different signals: the change signal holds
    [null], the length signal the length of the array and the version
    signal 0. *)
Theorem reactive_fresh_array (a : nat) (elems : list value)
    (props : gmap string value) (rs : rstate) :
  heap rs !! a = Some (OArray elems props) ->
  _signalsMap rs !! a = None ->
  (reactive (VObj a) rs).1 = VObj (length (heap rs))
  /\ array_wrapper (length (heap rs)) a
       (length (signals (core rs))) (S (length (signals (core rs))))
       (S (S (length (signals (core rs))))) (reactive (VObj a) rs).2
  /\ signal_value (length (signals (core rs))) (reactive (VObj a) rs).2 = Some VNull
  /\ signal_value (S (length (signals (core rs)))) (reactive (VObj a) rs).2
     = Some (VNum (Z.of_nat (length elems)))
  /\ signal_value (S (S (length (signals (core rs))))) (reactive (VObj a) rs).2
     = Some (VNum 0).
Proof.
  intros Ha Hnone.
  assert (isArray (VObj a) rs = true) as Harr.
  { unfold isArray. by rewrite (is_array_at_raw _ _ _ _ _ Ha). }
  rewrite (reactive_of_array a rs Harr), (reactiveArray_raw a elems props rs Ha).
  cbv zeta.
  assert (forall k, signals_get a k rs = None) as Hk.
  { intros k. unfold signals_get. by rewrite Hnone. }
  pose proof (heap_getSignals a rs) as H1.
  pose proof (core_getSignals a rs) as K1.
  pose proof (fun k => signals_get_getSignals a a k rs) as G1.
  set (rs1 := (_getSignals a rs).2) in *.
  pose proof (heap_signal_or_new a "__arrayChange" VNull rs1) as H2.
  destruct (signal_or_new_spec a "__arrayChange" VNull rs1) as (_ & F2 & C2).
  destruct C2 as [(x & Hx & _)|(_ & X2 & L2)]; [by rewrite G1, Hk in Hx|].
  set (r2 := signal_or_new a "__arrayChange" VNull rs1) in *.
  pose proof (heap_signal_or_new a "length" (VNum (Z.of_nat (length elems))) r2.2) as H3.
  destruct (signal_or_new_spec a "length" (VNum (Z.of_nat (length elems))) r2.2)
    as (_ & F3 & C3).
  destruct C3 as [(x & Hx & _)|(_ & X3 & L3)];
    [by rewrite F2, G1, Hk in Hx|].
  set (r3 := signal_or_new a "length" _ r2.2) in *.
  pose proof (heap_signal_or_new a "__version" (VNum 0) r3.2) as H4.
  destruct (signal_or_new_spec a "__version" (VNum 0) r3.2) as (_ & F4 & C4).
  destruct C4 as [(x & Hx & _)|(_ & X4 & L4)];
    [by rewrite F3, F2, G1, Hk in Hx|].
  set (r4 := signal_or_new a "__version" _ r3.2) in *.
  set (n := length (signals (core rs))) in *.
  rewrite K1 in X2, L2. fold n in X2.
  assert (r3.1 = S n) as X3'.
  { rewrite X3, L2, length_app. cbn. lia. }
  assert (r4.1 = S (S n)) as X4'.
  { rewrite X4, L3, L2, !length_app. cbn. lia. }
  rewrite X2, X3', X4'.
  assert (signals (core r4.2)
          = signals (core rs)
            ++ [mkSignal VNull [] (_nextId (core rs));
                mkSignal (VNum (Z.of_nat (length elems))) [] (_nextId (core r2.2));
                mkSignal (VNum 0) [] (_nextId (core r3.2))]) as L.
  { rewrite L4, L3, L2, <- !app_assoc. done. }
  assert (p_ne : length (heap rs) <> a).
  { apply lookup_lt_Some in Ha. lia. }
  cbn [fst snd]. unfold array_wrapper, signal_value.
  change (core (set_maps _ _ (set_heap _ ?r))) with (core r).
  change (heap (set_maps _ _ (set_heap ?h ?r))) with h.
  rewrite L, H4, H3, H2, H1.
  split_and!.
  - done.
  - rewrite lookup_app_r by done. by rewrite Nat.sub_diag.
  - exists elems, props. by apply lookup_app_l_Some.
  - lia.
  - lia.
  - lia.
  - rewrite lookup_app_r by (unfold n; lia). unfold n. by rewrite Nat.sub_diag.
  - rewrite lookup_app_r by (unfold n; lia).
    replace (S n - length (signals (core rs))) with 1 by (unfold n; lia). done.
  - rewrite lookup_app_r by (unfold n; lia).
    replace (S (S n) - length (signals (core rs))) with 2 by (unfold n; lia). done.
Qed.

Lemma reactive_fresh_array_witness :
  (reactive (VObj 1) two_objects).1 = VObj (length (heap two_objects))
  /\ array_wrapper (length (heap two_objects)) 1
       (length (signals (core two_objects))) (S (length (signals (core two_objects))))
       (S (S (length (signals (core two_objects))))) (reactive (VObj 1) two_objects).2
  /\ signal_value (length (signals (core two_objects))) (reactive (VObj 1) two_objects).2
     = Some VNull
  /\ signal_value (S (length (signals (core two_objects)))) (reactive (VObj 1) two_objects).2
     = Some (VNum (Z.of_nat (length [VNum 10; VNum 20; VNum 30])))
  /\ signal_value (S (S (length (signals (core two_objects)))))
       (reactive (VObj 1) two_objects).2
     = Some (VNum 0).
Proof.
  apply (reactive_fresh_array 1 [VNum 10; VNum 20; VNum 30] ∅ two_objects);
    reflexivity.
Defined.

(** ** The traps of an array wrapper *)

(** All that a call of an intercepted method does. *)
Lemma array_method_full p t ch ls vs c n elems props rs :
  heap rs !! p = Some (OProxy t (HArray ch ls vs)) ->
  heap rs !! t = Some (OArray elems props) ->
  vs <> ls -> vs <> ch -> ls <> ch ->
  signal_value vs rs = Some (VNum n) ->
  is_Some (signal_value ls rs) -> is_Some (signal_value ch rs) ->
  exists r rs',
    array_method p c rs = Some (r, rs')
    /\ heap rs' !! t = Some (OArray (apply_method c elems).1 props)
    /\ signal_value vs rs' = Some (VNum (round_double (n + 1)))
    /\ signal_value ls rs' = Some (VNum (Z.of_nat (length (apply_method c elems).1)))
    /\ (exists ev,
          signal_value ch rs' = Some (VObj ev)
          /\ length (heap rs) <= ev
          /\ heap rs' !! ev
             = Some (OChange (mutationMethods c) (method_name c) (call_args c)
                       (Z.of_nat (length elems))
                       (Z.of_nat (length (apply_method c elems).1)) (now rs)))
    /\ match (apply_method c elems).2 with
       | Some (inl v) => r = v
       | Some (inr l) => exists a', r = VObj a' /\ heap rs' !! a' = Some (OArray l ∅)
       | None => r = VObj t
       end.
Proof.
  intros Hp Ht Hls Hch Hlc Hn [lv Hlv] [cv Hcv].
  unfold array_method. rewrite Hp, Ht.
  destruct (apply_method c elems) as [elems' res]. cbn [fst snd].
  set (rs1 := set_heap (<[t:=OArray elems' props]> (heap rs)) rs).
  assert (heap rs1 !! t = Some (OArray elems' props)) as Ht1.
  { unfold rs1. simpl. apply list_lookup_insert_eq. by eapply lookup_lt_Some. }
  assert (length (heap rs1) = length (heap rs)) as Hlen1.
  { unfold rs1. simpl. by rewrite length_insert. }
  assert (exists result rs2,
    match res with
    | Some (inl v) => (v, rs1)
    | Some (inr l) => let '(a, rs') := alloc (OArray l ∅) rs1 in (VObj a, rs')
    | None => (VObj t, rs1)
    end = (result, rs2)
    /\ core rs2 = core rs /\ now rs2 = now rs
    /\ length (heap rs) <= length (heap rs2)
    /\ heap rs2 !! t = Some (OArray elems' props)
    /\ match res with
       | Some (inl v) => result = v
       | Some (inr l) => exists a', result = VObj a' /\ heap rs2 !! a' = Some (OArray l ∅)
       | None => result = VObj t
       end) as (result & rs2 & -> & Hc2 & Hnow & Hlen2 & Ht2 & Hres).
  { destruct res as [[v|l]|]; simpl; eexists _, _; split_and!; try done; try lia.
    - change (heap (set_heap ?h _)) with h. rewrite length_app, length_insert. lia.
    - change (heap (set_heap ?h _)) with h. by apply lookup_app_l_Some.
    - eexists. split; [done|]. change (heap (set_heap ?h _)) with h.
      rewrite lookup_app_r by done. by rewrite Nat.sub_diag. }
  set (c1 := signal_set ls (VNum (Z.of_nat (length elems'))) (core rs2)).
  assert (_value <$> signals c1 !! vs = Some (VNum n)) as Hn1.
  { unfold c1. rewrite value_signal_set, decide_False, Hc2 by done. exact Hn. }
  assert (_value <$> signals c1 !! ls = Some (VNum (Z.of_nat (length elems')))) as Hl1.
  { unfold c1. rewrite value_signal_set, decide_True, Hc2 by done.
    unfold signal_value in Hlv. by destruct (signals (core rs) !! ls). }
  assert (is_Some (_value <$> signals c1 !! ch)) as Hc1.
  { unfold c1. rewrite value_signal_set, decide_False, Hc2 by done.
    unfold signal_value in Hcv. by rewrite Hcv. }
  destruct (bump_version_sum vs n c1 Hn1) as (c2 & -> & Hv2 & Hother).
  simpl. eexists _, _. split; [done|]. unfold signal_value. simpl. split_and!.
  - by apply lookup_app_l_Some.
  - by rewrite value_signal_set, decide_False.
  - rewrite value_signal_set, decide_False by done. by rewrite Hother.
  - exists (length (heap rs2)). split_and!.
    + rewrite value_signal_set, decide_True by done.
      rewrite <- (Hother ch) in Hc1 by done.
      destruct Hc1 as [v' Hv']. by destruct (signals c2 !! ch).
    + done.
    + rewrite lookup_app_r by done. rewrite Nat.sub_diag. simpl. by rewrite Hnow.
  - destruct res as [[v|l]|]; [done| |done].
    destruct Hres as (a' & -> & Ha'). exists a'. split; [done|].
    by apply lookup_app_l_Some.
Qed.

(** X13. [isReactive] answers [true] for the wrapper of an object and
    [false] for the wrapper of an array (whose raw array has no property
    [__isReactive] of its own): the get trap of an array wrapper does
    not know the reserved names. Neither read touches the state. *)
Theorem isReactive_of_wrappers (po to pa ta ch ls vs : nat)
    (props' props : gmap string value) (elems : list value) (rs : rstate) :
  heap rs !! po = Some (OProxy to HObject) ->
  heap rs !! to = Some (OPlain props') ->
  heap rs !! pa = Some (OProxy ta (HArray ch ls vs)) ->
  heap rs !! ta = Some (OArray elems props) ->
  props !! "__isReactive" = None ->
  isReactive (VObj po) rs = Some (VBool true, rs)
  /\ isReactive (VObj pa) rs = Some (VBool false, rs).
Proof.
  intros Hpo Hto Hpa Hta Hnone. unfold isReactive. cbn [truthy negb].
  rewrite Hpo, Hpa. unfold object_get, array_get.
  rewrite Hpo, Hto, Hpa, Hta. split; [done|].
  cbn. by rewrite Hnone.
Qed.

Lemma isReactive_of_wrappers_witness :
  isReactive (VObj 3) two_wrappers = Some (VBool true, two_wrappers)
  /\ isReactive (VObj 2) two_wrappers = Some (VBool false, two_wrappers).
Proof.
  apply (isReactive_of_wrappers 3 0 2 1 0 1 2 ∅ ∅ [VNum 10; VNum 20; VNum 30]
           two_wrappers); reflexivity.
Defined.



(** X15. [pop] and [shift] on an empty array return [undefined] and
    leave the array empty, and yet the version goes up by one and a
    change event with the old and the new length 0 is published: the
    consumers are triggered by a call that changed nothing. The
    version [n] is a number to which a double adds one exactly:
    [-2^53 <= n < 2^53]. *)
Theorem pop_on_empty_array (p t ch ls vs : nat) (n : Z) (c : method_call)
    (props : gmap string value) (rs : rstate) :
  array_wrapper p t ch ls vs rs ->
  heap rs !! t = Some (OArray [] props) ->
  signal_value vs rs = Some (VNum n) ->
  (- 2 ^ 53 <= n < 2 ^ 53)%Z ->
  is_Some (signal_value ls rs) -> is_Some (signal_value ch rs) ->
  c = CPop \/ c = CShift ->
  exists rs' ev,
    array_method p c rs = Some (VUndef, rs')
    /\ heap rs' !! t = Some (OArray [] props)
    /\ signal_value vs rs' = Some (VNum (n + 1))
    /\ signal_value ls rs' = Some (VNum 0)
    /\ signal_value ch rs' = Some (VObj ev)
    /\ heap rs' !! ev = Some (OChange "remove" (method_name c) [] 0 0 (now rs)).
Proof.
  intros (Hp & _ & Hls & Hch & Hlc) Ht Hn Hsafe Hlv Hcv Hc.
  destruct (array_method_full p t ch ls vs c n [] props rs)
    as (r & rs' & Hm & Ht' & Hv' & Hl' & (ev & Hc' & Hev & Hev') & Hr); try done.
  rewrite round_double_exact in Hv' by lia.
  exists rs', ev. destruct Hc as [-> | ->]; cbn in *; by subst r.
Qed.

Lemma pop_on_empty_array_witness :
  exists rs' ev,
    array_method 1 CPop wrapped_empty_array = Some (VUndef, rs')
    /\ heap rs' !! 0 = Some (OArray [] ∅)
    /\ signal_value 2 rs' = Some (VNum (0 + 1))
    /\ signal_value 1 rs' = Some (VNum 0)
    /\ signal_value 0 rs' = Some (VObj ev)
    /\ heap rs' !! ev = Some (OChange "remove" (method_name CPop) [] 0 0
                                (now wrapped_empty_array)).
Proof.
  apply (pop_on_empty_array 1 0 0 1 2 0 CPop ∅ wrapped_empty_array).
  - unfold array_wrapper. split_and!; try done. by eexists _, _.
  - reflexivity.
  - reflexivity.
  - done.
  - by eexists.
  - by eexists.
  - by left.
Defined.




(** ** What wrapping leaves alone *)

Lemma values_kept_refl rs : values_kept rs rs.
Proof. by intros x v. Qed.

Lemma values_kept_trans rs1 rs2 rs3 :
  values_kept rs1 rs2 -> values_kept rs2 rs3 -> values_kept rs1 rs3.
Proof. intros H1 H2 x v Hx. by apply H2, H1. Qed.

Lemma values_kept_core rs rs' : core rs' = core rs -> values_kept rs rs'.
Proof. intros Hc x v. unfold signal_value. by rewrite Hc. Qed.

Lemma values_kept_new_signal v rs rs' :
  core rs' = (new_signal v (core rs)).2 -> values_kept rs rs'.
Proof.
  intros Hc x w. unfold signal_value. rewrite Hc. cbn.
  destruct (signals (core rs) !! x) as [g|] eqn:Hx; [|done].
  by rewrite (lookup_app_l_Some _ _ _ _ Hx).
Qed.

Lemma values_kept_signal_get x rs rs' :
  core rs' = (signal_get x (core rs)).2 -> values_kept rs rs'.
Proof.
  intros Hc y w. unfold signal_value. by rewrite Hc, value_signal_get.
Qed.

Lemma values_kept_signal_or_new t k v rs :
  values_kept rs (signal_or_new t k v rs).2.
Proof.
  unfold signal_or_new.
  destruct (default ∅ (_signalsMap rs !! t) !! k) as [[x|d]|];
    first [apply values_kept_refl|by apply (values_kept_new_signal v)].
Qed.

Lemma values_kept_length_get fuel a rs :
  values_kept rs (length_get fuel a rs).2.
Proof.
  revert a rs. induction fuel as [|fuel IH]; intros a rs; simpl;
    [apply values_kept_refl|].
  destruct (heap rs !! a) as [[| |t [|ch ls vs]| |]|]; try apply values_kept_refl.
  - apply IH.
  - eapply values_kept_trans; [|apply IH]. by apply (values_kept_signal_get ls).
Qed.

Lemma signalsMap_getSignals a t rs :
  t <> a \/ is_Some (_signalsMap rs !! t) ->
  _signalsMap (_getSignals a rs).2 !! t = _signalsMap rs !! t.
Proof.
  intros Ht. unfold _getSignals. destruct (_signalsMap rs !! a) eqn:Ha; [done|].
  cbn. rewrite lookup_insert_ne; [done|]. intros ->.
  destruct Ht as [?|[? ?]]; [done|congruence].
Qed.

Lemma signalsMap_signal_or_new a k v t rs :
  t <> a -> _signalsMap (signal_or_new a k v rs).2 !! t = _signalsMap rs !! t.
Proof.
  intros Ht. unfold signal_or_new.
  destruct (default ∅ (_signalsMap rs !! a) !! k) as [[x|d]|]; try done;
    cbn; by rewrite lookup_insert_ne.
Qed.

Lemma signalsMap_length_get fuel a rs :
  _signalsMap (length_get fuel a rs).2 = _signalsMap rs.
Proof.
  revert a rs. induction fuel as [|fuel IH]; intros a rs; simpl; [done|].
  destruct (heap rs !! a) as [[| |t [|ch ls vs]| |]|]; try done.
  by rewrite IH.
Qed.

Lemma reactiveArray_keeps a rs :
  values_kept rs (reactiveArray a rs).2
  /\ forall t, t <> a -> _signalsMap (reactiveArray a rs).2 !! t = _signalsMap rs !! t.
Proof.
  unfold reactiveArray.
  pose proof (core_getSignals a rs) as V1.
  pose proof (fun t (H : t <> a) => signalsMap_getSignals a t rs (or_introl H)) as S1.
  destruct (_getSignals a rs) as [sg rs1]. cbn [snd] in V1, S1.
  pose proof (values_kept_signal_or_new a "__arrayChange" VNull rs1) as V2.
  pose proof (fun t => signalsMap_signal_or_new a "__arrayChange" VNull t rs1) as S2.
  destruct (signal_or_new a "__arrayChange" VNull rs1) as [ch rs2]. cbn [snd] in V2, S2.
  assert (exists ls rs3,
    match default ∅ (_signalsMap rs2 !! a) !! "length" with
    | Some (Plain x) => (x, rs2)
    | _ =>
        let '(len, rs') := length_get (S (length (heap rs2))) a rs2 in
        signal_or_new a "length" (from_option VNum VUndef len) rs'
    end = (ls, rs3) /\ values_kept rs2 rs3
    /\ forall t, t <> a -> _signalsMap rs3 !! t = _signalsMap rs2 !! t)
    as (ls & rs3 & -> & V3 & S3).
  { pose proof (values_kept_length_get (S (length (heap rs2))) a rs2) as Vl.
    pose proof (signalsMap_length_get (S (length (heap rs2))) a rs2) as Sl.
    destruct (length_get _ a rs2) as [len rs']. cbn [snd] in Vl, Sl.
    pose proof (values_kept_signal_or_new a "length" (from_option VNum VUndef len) rs') as Vs.
    pose proof (fun t => signalsMap_signal_or_new a "length"
                           (from_option VNum VUndef len) t rs') as Ss.
    destruct (signal_or_new a "length" _ rs') as [x rs'']. cbn [snd] in Vs, Ss.
    assert (values_kept rs2 rs'') as Vt by (by eapply values_kept_trans).
    assert (forall t, t <> a -> _signalsMap rs'' !! t = _signalsMap rs2 !! t) as St.
    { intros t Ht. rewrite Ss by done. by rewrite Sl. }
    destruct (default ∅ (_signalsMap rs2 !! a) !! "length") as [[x'|d]|];
      eexists _, _; split_and!; try done. apply values_kept_refl. }
  pose proof (values_kept_signal_or_new a "__version" (VNum 0) rs3) as V4.
  pose proof (fun t => signalsMap_signal_or_new a "__version" (VNum 0) t rs3) as S4.
  destruct (signal_or_new a "__version" (VNum 0) rs3) as [vs rs4]. cbn [snd] in V4, S4.
  cbn. split.
  - intros x v Hx. apply (values_kept_core rs4); [done|].
    apply V4, V3, V2. by apply (values_kept_core rs).
  - intros t Ht. by rewrite S4, S3, S2, S1.
Qed.

Lemma heap_reactive v rs : exists hs, heap (reactive v rs).2 = heap rs ++ hs.
Proof.
  unfold reactive. destruct (isArray v rs).
  - destruct v as [| | | | |a|]; try (exists []; by rewrite app_nil_r).
    destruct (reactiveArray_fresh a rs) as [_ [h H2]]. eauto.
  - destruct (reactiveMap_get v rs); [exists []; by rewrite app_nil_r|].
    destruct v as [| | | | |a|]; try (exists []; by rewrite app_nil_r).
    rewrite bool_decide_eq_false_2 by done. cbn.
    pose proof (heap_getSignals a rs) as H1.
    destruct (_getSignals a rs) as [sg rs1]. cbn in *. rewrite H1. eauto.
Qed.

(** [reactive] leaves a raw object, its Map of signals and the values
    of all signals as they are. *)
Lemma reactive_keeps v rs t props sg :
  heap rs !! t = Some (OPlain props) ->
  _signalsMap rs !! t = Some sg ->
  heap (reactive v rs).2 !! t = Some (OPlain props)
  /\ _signalsMap (reactive v rs).2 !! t = Some sg
  /\ values_kept rs (reactive v rs).2.
Proof.
  intros Ht Hsg. split.
  { destruct (heap_reactive v rs) as [hs ->]. by apply lookup_app_l_Some. }
  unfold reactive. destruct (isArray v rs) eqn:Harr.
  - destruct v as [| | | | |a|]; try (split; [done|apply values_kept_refl]).
    assert (t <> a) as Hne.
    { intros ->. unfold isArray in Harr. cbn in Harr. by rewrite Ht in Harr. }
    destruct (reactiveArray_keeps a rs) as [V S]. by rewrite S.
  - destruct (reactiveMap_get v rs); [split; [done|apply values_kept_refl]|].
    destruct v as [| | | | |a|]; try (split; [done|apply values_kept_refl]).
    rewrite bool_decide_eq_false_2 by done. cbn.
    pose proof (core_getSignals a rs) as V1.
    pose proof (signalsMap_getSignals a t rs) as S1.
    destruct (_getSignals a rs) as [sg' rs1]. cbn in *. split.
    + rewrite S1; [done|]. right. by rewrite Hsg.
    + by apply values_kept_core.
Qed.

Lemma wrap_result_keeps v rs t props sg :
  heap rs !! t = Some (OPlain props) ->
  _signalsMap rs !! t = Some sg ->
  heap (wrap_result v rs).2 !! t = Some (OPlain props)
  /\ _signalsMap (wrap_result v rs).2 !! t = Some sg
  /\ values_kept rs (wrap_result v rs).2.
Proof.
  intros Ht Hsg. unfold wrap_result. case_match.
  - by apply reactive_keeps.
  - split_and!; [done|done|apply values_kept_refl].
Qed.

(** ** The traps of an object wrapper *)

Lemma heap_wrap_result v rs : exists hs, heap (wrap_result v rs).2 = heap rs ++ hs.
Proof.
  unfold wrap_result. case_match; [apply heap_reactive|].
  exists []. by rewrite app_nil_r.
Qed.

Lemma mirrored_heap t rs : mirrored t rs -> exists props, heap rs !! t = Some (OPlain props).
Proof. intros (props & sg & Ht & _). eauto. Qed.

(** The Map of [t] with the signal [x] under [k]. *)
Lemma mirrored_store t k x props' sg rs' :
  heap rs' !! t = Some (OPlain props') ->
  _signalsMap rs' !! t = Some (<[k := Plain x]> sg) ->
  (forall k0 c, sg !! k0 = Some c -> k0 <> k ->
     exists x0, c = Plain x0 /\ x0 <> x
       /\ signal_value x0 rs' = Some (default VUndef (props' !! k0))) ->
  (forall k1 k2 c, sg !! k1 = Some c -> sg !! k2 = Some c -> k1 = k2) ->
  signal_value x rs' = Some (default VUndef (props' !! k)) ->
  mirrored t rs'.
Proof.
  intros Ht Hsg Hold Hinj Hx. exists props', (<[k := Plain x]> sg).
  split_and!; [done|done| |].
  - intros k0 c. destruct (decide (k0 = k)) as [->|Hne].
    + rewrite !lookup_insert_eq. intros [= <-]. eauto.
    + rewrite !lookup_insert_ne by done. intros Hc.
      destruct (Hold k0 c Hc Hne) as (x0 & -> & _ & Hv). eauto.
  - intros k1 k2 c. destruct (decide (k1 = k)) as [->|H1], (decide (k2 = k)) as [->|H2];
      rewrite ?lookup_insert_eq, ?lookup_insert_ne by done; try done.
    + intros [= <-] Hc. destruct (Hold k2 _ Hc H2) as (x0 & [= <-] & Hne & _). done.
    + intros Hc [= <-]. destruct (Hold k1 _ Hc H1) as (x0 & [= <-] & Hne & _). done.
    + apply Hinj.
Qed.

Lemma object_set_mirror p t k v rs :
  heap rs !! p = Some (OProxy t HObject) -> mirrored t rs -> inherited k = false ->
  exists rs',
    object_set p k v rs = Some (true, rs')
    /\ heap rs' !! p = Some (OProxy t HObject)
    /\ mirrored t rs'
    /\ (exists props', heap rs' !! t = Some (OPlain props')
          /\ props' !! k = Some (wrap_result v rs).1).
Proof.
  intros Hp (props & sg & Ht & Hsg & Hmir & Hinj) Hk.
  unfold object_set. rewrite Hp, Ht, Hk.
  destruct (wrap_result_keeps v rs t props sg Ht Hsg) as (Ht1 & Hsg1 & V1).
  destruct (heap_wrap_result v rs) as [hs Hh1].
  destruct (wrap_result v rs) as [rv rs1]. cbn [fst snd] in *.
  set (props' := <[k := rv]> props).
  set (rs2 := set_heap (<[t := OPlain props']> (heap rs1)) rs1).
  assert (heap rs2 !! t = Some (OPlain props')) as Ht2.
  { unfold rs2. cbn. apply list_lookup_insert_eq. by eapply lookup_lt_Some. }
  assert (heap rs2 !! p = Some (OProxy t HObject)) as Hp2.
  { unfold rs2. cbn. rewrite list_lookup_insert_ne by (intros ->; congruence).
    rewrite Hh1. by apply lookup_app_l_Some. }
  assert (props' !! k = Some rv) as Hk' by (unfold props'; by rewrite lookup_insert_eq).
  assert (signals_get t k rs2 = sg !! k) as Hget.
  { unfold signals_get, rs2. cbn. by rewrite Hsg1. }
  destruct (strict_eq (default VUndef (props !! k)) rv) eqn:Heq; cbn [negb].
  - (* the value that was there *)
    apply bool_decide_eq_true in Heq.
    exists rs2. split_and!; [done|done| |eauto].
    exists props', sg. split_and!; [done|done| |done].
    intros k0 c Hc. destruct (Hmir k0 c Hc) as (x & -> & Hv). exists x. split; [done|].
    apply V1 in Hv. unfold signal_value, rs2 in *. cbn. rewrite Hv. f_equal.
    unfold props'. destruct (decide (k0 = k)) as [->|Hne].
    + by rewrite lookup_insert_eq.
    + by rewrite lookup_insert_ne.
  - apply bool_decide_eq_false in Heq. rewrite Hget.
    destruct (sg !! k) as [c|] eqn:Hc.
    + (* the signal is there *)
      destruct (Hmir k c Hc) as (x & -> & Hv). apply V1 in Hv.
      eexists. split; [done|]. split; [done|].
      assert (signal_value x (set_core (signal_set x rv (core rs2)) rs2) = Some rv) as Hx.
      { unfold signal_value in *. cbn. rewrite value_signal_set, decide_True by done.
        by destruct (signals (core rs1) !! x). }
      split; [|eauto].
      apply (mirrored_store t k x props' sg); try done.
      * cbn. by rewrite insert_id.
      * intros k0 c0 Hc0 Hne. destruct (Hmir k0 c0 Hc0) as (x0 & -> & Hv0).
        exists x0. assert (x0 <> x) as Hx0.
        { intros ->. apply Hne. by eapply Hinj. }
        split_and!; [done|done|]. apply V1 in Hv0.
        unfold props'. rewrite lookup_insert_ne by done.
        unfold signal_value in *. cbn. by rewrite value_signal_set, decide_False.
      * by rewrite Hk'.
    + (* a new signal *)
      cbn. eexists. split; [done|]. split; [done|].
      assert (forall x0 w, signal_value x0 rs1 = Some w ->
                x0 <> length (signals (core rs1))) as Hfresh.
      { intros x0 w Hw ->. unfold signal_value in Hw.
        rewrite lookup_ge_None_2 in Hw by done. done. }
      split; [|eauto].
      apply (mirrored_store t k (length (signals (core rs1))) props' sg); try done.
      * unfold signals_set. cbn. rewrite lookup_insert_eq. by rewrite Hsg1.
      * intros k0 c0 Hc0 Hne. destruct (Hmir k0 c0 Hc0) as (x0 & -> & Hv0).
        exists x0. apply V1 in Hv0. split_and!; [done|by eapply Hfresh|].
        unfold props'. rewrite lookup_insert_ne by done.
        unfold signal_value in *. cbn.
        destruct (signals (core rs1) !! x0) as [g|] eqn:Hg; [|done].
        by rewrite (lookup_app_l_Some _ _ _ _ Hg).
      * rewrite Hk'. unfold signal_value. cbn. rewrite lookup_app_r by done.
        by rewrite Nat.sub_diag.
Qed.

Lemma object_delete_mirror p t k rs :
  heap rs !! p = Some (OProxy t HObject) -> mirrored t rs -> inherited k = false ->
  exists rs',
    object_delete p k rs = Some (true, rs')
    /\ heap rs' !! p = Some (OProxy t HObject)
    /\ mirrored t rs'
    /\ (exists props', heap rs' !! t = Some (OPlain props') /\ props' !! k = None).
Proof.
  intros Hp (props & sg & Ht & Hsg & Hmir & Hinj) Hk.
  unfold object_delete. rewrite Hp, Ht, Hk.
  set (props' := delete k props).
  set (rs1 := set_heap (<[t := OPlain props']> (heap rs)) rs).
  assert (heap rs1 !! t = Some (OPlain props')) as Ht1.
  { unfold rs1. cbn. apply list_lookup_insert_eq. by eapply lookup_lt_Some. }
  assert (heap rs1 !! p = Some (OProxy t HObject)) as Hp1.
  { unfold rs1. cbn. by rewrite list_lookup_insert_ne by (intros ->; congruence). }
  assert (props' !! k = None) as Hk' by (unfold props'; by rewrite lookup_delete_eq).
  assert (signals_get t k rs1 = sg !! k) as Hget.
  { unfold signals_get, rs1. cbn. by rewrite Hsg. }
  assert (forall k0, k0 <> k -> props' !! k0 = props !! k0) as Hother.
  { intros k0 Hne. unfold props'. by rewrite lookup_delete_ne. }
  case_bool_decide as Hhad.
  - rewrite Hget. destruct (sg !! k) as [c|] eqn:Hc.
    + destruct (Hmir k c Hc) as (x & -> & Hv).
      eexists. split; [done|]. split; [done|]. split; [|eauto].
      exists props', sg. split_and!; [done|done| |done].
      intros k0 c0 Hc0. destruct (Hmir k0 c0 Hc0) as (x0 & -> & Hv0).
      exists x0. split; [done|]. unfold signal_value in *. cbn.
      rewrite value_signal_set. destruct (decide (k0 = k)) as [->|Hne].
      * assert (x0 = x) as -> by congruence. rewrite decide_True by done.
        rewrite Hk'. cbn. by destruct (signals (core rs) !! x).
      * rewrite decide_False; [by rewrite Hother|].
        intros ->. apply Hne. by eapply Hinj.
    + exists rs1. split_and!; [done|done| |eauto].
      exists props', sg. split_and!; [done|done| |done].
      intros k0 c0 Hc0. destruct (Hmir k0 c0 Hc0) as (x0 & -> & Hv0).
      exists x0. split; [done|]. rewrite Hother; [done|]. intros ->. congruence.
  - exists rs1. split_and!; [done|done| |eauto].
    exists props', sg. split_and!; [done|done| |done].
    intros k0 c0 Hc0. destruct (Hmir k0 c0 Hc0) as (x0 & -> & Hv0).
    exists x0. split; [done|]. destruct (decide (k0 = k)) as [->|Hne].
    + rewrite Hk'. destruct (props !! k) eqn:Hpk; [|done].
      destruct Hhad. by eexists.
    + by rewrite Hother.
Qed.

Lemma reserved_false k :
  reserved k = false ->
  k <> "__isReactive" /\ k <> "__raw" /\ k <> "__signals".
Proof.
  unfold reserved. intros Hk%bool_decide_eq_false.
  split_and!; intros ->; apply Hk; set_solver.
Qed.


Lemma mirrored_kept t rs rs' props sg :
  heap rs !! t = Some (OPlain props) -> _signalsMap rs !! t = Some sg ->
  heap rs' !! t = Some (OPlain props) -> _signalsMap rs' !! t = Some sg ->
  values_kept rs rs' ->
  mirrored t rs -> mirrored t rs'.
Proof.
  intros Ht Hsg Ht' Hsg' V (props0 & sg0 & Ht0 & Hsg0 & Hmir & Hinj).
  assert (props0 = props) as -> by congruence.
  assert (sg0 = sg) as -> by congruence.
  exists props, sg. split_and!; [done|done| |done].
  intros k c Hc. destruct (Hmir k c Hc) as (x & -> & Hv). eauto.
Qed.

(** The get trap up to the read of the signal: the signal of the
    property is there, or is made, and is read. *)
Lemma object_get_read p t k props rs :
  heap rs !! p = Some (OProxy t HObject) -> mirrored t rs ->
  heap rs !! t = Some (OPlain props) ->
  inherited k = false -> reserved k = false ->
  exists x c0 rs1,
    object_get p k rs = Some (wrap_result (default VUndef (props !! k)) rs1)
    /\ heap rs1 = heap rs
    /\ mirrored t rs1
    /\ signals_get t k rs1 = Some (Plain x)
    /\ signal_value x rs1 = Some (default VUndef (props !! k))
    /\ (c0 = core rs \/ c0 = (new_signal (default VUndef (props !! k)) (core rs)).2)
    /\ is_Some (signals c0 !! x)
    /\ core rs1 = track_current (Plain x) c0.
Proof.
  intros Hp (props0 & sg & Ht0 & Hsg & Hmir & Hinj) Ht Hk Hres.
  assert (props0 = props) as -> by congruence. clear Ht0.
  destruct (reserved_false k Hres) as (R1 & R2 & R3).
  unfold object_get. rewrite Hp, Ht, Hk.
  rewrite !bool_decide_eq_false_2 by done.
  set (value := default VUndef (props !! k)).
  assert (signals_get t k rs = sg !! k) as Hget.
  { unfold signals_get. by rewrite Hsg. }
  rewrite Hget. destruct (sg !! k) as [c|] eqn:Hc.
  - destruct (Hmir k c Hc) as (x & -> & Hv).
    assert (is_Some (signals (core rs) !! x)) as [g Hg].
    { unfold signal_value in Hv. destruct (signals (core rs) !! x); [eauto|done]. }
    exists x, (core rs), (set_core (signal_get x (core rs)).2 rs).
    split_and!.
    + done.
    + done.
    + apply (mirrored_kept t rs _ props sg); try done.
      * by apply (values_kept_signal_get x).
      * by exists props, sg.
    + done.
    + unfold signal_value. cbn. by rewrite value_signal_get.
    + by left.
    + by eexists.
    + cbn. unfold signal_get. by rewrite Hg.
  - set (n := length (signals (core rs))).
    set (c1 := (new_signal value (core rs)).2).
    set (rs0 := signals_set t k (Plain n) (set_core c1 rs)).
    assert (signals c1 !! n = Some (mkSignal value [] (_nextId (core rs)))) as Hn.
    { unfold c1, n. cbn. rewrite lookup_app_r by done. by rewrite Nat.sub_diag. }
    assert (mirrored t rs0) as Hm0.
    { apply (mirrored_store t k n props sg).
      - done.
      - unfold rs0, signals_set. cbn. rewrite lookup_insert_eq. by rewrite Hsg.
      - intros k0 c0 Hc0 Hne. destruct (Hmir k0 c0 Hc0) as (x0 & -> & Hv0).
        exists x0. unfold signal_value in *.
        destruct (signals (core rs) !! x0) as [g|] eqn:Hg; [|done].
        split_and!; [done| |].
        + apply lookup_lt_Some in Hg. unfold n. lia.
        + cbn. by rewrite (lookup_app_l_Some _ _ _ _ Hg).
      - done.
      - unfold signal_value. cbn -[c1]. by rewrite Hn. }
    exists n, c1, (set_core (signal_get n (core rs0)).2 rs0).
    cbn [new_signal]. fold n. split_and!.
    + done.
    + done.
    + pose proof Hm0 as (props0 & sg0 & Ht0 & Hsg0 & _).
      apply (mirrored_kept t rs0 _ props0 sg0); try done.
      by apply (values_kept_signal_get n).
    + change (signals_get t k (set_core _ rs0)) with (signals_get t k rs0).
      unfold rs0. rewrite signals_get_signals_set. by rewrite decide_True.
    + unfold signal_value. cbn -[c1]. rewrite value_signal_get. cbn -[c1]. by rewrite Hn.
    + by right.
    + by eexists.
    + cbn -[c1]. unfold signal_get. by rewrite Hn.
Qed.

(** X17. The signals of an object mirror its properties. In a state
    where the Map of a raw object holds one signal for each property
    that was read or written, each with the value of its property,
    every call of the set, get and deleteProperty traps of its wrapper
    succeeds and leads to such a state again, whatever the values. *)
Theorem object_traps_mirror (p t : nat) (rs : rstate) :
  heap rs !! p = Some (OProxy t HObject) ->
  mirrored t rs ->
  (forall k v, inherited k = false ->
     exists rs', object_set p k v rs = Some (true, rs')
       /\ heap rs' !! p = Some (OProxy t HObject) /\ mirrored t rs')
  /\ (forall k, inherited k = false -> reserved k = false ->
        exists r rs', object_get p k rs = Some (r, rs')
          /\ heap rs' !! p = Some (OProxy t HObject) /\ mirrored t rs')
  /\ (forall k, inherited k = false ->
        exists rs', object_delete p k rs = Some (true, rs')
          /\ heap rs' !! p = Some (OProxy t HObject) /\ mirrored t rs').
Proof.
  intros Hp Hm. split_and!.
  - intros k v Hk.
    destruct (object_set_mirror p t k v rs Hp Hm Hk) as (rs' & H1 & H2 & H3 & _). eauto.
  - intros k Hk Hres. destruct (mirrored_heap t rs Hm) as [props Ht].
    destruct (object_get_read p t k props rs Hp Hm Ht Hk Hres)
      as (x & c0 & rs1 & Hget & Hh & Hm1 & _).
    rewrite Hget. pose proof Hm1 as (props1 & sg1 & Ht1 & Hsg1 & _).
    destruct (wrap_result_keeps (default VUndef (props !! k)) rs1 t props1 sg1 Ht1 Hsg1)
      as (Ht2 & Hsg2 & V2).
    destruct (heap_wrap_result (default VUndef (props !! k)) rs1) as [hs Hh2].
    destruct (wrap_result _ rs1) as [r rs2]. cbn [snd] in *.
    exists r, rs2. split_and!; [done| |].
    + rewrite Hh2, Hh. by apply lookup_app_l_Some.
    + by apply (mirrored_kept t rs1 rs2 props1 sg1).
  - intros k Hk.
    destruct (object_delete_mirror p t k rs Hp Hm Hk) as (rs' & H1 & H2 & H3 & _). eauto.
Qed.

Lemma mirrored_wrapped_object : mirrored 0 wrapped_object.
Proof.
  exists ∅, ∅. split_and!; [done|done| |]; intros k; intros; by simplify_map_eq.
Qed.

Lemma object_traps_mirror_witness :
  (forall k v, inherited k = false ->
     exists rs', object_set 2 k v wrapped_object = Some (true, rs')
       /\ heap rs' !! 2 = Some (OProxy 0 HObject) /\ mirrored 0 rs')
  /\ (forall k, inherited k = false -> reserved k = false ->
        exists r rs', object_get 2 k wrapped_object = Some (r, rs')
          /\ heap rs' !! 2 = Some (OProxy 0 HObject) /\ mirrored 0 rs')
  /\ (forall k, inherited k = false ->
        exists rs', object_delete 2 k wrapped_object = Some (true, rs')
          /\ heap rs' !! 2 = Some (OProxy 0 HObject) /\ mirrored 0 rs').
Proof.
  apply (object_traps_mirror 2 0 wrapped_object);
    [reflexivity|apply mirrored_wrapped_object].
Defined.

Lemma wrap_result_unwrapped v rs : unwrapped v -> wrap_result v rs = (v, rs).
Proof.
  intros [Hv| ->]; unfold wrap_result; [by rewrite Hv|done].
Qed.



(** A tracked read subscribes the running effect. *)
Lemma track_current_subscribes c e o s :
  edges_owned s -> deps_exact s ->
  current s = Some e -> effects s !! e = Some o -> is_Some (cell_signal c s) ->
  subscribed e c (track_current c s).
Proof.
  intros [_ Hown] Hdeps Hcur He Hc. unfold track_current. cbv zeta.
  change (current (emit _ s)) with (current s). rewrite Hcur.
  set (s1 := emit (EvRead (Some e) c) s).
  assert (edges_of e s1 = Some (dependencies o, cleanups o)) as Hed.
  { by apply edges_of_Some. }
  destruct (decide (c ∈ dependencies o)) as [Hin|Hnin].
  - destruct (Hdeps e o He) as [Hd Hcl]. rewrite Hd in Hin.
    apply list_elem_of_fmap in Hin as ([c' cb] & -> & Hin). cbn.
    exists cb. split.
    + apply (elem_of_subscribers_track e c' c' cb s1 _ _ Hed Hc). left.
      by apply Hcl.
    + by eapply Hown.
  - exists (mkCallback (next_cb s1) e). split; [|done].
    apply (elem_of_subscribers_track e c c _ s1 _ _ Hed Hc). by right.
Qed.

(** X19. A property that is read through the wrapper while an effect
    runs subscribes the effect to the signal of the property, and a
    later write of another value through the wrapper stores it in the
    signal and schedules the effect (for values that are not wrapped,
    and an effect that is active and not yet scheduled). *)
Theorem object_property_reactive (p t e : nat) (k : string) (v' : value)
    (props : gmap string value) (rs : rstate) :
  heap rs !! p = Some (OProxy t HObject) ->
  mirrored t rs ->
  heap rs !! t = Some (OPlain props) ->
  inherited k = false -> reserved k = false ->
  unwrapped (default VUndef (props !! k)) -> unwrapped v' ->
  v' <> default VUndef (props !! k) ->
  edges_owned (core rs) -> deps_exact (core rs) ->
  current (core rs) = Some e ->
  active_of e (core rs) = Some true ->
  effect_scheduled e (core rs) = false ->
  exists rs1 rs2 x,
    object_get p k rs = Some (default VUndef (props !! k), rs1)
    /\ signals_get t k rs1 = Some (Plain x)
    /\ subscribed e (Plain x) (core rs1)
    /\ object_set p k v' rs1 = Some (true, rs2)
    /\ signal_value x rs2 = Some v'
    /\ waiting e (core rs2).
Proof.
  intros Hp Hm Ht Hk Hres Hv0 Hv' Hne Hown Hdeps Hcur Hact Hsch.
  set (v0 := default VUndef (props !! k)) in *.
  destruct (object_get_read p t k props rs Hp Hm Ht Hk Hres)
    as (x & c0 & rs1 & Hget & Hh1 & Hm1 & Hsig & Hval & Hc0 & [g Hg] & Hcore).
  fold v0 in Hget, Hval, Hc0.
  rewrite (wrap_result_unwrapped v0 rs1 Hv0) in Hget.
  assert (exists o, effects (core rs) !! e = Some o /\ active o = true) as (o & He & Ha).
  { unfold active_of in Hact. destruct (effects (core rs) !! e) as [o|]; [|done].
    exists o. split; [done|]. cbn in Hact. congruence. }
  assert (edges_owned c0 /\ deps_exact c0 /\ current c0 = Some e
          /\ effects c0 = effects (core rs)) as (Hown0 & Hdeps0 & Hcur0 & Heff0).
  { destruct Hc0 as [-> | ->]; [done|].
    destruct (edges_exact_run_ops [NewSignal v0] (core rs)) as [H1 H2]; done. }
  assert (subscribed e (Plain x) (core rs1)) as Hsub.
  { rewrite Hcore. apply (track_current_subscribes (Plain x) e o); try done.
    by rewrite Heff0. }
  assert (heap rs1 !! p = Some (OProxy t HObject)) as Hp1 by (by rewrite Hh1).
  assert (heap rs1 !! t = Some (OPlain props)) as Ht1 by (by rewrite Hh1).
  set (rs2 := set_heap (<[t := OPlain (<[k := v']> props)]> (heap rs1)) rs1).
  assert (object_set p k v' rs1
          = Some (true, set_core (signal_set x v' (core rs2)) rs2)) as Hset.
  { unfold object_set. rewrite Hp1, Ht1, Hk, (wrap_result_unwrapped v' rs1 Hv').
    fold v0. unfold strict_eq. rewrite bool_decide_eq_false_2 by done. cbn [negb].
    change (signals_get t k (set_heap _ rs1)) with (signals_get t k rs1).
    by rewrite Hsig. }
  assert (exists g1, signals (core rs1) !! x = Some g1 /\ _value g1 = v0) as (g1 & Hg1 & Hgv).
  { unfold signal_value in Hval. destruct (signals (core rs1) !! x) as [g1|]; [|done].
    exists g1. split; [done|]. cbn in Hval. congruence. }
  assert (effect_active e (core rs1) = true) as Hact1.
  { rewrite effect_active_alt, Hcore, active_of_track_current.
    unfold active_of. rewrite Heff0, He. cbn. by rewrite Ha. }
  assert (effect_scheduled e (core rs1) = false) as Hsch1.
  { rewrite Hcore, scheduled_track_current.
    unfold effect_scheduled in *. by rewrite Heff0. }
  exists rs1, (set_core (signal_set x v' (core rs2)) rs2), x.
  split_and!; [done|done|done|done| |].
  - unfold signal_value. cbn. rewrite value_signal_set, decide_True by done.
    by rewrite Hg1.
  - apply (signal_set_schedules e x g1 v' (core rs1)); try done. congruence.
Qed.

Lemma object_property_reactive_witness :
  exists rs1 rs2 x,
    object_get 2 "count" object_in_effect
    = Some (default VUndef ((∅ : gmap string value) !! "count"), rs1)
    /\ signals_get 0 "count" rs1 = Some (Plain x)
    /\ subscribed 0 (Plain x) (core rs1)
    /\ object_set 2 "count" (VNum 1) rs1 = Some (true, rs2)
    /\ signal_value x rs2 = Some (VNum 1)
    /\ waiting 0 (core rs2).
Proof.
  assert (edges_owned (core object_in_effect) /\ deps_exact (core object_in_effect))
    as [Hown Hdeps].
  { destruct (edges_exact_run_ops [NewEffect (Ret VUndef)] init_state) as [H1 H2].
    { split; [apply edges_owned_init|]. intros e' o. by destruct e'. }
    split.
    - revert H1. by apply edges_owned_frame.
    - revert H2. by apply deps_exact_frame. }
  apply (object_property_reactive 2 0 0 "count" (VNum 1) ∅ object_in_effect);
    try done.
  - exists ∅, ∅. split_and!; [done|done| |]; intros k; intros; by simplify_map_eq.
  - by left.
  - by left.
Defined.

(** * Further properties of the keyed lists *)

Lemma same_list_refl st : same_list st st.
Proof. by split_and!. Qed.

Lemma same_list_trans st1 st2 st3 :
  same_list st1 st2 -> same_list st2 st3 -> same_list st1 st3.
Proof.
  intros (H1 & H2 & H3 & H4) (H5 & H6 & H7 & H8).
  split_and!; congruence.
Qed.

Lemma evaluate_same_list ex ctx st : same_list st (evaluate ex ctx st).2.
Proof.
  unfold evaluate.
  destruct (bool_decide (src ex ∈ cache st)), (compiled ex) as [fn|];
    try destruct (fn ctx); by split_and!.
Qed.

Lemma evaluate_value ex ctx st :
  (evaluate ex ctx st).1
  = Returns match compiled ex with
            | Some fn => default VUndef (fn ctx)
            | None => VUndef
            end.
Proof.
  unfold evaluate. destruct (compiled ex) as [fn|]; [|done]. by destruct (fn ctx).
Qed.

(** The key depends on the context only, and computing it changes the
    cache and the log only. *)
Lemma computeKey_spec cfg d ctx st :
  (_computeKey cfg d ctx st).1 = key_of cfg ctx
  /\ same_list st (_computeKey cfg d ctx st).2.
Proof.
  unfold _computeKey, key_of. destruct (keyExpression cfg) as [ex|].
  - pose proof (evaluate_value ex ctx st) as Hv.
    pose proof (evaluate_same_list ex ctx st) as Hs.
    destruct (evaluate ex ctx st) as [[v|] st1]; cbn in *; [|done].
    split; [congruence|done].
  - split; [done|apply same_list_refl].
Qed.

(** A list of instances with an empty place cannot be reconciled. *)
Lemma buildKeyMap_throws cfg l index m st :
  None ∈ l -> (_buildKeyMap_from cfg l index m st).1 = Throws.
Proof.
  revert index m st. induction l as [|o l IH]; intros index m st Hin.
  - by apply not_elem_of_nil in Hin.
  - destruct o as [i|]; [|done]. cbn.
    destruct (arena st !! i) as [inst|]; [|done].
    destruct (_computeKey cfg (data inst) (icontext inst) st) as [k st1].
    apply IH. apply elem_of_cons in Hin as [Hin|Hin]; [done|done].
Qed.

Lemma reconcile_throws cfg newData st :
  None ∈ instances st -> _reconcile cfg newData st = Throws.
Proof.
  intros Hin. unfold _reconcile, _buildKeyMap.
  pose proof (buildKeyMap_throws cfg (instances st) 0 [] st Hin) as Ht.
  destruct (_buildKeyMap_from cfg (instances st) 0 [] st) as [[m|] st1]; [done|done].
Qed.

Lemma nextSibling_elem n d r : nextSibling n d = Some r -> r ∈ d.
Proof.
  induction d as [|m d IH]; [done|]. cbn. case_bool_decide as Hm.
  - destruct d as [|r' d]; [done|]. cbn. intros [= ->]. set_solver.
  - intros Hr. apply IH in Hr. set_solver.
Qed.

Lemma insert_at_ref_is_Some n r d : r ∈ d -> is_Some (insert_at_ref n r d).
Proof.
  induction d as [|m d IH]; [by intros ?%not_elem_of_nil|].
  intros Hin. cbn. case_bool_decide as Hm; [by eexists|].
  apply elem_of_cons in Hin as [->|Hin]; [done|].
  destruct (IH Hin) as [d' ->]. by eexists.
Qed.

Lemma dom_remove_absent n d : n ∉ d -> dom_remove n d = d.
Proof.
  intros Hn. unfold dom_remove. induction d as [|m d IH]; [done|].
  rewrite filter_cons. apply not_elem_of_cons in Hn as [Hne Hn].
  rewrite decide_True by done. by rewrite IH.
Qed.

(** A new node can be put before the next sibling of a node of the
    tree, whatever it is. *)
Lemma insertBefore_new n m d :
  n ∉ d -> is_Some (insertBefore n (nextSibling m d) d).
Proof.
  intros Hn. unfold insertBefore.
  destruct (nextSibling m d) as [r|] eqn:Hr; [|by eexists].
  apply nextSibling_elem in Hr.
  rewrite bool_decide_eq_false_2 by (intros ->; done).
  rewrite dom_remove_absent by done. by apply insert_at_ref_is_Some.
Qed.

(** X20. Two items with the same key break a list. The first rendering
    of two items whose keys are equal builds one instance only, for the
    second item, and leaves the place of the first item empty in the
    list of instances; from then on every reconciliation of the list
    throws, whatever the new data. *)
Theorem duplicate_keys_break_the_list (cfg : loop_config) (d1 d2 : value)
    (st : loop_state) :
  instances st = [] ->
  anchor cfg ∈ dom st ->
  next_node st ∉ dom st ->
  key_of cfg (_createItemContext cfg d1 0) = key_of cfg (_createItemContext cfg d2 1) ->
  exists st',
    _reconcile cfg [d1; d2] st = Returns st'
    /\ instances st' = [None; Some (length (arena st))]
    /\ arena st'
       = arena st ++ [mkInstance (next_node st) d2 (_createItemContext cfg d2 1)]
    /\ forall newData, _reconcile cfg newData st' = Throws.
Proof.
  intros Hinst Hanchor Hfresh Hkey.
  set (ctx0 := _createItemContext cfg d1 0) in *.
  set (ctx1 := _createItemContext cfg d2 1) in *.
  enough (exists st',
            _reconcile cfg [d1; d2] st = Returns st'
            /\ instances st' = [None; Some (length (arena st))]
            /\ arena st' = arena st ++ [mkInstance (next_node st) d2 ctx1])
    as (st' & H1 & H2 & H3).
  { exists st'. split_and!; try done. intros newData. apply reconcile_throws.
    rewrite H2. set_solver. }
  unfold _reconcile, _buildKeyMap. rewrite Hinst. cbn [_buildKeyMap_from].
  unfold _buildDataKeyMap. cbn [_buildDataKeyMap_from]. fold ctx0 ctx1.
  destruct (computeKey_spec cfg d1 ctx0 st) as [K1 S1].
  destruct (_computeKey cfg d1 ctx0 st) as [k1 st1]. cbn [fst snd] in K1, S1.
  destruct (computeKey_spec cfg d2 ctx1 st1) as [K2 S2].
  destruct (_computeKey cfg d2 ctx1 st1) as [k2 st2]. cbn [fst snd] in K2, S2.
  assert (k1 = k2) as -> by congruence.
  cbn [map_set]. rewrite bool_decide_eq_true_2 by done.
  unfold _planOperations. cbn [omap map_get plan_final fmap]. fold ctx0 ctx1.
  destruct (computeKey_spec cfg d1 ctx0 st2) as [K3 S3].
  destruct (_computeKey cfg d1 ctx0 st2) as [k3 st3]. cbn [fst snd] in K3, S3.
  destruct (computeKey_spec cfg d2 ctx1 st3) as [K4 S4].
  destruct (_computeKey cfg d2 ctx1 st3) as [k4 st4]. cbn [fst snd] in K4, S4.
  assert (same_list st st4) as (Sa & Si & Sd & Sn).
  { eapply same_list_trans; [exact S1|]. eapply same_list_trans; [exact S2|].
    eapply same_list_trans; [exact S3|exact S4]. }
  unfold _applyOperations.
  cbn [toRemove toUpdate toAdd finalInstances apply_removes apply_updates apply_adds
       omap list_omap option_bind mbind option_ret mret].
  cbn [a_index a_data a_context _createInstance].
  cbn [lookup list_lookup mjoin option_join].
  set (inst := mkInstance (next_node st4) d2 ctx1).
  set (st5 := set_dom _ _).
  assert (arena st5 = arena st4 ++ [inst]) as Ha5 by done.
  assert (dom st5 = dom st) as Hd5 by (by rewrite <- Sd).
  unfold _reorderDOM. cbn [list_insert insert reorder_from].
  rewrite Ha5, lookup_app_r, Nat.sub_diag by done. cbn [lookup list_lookup element inst].
  rewrite Hd5, Sn.
  rewrite (bool_decide_eq_false_2 (Some (next_node st) = nextSibling (anchor cfg) (dom st))).
  2: { intros Heq. symmetry in Heq. by apply nextSibling_elem in Heq. }
  unfold attached. rewrite bool_decide_eq_true_2 by done.
  destruct (insertBefore_new (next_node st) (anchor cfg) (dom st) Hfresh) as [d' ->].
  eexists. split; [done|]. cbn. rewrite Sa. split; [done|]. unfold inst. by rewrite Sn.
Qed.

Lemma duplicate_keys_break_the_list_witness :
  exists st',
    _reconcile constant_key [VNum 7; VNum 8] empty_loop = Returns st'
    /\ instances st' = [None; Some (length (arena empty_loop))]
    /\ arena st'
       = arena empty_loop
         ++ [mkInstance (next_node empty_loop) (VNum 8)
               (_createItemContext constant_key (VNum 8) 1)]
    /\ forall newData, _reconcile constant_key newData st' = Throws.
Proof.
  apply (duplicate_keys_break_the_list constant_key (VNum 7) (VNum 8) empty_loop).
  - reflexivity.
  - vm_compute. set_solver.
  - vm_compute. set_solver.
  - reflexivity.
Defined.

(** ** The first rendering of a list *)

Lemma map_set_fresh {V} (k : value) (v : V) (m : list (value * V)) :
  k ∉ keys_of m -> map_set k v m = m ++ [(k, v)].
Proof.
  unfold keys_of. induction m as [|[k' v'] m IH]; [done|]. cbn. intros Hk.
  apply not_elem_of_cons in Hk as [Hne Hk].
  rewrite bool_decide_eq_false_2 by congruence. by rewrite IH.
Qed.

Lemma item_keys_adds cfg l index :
  a_key <$> adds_from cfg l index = item_keys_from cfg l index.
Proof.
  revert index. induction l as [|d l IH]; intros index; [done|].
  cbn. by rewrite IH.
Qed.

Lemma buildDataKeyMap_from_fresh cfg l index m st :
  NoDup (keys_of m ++ item_keys_from cfg l index) ->
  (_buildDataKeyMap_from cfg l index m st).1 = m ++ (entry_of <$> adds_from cfg l index)
  /\ same_list st (_buildDataKeyMap_from cfg l index m st).2.
Proof.
  revert index m st. induction l as [|d l IH]; intros index m st Hnd.
  - cbn. rewrite app_nil_r. split; [done|apply same_list_refl].
  - cbn [_buildDataKeyMap_from adds_from item_keys_from fmap list_fmap] in *.
    destruct (computeKey_spec cfg d (_createItemContext cfg d index) st) as [K HS].
    destruct (_computeKey cfg d (_createItemContext cfg d index) st) as [k st1].
    cbn [fst snd] in K, HS. subst k.
    rewrite map_set_fresh.
    2: { apply NoDup_app in Hnd as (_ & Hnd & _). intros Hin.
         apply (Hnd _ Hin). set_solver. }
    destruct (IH (S index)
                (m ++ [(key_of cfg (_createItemContext cfg d index),
                        (d, index, _createItemContext cfg d index))]) st1) as [H1 H2].
    { unfold keys_of in *. rewrite fmap_app, <- app_assoc. exact Hnd. }
    rewrite H1. split; [by rewrite <- app_assoc|].
    eapply same_list_trans; [exact HS|exact H2].
Qed.

Lemma plan_final_fresh cfg l index st :
  (plan_final cfg [] l index st).1 = replicate (length l) None
  /\ same_list st (plan_final cfg [] l index st).2.
Proof.
  revert index st. induction l as [|d l IH]; intros index st.
  - split; [done|apply same_list_refl].
  - cbn [plan_final map_get length replicate].
    destruct (computeKey_spec cfg d (_createItemContext cfg d index) st) as [_ HS].
    destruct (_computeKey cfg d (_createItemContext cfg d index) st) as [k st1].
    cbn [fst snd] in HS.
    destruct (IH (S index) st1) as [H1 H2].
    destruct (plan_final cfg [] l (S index) st1) as [rest st3]. cbn [fst snd] in *.
    split; [by rewrite H1|]. eapply same_list_trans; [exact HS|exact H2].
Qed.

Lemma toAdd_fresh (adds : list add_op) :
  omap (fun '(k, (d, ni, ctx)) =>
          match map_get (V := nat * nat) k [] with
          | Some _ => None
          | None => Some (mkAdd k d ni ctx)
          end) (entry_of <$> adds) = adds.
Proof.
  induction adds as [|[k d ni ctx] adds IH]; [done|]. cbn. f_equal. exact IH.
Qed.

Lemma nextSibling_middle n xs ys :
  n ∉ xs -> nextSibling n (xs ++ n :: ys) = head ys.
Proof.
  induction xs as [|m xs IH]; intros Hn; cbn.
  - by rewrite bool_decide_eq_true_2.
  - apply not_elem_of_cons in Hn as [Hne Hn].
    rewrite bool_decide_eq_false_2 by congruence. by apply IH.
Qed.

Lemma insert_at_ref_middle n r xs ys :
  r ∉ xs -> insert_at_ref n r (xs ++ r :: ys) = Some (xs ++ n :: r :: ys).
Proof.
  induction xs as [|m xs IH]; intros Hr; cbn.
  - by rewrite bool_decide_eq_true_2.
  - apply not_elem_of_cons in Hr as [Hne Hr].
    rewrite bool_decide_eq_false_2 by congruence. by rewrite IH.
Qed.

(** A new node put before the next sibling of [m] comes right after
    [m]. *)
Lemma insertBefore_after n m xs ys :
  NoDup (xs ++ m :: ys) -> n ∉ xs ++ m :: ys ->
  insertBefore n (nextSibling m (xs ++ m :: ys)) (xs ++ m :: ys)
  = Some (xs ++ m :: n :: ys).
Proof.
  intros Hnd Hn. pose proof Hnd as (_ & Hm & _)%NoDup_app.
  rewrite nextSibling_middle by (intros Hin; apply (Hm _ Hin); set_solver).
  unfold insertBefore. destruct ys as [|r ys]; cbn [head].
  - rewrite dom_remove_absent by done. by rewrite <- app_assoc.
  - rewrite bool_decide_eq_false_2 by (intros ->; set_solver).
    rewrite dom_remove_absent by done.
    rewrite (cons_middle m xs), app_assoc in Hnd |- *.
    apply NoDup_app in Hnd as (_ & Hr & _).
    rewrite insert_at_ref_middle by (intros Hin; apply (Hr _ Hin); set_solver).
    by rewrite <- app_assoc.
Qed.

Lemma new_instances_lookup cfg l index e t :
  t < length l ->
  element <$> new_instances_from cfg l index e !! t = Some (e + t).
Proof.
  revert index e t. induction l as [|d l IH]; intros index e t Ht; cbn in Ht; [lia|].
  destruct t as [|t]; cbn.
  - by rewrite Nat.add_0_r.
  - rewrite IH by lia. f_equal. lia.
Qed.

Lemma set_dom_same st : set_dom (dom st) st = st.
Proof. by destruct st. Qed.

(** The loop over [toAdd], when every item is new: each clone goes
    right after the clone of the item before it. *)
Lemma apply_adds_in_order cfg l index final st pre p post :
  match index with
  | 0 => p = anchor cfg
  | S j => exists i inst,
             final !! j = Some (Some i) /\ arena st !! i = Some inst /\ element inst = p
  end ->
  dom st = pre ++ p :: post -> NoDup (dom st) ->
  (forall t, t < length l -> next_node st + t ∉ dom st) ->
  index + length l <= length final ->
  exists st',
    apply_adds cfg (adds_from cfg l index) final st
    = Returns (take index final ++ (Some <$> seq (length (arena st)) (length l))
                 ++ drop (index + length l) final, st')
    /\ arena st' = arena st ++ new_instances_from cfg l index (next_node st)
    /\ dom st' = pre ++ p :: seq (next_node st) (length l) ++ post
    /\ instances st' = instances st.
Proof.
  revert index final st pre p post.
  induction l as [|d l IH]; intros index final st pre p post Hprev Hdom Hnd Hfresh Hlen.
  - exists st. cbn. rewrite Nat.add_0_r, take_drop, app_nil_r. done.
  - cbn [length] in *.
    assert (next_node st ∉ dom st) as He.
    { specialize (Hfresh 0). rewrite Nat.add_0_r in Hfresh. apply Hfresh. lia. }
    set (ctx := _createItemContext cfg d index).
    set (inst := mkInstance (next_node st) d ctx).
    set (st1 := loop_emit (LCreated (length (arena st)) (next_node st))
                  (mkLoop (arena st ++ [inst]) (instances st) (dom st)
                     (S (next_node st)) (cache st) (events st))).
    set (st2 := set_dom (pre ++ p :: next_node st :: post) st1).
    assert (apply_adds cfg (adds_from cfg (d :: l) index) final st
            = apply_adds cfg (adds_from cfg l (S index))
                (<[index := Some (length (arena st))]> final) st2) as ->.
    { cbn [adds_from apply_adds a_data a_context a_index _createInstance]. fold ctx inst st1.
      assert (insertBefore (next_node st) (nextSibling p (dom st1)) (dom st1)
              = Some (pre ++ p :: next_node st :: post)) as Hins.
      { change (dom st1) with (dom st). rewrite Hdom in *. by apply insertBefore_after. }
      assert (attached p (dom st1) = true) as Hatt.
      { change (dom st1) with (dom st). unfold attached. rewrite Hdom.
        apply bool_decide_eq_true_2. set_solver. }
      destruct index as [|j].
      - subst p. by rewrite Hatt, Hins.
      - destruct Hprev as (i & pinst & Hf & Ha & Hp). rewrite Hf. cbn [mjoin option_join].
        change (arena st1) with (arena st ++ [inst]).
        rewrite (lookup_app_l_Some _ _ _ _ Ha). rewrite Hp, Hatt, Hins. done. }
    destruct (IH (S index) (<[index := Some (length (arena st))]> final) st2
                (pre ++ [p]) (next_node st) post) as (st' & Hr & Ha & Hd & Hi).
    { exists (length (arena st)), inst. split_and!.
      - apply list_lookup_insert_eq. lia.
      - change (arena st2) with (arena st ++ [inst]).
        by rewrite lookup_app_r, Nat.sub_diag.
      - done. }
    { change (dom st2) with (pre ++ p :: next_node st :: post). by rewrite <- app_assoc. }
    { change (dom st2) with (pre ++ p :: next_node st :: post).
      rewrite (cons_middle p pre), app_assoc. rewrite <- Permutation_middle.
      apply NoDup_cons. split.
      - rewrite <- app_assoc. cbn. by rewrite <- Hdom.
      - rewrite <- app_assoc. cbn. by rewrite <- Hdom. }
    { intros t Ht. change (next_node st2) with (S (next_node st)).
      change (dom st2) with (pre ++ p :: next_node st :: post).
      rewrite (cons_middle p pre), app_assoc. rewrite <- Permutation_middle.
      rewrite <- app_assoc. cbn [app]. rewrite <- Hdom.
      apply not_elem_of_cons. split; [lia|].
      replace (S (next_node st) + t) with (next_node st + S t) by lia.
      apply Hfresh. lia. }
    { rewrite length_insert. lia. }
    exists st'. split_and!.
    + rewrite Hr. do 2 f_equal.
      rewrite (take_S_r _ _ (Some (length (arena st))))
        by (apply list_lookup_insert_eq; lia).
      rewrite take_insert_ge by lia. rewrite drop_insert_lt by lia.
      change (arena st2) with (arena st ++ [inst]). rewrite length_app. cbn [length].
      rewrite Nat.add_1_r. rewrite <- app_assoc. cbn [app seq fmap list_fmap].
      by replace (S index + length l) with (index + S (length l)) by lia.
    + rewrite Ha. change (arena st2) with (arena st ++ [inst]).
      by rewrite <- app_assoc.
    + rewrite Hd. change (next_node st2) with (S (next_node st)).
      by rewrite <- app_assoc.
    + by rewrite Hi.
Qed.

(** [_reorderDOM] moves nothing when the clones are in the order of
    the instances already. *)
Lemma reorder_in_place cfg k a e xs ys st :
  dom st = xs ++ seq e k ++ ys -> NoDup (dom st) ->
  (forall t, t < k -> element <$> arena st !! (a + t) = Some (e + t)) ->
  reorder_from cfg (Some <$> seq a k) (head (seq e k ++ ys)) st = Returns st.
Proof.
  revert a e xs. induction k as [|k IH]; intros a e xs Hdom Hnd Harena; [done|].
  cbn [seq fmap list_fmap reorder_from app head].
  pose proof (Harena 0 ltac:(lia)) as H0. rewrite !Nat.add_0_r in H0.
  destruct (arena st !! a) as [inst|]; [|done]. cbn in H0. injection H0 as H0.
  rewrite H0, bool_decide_eq_true_2 by done. rewrite set_dom_same.
  cbn [seq app] in Hdom.
  assert (nextSibling e (dom st) = head (seq (S e) k ++ ys)) as ->.
  { rewrite Hdom. apply nextSibling_middle. rewrite Hdom in Hnd.
    apply NoDup_app in Hnd as (_ & Hx & _). intros Hin. apply (Hx _ Hin). set_solver. }
  apply (IH (S a) (S e) (xs ++ [e])).
  - by rewrite <- app_assoc.
  - done.
  - intros t Ht. replace (S a + t) with (a + S t) by lia.
    replace (S e + t) with (e + S t) by lia. apply Harena. lia.
Qed.

(** X23. The first rendering of a list. When no two items get the same
    key, the reconciliation of an empty list binding with the items
    [l] builds one instance for each item, in the order of the items,
    each with its item and its context, and leaves their elements in
    that order right after the anchor, before the nodes that followed
    the anchor. The elements are the nodes [next_node st], ... that
    [cloneNode] makes, which are not in the tree. *)
Theorem first_rendering_in_order (cfg : loop_config) (l : list value)
    (st : loop_state) (pre post : list nat) :
  instances st = [] ->
  dom st = pre ++ anchor cfg :: post ->
  NoDup (dom st) ->
  (forall t, t < length l -> next_node st + t ∉ dom st) ->
  NoDup (item_keys cfg l) ->
  exists st',
    _reconcile cfg l st = Returns st'
    /\ instances st' = Some <$> seq (length (arena st)) (length l)
    /\ arena st' = arena st ++ new_instances_from cfg l 0 (next_node st)
    /\ dom st' = pre ++ anchor cfg :: seq (next_node st) (length l) ++ post.
Proof.
  intros Hinst Hdom Hnd Hfresh Hkeys.
  unfold _reconcile, _buildKeyMap. rewrite Hinst. cbn [_buildKeyMap_from].
  unfold _buildDataKeyMap.
  destruct (buildDataKeyMap_from_fresh cfg l 0 [] st Hkeys) as [M1 S1].
  destruct (_buildDataKeyMap_from cfg l 0 [] st) as [newByKey st2].
  cbn [fst snd app] in M1, S1. subst newByKey.
  unfold _planOperations. cbn [omap list_omap]. rewrite toAdd_fresh.
  destruct (plan_final_fresh cfg l 0 st2) as [F1 S2].
  destruct (plan_final cfg [] l 0 st2) as [final st3]. cbn [fst snd] in F1, S2. subst final.
  assert (same_list st st3) as (Sa & Si & Sd & Sn).
  { eapply same_list_trans; [exact S1|exact S2]. }
  unfold _applyOperations.
  cbn [toRemove toUpdate toAdd finalInstances apply_removes apply_updates].
  destruct (apply_adds_in_order cfg l 0 (replicate (length l) None) st3
              pre (anchor cfg) post) as (st4 & Hr & Ha & Hd & Hi).
  { done. }
  { by rewrite Sd. }
  { by rewrite Sd. }
  { intros t Ht. rewrite Sd, Sn. by apply Hfresh. }
  { by rewrite length_replicate. }
  rewrite take_0, Nat.add_0_l, drop_replicate, Nat.sub_diag in Hr.
  cbn [replicate app] in Hr. rewrite app_nil_r in Hr. rewrite Hr.
  rewrite Sa, Sn in *.
  assert (NoDup (dom st4)) as Hnd4.
  { rewrite Hd. rewrite (cons_middle (anchor cfg) pre), app_assoc.
    rewrite (Permutation_app_comm (seq _ _) post), app_assoc, <- (app_assoc pre).
    cbn [app]. rewrite <- Hdom. apply NoDup_app. split_and!.
    - done.
    - intros n Hn Hs. apply elem_of_seq in Hs.
      refine (Hfresh (n - next_node st) _ _); [lia|].
      by replace (next_node st + (n - next_node st)) with n by lia.
    - apply NoDup_seq. }
  unfold _reorderDOM.
  assert (nextSibling (anchor cfg) (dom st4)
          = head (seq (next_node st) (length l) ++ post)) as ->.
  { rewrite Hd. apply nextSibling_middle. rewrite Hdom in Hnd.
    apply NoDup_app in Hnd as (_ & Hx & _). intros Hin. apply (Hx _ Hin). set_solver. }
  rewrite (reorder_in_place cfg (length l) (length (arena st)) (next_node st)
             (pre ++ [anchor cfg]) post st4).
  - exists (set_instances (Some <$> seq (length (arena st)) (length l)) st4).
    split_and!; done.
  - by rewrite Hd, <- app_assoc.
  - done.
  - intros t Ht. rewrite Ha, lookup_app_r by lia.
    replace (length (arena st) + t - length (arena st)) with t by lia.
    by apply new_instances_lookup.
Qed.

Lemma first_rendering_in_order_witness :
  exists st',
    _reconcile by_id sequence_123 empty_loop = Returns st'
    /\ instances st' = Some <$> seq (length (arena empty_loop)) (length sequence_123)
    /\ arena st' = arena empty_loop
                   ++ new_instances_from by_id sequence_123 0 (next_node empty_loop)
    /\ dom st' = [99] ++ anchor by_id
                 :: seq (next_node empty_loop) (length sequence_123) ++ [101].
Proof.
  apply (first_rendering_in_order by_id sequence_123 empty_loop [99] [101]).
  - reflexivity.
  - reflexivity.
  - apply (bool_decide_unpack _). vm_compute. exact I.
  - intros t Ht. cbn in Ht. vm_compute dom. cbn [next_node empty_loop plus].
    set_solver by lia.
  - apply (bool_decide_unpack _). vm_compute. exact I.
Defined.

(** ** The order of the elements *)

Lemma filter_all {A} (P : A -> Prop) `{!forall x, Decision (P x)} (l : list A) :
  (forall x, x ∈ l -> P x) -> filter P l = l.
Proof.
  induction l as [|x l IH]; intros HP; [done|].
  rewrite filter_cons_True by (apply HP; set_solver).
  rewrite IH; [done|]. intros y Hy. apply HP. set_solver.
Qed.

Lemma dom_remove_app n d1 d2 :
  dom_remove n (d1 ++ d2) = dom_remove n d1 ++ dom_remove n d2.
Proof. unfold dom_remove. apply filter_app. Qed.

Lemma dom_remove_cons_ne n m d : m <> n -> dom_remove n (m :: d) = m :: dom_remove n d.
Proof. intros Hne. unfold dom_remove. by rewrite filter_cons_True. Qed.

Lemma dom_remove_cons_eq n d : dom_remove n (n :: d) = dom_remove n d.
Proof. unfold dom_remove. rewrite filter_cons_False; [done|]. by intros H. Qed.

Lemma elem_of_dom_remove x n d : x ∈ dom_remove n d <-> x <> n /\ x ∈ d.
Proof. unfold dom_remove. by rewrite list_elem_of_filter. Qed.

Lemma dom_remove_filter (es : list nat) e d :
  filter (fun n => n ∉ es) (dom_remove e d) = filter (fun n => n ∉ e :: es) d.
Proof.
  unfold dom_remove. rewrite list_filter_filter. apply list_filter_iff.
  intros x. rewrite not_elem_of_cons. tauto.
Qed.

Lemma regroup {A} (F : list A) a placed rest :
  F ++ a :: placed ++ rest = (F ++ a :: placed) ++ rest.
Proof. by rewrite <- app_assoc. Qed.

(** One step of [_reorderDOM]: wherever the element [e] is, it comes to
    stand right after the elements that are placed. *)
Lemma reorder_move cfg e F placed rest :
  NoDup (F ++ anchor cfg :: placed ++ rest) -> e ∉ anchor cfg :: placed ->
  (if bool_decide (Some e = head rest) then Some (F ++ anchor cfg :: placed ++ rest)
   else if attached (anchor cfg) (F ++ anchor cfg :: placed ++ rest)
        then insertBefore e (head rest) (F ++ anchor cfg :: placed ++ rest)
        else None)
  = Some (dom_remove e F ++ anchor cfg :: placed ++ e :: dom_remove e rest).
Proof.
  intros Hnd He.
  assert (dom_remove e (F ++ anchor cfg :: placed ++ rest)
          = dom_remove e F ++ anchor cfg :: placed ++ dom_remove e rest) as Hrem.
  { rewrite dom_remove_app, dom_remove_cons_ne by set_solver.
    rewrite dom_remove_app. by rewrite (dom_remove_absent e placed) by set_solver. }
  case_bool_decide as Hh.
  - destruct rest as [|r rest]; [done|]. injection Hh as <-.
    rewrite dom_remove_cons_eq.
    assert ((e ∉ F) /\ (e ∉ rest)) as [HF Hrest].
    { apply NoDup_app in Hnd as (_ & HF & Hnd). split.
      - intros Hin. apply (HF _ Hin). set_solver.
      - apply NoDup_cons in Hnd as [_ Hnd]. apply NoDup_app in Hnd as (_ & _ & Hnd).
        by apply NoDup_cons in Hnd as [Hnd _]. }
    by rewrite !dom_remove_absent.
  - unfold attached. rewrite bool_decide_eq_true_2 by set_solver.
    unfold insertBefore. destruct rest as [|r rest]; cbn [head].
    + rewrite Hrem. cbn [dom_remove filter list_filter].
      by rewrite !regroup, <- app_assoc.
    + assert (r <> e) as Hne by (intros ->; by apply Hh).
      rewrite bool_decide_eq_false_2 by done. rewrite Hrem.
      rewrite dom_remove_cons_ne by done.
      rewrite (regroup (dom_remove e F)).
      rewrite insert_at_ref_middle.
      * by rewrite <- app_assoc.
      * rewrite regroup in Hnd.
        apply NoDup_app in Hnd as (_ & Hr & _). intros Hin. apply (Hr r); [|set_solver].
        apply elem_of_app in Hin as [Hin|Hin]; [|set_solver].
        apply elem_of_dom_remove in Hin as [_ Hin]. set_solver.
Qed.

Lemma nextSibling_placed n F m placed rest :
  n ∉ F ++ m :: placed ->
  nextSibling n (F ++ m :: placed ++ n :: rest) = head rest.
Proof.
  intros Hn. rewrite regroup. by apply nextSibling_middle.
Qed.

Lemma reorder_from_sorts cfg l st F placed rest :
  dom st = F ++ anchor cfg :: placed ++ rest -> NoDup (dom st) ->
  (forall i, Some i ∈ l -> is_Some (arena st !! i)) ->
  NoDup (elements_of st l) ->
  (forall e, e ∈ elements_of st l -> e ∉ anchor cfg :: placed) ->
  reorder_from cfg l (head rest) st
  = Returns (set_dom (filter (fun n => n ∉ elements_of st l) F
                        ++ anchor cfg :: placed ++ elements_of st l
                        ++ filter (fun n => n ∉ elements_of st l) rest) st).
Proof.
  revert st F placed rest.
  induction l as [|[i|] l IH]; intros st F placed rest Hdom Hnd Harena Hes Hout.
  - cbn. rewrite !filter_all by (intros; apply not_elem_of_nil).
    by rewrite <- Hdom, set_dom_same.
  - destruct (Harena i) as [inst Hi]; [set_solver|].
    assert (elements_of st (Some i :: l) = element inst :: elements_of st l) as Hel.
    { unfold elements_of. cbn. by rewrite Hi. }
    rewrite Hel in *. set (e := element inst) in *.
    apply NoDup_cons in Hes as [He Hes].
    assert (e ∉ anchor cfg :: placed) as Hout_e by (apply Hout; set_solver).
    cbn [reorder_from]. rewrite Hi. fold e. rewrite Hdom.
    rewrite (reorder_move cfg e F placed rest) by first [done | by rewrite <- Hdom].
    set (st1 := set_dom _ st).
    assert (NoDup (dom st1)) as Hnd1.
    { change (dom st1)
        with (dom_remove e F ++ anchor cfg :: placed ++ e :: dom_remove e rest).
      rewrite regroup, <- Permutation_middle, <- app_assoc. cbn [app].
      apply NoDup_cons. split.
      - rewrite !elem_of_app, elem_of_cons, elem_of_app, !elem_of_dom_remove.
        set_solver.
      - rewrite Hdom in Hnd. revert Hnd. rewrite !NoDup_app, !NoDup_cons, !NoDup_app.
        intros (H1 & H2 & H3 & H4 & H5 & H6). split_and!.
        + by apply NoDup_filter.
        + intros x [_ Hx]%elem_of_dom_remove Hin. apply (H2 x Hx).
          rewrite !elem_of_cons, !elem_of_app in Hin |- *.
          rewrite elem_of_dom_remove in Hin. tauto.
        + rewrite elem_of_app, elem_of_dom_remove. set_solver.
        + done.
        + intros x Hx [_ Hin]%elem_of_dom_remove. by apply (H5 x).
        + by apply NoDup_filter. }
    assert (nextSibling e (dom_remove e F ++ anchor cfg :: placed ++ e :: dom_remove e rest)
            = head (dom_remove e rest)) as ->.
    { apply nextSibling_placed.
      rewrite elem_of_app, elem_of_dom_remove. set_solver. }
    rewrite (IH st1 (dom_remove e F) (placed ++ [e]) (dom_remove e rest)).
    + change (elements_of st1 l) with (elements_of st l).
      rewrite !dom_remove_filter. unfold st1, set_dom.
      cbn [arena instances next_node cache events]. do 2 f_equal.
      by rewrite <- !app_assoc.
    + change (dom st1)
        with (dom_remove e F ++ anchor cfg :: placed ++ e :: dom_remove e rest).
      by rewrite <- app_assoc.
    + done.
    + intros i' Hi'. change (arena st1) with (arena st). apply Harena. set_solver.
    + done.
    + intros x Hx. change (elements_of st1 l) with (elements_of st l) in Hx.
      rewrite app_comm_cons, elem_of_app.
      intros [Hin|Hin]; [apply (Hout x); set_solver|].
      apply elem_of_cons in Hin as [->|Hin]; [done|]. by apply elem_of_nil in Hin.
  - cbn [reorder_from].
    change (elements_of st (None :: l)) with (elements_of st l) in *.
    apply IH; try done. intros i Hi. apply Harena. set_solver.
Qed.

(** X24. What [_reorderDOM] does to the tree. Whatever the places of
    the elements of the instances are among the children of the parent
    of the anchor, before the anchor, after it or nowhere, afterwards
    they follow the anchor in the order of the instances, and the other
    children are in the order they were in, before and after them. The
    empty places of the list are skipped. *)
Theorem reorderDOM_sorts (cfg : loop_config) (l : list (option nat))
    (st : loop_state) (pre post : list nat) :
  dom st = pre ++ anchor cfg :: post ->
  NoDup (dom st) ->
  (forall i, Some i ∈ l -> is_Some (arena st !! i)) ->
  NoDup (elements_of st l) ->
  anchor cfg ∉ elements_of st l ->
  _reorderDOM cfg l st
  = Returns (set_dom (filter (fun n => n ∉ elements_of st l) pre
                        ++ anchor cfg :: elements_of st l
                        ++ filter (fun n => n ∉ elements_of st l) post) st).
Proof.
  intros Hdom Hnd Harena Hes Hanchor. unfold _reorderDOM.
  assert (nextSibling (anchor cfg) (dom st) = head post) as ->.
  { rewrite Hdom. apply nextSibling_middle. rewrite Hdom in Hnd.
    apply NoDup_app in Hnd as (_ & Hx & _). intros Hin. apply (Hx _ Hin). set_solver. }
  apply (reorder_from_sorts cfg l st pre [] post); try done.
  intros e He. set_solver.
Qed.

Lemma reorderDOM_sorts_witness :
  _reorderDOM by_id [Some 0; None; Some 1; Some 2] shuffled_loop
  = Returns (set_dom [99; 100; 1; 2; 3; 101] shuffled_loop).
Proof.
  apply (reorderDOM_sorts by_id [Some 0; None; Some 1; Some 2] shuffled_loop
           [2; 99] [3; 101; 1]).
  - reflexivity.
  - apply (bool_decide_unpack _). vm_compute. exact I.
  - intros i Hi.
    repeat (apply elem_of_cons in Hi as [Hi|Hi]; [by simplify_eq; eexists|]).
    by apply elem_of_nil in Hi.
  - apply (bool_decide_unpack _). vm_compute. exact I.
  - apply (bool_decide_unpack _). vm_compute. exact I.
Defined.

(** * The merged context *)

Lemma merge_has_false_from stack k rs :
  merge_has stack k rs = Some false ->
  Forall (fun c => has_property c k rs = Some false) stack.
Proof.
  induction stack as [|c stack IH]; [done|]. cbn.
  destruct (has_property c k rs) as [[]|] eqn:Hc; try done.
  intros H. constructor; [done|by apply IH].
Qed.

Lemma merge_get_from_absent rstack k rs :
  Forall (fun c => has_property c k rs = Some false) rstack ->
  merge_get_from rstack k rs = Some (MValue VUndef, rs).
Proof.
  induction 1 as [|c rstack Hc _ IH]; [done|]. cbn. by rewrite Hc.
Qed.

(** X21. How the merged context of an expression resolves a name. A
    name that no context of the stack has is [undefined], and the read
    touches nothing: no signal is made or read, so the running effect
    subscribes to nothing. A name that the last context has, a raw
    object, is the value it has there (a function is bound to that
    context), again without touching anything, whatever the contexts
    before it hold: the variable of a loop shadows the property of the
    model with the same name. *)
Theorem merged_context_lookup (stack outer : list nat) (c : nat) (k k' : string)
    (v : value) (props : gmap string value) (rs : rstate) :
  merge_has stack k rs = Some false ->
  heap rs !! c = Some (OPlain props) -> props !! k' = Some v -> inherited k' = false ->
  merge_get stack k rs = Some (MValue VUndef, rs)
  /\ merge_get (outer ++ [c]) k' rs = Some (merged_of v c, rs)
  /\ merge_has (outer ++ [c]) k' rs <> Some false.
Proof.
  intros Hhas Hc Hk' Hinh. split_and!.
  - unfold merge_get. apply merge_get_from_absent.
    apply Forall_reverse. by apply merge_has_false_from.
  - unfold merge_get. rewrite reverse_snoc. cbn.
    unfold has_property, read_property. rewrite Hinh, Hc, Hk'.
    rewrite bool_decide_eq_true_2 by (by eexists). cbn. by destruct v.
  - intros Hfalse. apply merge_has_false_from in Hfalse.
    apply Forall_app in Hfalse as [_ Hfalse]. apply Forall_inv in Hfalse.
    cbn beta in Hfalse. unfold has_property in Hfalse. rewrite Hinh, Hc, Hk' in Hfalse.
    rewrite bool_decide_eq_true_2 in Hfalse by (by eexists). done.
Qed.

Lemma merged_context_lookup_witness :
  merge_get [1; 2] "total" model_and_item = Some (MValue VUndef, model_and_item)
  /\ merge_get ([1] ++ [2]) "count" model_and_item
     = Some (merged_of (VNum 5) 2, model_and_item)
  /\ merge_has ([1] ++ [2]) "count" model_and_item <> Some false.
Proof.
  apply (merged_context_lookup [1; 2] [1] 2 "total" "count" (VNum 5)
           {[ "count" := VNum 5; "item" := VNum 7 ]} model_and_item);
    reflexivity.
Defined.

(** * The reconciliation of a keyed list *)

(** ** The key maps *)

Lemma map_get_None {V} (k : value) (m : list (value * V)) :
  k ∉ keys_of m -> map_get k m = None.
Proof.
  unfold keys_of. induction m as [|[k' v'] m IH]; [done|]. cbn. intros Hk.
  apply not_elem_of_cons in Hk as [Hne Hk].
  rewrite bool_decide_eq_false_2 by congruence. by apply IH.
Qed.

Lemma map_get_Some_elem {V} (k : value) (v : V) (m : list (value * V)) :
  map_get k m = Some v -> (k, v) ∈ m.
Proof.
  induction m as [|[k' v'] m IH]; [done|]. cbn. case_bool_decide as Hk.
  - intros [= ->]. subst k'. set_solver.
  - intros Hm. apply IH in Hm. set_solver.
Qed.

Lemma map_get_elem {V} (k : value) (v : V) (m : list (value * V)) :
  NoDup (keys_of m) -> (k, v) ∈ m -> map_get k m = Some v.
Proof.
  unfold keys_of. induction m as [|[k' v'] m IH]; [by intros _ ?%elem_of_nil|].
  cbn. intros [Hk' Hnd]%NoDup_cons Hin. case_bool_decide as Hk.
  - subst k'. apply elem_of_cons in Hin as [Hin|Hin]; [congruence|].
    destruct Hk'. apply list_elem_of_fmap. by exists (k, v).
  - apply elem_of_cons in Hin as [Hin|Hin]; [congruence|]. by apply IH.
Qed.

Lemma map_get_is_Some {V} (k : value) (m : list (value * V)) :
  k ∈ keys_of m -> is_Some (map_get k m).
Proof.
  unfold keys_of. induction m as [|[k' v'] m IH]; [by intros ?%elem_of_nil|].
  cbn. intros Hin. case_bool_decide as Hk; [by eexists|].
  apply elem_of_cons in Hin as [Hin|Hin]; [congruence|]. by apply IH.
Qed.

Lemma map_get_keys {V} (k : value) (v : V) (m : list (value * V)) :
  map_get k m = Some v -> k ∈ keys_of m.
Proof.
  intros Hm%map_get_Some_elem. unfold keys_of. apply list_elem_of_fmap. by exists (k, v).
Qed.

Lemma keys_old_entries cfg rend index :
  keys_of (old_entries_from cfg rend index) = instance_keys cfg rend.
Proof.
  unfold keys_of, instance_keys. revert index.
  induction rend as [|p rend IH]; intros index; [done|]. cbn. by rewrite IH.
Qed.

Lemma elem_of_old_entries cfg rend index k i j :
  (k, (i, j)) ∈ old_entries_from cfg rend index ->
  exists inst, (i, inst) ∈ rend /\ k = key_of cfg (icontext inst).
Proof.
  revert index. induction rend as [|[i' inst'] rend IH]; intros index;
    [by intros ?%elem_of_nil|].
  cbn. intros [Hin|Hin]%elem_of_cons.
  - injection Hin as -> -> ->. exists inst'. split; [set_solver|done].
  - destruct (IH _ Hin) as (inst & H1 & H2). exists inst. split; [set_solver|done].
Qed.

Lemma old_entries_elem cfg rend index i inst :
  (i, inst) ∈ rend ->
  exists j, (key_of cfg (icontext inst), (i, j)) ∈ old_entries_from cfg rend index.
Proof.
  revert index. induction rend as [|[i' inst'] rend IH]; intros index;
    [by intros ?%elem_of_nil|].
  cbn. intros [Hin|Hin]%elem_of_cons.
  - injection Hin as -> ->. exists index. set_solver.
  - destruct (IH (S index) Hin) as [j Hj]. exists j. set_solver.
Qed.

Lemma buildKeyMap_from_spec cfg rend index m st :
  Forall (fun p => arena st !! p.1 = Some p.2) rend ->
  NoDup (keys_of m ++ instance_keys cfg rend) ->
  exists st',
    _buildKeyMap_from cfg ((fun p => Some p.1) <$> rend) index m st
    = (Returns (m ++ old_entries_from cfg rend index), st')
    /\ same_list st st'.
Proof.
  revert index m st. induction rend as [|[i inst] rend IH]; intros index m st Hall Hnd.
  - exists st. cbn. rewrite app_nil_r. split; [done|apply same_list_refl].
  - apply Forall_cons in Hall as [Hi Hall]. cbn [fst snd] in Hi.
    cbn [fmap list_fmap _buildKeyMap_from old_entries_from fst snd]. rewrite Hi.
    destruct (computeKey_spec cfg (data inst) (icontext inst) st) as [K HS].
    destruct (_computeKey cfg (data inst) (icontext inst) st) as [k st1].
    cbn [fst snd] in K, HS. subst k.
    rewrite map_set_fresh.
    2: { apply NoDup_app in Hnd as (_ & Hnd & _). intros Hin.
         apply (Hnd _ Hin). unfold instance_keys. set_solver. }
    destruct (IH (S index) (m ++ [(key_of cfg (icontext inst), (i, index))]) st1)
      as (st' & H1 & H2).
    { destruct HS as (Ha & _). by rewrite Ha. }
    { unfold keys_of, instance_keys in *. rewrite fmap_app, <- app_assoc. exact Hnd. }
    exists st'. rewrite H1, <- app_assoc. split; [done|].
    eapply same_list_trans; [exact HS|exact H2].
Qed.

(** ** The plan *)

Lemma toRemove_elem {W} (old : list (value * (nat * nat))) (new : list (value * W)) i :
  i ∈ omap (fun '(k, (i, _)) =>
              match map_get k new with Some _ => None | None => Some i end) old
  <-> exists k j, (k, (i, j)) ∈ old /\ k ∉ keys_of new.
Proof.
  rewrite list_elem_of_omap. split.
  - intros ([k [i' j]] & Hin & Hm). destruct (map_get k new) as [w|] eqn:Hg; [done|].
    injection Hm as ->. exists k, j. split; [done|].
    intros Hk. apply map_get_is_Some in Hk as [w Hk]. congruence.
  - intros (k & j & Hin & Hk). exists (k, (i, j)). split; [done|].
    by rewrite map_get_None.
Qed.

Lemma toUpdate_elem (old : list (value * (nat * nat)))
    (new : list (value * (value * nat * context))) op :
  op ∈ omap (fun '(k, (i, oi)) =>
               match map_get k new with
               | Some (d, ni, ctx) => Some (mkUpdate k i d ni oi ctx)
               | None => None
               end) old ->
  (u_key op, (u_instance op, oldIndex op)) ∈ old
  /\ map_get (u_key op) new = Some (newData op, newIndex op, newContext op).
Proof.
  rewrite list_elem_of_omap. intros ([k [i oi]] & Hin & Hm).
  destruct (map_get k new) as [[[d ni] ctx]|] eqn:Hg; [|done].
  injection Hm as <-. done.
Qed.

Lemma toAdd_filter (old : list (value * (nat * nat))) (adds : list add_op) :
  omap (fun '(k, (d, ni, ctx)) =>
          match map_get k old with
          | Some _ => None
          | None => Some (mkAdd k d ni ctx)
          end) (entry_of <$> adds)
  = filter (fun op => a_key op ∉ keys_of old) adds.
Proof.
  induction adds as [|[k d ni ctx] adds IH]; [done|].
  rewrite fmap_cons. cbn [omap list_omap entry_of a_key a_data a_index a_context].
  destruct (map_get k old) as [v|] eqn:Hg.
  - rewrite filter_cons_False; [exact IH|].
    cbn. intros Hk. apply Hk. by apply map_get_keys in Hg.
  - rewrite filter_cons_True.
    + cbn. f_equal. exact IH.
    + cbn. intros Hk. apply map_get_is_Some in Hk as [v Hk]. congruence.
Qed.

Lemma plan_final_spec cfg old l index st :
  (plan_final cfg old l index st).1 = final_from cfg old l index
  /\ arena (plan_final cfg old l index st).2 = plan_arena cfg old l index (arena st)
  /\ instances (plan_final cfg old l index st).2 = instances st
  /\ dom (plan_final cfg old l index st).2 = dom st
  /\ next_node (plan_final cfg old l index st).2 = next_node st.
Proof.
  revert index st. induction l as [|d l IH]; intros index st; [done|].
  cbn [plan_final final_from plan_arena].
  destruct (computeKey_spec cfg d (_createItemContext cfg d index) st) as [K HS].
  destruct (_computeKey cfg d (_createItemContext cfg d index) st) as [k st1].
  cbn [fst snd] in K, HS. subst k. destruct HS as (Sa & Si & Sd & Sn).
  destruct (map_get (key_of cfg (_createItemContext cfg d index)) old) as [[i oi]|].
  - set (st2 := set_arena _ st1).
    destruct (IH (S index) st2) as (H1 & H2 & H3 & H4 & H5).
    destruct (plan_final cfg old l (S index) st2) as [rest st3]. cbn [fst snd] in *.
    rewrite H1, H2, H3, H4, H5. unfold st2. cbn. by rewrite Sa.
  - destruct (IH (S index) st1) as (H1 & H2 & H3 & H4 & H5).
    destruct (plan_final cfg old l (S index) st1) as [rest st3]. cbn [fst snd] in *.
    rewrite H1, H2, H3, H4, H5. cbn. by rewrite Sa.
Qed.

Lemma final_from_length cfg old l index : length (final_from cfg old l index) = length l.
Proof. revert index. induction l as [|d l IH]; intros index; [done|]. cbn. by rewrite IH. Qed.

Lemma final_from_lookup cfg old l index t d :
  l !! t = Some d ->
  final_from cfg old l index !! t
  = Some (fst <$> map_get (key_of cfg (_createItemContext cfg d (index + t))) old).
Proof.
  revert index t. induction l as [|d' l IH]; intros index t Ht; [done|].
  destruct t as [|t]; cbn in *.
  - injection Ht as ->. by rewrite Nat.add_0_r.
  - etrans; [exact (IH (S index) t Ht)|]. do 5 f_equal. lia.
Qed.

Lemma item_keys_lookup cfg l index t d :
  l !! t = Some d ->
  item_keys_from cfg l index !! t = Some (key_of cfg (_createItemContext cfg d (index + t))).
Proof.
  revert index t. induction l as [|d' l IH]; intros index t Ht; [done|].
  destruct t as [|t]; cbn in *.
  - injection Ht as ->. by rewrite Nat.add_0_r.
  - etrans; [exact (IH (S index) t Ht)|]. do 3 f_equal. lia.
Qed.

Lemma item_contexts_lookup cfg l index t d :
  l !! t = Some d ->
  item_contexts_from cfg l index !! t = Some (_createItemContext cfg d (index + t)).
Proof.
  revert index t. induction l as [|d' l IH]; intros index t Ht; [done|].
  destruct t as [|t]; cbn in *.
  - injection Ht as ->. by rewrite Nat.add_0_r.
  - etrans; [exact (IH (S index) t Ht)|]. do 2 f_equal. lia.
Qed.

Lemma plan_arena_length cfg old l index a :
  length (plan_arena cfg old l index a) = length a.
Proof.
  revert index a. induction l as [|d l IH]; intros index a; [done|].
  cbn. rewrite IH. destruct (map_get _ old) as [[i oi]|]; [|done].
  by rewrite length_alter.
Qed.

Lemma plan_arena_element cfg old l index a i :
  element <$> plan_arena cfg old l index a !! i = element <$> a !! i.
Proof.
  revert index a. induction l as [|d l IH]; intros index a; [done|].
  cbn. rewrite IH. destruct (map_get _ old) as [[i' oi]|]; [|done].
  destruct (decide (i = i')) as [->|Hne].
  - rewrite list_lookup_alter_eq. by destruct (a !! i').
  - by rewrite list_lookup_alter_ne.
Qed.

Lemma plan_arena_untouched cfg old l index a i :
  (forall t d x, l !! t = Some d ->
     map_get (key_of cfg (_createItemContext cfg d (index + t))) old <> Some (i, x)) ->
  plan_arena cfg old l index a !! i = a !! i.
Proof.
  revert index a. induction l as [|d l IH]; intros index a Hno; [done|].
  cbn. rewrite IH.
  - pose proof (Hno 0 d) as H0. rewrite Nat.add_0_r in H0.
    destruct (map_get _ old) as [[i' oi]|]; [|done].
    rewrite list_lookup_alter_ne; [done|]. intros ->. by apply (H0 oi).
  - intros t d' x Ht. replace (S index + t) with (index + S t) by lia.
    by apply (Hno (S t)).
Qed.

Lemma plan_arena_lookup cfg old l index a t d i x inst :
  l !! t = Some d ->
  map_get (key_of cfg (_createItemContext cfg d (index + t))) old = Some (i, x) ->
  (forall t' d' x', t' <> t -> l !! t' = Some d' ->
     map_get (key_of cfg (_createItemContext cfg d' (index + t'))) old <> Some (i, x')) ->
  a !! i = Some inst ->
  plan_arena cfg old l index a !! i
  = Some (mkInstance (element inst) d (_createItemContext cfg d (index + t))).
Proof.
  revert index a t inst. induction l as [|d0 l IH]; intros index a t inst Ht Hg Hno Ha;
    [done|].
  destruct t as [|t]; cbn in Ht |- *.
  - injection Ht as ->. rewrite Nat.add_0_r in Hg |- *. rewrite Hg.
    rewrite plan_arena_untouched.
    + by rewrite list_lookup_alter_eq, Ha.
    + intros t' d' x' Ht'. replace (S index + t') with (index + S t') by lia.
      by apply (Hno (S t')).
  - replace (index + S t) with (S index + t) in * by lia.
    apply (IH (S index) _ t); try done.
    + intros t' d' x' Hne Ht'. replace (S index + t') with (index + S t') by lia.
      apply (Hno (S t')); [lia|done].
    + pose proof (Hno 0 d0) as H0. rewrite Nat.add_0_r in H0.
      destruct (map_get (key_of cfg (_createItemContext cfg d0 index)) old)
        as [[i' oi]|]; [|done].
      rewrite list_lookup_alter_ne; [done|]. intros ->. by apply (H0 oi).
Qed.

(** ** The three loops of [_applyOperations] *)

Lemma elements_of_handles st (l : list nat) i inst :
  arena st !! i = Some inst ->
  elements_of st (Some <$> i :: l) = element inst :: elements_of st (Some <$> l).
Proof. intros Hi. unfold elements_of. cbn. by rewrite Hi. Qed.

Lemma apply_removes_spec rem st :
  (forall i, i ∈ rem -> is_Some (arena st !! i)) ->
  exists st',
    apply_removes rem st = Returns st'
    /\ arena st' = arena st /\ instances st' = instances st
    /\ next_node st' = next_node st
    /\ dom st' = filter (fun n => n ∉ elements_of st (Some <$> rem)) (dom st).
Proof.
  revert st. induction rem as [|i rem IH]; intros st Hvalid.
  - exists st. split_and!; try done.
    by rewrite filter_all by (intros; apply not_elem_of_nil).
  - destruct (Hvalid i) as [inst Hi]; [set_solver|].
    cbn [apply_removes]. rewrite Hi.
    set (st1 := loop_emit _ _).
    destruct (IH st1) as (st' & Hr & Ha & Hinst & Hn & Hd).
    { intros i' Hi'. change (arena st1) with (arena st). apply Hvalid. set_solver. }
    exists st'. split_and!; try done.
    rewrite Hd. change (dom st1) with (dom_remove (element inst) (dom st)).
    change (elements_of st1 (Some <$> rem)) with (elements_of st (Some <$> rem)).
    by rewrite dom_remove_filter, (elements_of_handles st rem i inst Hi).
Qed.

Lemma set_arena_same st : set_arena (arena st) st = st.
Proof. by destruct st. Qed.

Lemma apply_updates_same ups st :
  (forall op, op ∈ ups ->
     exists inst, arena st !! u_instance op = Some inst /\ icontext inst = newContext op) ->
  apply_updates ups st = Returns st.
Proof.
  induction ups as [|op ups IH]; intros Hall; [done|].
  destruct (Hall op) as (inst & Hi & Hc); [set_solver|].
  cbn [apply_updates]. rewrite Hi, <- Hc.
  replace (mkInstance (element inst) (data inst) (icontext inst)) with inst
    by (by destruct inst).
  rewrite list_insert_id by done. rewrite set_arena_same.
  apply IH. intros op' Hop'. apply Hall. set_solver.
Qed.

Lemma filter_cons_dom_remove (es : list nat) e d :
  filter (fun n => n ∉ e :: es) d = dom_remove e (filter (fun n => n ∉ es) d).
Proof.
  unfold dom_remove. rewrite list_filter_filter. apply list_filter_iff.
  intros x. rewrite not_elem_of_cons. tauto.
Qed.

Lemma dom_remove_inserted e xs q ys :
  e ∉ xs ++ q :: ys -> dom_remove e (xs ++ q :: e :: ys) = xs ++ q :: ys.
Proof.
  intros He. rewrite dom_remove_app, dom_remove_cons_ne, dom_remove_cons_eq by set_solver.
  by rewrite !dom_remove_absent by set_solver.
Qed.

Lemma added_instances_length adds e : length (added_instances adds e) = length adds.
Proof. revert e. induction adds as [|op adds IH]; intros e; [done|]. cbn. by rewrite IH. Qed.

Lemma added_instances_lookup adds e u op :
  adds !! u = Some op ->
  added_instances adds e !! u = Some (mkInstance (e + u) (a_data op) (a_context op)).
Proof.
  revert e u. induction adds as [|op' adds IH]; intros e u Hu; [done|].
  destruct u as [|u]; cbn in Hu |- *.
  - injection Hu as ->. by rewrite Nat.add_0_r.
  - etrans; [exact (IH (S e) u Hu)|]. do 2 f_equal. lia.
Qed.

Lemma increasing_from_ge lo l : increasing_from lo l -> Forall (fun y => lo <= y) l.
Proof.
  revert lo. induction l as [|x l IH]; intros lo; [done|].
  cbn. intros [Hx Hl]. apply Forall_cons. split; [done|].
  apply IH in Hl. eapply Forall_impl; [exact Hl|]. cbn. lia.
Qed.

(** The loop over [toAdd]. The empty places of the final array are the
    places of the entries of [toAdd], which come in the order of their
    places; so the place before the place of an entry is filled when
    the entry is reached, and the clone goes right after the element
    there. *)
Lemma apply_adds_spec cfg adds final st :
  increasing_from 0 (a_index <$> adds) ->
  (forall j, j < length final -> final !! j = Some None <-> j ∈ a_index <$> adds) ->
  (forall op, op ∈ adds -> a_index op < length final) ->
  (forall j p, final !! j = Some (Some p) ->
     exists pinst, arena st !! p = Some pinst /\ element pinst ∈ dom st) ->
  anchor cfg ∈ dom st -> NoDup (dom st) ->
  (forall u, u < length adds -> next_node st + u ∉ dom st) ->
  exists final' st',
    apply_adds cfg adds final st = Returns (final', st')
    /\ length final' = length final
    /\ (forall j p, final !! j = Some (Some p) -> final' !! j = Some (Some p))
    /\ (forall u op, adds !! u = Some op ->
          final' !! a_index op = Some (Some (length (arena st) + u)))
    /\ arena st' = arena st ++ added_instances adds (next_node st)
    /\ instances st' = instances st
    /\ NoDup (dom st')
    /\ filter (fun n => n ∉ seq (next_node st) (length adds)) (dom st') = dom st
    /\ (forall n, n ∈ dom st' <-> n ∈ dom st \/ n ∈ seq (next_node st) (length adds))
    /\ next_node st' = next_node st + length adds.
Proof.
  generalize 0 at 1. intros lo. revert lo final st.
  induction adds as [|op adds IH];
    intros lo final st Hsorted Hnone Hbound Hvalid Hanchor Hnd Hfresh.
  - exists final, st. cbn. rewrite app_nil_r.
    split_and!; try done.
    + by rewrite filter_all by (intros; apply not_elem_of_nil).
    + intros n. set_solver.
  - cbn [fmap list_fmap length] in *.
    destruct Hsorted as [_ Hsorted].
    pose proof (increasing_from_ge _ _ Hsorted) as Hlt.
    set (t := a_index op) in *.
    assert (t < length final) as Ht by (apply Hbound; set_solver).
    assert (t ∉ a_index <$> adds) as Htnot.
    { intros Hin. rewrite Forall_forall in Hlt. apply Hlt in Hin. lia. }
    assert (next_node st ∉ dom st) as He.
    { specialize (Hfresh 0). rewrite Nat.add_0_r in Hfresh. apply Hfresh. lia. }
    set (inst := mkInstance (next_node st) (a_data op) (a_context op)).
    set (st1 := loop_emit (LCreated (length (arena st)) (next_node st))
                  (mkLoop (arena st ++ [inst]) (instances st) (dom st)
                     (S (next_node st)) (cache st) (events st))).
    assert (exists xs q ys,
              dom st = xs ++ q :: ys
              /\ apply_adds cfg (op :: adds) final st
                 = apply_adds cfg adds (<[t := Some (length (arena st))]> final)
                     (set_dom (xs ++ q :: next_node st :: ys) st1))
      as (xs & q & ys & Hdom & ->).
    { cbn [apply_adds _createInstance]. fold inst st1 t.
      assert (forall q, q ∈ dom st ->
                exists xs ys, dom st = xs ++ q :: ys
                  /\ attached q (dom st1) = true
                  /\ insertBefore (next_node st) (nextSibling q (dom st1)) (dom st1)
                     = Some (xs ++ q :: next_node st :: ys)) as Hplace.
      { intros q Hq. apply list_elem_of_split in Hq as (xs & ys & Hq).
        exists xs, ys. change (dom st1) with (dom st). split_and!; [done| |].
        - unfold attached. apply bool_decide_eq_true_2. rewrite Hq. set_solver.
        - rewrite Hq in *. by apply insertBefore_after. }
      destruct t as [|j] eqn:Et.
      - destruct (Hplace (anchor cfg) Hanchor) as (xs & ys & Hq & Hatt & Hins).
        exists xs, (anchor cfg), ys. by rewrite Hatt, Hins.
      - assert (exists p, final !! j = Some (Some p)) as [p Hp].
        { destruct (final !! j) as [[p|]|] eqn:Hj.
          - by exists p.
          - apply Hnone in Hj; [|lia]. apply elem_of_cons in Hj as [Hj|Hj]; [lia|].
            rewrite Forall_forall in Hlt. apply Hlt in Hj. lia.
          - apply lookup_ge_None in Hj. lia. }
        destruct (Hvalid j p Hp) as (pinst & Hpi & Hpe).
        destruct (Hplace (element pinst) Hpe) as (xs & ys & Hq & Hatt & Hins).
        exists xs, (element pinst), ys. rewrite Hp. cbn [mjoin option_join].
        change (arena st1) with (arena st ++ [inst]).
        by rewrite (lookup_app_l_Some _ _ _ _ Hpi), Hatt, Hins. }
    set (st2 := set_dom _ st1).
    assert (dom st2 = xs ++ q :: next_node st :: ys) as Hdom2 by done.
    assert (forall n, n ∈ dom st2 <-> n ∈ dom st \/ n = next_node st) as Hmem2.
    { intros n. rewrite Hdom2, Hdom. set_solver. }
    destruct (IH (S t) (<[t := Some (length (arena st))]> final) st2)
      as (final' & st' & Hr & Hlen & Hkeep & Hnew & Ha & Hi & Hnd' & Hfil & Hmem & Hnn).
    + done.
    + intros j Hj. rewrite length_insert in Hj.
      destruct (decide (j = t)) as [->|Hne].
      * rewrite list_lookup_insert_eq by done. split; [done|]. by intros ?%Htnot.
      * rewrite list_lookup_insert_ne by done. rewrite (Hnone j Hj). set_solver.
    + intros op' Hop'. rewrite length_insert. apply Hbound. set_solver.
    + intros j p Hj. destruct (decide (j = t)) as [->|Hne].
      * rewrite list_lookup_insert_eq in Hj by done. injection Hj as <-.
        exists inst. split.
        -- change (arena st2) with (arena st ++ [inst]).
           by rewrite lookup_app_r, Nat.sub_diag.
        -- apply Hmem2. by right.
      * rewrite list_lookup_insert_ne in Hj by done.
        destruct (Hvalid j p Hj) as (pinst & Hpi & Hpe). exists pinst. split.
        -- change (arena st2) with (arena st ++ [inst]).
           by apply lookup_app_l_Some.
        -- apply Hmem2. by left.
    + apply Hmem2. by left.
    + rewrite Hdom2, (cons_middle q xs), app_assoc, <- Permutation_middle, <- app_assoc.
      cbn [app]. apply NoDup_cons. rewrite <- Hdom. done.
    + intros u Hu. change (next_node st2) with (S (next_node st)).
      rewrite Hmem2. intros [Hin|Heq]; [|lia].
      replace (S (next_node st) + u) with (next_node st + S u) in Hin by lia.
      revert Hin. apply Hfresh. lia.
    + change (next_node st2) with (S (next_node st)) in *.
      change (arena st2) with (arena st ++ [inst]) in *.
      exists final', st'. split_and!.
      * done.
      * by rewrite Hlen, length_insert.
      * intros j p Hj. apply Hkeep. rewrite list_lookup_insert_ne; [done|].
        intros <-. assert (final !! t = Some None) as Hn by (apply Hnone; set_solver).
        congruence.
      * intros u op' Hu. destruct u as [|u]; cbn in Hu.
        -- injection Hu as <-. rewrite Nat.add_0_r. apply Hkeep.
           by apply list_lookup_insert_eq.
        -- rewrite (Hnew u op' Hu). rewrite length_app. cbn. do 2 f_equal. lia.
      * rewrite Ha, <- app_assoc. done.
      * by rewrite Hi.
      * done.
      * cbn [seq]. rewrite filter_cons_dom_remove, Hfil, Hdom2, Hdom.
        apply dom_remove_inserted. by rewrite <- Hdom.
      * intros n. rewrite Hmem, Hmem2. cbn [seq]. set_solver.
      * rewrite Hnn. lia.
Qed.

(** ** Lists *)

Lemma adds_from_lookup cfg l index t d :
  l !! t = Some d ->
  adds_from cfg l index !! t
  = Some (mkAdd (key_of cfg (_createItemContext cfg d (index + t))) d (index + t)
            (_createItemContext cfg d (index + t))).
Proof.
  revert index t. induction l as [|d' l IH]; intros index t Ht; [done|].
  destruct t as [|t]; cbn in Ht |- *.
  - injection Ht as ->. by rewrite Nat.add_0_r.
  - etrans; [exact (IH (S index) t Ht)|].
    by replace (S index + t) with (index + S t) by lia.
Qed.

Lemma adds_from_length cfg l index : length (adds_from cfg l index) = length l.
Proof. revert index. induction l as [|d l IH]; intros index; [done|]. cbn. by rewrite IH. Qed.

Lemma elem_of_adds_from cfg l index op :
  op ∈ adds_from cfg l index ->
  exists t d, l !! t = Some d
    /\ op = mkAdd (key_of cfg (_createItemContext cfg d (index + t))) d (index + t)
              (_createItemContext cfg d (index + t)).
Proof.
  intros [t Ht]%list_elem_of_lookup_1.
  destruct (l !! t) as [d|] eqn:Hd.
  - exists t, d. split; [done|]. rewrite (adds_from_lookup cfg l index t d Hd) in Ht.
    by injection Ht.
  - apply lookup_ge_None in Hd. apply lookup_lt_Some in Ht.
    rewrite adds_from_length in Ht. lia.
Qed.

Lemma increasing_from_le lo lo' l : lo' <= lo -> increasing_from lo l -> increasing_from lo' l.
Proof. destruct l as [|x l]; [done|]. cbn. intros Hle [Hx Hl]. split; [lia|done]. Qed.

Lemma increasing_adds_filter cfg (P : add_op -> Prop) `{!forall op, Decision (P op)} l index :
  increasing_from index (a_index <$> filter P (adds_from cfg l index)).
Proof.
  revert index. induction l as [|d l IH]; intros index; [done|].
  cbn [adds_from]. rewrite filter_cons. case_decide.
  - cbn. split; [done|]. apply IH.
  - apply (increasing_from_le (S index)); [lia|]. apply IH.
Qed.

Lemma NoDup_fmap_inj {A B} (f : A -> B) (l : list A) x y :
  NoDup (f <$> l) -> x ∈ l -> y ∈ l -> f x = f y -> x = y.
Proof.
  intros Hnd [i Hi]%list_elem_of_lookup_1 [j Hj]%list_elem_of_lookup_1 Hf.
  assert (i = j) as ->.
  { apply (NoDup_lookup (f <$> l) i j (f x) Hnd).
    - by rewrite list_lookup_fmap, Hi.
    - by rewrite list_lookup_fmap, Hj, Hf. }
  congruence.
Qed.

Lemma filter_iff_on {A} (P Q : A -> Prop) `{!forall x, Decision (P x)}
    `{!forall x, Decision (Q x)} (l : list A) :
  (forall x, x ∈ l -> P x <-> Q x) -> filter P l = filter Q l.
Proof.
  induction l as [|x l IH]; intros HPQ; [done|].
  rewrite !filter_cons. rewrite IH by (intros y Hy; apply HPQ; set_solver).
  destruct (decide (P x)) as [HP|HP], (decide (Q x)) as [HQ|HQ]; try done.
  - destruct HQ. apply HPQ; [set_solver|done].
  - destruct HP. apply HPQ; [set_solver|done].
Qed.

Lemma split_at_unique {A} (a : A) xs ys xs' ys' :
  xs ++ a :: ys = xs' ++ a :: ys' -> a ∉ xs -> a ∉ xs' -> xs = xs' /\ ys = ys'.
Proof.
  revert xs'. induction xs as [|x xs IH]; intros [|x' xs'] Heq Ha Ha'; cbn in Heq.
  - by injection Heq.
  - injection Heq as -> _. set_solver.
  - injection Heq as -> _. set_solver.
  - injection Heq as -> Heq. apply not_elem_of_cons in Ha as [_ Ha].
    apply not_elem_of_cons in Ha' as [_ Ha'].
    destruct (IH xs' Heq Ha Ha') as [-> ->]. done.
Qed.

(** A list can be made of what is given for each place of a list. *)
Lemma list_exists_pointwise {A B} (P : nat -> A -> B -> Prop) (l : list A) :
  (forall j a, l !! j = Some a -> exists b, P j a b) ->
  exists l' : list B,
    length l' = length l
    /\ forall j a b, l !! j = Some a -> l' !! j = Some b -> P j a b.
Proof.
  revert P. induction l as [|a l IH]; intros P HP.
  - exists []. split; [done|]. by intros j a b ?.
  - destruct (HP 0 a) as [b Hb]; [done|].
    destruct (IH (fun j => P (S j))) as (l' & Hlen & Hl').
    { intros j a' Hj. by apply (HP (S j)). }
    exists (b :: l'). split; [cbn; by rewrite Hlen|].
    intros [|j] a' b' Ha' Hb'; cbn in Ha', Hb'.
    + by injection Ha' as <-; injection Hb' as <-.
    + by apply Hl'.
Qed.

Lemma elements_of_renders st (rend : list (nat * instance)) :
  Forall (fun p => arena st !! p.1 = Some p.2) rend ->
  elements_of st ((fun p => Some p.1) <$> rend) = rendered_elements rend.
Proof.
  induction rend as [|[i inst] rend IH]; intros Hall; [done|].
  apply Forall_cons in Hall as [Hi Hall]. cbn in Hi.
  unfold elements_of, rendered_elements in *. cbn. rewrite Hi. cbn.
  f_equal. by apply IH.
Qed.

Lemma elem_of_elements_handles st (l : list nat) x :
  x ∈ elements_of st (Some <$> l)
  <-> exists i inst, i ∈ l /\ arena st !! i = Some inst /\ element inst = x.
Proof.
  unfold elements_of. rewrite list_elem_of_omap. split.
  - intros (o & [i [-> Hi]]%list_elem_of_fmap & Hx). cbn in Hx.
    destruct (arena st !! i) as [inst|] eqn:Ha; [|done]. injection Hx as <-.
    by exists i, inst.
  - intros (i & inst & Hi & Ha & <-). exists (Some i). split.
    + apply list_elem_of_fmap. by exists i.
    + cbn. by rewrite Ha.
Qed.

Lemma item_contexts_length cfg l index : length (item_contexts_from cfg l index) = length l.
Proof. revert index. induction l as [|d l IH]; intros index; [done|]. cbn. by rewrite IH. Qed.

Lemma item_keys_length cfg l index : length (item_keys_from cfg l index) = length l.
Proof. revert index. induction l as [|d l IH]; intros index; [done|]. cbn. by rewrite IH. Qed.

(** ** The reconciliation *)

(** The reconciliation, with all that the theorems below need of it:
    what the list holds afterwards, where the elements are, and that
    the tree and the counter of the new nodes stay as they must. *)
Lemma reconcile_keyed_all (cfg : loop_config) (l : list value)
    (rend : list (nat * instance)) (st : loop_state) (pre post : list nat) :
  renders st rend ->
  NoDup (instance_keys cfg rend) ->
  NoDup (rendered_elements rend) ->
  (forall e, e ∈ rendered_elements rend -> e ∈ dom st) ->
  anchor cfg ∉ rendered_elements rend ->
  dom st = pre ++ anchor cfg :: post ->
  NoDup (dom st) ->
  (forall t, t < length l -> next_node st + t ∉ dom st) ->
  NoDup (item_keys cfg l) ->
  exists st' rend',
    _reconcile cfg l st = Returns st'
    /\ renders st' rend'
    /\ (fun p => data p.2) <$> rend' = l
    /\ (fun p => icontext p.2) <$> rend' = item_contexts_from cfg l 0
    /\ (forall p p', p ∈ rend -> p' ∈ rend' ->
          key_of cfg (icontext p.2) = key_of cfg (icontext p'.2) ->
          p'.1 = p.1 /\ element p'.2 = element p.2)
    /\ (forall p', p' ∈ rend' -> key_of cfg (icontext p'.2) ∉ instance_keys cfg rend ->
          length (arena st) <= p'.1 /\ element p'.2 ∉ dom st)
    /\ NoDup (rendered_elements rend')
    /\ dom st' = filter (fun n => n ∉ rendered_elements rend) pre
                 ++ anchor cfg :: rendered_elements rend'
                 ++ filter (fun n => n ∉ rendered_elements rend) post
    /\ (anchor cfg ∉ rendered_elements rend')
    /\ NoDup (dom st')
    /\ next_node st <= next_node st'
    /\ (forall n, n ∈ dom st' -> n ∈ dom st \/ next_node st <= n < next_node st').
Proof.
  intros [Hinst Hvalid] Hok Hoe Hoin Hoa Hdom Hnd Hfresh Hnk.
  set (old := old_entries_from cfg rend 0).
  set (adds := adds_from cfg l 0).
  (* the items *)
  assert (forall t d, l !! t = Some d ->
            final_from cfg old l 0 !! t
            = Some (fst <$> map_get (key_of cfg (_createItemContext cfg d t)) old))
    as Hfinal by (intros t d H; exact (final_from_lookup cfg old l 0 t d H)).
  assert (forall t d, l !! t = Some d ->
            item_keys cfg l !! t = Some (key_of cfg (_createItemContext cfg d t)))
    as Hkeyl by (intros t d H; exact (item_keys_lookup cfg l 0 t d H)).
  assert (forall t d, l !! t = Some d ->
            adds !! t = Some (mkAdd (key_of cfg (_createItemContext cfg d t)) d t
                                (_createItemContext cfg d t)))
    as Hadds by (intros t d H; exact (adds_from_lookup cfg l 0 t d H)).
  assert (forall op, op ∈ adds ->
            exists t d, l !! t = Some d
              /\ op = mkAdd (key_of cfg (_createItemContext cfg d t)) d t
                        (_createItemContext cfg d t))
    as Hadds_elem by (intros op H; exact (elem_of_adds_from cfg l 0 op H)).
  assert (keys_of (entry_of <$> adds) = item_keys cfg l) as Hnewkeys.
  { unfold keys_of, item_keys. rewrite <- list_fmap_compose. apply item_keys_adds. }
  (* the instances *)
  assert (NoDup (keys_of old)) as Hokeys by (unfold old; by rewrite keys_old_entries).
  assert (keys_of old = instance_keys cfg rend) as Holdkeys by apply keys_old_entries.
  assert (forall i inst, (i, inst) ∈ rend -> arena st !! i = Some inst) as Hrend.
  { intros i inst Hin. rewrite Forall_forall in Hvalid. by apply (Hvalid (i, inst)). }
  assert (forall k i j, (k, (i, j)) ∈ old ->
            exists inst, (i, inst) ∈ rend /\ k = key_of cfg (icontext inst)) as Hold.
  { intros k i j. apply elem_of_old_entries. }
  assert (forall t t' d d' i x x',
            l !! t = Some d -> l !! t' = Some d' ->
            map_get (key_of cfg (_createItemContext cfg d t)) old = Some (i, x) ->
            map_get (key_of cfg (_createItemContext cfg d' t')) old = Some (i, x') ->
            t = t') as Hinj.
  { intros t t' d d' i x x' Ht Ht' Hg Hg'.
    apply map_get_Some_elem, Hold in Hg as (inst & Hin & Hk).
    apply map_get_Some_elem, Hold in Hg' as (inst' & Hin' & Hk').
    apply Hrend in Hin, Hin'. assert (inst = inst') as <- by congruence.
    apply (NoDup_lookup (item_keys cfg l) t t' (key_of cfg (icontext inst)) Hnk).
    - rewrite (Hkeyl t d Ht). by rewrite Hk.
    - rewrite (Hkeyl t' d' Ht'). by rewrite Hk'. }
  (* the key maps *)
  unfold _reconcile, _buildKeyMap. rewrite Hinst.
  destruct (buildKeyMap_from_spec cfg rend 0 [] st Hvalid Hok) as (st1 & -> & S1).
  cbn [app]. fold old. unfold _buildDataKeyMap.
  destruct (buildDataKeyMap_from_fresh cfg l 0 [] st1 Hnk) as [M2 S2].
  destruct (_buildDataKeyMap_from cfg l 0 [] st1) as [new st2].
  cbn [fst snd app] in M2, S2. subst new. fold adds.
  (* the plan *)
  unfold _planOperations. rewrite toAdd_filter.
  destruct (plan_final_spec cfg old l 0 st2) as (F3 & A3 & I3 & D3 & N3).
  destruct (plan_final cfg old l 0 st2) as [final0 st3]. cbn [fst snd] in F3, A3, I3, D3, N3.
  subst final0.
  destruct S1 as (Sa1 & Si1 & Sd1 & Sn1). destruct S2 as (Sa2 & Si2 & Sd2 & Sn2).
  rewrite Sa2, Sa1 in A3. rewrite Sd2, Sd1 in D3. rewrite Sn2, Sn1 in N3.
  match goal with
  | |- context [mkOperations ?r ?u ?a _] => set (rem := r); set (ups := u); set (toadd := a)
  end.
  assert (forall t d p oi,
            l !! t = Some d ->
            map_get (key_of cfg (_createItemContext cfg d t)) old = Some (p, oi) ->
            exists inst0,
              (p, inst0) ∈ rend
              /\ key_of cfg (icontext inst0) = key_of cfg (_createItemContext cfg d t)
              /\ arena st3 !! p
                 = Some (mkInstance (element inst0) d (_createItemContext cfg d t)))
    as Hreuse.
  { intros t d p oi Ht Hg.
    pose proof Hg as (inst0 & Hin & Hk)%map_get_Some_elem%Hold.
    exists inst0. split_and!; [done..|]. rewrite A3.
    apply (plan_arena_lookup cfg old l 0 (arena st) t d p oi inst0 Ht Hg).
    - intros t' d' x' Hne Ht' Hg'. apply Hne. by apply (Hinj t' t d' d p x' oi).
    - by apply Hrend. }
  assert (forall i inst, (i, inst) ∈ rend ->
            exists inst3, arena st3 !! i = Some inst3 /\ element inst3 = element inst)
    as Hkept.
  { intros i inst Hin%Hrend.
    pose proof (plan_arena_element cfg old l 0 (arena st) i) as He.
    rewrite <- A3, Hin in He. destruct (arena st3 !! i) as [inst3|]; [|done].
    injection He as He. by exists inst3. }
  (* the removals *)
  unfold _applyOperations. cbn [toRemove toUpdate toAdd finalInstances].
  destruct (apply_removes_spec rem st3) as (st4 & -> & A4 & I4 & N4 & D4).
  { intros i (k & j & Hin & _)%toRemove_elem.
    apply Hold in Hin as (inst & Hin & _).
    destruct (Hkept i inst Hin) as (inst3 & -> & _). by eexists. }
  set (removed := elements_of st3 (Some <$> rem)) in *.
  assert (forall x, x ∈ removed <->
            exists i inst, (i, inst) ∈ rend /\ element inst = x
              /\ key_of cfg (icontext inst) ∉ item_keys cfg l) as Hremoved.
  { intros x. unfold removed. rewrite elem_of_elements_handles. split.
    - intros (i & inst3 & (k & j & Hin & Hk)%toRemove_elem & Ha & <-).
      apply Hold in Hin as (inst & Hin & ->). exists i, inst.
      destruct (Hkept i inst Hin) as (inst3' & Ha' & He).
      rewrite Hnewkeys in Hk. split_and!; [done| |done]. congruence.
    - intros (i & inst & Hin & <- & Hk).
      destruct (Hkept i inst Hin) as (inst3 & Ha & He). exists i, inst3.
      split_and!; [|done..].
      destruct (old_entries_elem cfg rend 0 i inst Hin) as [j Hj].
      apply toRemove_elem. exists (key_of cfg (icontext inst)), j.
      split; [done|]. by rewrite Hnewkeys. }
  (* the updates *)
  rewrite apply_updates_same.
  2: { intros op (Hin & Hg)%toUpdate_elem.
       pose proof Hg as Hnew%map_get_Some_elem.
       apply list_elem_of_fmap in Hnew as (op' & Heq & Hop').
       apply Hadds_elem in Hop' as (t & d & Ht & ->). cbn in Heq.
       injection Heq as Hk Hd Hi Hc.
       destruct (Hreuse t d (u_instance op) (oldIndex op) Ht) as (inst0 & _ & _ & Ha).
       { rewrite <- Hk. by apply map_get_elem. }
       rewrite A4, Ha. eexists. split; [done|]. by rewrite Hc. }
  (* the additions *)
  assert (forall op, op ∈ toadd <-> op ∈ adds /\ a_key op ∉ keys_of old) as Htoadd.
  { intros op. unfold toadd. rewrite list_elem_of_filter. tauto. }
  assert (length toadd <= length l) as Hlen_toadd.
  { unfold toadd. etrans; [apply length_filter|]. unfold adds.
    by rewrite adds_from_length. }
  destruct (apply_adds_spec cfg toadd (final_from cfg old l 0) st4)
    as (final' & st5 & -> & Hlen & Hkeep & Hnew & A5 & I5 & Hnd5 & Hfil5 & Hmem5 & N5).
  { apply increasing_adds_filter. }
  { intros j Hj. rewrite final_from_length in Hj.
    destruct (lookup_lt_is_Some_2 l j Hj) as [d Hd]. rewrite (Hfinal j d Hd).
    split.
    - intros Hn. apply list_elem_of_fmap.
      exists (mkAdd (key_of cfg (_createItemContext cfg d j)) d j
                (_createItemContext cfg d j)).
      split; [done|]. apply Htoadd. split.
      + by apply list_elem_of_lookup_2 with j, Hadds.
      + cbn. intros [v Hv]%map_get_is_Some. rewrite Hv in Hn. done.
    - intros (op & Hj' & (Hop & Hk)%Htoadd)%list_elem_of_fmap.
      apply Hadds_elem in Hop as (t & d' & Ht & ->). cbn in Hj', Hk. subst t.
      assert (d' = d) as -> by congruence.
      by rewrite map_get_None. }
  { intros op (Hop & _)%Htoadd. apply Hadds_elem in Hop as (t & d & Ht & ->). cbn.
    rewrite final_from_length. by apply lookup_lt_Some in Ht. }
  { intros j p Hj.
    assert (j < length l) as Hlt.
    { apply lookup_lt_Some in Hj. by rewrite final_from_length in Hj. }
    destruct (lookup_lt_is_Some_2 l j Hlt) as [d Hd]. rewrite (Hfinal j d Hd) in Hj.
    destruct (map_get (key_of cfg (_createItemContext cfg d j)) old) as [[p' oi]|] eqn:Hg;
      [|done].
    cbn in Hj. injection Hj as ->.
    destruct (Hreuse j d p oi Hd Hg) as (inst0 & Hin & Hk & Ha).
    eexists. rewrite A4. split; [exact Ha|]. cbn [element].
    rewrite D4, D3. apply list_elem_of_filter. split.
    - intros (i' & inst' & Hin' & He' & Hk')%Hremoved.
      assert ((i', inst') = (p, inst0)) as Heq.
      { by apply (NoDup_fmap_inj (fun p => element p.2) rend _ _ Hoe). }
      injection Heq as -> ->. apply Hk'. rewrite Hk.
      by apply list_elem_of_lookup_2 with j, Hkeyl.
    - apply Hoin. unfold rendered_elements. apply list_elem_of_fmap.
      by exists (p, inst0). }
  { rewrite D4, D3. apply list_elem_of_filter. split.
    - intros (i & inst & Hin & He & _)%Hremoved. apply Hoa.
      unfold rendered_elements. apply list_elem_of_fmap. by exists (i, inst).
    - rewrite Hdom. set_solver. }
  { rewrite D4. by apply NoDup_filter; rewrite D3. }
  { intros u Hu. rewrite N4, N3, D4, D3. intros [_ Hin]%list_elem_of_filter.
    revert Hin. apply Hfresh. lia. }
  rewrite final_from_length in Hlen. rewrite N4, N3 in *. rewrite A4 in A5.
  assert (length (arena st4) = length (arena st)) as Hlen4.
  { by rewrite A4, A3, plan_arena_length. }
  rewrite Hlen4 in Hnew.
  assert (length (arena st3) = length (arena st)) as Hlen3.
  { by rewrite A3, plan_arena_length. }
  (* the instances of the items *)
  destruct (list_exists_pointwise
              (fun t d (b : nat * instance) =>
                 final' !! t = Some (Some b.1)
                 /\ arena st5 !! b.1 = Some b.2
                 /\ data b.2 = d
                 /\ icontext b.2 = _createItemContext cfg d t
                 /\ ((exists inst0,
                        (b.1, inst0) ∈ rend
                        /\ key_of cfg (icontext inst0)
                           = key_of cfg (_createItemContext cfg d t)
                        /\ element b.2 = element inst0)
                     \/ ((key_of cfg (_createItemContext cfg d t) ∉ instance_keys cfg rend)
                         /\ exists u,
                              toadd !! u
                              = Some (mkAdd (key_of cfg (_createItemContext cfg d t)) d t
                                        (_createItemContext cfg d t))
                              /\ b.1 = length (arena st) + u
                              /\ element b.2 = next_node st + u))) l)
    as (rend' & Hlen' & Hrend').
  { intros t d Ht.
    destruct (map_get (key_of cfg (_createItemContext cfg d t)) old) as [[p oi]|] eqn:Hg.
    - destruct (Hreuse t d p oi Ht Hg) as (inst0 & Hin & Hk & Ha).
      exists (p, mkInstance (element inst0) d (_createItemContext cfg d t)).
      cbn [fst snd data icontext element]. split_and!; [| |done|done|].
      + apply Hkeep. by rewrite (Hfinal t d Ht), Hg.
      + rewrite A5. by apply lookup_app_l_Some.
      + left. by exists inst0.
    - assert (key_of cfg (_createItemContext cfg d t) ∉ keys_of old) as Hk.
      { intros [v Hv]%map_get_is_Some. congruence. }
      assert (mkAdd (key_of cfg (_createItemContext cfg d t)) d t
                (_createItemContext cfg d t) ∈ toadd) as [u Hu]%list_elem_of_lookup_1.
      { apply Htoadd. split; [|done]. by apply list_elem_of_lookup_2 with t, Hadds. }
      exists (length (arena st) + u,
              mkInstance (next_node st + u) d (_createItemContext cfg d t)).
      cbn [fst snd data icontext element]. split_and!; [| |done|done|].
      + apply (Hnew u _ Hu).
      + rewrite A5, lookup_app_r by lia.
        replace (length (arena st) + u - length (arena st3)) with u by lia.
        cbn [fst snd].
        by rewrite (added_instances_lookup toadd (next_node st) u _ Hu).
      + right. split; [by rewrite <- Holdkeys|]. by exists u. }
  assert (forall t b, rend' !! t = Some b -> exists d, l !! t = Some d) as Hitem.
  { intros t b Hb. apply lookup_lt_is_Some_2. apply lookup_lt_Some in Hb. lia. }
  assert (final' = (fun p => Some p.1) <$> rend') as Hfinal'.
  { apply list_eq. intros t. rewrite list_lookup_fmap.
    destruct (rend' !! t) as [b|] eqn:Hb.
    - destruct (Hitem t b Hb) as [d Hd].
      by destruct (Hrend' t d b Hd Hb) as (-> & _).
    - apply lookup_ge_None in Hb. apply lookup_ge_None. lia. }
  assert (Forall (fun p => arena st5 !! p.1 = Some p.2) rend') as Hvalid'.
  { apply Forall_lookup. intros t b Hb. destruct (Hitem t b Hb) as [d Hd].
    by destruct (Hrend' t d b Hd Hb) as (_ & ? & _). }
  assert (forall t d b, l !! t = Some d -> rend' !! t = Some b ->
            element b.2 ∈ dom st ->
            exists inst0, (b.1, inst0) ∈ rend
              /\ key_of cfg (icontext inst0) = key_of cfg (_createItemContext cfg d t)
              /\ element b.2 = element inst0) as Hattached.
  { intros t d b Hd Hb Hin.
    destruct (Hrend' t d b Hd Hb) as (_ & _ & _ & _ & [H|(_ & u & Hu & _ & He)]); [done|].
    rewrite He in Hin. apply lookup_lt_Some in Hu. exfalso. revert Hin.
    apply Hfresh. lia. }
  assert (NoDup (rendered_elements rend')) as Hnd'.
  { apply NoDup_alt. intros t1 t2 x. unfold rendered_elements.
    rewrite !list_lookup_fmap.
    destruct (rend' !! t1) as [b1|] eqn:Hb1; [|done].
    destruct (rend' !! t2) as [b2|] eqn:Hb2; [|done].
    cbn. intros [= He1] [= He2].
    destruct (Hitem t1 b1 Hb1) as [d1 Hd1]. destruct (Hitem t2 b2 Hb2) as [d2 Hd2].
    destruct (Hrend' t1 d1 b1 Hd1 Hb1) as (_ & _ & _ & _ & [H1|H1]).
    - destruct H1 as (inst1 & Hin1 & Hk1 & Hel1).
      destruct (Hattached t2 d2 b2 Hd2 Hb2) as (inst2 & Hin2 & Hk2 & Hel2).
      { rewrite He2, <- He1, Hel1. apply Hoin. unfold rendered_elements.
        apply list_elem_of_fmap. by exists (b1.1, inst1). }
      assert ((b1.1, inst1) = (b2.1, inst2)) as Heq.
      { apply (NoDup_fmap_inj (fun p => element p.2) rend _ _ Hoe); [done..|].
        cbn. congruence. }
      injection Heq as _ <-.
      apply (NoDup_lookup (item_keys cfg l) t1 t2 (key_of cfg (icontext inst1)) Hnk).
      + by rewrite (Hkeyl t1 d1 Hd1), Hk1.
      + by rewrite (Hkeyl t2 d2 Hd2), Hk2.
    - destruct H1 as (_ & u1 & Hu1 & _ & Hel1).
      destruct (Hrend' t2 d2 b2 Hd2 Hb2) as (_ & _ & _ & _ & [H2|H2]).
      + destruct H2 as (inst2 & Hin2 & _ & Hel2). exfalso.
        apply (Hfresh u1); [apply lookup_lt_Some in Hu1; lia|].
        rewrite <- Hel1, He1, <- He2, Hel2. apply Hoin. unfold rendered_elements.
        apply list_elem_of_fmap. by exists (b2.1, inst2).
      + destruct H2 as (_ & u2 & Hu2 & _ & Hel2).
        assert (u1 = u2) as -> by lia. rewrite Hu1 in Hu2. by injection Hu2. }
  assert (anchor cfg ∉ rendered_elements rend') as Hanchor'.
  { intros (b & He & [t Hb]%list_elem_of_lookup_1)%list_elem_of_fmap.
    destruct (Hitem t b Hb) as [d Hd].
    destruct (Hattached t d b Hd Hb) as (inst0 & Hin & _ & Hel).
    { rewrite <- He, Hdom. set_solver. }
    apply Hoa. unfold rendered_elements. apply list_elem_of_fmap.
    exists (b.1, inst0). split; [cbn; congruence|done]. }
  (* the order *)
  assert (anchor cfg ∈ dom st5) as (pre5 & post5 & Hdom5)%list_elem_of_split.
  { apply Hmem5. left. rewrite D4, D3. apply list_elem_of_filter. split.
    - intros (i & inst & Hin & He & _)%Hremoved. apply Hoa.
      unfold rendered_elements. apply list_elem_of_fmap. by exists (i, inst).
    - rewrite Hdom. set_solver. }
  assert (elements_of st5 final' = rendered_elements rend') as Hels.
  { rewrite Hfinal'. by apply elements_of_renders. }
  rewrite (reorderDOM_sorts cfg final' st5 pre5 post5 Hdom5 Hnd5).
  2: { intros i Hi. rewrite Hfinal' in Hi.
       apply list_elem_of_fmap in Hi as [b [[= ->] Hb]]. rewrite Forall_forall in Hvalid'.
       rewrite (Hvalid' b Hb). by eexists. }
  2: { by rewrite Hels. }
  2: { by rewrite Hels. }
  rewrite Hels.
  (* the children *)
  assert (forall u, u < length toadd -> next_node st + u ∈ rendered_elements rend')
    as Hnews.
  { intros u Hu. destruct (lookup_lt_is_Some_2 toadd u Hu) as [op Hop].
    pose proof (list_elem_of_lookup_2 _ _ _ Hop) as (Hin & _)%Htoadd.
    apply Hadds_elem in Hin as (t & d & Hd & ->).
    destruct (lookup_lt_is_Some_2 rend' t) as [b Hb].
    { apply lookup_lt_Some in Hd. lia. }
    destruct (Hrend' t d b Hd Hb) as (Hf & Ha & _).
    pose proof (Hnew u _ Hop) as Hf'. cbn in Hf'. rewrite Hf in Hf'.
    injection Hf' as Hb1. rewrite Hb1, A5, lookup_app_r in Ha by lia.
    cbn [fst snd] in Ha.
    replace (length (arena st) + u - length (arena st3)) with u in Ha by lia.
    rewrite (added_instances_lookup toadd (next_node st) u _ Hop) in Ha.
    injection Ha as Ha. unfold rendered_elements. apply list_elem_of_fmap.
    exists b. split; [by rewrite <- Ha|by apply list_elem_of_lookup_2 with t]. }
  assert (forall x, x ∈ dom st ->
            ((x ∉ rendered_elements rend') /\ (x ∉ removed)) <-> x ∉ rendered_elements rend)
    as Hsets.
  { intros x Hx. split.
    - intros [Hx1 Hx2] (p & He & Hp)%list_elem_of_fmap. destruct p as [i inst].
      destruct (decide (key_of cfg (icontext inst) ∈ item_keys cfg l)) as [Hk|Hk].
      + apply list_elem_of_lookup_1 in Hk as [t Ht].
        destruct (lookup_lt_is_Some_2 l t) as [d Hd].
        { apply lookup_lt_Some in Ht. unfold item_keys in Ht.
          by rewrite item_keys_length in Ht. }
        rewrite (Hkeyl t d Hd) in Ht. injection Ht as Ht.
        destruct (lookup_lt_is_Some_2 rend' t) as [b Hb].
        { apply lookup_lt_Some in Hd. lia. }
        destruct (Hrend' t d b Hd Hb) as (_ & _ & _ & _ & [H|H]).
        * destruct H as (inst0 & Hin0 & Hk0 & Hel).
          assert ((i, inst) = (b.1, inst0)) as Heq.
          { apply (NoDup_fmap_inj (fun p => key_of cfg (icontext p.2)) rend _ _ Hok);
              [done..|]. cbn. congruence. }
          injection Heq as _ <-. apply Hx1. unfold rendered_elements.
          apply list_elem_of_fmap. exists b. split; [cbn in He; congruence|].
          by apply list_elem_of_lookup_2 with t.
        * destruct H as (Hno & _). apply Hno. rewrite Ht.
          unfold instance_keys. apply list_elem_of_fmap. by exists (i, inst).
      + apply Hx2. apply Hremoved. by exists i, inst.
    - intros Hx'. split.
      + intros (b & He & [t Hb]%list_elem_of_lookup_1)%list_elem_of_fmap.
        destruct (Hitem t b Hb) as [d Hd].
        destruct (Hattached t d b Hd Hb) as (inst0 & Hin & _ & Hel); [by rewrite <- He|].
        apply Hx'. unfold rendered_elements. apply list_elem_of_fmap.
        exists (b.1, inst0). split; [cbn; congruence|done].
      + intros (i & inst & Hin & He & _)%Hremoved. apply Hx'.
        unfold rendered_elements. apply list_elem_of_fmap. by exists (i, inst). }
  assert (filter (fun n => n ∉ seq (next_node st) (length toadd)) pre5
          = filter (fun n => n ∉ removed) pre
          /\ filter (fun n => n ∉ seq (next_node st) (length toadd)) post5
             = filter (fun n => n ∉ removed) post) as [Hpre Hpost].
  { rewrite Hdom5, D4, D3, Hdom, !filter_app, !filter_cons in Hfil5.
    assert (anchor cfg ∈ dom st) as Hain by (rewrite Hdom; set_solver).
    rewrite decide_True in Hfil5.
    2: { intros [Hge Hlt]%elem_of_seq.
         apply (Hfresh (anchor cfg - next_node st)); [lia|].
         by replace (next_node st + (anchor cfg - next_node st)) with (anchor cfg)
           by lia. }
    rewrite decide_True in Hfil5.
    2: { intros (i & inst & Hin & He & _)%Hremoved. apply Hoa.
         unfold rendered_elements. apply list_elem_of_fmap. by exists (i, inst). }
    apply split_at_unique in Hfil5; [done| |].
    - intros [_ Hin]%list_elem_of_filter. rewrite Hdom5 in Hnd5.
      apply NoDup_app in Hnd5 as (_ & Hx & _). apply (Hx _ Hin). set_solver.
    - intros [_ Hin]%list_elem_of_filter. rewrite Hdom in Hnd.
      apply NoDup_app in Hnd as (_ & Hx & _). apply (Hx _ Hin). set_solver. }
  assert (forall d5 d0 : list nat,
            filter (fun n => n ∉ seq (next_node st) (length toadd)) d5
            = filter (fun n => n ∉ removed) d0 ->
            (forall x, x ∈ d0 -> x ∈ dom st) ->
            filter (fun n => n ∉ rendered_elements rend') d5
            = filter (fun n => n ∉ rendered_elements rend) d0) as Hside.
  { intros d5 d0 Heq Hsub.
    rewrite <- (list_filter_filter_l (fun n => n ∉ rendered_elements rend')
                  (fun n => n ∉ seq (next_node st) (length toadd)) d5).
    2: { intros x Hx [Hge Hlt]%elem_of_seq. apply Hx.
         replace x with (next_node st + (x - next_node st)) by lia.
         apply Hnews. lia. }
    rewrite Heq, list_filter_filter. apply filter_iff_on.
    intros x Hx. by apply Hsets, Hsub. }
  rewrite (Hside pre5 pre Hpre), (Hside post5 post Hpost).
  2, 3: intros x Hx; rewrite Hdom; set_solver.
  assert (forall x, x ∈ rendered_elements rend' ->
            x ∈ rendered_elements rend \/ next_node st <= x < next_node st5) as Hes'.
  { intros x (b & -> & [t Hb]%list_elem_of_lookup_1)%list_elem_of_fmap.
    destruct (Hitem t b Hb) as [d Hd].
    destruct (Hrend' t d b Hd Hb) as (_ & _ & _ & _ & [H|H]).
    - destruct H as (inst0 & Hin & _ & Hel). left. rewrite Hel.
      unfold rendered_elements. apply list_elem_of_fmap. by exists (b.1, inst0).
    - destruct H as (_ & u & Hu & _ & Hel). right. rewrite Hel, N5.
      apply lookup_lt_Some in Hu. lia. }
  assert (forall x, x ∈ rendered_elements rend' -> x ∈ dom st ->
            x ∈ rendered_elements rend) as Hes_old.
  { intros x Hx Hin. destruct (decide (x ∈ rendered_elements rend)) as [|Hno]; [done|].
    apply (Hsets x Hin) in Hno as [Hno _]. done. }
  eexists _, rend'. split; [reflexivity|].
  cbn [instances arena dom next_node set_instances set_dom].
  split_and!.
  - by split.
  - apply list_eq. intros t. rewrite list_lookup_fmap.
    destruct (rend' !! t) as [b|] eqn:Hb.
    + destruct (Hitem t b Hb) as [d Hd].
      destruct (Hrend' t d b Hd Hb) as (_ & _ & Hdata & _). cbn. by rewrite Hdata.
    + apply lookup_ge_None in Hb. symmetry. apply lookup_ge_None. lia.
  - apply list_eq. intros t. rewrite list_lookup_fmap.
    destruct (rend' !! t) as [b|] eqn:Hb.
    + destruct (Hitem t b Hb) as [d Hd].
      destruct (Hrend' t d b Hd Hb) as (_ & _ & _ & Hctx & _). cbn.
      rewrite Hctx. symmetry. exact (item_contexts_lookup cfg l 0 t d Hd).
    + apply lookup_ge_None in Hb. symmetry. apply lookup_ge_None.
      rewrite item_contexts_length. lia.
  - intros p b Hp [t Hb]%list_elem_of_lookup_1 Hk.
    destruct (Hitem t b Hb) as [d Hd].
    destruct (Hrend' t d b Hd Hb) as (_ & _ & _ & Hctx & [H|H]).
    + destruct H as (inst0 & Hin & Hk0 & Hel).
      assert (p = (b.1, inst0)) as ->.
      { apply (NoDup_fmap_inj (fun p => key_of cfg (icontext p.2)) rend _ _ Hok);
          [done..|]. cbn. rewrite Hk, Hctx. done. }
      done.
    + destruct H as (Hno & _). destruct Hno. rewrite <- Hctx, <- Hk.
      unfold instance_keys. apply list_elem_of_fmap. by exists p.
  - intros b [t Hb]%list_elem_of_lookup_1 Hk.
    destruct (Hitem t b Hb) as [d Hd].
    destruct (Hrend' t d b Hd Hb) as (_ & _ & _ & Hctx & [H|H]).
    + destruct H as (inst0 & Hin & Hk0 & Hel). destruct Hk. rewrite Hctx, <- Hk0.
      unfold instance_keys. apply list_elem_of_fmap. by exists (b.1, inst0).
    + destruct H as (_ & u & Hu & -> & ->). split; [lia|].
      apply Hfresh. apply lookup_lt_Some in Hu. lia.
  - done.
  - done.
  - done.
  - rewrite Hdom in Hnd.
    apply NoDup_app in Hnd as (Hnpre & Hdisj & [Hapost Hnpost]%NoDup_cons).
    assert (forall x, x ∈ pre -> x ∈ dom st) as Hpre_in by (rewrite Hdom; set_solver).
    assert (forall x, x ∈ post -> x ∈ dom st) as Hpost_in by (rewrite Hdom; set_solver).
    apply NoDup_app. split_and!.
    + by apply NoDup_filter.
    + intros x [Hxold Hxpre]%list_elem_of_filter Hin.
      apply elem_of_cons in Hin as [->|Hin]; [apply (Hdisj _ Hxpre); set_solver|].
      apply elem_of_app in Hin as [Hin|Hin].
      * apply Hxold, Hes_old; [done|]. by apply Hpre_in.
      * apply list_elem_of_filter in Hin as [_ Hin]. apply (Hdisj _ Hxpre). set_solver.
    + apply NoDup_cons. split.
      * rewrite elem_of_app, list_elem_of_filter. intros [Hin|[_ Hin]]; done.
      * apply NoDup_app. split_and!; [done| |by apply NoDup_filter].
        intros x Hx [Hxold Hxpost]%list_elem_of_filter.
        apply Hxold, Hes_old; [done|]. by apply Hpost_in.
  - rewrite N5. lia.
  - intros n. rewrite elem_of_app, elem_of_cons, elem_of_app, !list_elem_of_filter.
    intros [[_ Hin]|[->|[Hin|[_ Hin]]]].
    + left. rewrite Hdom. set_solver.
    + left. rewrite Hdom. set_solver.
    + destruct (Hes' n Hin) as [Hold'|Hnew']; [left; by apply Hoin|by right].
    + left. rewrite Hdom. set_solver.
Qed.


(** X25. The reconciliation of a rendered list with new items, when no
    two instances and no two items have the same key. It returns; the
    list then has one instance for each item, in the order of the
    items, with the item as its data and the context of the item; the
    instance of an item whose key an old instance has is that old
    instance, with its element; the instance of an item with a new key
    is a new instance, whose element is a new node; and the children of
    the parent of the anchor are the other children in their old order,
    with the elements of the instances in the order of the items right
    after the anchor: the elements of the old instances whose keys are
    gone are removed. *)
Theorem reconcile_keyed (cfg : loop_config) (l : list value)
    (rend : list (nat * instance)) (st : loop_state) (pre post : list nat) :
  renders st rend ->
  NoDup (instance_keys cfg rend) ->
  NoDup (rendered_elements rend) ->
  (forall e, e ∈ rendered_elements rend -> e ∈ dom st) ->
  anchor cfg ∉ rendered_elements rend ->
  dom st = pre ++ anchor cfg :: post ->
  NoDup (dom st) ->
  (forall t, t < length l -> next_node st + t ∉ dom st) ->
  NoDup (item_keys cfg l) ->
  exists st' rend',
    _reconcile cfg l st = Returns st'
    /\ renders st' rend'
    /\ (fun p => data p.2) <$> rend' = l
    /\ (fun p => icontext p.2) <$> rend' = item_contexts_from cfg l 0
    /\ (forall p p', p ∈ rend -> p' ∈ rend' ->
          key_of cfg (icontext p.2) = key_of cfg (icontext p'.2) ->
          p'.1 = p.1 /\ element p'.2 = element p.2)
    /\ (forall p', p' ∈ rend' -> key_of cfg (icontext p'.2) ∉ instance_keys cfg rend ->
          length (arena st) <= p'.1 /\ element p'.2 ∉ dom st)
    /\ NoDup (rendered_elements rend')
    /\ dom st' = filter (fun n => n ∉ rendered_elements rend) pre
                 ++ anchor cfg :: rendered_elements rend'
                 ++ filter (fun n => n ∉ rendered_elements rend) post.
Proof.
  intros Hr Hok Hoe Hoin Hoa Hdom Hnd Hfresh Hnk.
  destruct (reconcile_keyed_all cfg l rend st pre post Hr Hok Hoe Hoin Hoa Hdom Hnd
              Hfresh Hnk)
    as (st' & rend' & H1 & H2 & H3 & H4 & H5 & H6 & H7 & H8 & _).
  exists st', rend'. by split_and!.
Qed.

Lemma reconcile_keyed_witness :
  exists st' rend',
    _reconcile by_id sequence_234 rendered_123 = Returns st'
    /\ renders st' rend'
    /\ (fun p => data p.2) <$> rend' = sequence_234
    /\ (fun p => icontext p.2) <$> rend' = item_contexts_from by_id sequence_234 0
    /\ (forall p p', p ∈ instances_123 -> p' ∈ rend' ->
          key_of by_id (icontext p.2) = key_of by_id (icontext p'.2) ->
          p'.1 = p.1 /\ element p'.2 = element p.2)
    /\ (forall p', p' ∈ rend' ->
          key_of by_id (icontext p'.2) ∉ instance_keys by_id instances_123 ->
          length (arena rendered_123) <= p'.1 /\ element p'.2 ∉ dom rendered_123)
    /\ NoDup (rendered_elements rend')
    /\ dom st' = filter (fun n => n ∉ rendered_elements instances_123) [99]
                 ++ anchor by_id :: rendered_elements rend'
                 ++ filter (fun n => n ∉ rendered_elements instances_123) [0; 1; 2; 101].
Proof.
  apply (reconcile_keyed by_id sequence_234 instances_123 rendered_123 [99] [0; 1; 2; 101]).
  - split; [vm_compute; reflexivity|]. vm_compute. repeat constructor.
  - apply (bool_decide_unpack _). vm_compute. exact I.
  - apply (bool_decide_unpack _). vm_compute. exact I.
  - apply Forall_forall. apply (bool_decide_unpack _). vm_compute. exact I.
  - apply (bool_decide_unpack _). vm_compute. exact I.
  - vm_compute. reflexivity.
  - apply (bool_decide_unpack _). vm_compute. exact I.
  - intros t Ht.
    assert (next_node rendered_123 = 3) as -> by (vm_compute; reflexivity).
    assert (dom rendered_123 = [99; 100; 0; 1; 2; 101]) as -> by (vm_compute; reflexivity).
    cbn in Ht. set_solver by lia.
  - apply (bool_decide_unpack _). vm_compute. exact I.
Defined.

Lemma keys_of_contexts cfg l index :
  key_of cfg <$> item_contexts_from cfg l index = item_keys_from cfg l index.
Proof.
  revert index. induction l as [|d l IH]; intros index; [done|]. cbn. by rewrite IH.
Qed.

Lemma reconcile_well_rendered cfg l st :
  well_rendered cfg st -> NoDup (item_keys cfg l) ->
  exists st', _reconcile cfg l st = Returns st' /\ well_rendered cfg st' /\ shows cfg st' l.
Proof.
  intros (rend & pre & post & Hr & Hok & Hoe & Hoin & Hoa & Hdom & Hnd & Hfresh) Hnk.
  destruct (reconcile_keyed_all cfg l rend st pre post Hr Hok Hoe Hoin Hoa Hdom Hnd)
    as (st' & rend' & H1 & H2 & H3 & H4 & _ & _ & H7 & H8 & H9 & H10 & H11 & H12).
  { intros t _. apply Hfresh. lia. }
  { done. }
  exists st'. split; [done|]. split.
  - exists rend', (filter (fun n => n ∉ rendered_elements rend) pre),
      (rendered_elements rend' ++ filter (fun n => n ∉ rendered_elements rend) post).
    split_and!; try done.
    + unfold instance_keys. unfold item_keys in Hnk.
      rewrite <- keys_of_contexts, <- H4, <- list_fmap_compose in Hnk. exact Hnk.
    + intros e He. rewrite H8. set_solver.
    + intros n Hn Hin. destruct (H12 n Hin) as [Hold|Hnew]; [|lia].
      revert Hold. apply Hfresh. lia.
  - exists rend', (filter (fun n => n ∉ rendered_elements rend) pre),
      (filter (fun n => n ∉ rendered_elements rend) post).
    by split_and!.
Qed.

(** X26. A list that is rendered well stays so. Whatever arrays the
    list is reconciled with, one after the other, no reconciliation
    throws as long as no array has two items with the same key;
    afterwards the list is rendered well again, and it shows the items
    of the last array, in their order, right after the anchor. *)
Theorem well_rendered_kept (cfg : loop_config) (ls : list (list value))
    (st : loop_state) :
  well_rendered cfg st ->
  Forall (fun l => NoDup (item_keys cfg l)) ls ->
  exists st',
    reconcile_each cfg ls st = Returns st'
    /\ well_rendered cfg st'
    /\ forall l, last ls = Some l -> shows cfg st' l.
Proof.
  revert st. induction ls as [|l ls IH]; intros st Hwell Hall.
  - exists st. by split_and!.
  - apply Forall_cons in Hall as [Hl Hall].
    destruct (reconcile_well_rendered cfg l st Hwell Hl) as (st1 & Hr & Hwell1 & Hshows).
    destruct (IH st1 Hwell1 Hall) as (st' & Hr' & Hwell' & Hlast).
    exists st'. cbn [reconcile_each]. rewrite Hr. split_and!; [done..|].
    intros l'. destruct ls as [|l2 ls].
    + cbn in Hr' |- *. injection Hr' as <-. by intros [= <-].
    + intros Hl'. apply Hlast. exact Hl'.
Qed.

Lemma well_rendered_kept_witness :
  exists st',
    reconcile_each keyed_list [sequence_123; sequence_234; []; sequence_234] clean_loop
    = Returns st'
    /\ well_rendered keyed_list st'
    /\ forall l, last [sequence_123; sequence_234; []; sequence_234] = Some l ->
         shows keyed_list st' l.
Proof.
  apply (well_rendered_kept keyed_list [sequence_123; sequence_234; []; sequence_234]
           clean_loop).
  - exists [], [0], [2]. split_and!.
    + by split.
    + apply NoDup_nil_2.
    + apply NoDup_nil_2.
    + by intros e ?%elem_of_nil.
    + by intros ?%elem_of_nil.
    + reflexivity.
    + apply (bool_decide_unpack _). vm_compute. exact I.
    + intros n Hn. cbn in Hn |- *. set_solver by lia.
  - repeat apply Forall_cons_2; [..|apply Forall_nil_2];
      apply (bool_decide_unpack _); vm_compute; exact I.
Defined.
